(** * wave: chunk streaming, equi-levels, circle index, frontier and timing

    A shallow embedding of the engine core (the file holding [Timing],
    [Column], [Circle], [Chunk], [Frontier] and [World]) together with the
    properties the specification states about it.

    Conventions of the embedding.
    - A JavaScript [int] is a [Z]; the 32-bit coercions of the bit operators
      ([&], [|], [<<], [>>]) and the 16-bit coercion of an [Int16Array] store
      are written out ([int32], [int16]).
    - A typed array is a [list] of fixed length, read with [ta_get] and
      written with [ta_set] (a write outside the array is dropped, as in
      JavaScript).
    - Arrays that the source fills and reads two cells at a time
      ([Column.data], [Column.decorations], [Circle.points]) are lists of
      pairs: cell [2*i] is the first component of entry [i], cell [2*i+1]
      the second.
    - Objects shared by reference live in one store and are named by their
      slot: a chunk by its slot in the chunk circle, a multi-mesh by its key
      in [Frontier.meshes].
    - The renderer, the mesher and the world generator are collaborators:
      they enter as section variables. *)

From Stdlib Require Import ZArith QArith Qround Lia.
From stdpp Require Import base option list list_numbers sorting gmap strings.

Local Open Scope Z_scope.

(* ===================================================================== *)
(** * JavaScript integers and typed arrays *)
(* ===================================================================== *)

(** ToInt32: what every bit operator applies to its operands and result. *)
Definition int32 (z : Z) : Z := (z + 2 ^ 31) mod 2 ^ 32 - 2 ^ 31.

(** The coercion of a store into an [Int16Array]. *)
Definition int16 (z : Z) : Z := (z + 2 ^ 15) mod 2 ^ 16 - 2 ^ 15.

(** [a & b], [a | b], [a << n], [a >> n]; shift counts are taken modulo 32. *)
Definition js_and (a b : Z) : Z := Z.land (int32 a) (int32 b).
Definition js_or (a b : Z) : Z := Z.lor (int32 a) (int32 b).
Definition js_shl (a n : Z) : Z := int32 (Z.shiftl (int32 a) (n mod 32)).
Definition js_sar (a n : Z) : Z := Z.shiftr (int32 a) (n mod 32).
Definition js_not (a : Z) : Z := Z.lnot (int32 a).

Global Arguments int32 : simpl never.
Global Arguments int16 : simpl never.
Global Arguments js_and : simpl never.
Global Arguments js_or : simpl never.
Global Arguments js_shl : simpl never.
Global Arguments js_sar : simpl never.
Global Arguments js_not : simpl never.

(** [a[i]] on a typed array; [d] stands for the [undefined] of a read outside
    the array. *)
Definition ta_get {A} (d : A) (a : list A) (i : Z) : A :=
  if decide (0 ≤ i) then default d (a !! Z.to_nat i) else d.

(** [a[i] = v] on a typed array: dropped outside the array. *)
Definition ta_set {A} (a : list A) (i : Z) (v : A) : list A :=
  if decide (0 ≤ i) then <[Z.to_nat i := v]> a else a.

(** The relative index of [TypedArray.prototype.fill]. *)
Definition rel_index (len i : Z) : Z :=
  if decide (i < 0) then Z.max (len + i) 0 else Z.min i len.

(** [a.fill(v, s, e)]. *)
Definition ta_fill (a : list Z) (v s e : Z) : list Z :=
  let len := Z.of_nat (length a) in
  let from := rel_index len s in
  let to := rel_index len e in
  if decide (from < to)
  then take (Z.to_nat from) a ++ replicate (Z.to_nat (to - from)) v
         ++ drop (Z.to_nat to) a
  else a.

(* ===================================================================== *)
(** * Constants *)
(* ===================================================================== *)

Definition kEmptyBlock : Z := 0.
Definition kUnknownBlock : Z := 1.

Definition kChunkBits : Z := 4.
Definition kChunkWidth : Z := js_shl 1 kChunkBits.
Definition kChunkMask : Z := kChunkWidth - 1.
Definition kWorldHeight : Z := 256.

Definition kChunkRadius : Z := 12.

Definition kNumChunksToLoadPerFrame : Z := 1.
Definition kNumChunksToMeshPerFrame : Z := 1.
Definition kNumLODChunksToMeshPerFrame : Z := 1.

Definition kFrontierLOD : Z := 2.
Definition kFrontierRadius : Z := 8.
Definition kFrontierLevels : Z := 6.

Definition kMultiMeshBits : Z := 2.
Definition kMultiMeshSide : Z := js_shl 1 kMultiMeshBits.
Definition kMultiMeshArea : Z := kMultiMeshSide * kMultiMeshSide.
Definition kLODSingleMask : Z := js_shl 1 4 - 1.

(* ===================================================================== *)
(** * Tensors *)
(* ===================================================================== *)

(** Modelled from the spec: [Tensor3] and [Tensor2] are declared in base.js,
    which is not part of the sources at hand.  The specification fixes the
    voxel tensor as [voxels[W,H,W]], Y-major, and the source asserts
    [stride[1] === 1] wherever it relies on it; a column of a [Tensor3]
    is therefore contiguous, and [index] is linear in its arguments.  An
    element holds the block id or height written to it. *)
Record Tensor3 := mkTensor3 {
  t3_data : list Z;
  t3_shape : Z * Z * Z;
  t3_stride : Z * Z * Z;
}.

Definition Tensor3_new (x y z : Z) : Tensor3 :=
  {| t3_data := replicate (Z.to_nat (x * y * z)) 0;
     t3_shape := (x, y, z);
     t3_stride := (y, 1, x * y) |}.

Definition Tensor3_index (t : Tensor3) (x y z : Z) : Z :=
  let '(s0, s1, s2) := t3_stride t in x * s0 + y * s1 + z * s2.

Definition Tensor3_get (t : Tensor3) (x y z : Z) : Z :=
  ta_get 0 (t3_data t) (Tensor3_index t x y z).

Definition Tensor3_with_data (t : Tensor3) (d : list Z) : Tensor3 :=
  {| t3_data := d; t3_shape := t3_shape t; t3_stride := t3_stride t |}.

Definition Tensor3_set (t : Tensor3) (x y z v : Z) : Tensor3 :=
  Tensor3_with_data t (ta_set (t3_data t) (Tensor3_index t x y z) v).

(** Modelled from the spec: see [Tensor3]. *)
Record Tensor2 := mkTensor2 {
  t2_data : list Z;
  t2_shape : Z * Z;
  t2_stride : Z * Z;
}.

Definition Tensor2_new (x y : Z) : Tensor2 :=
  {| t2_data := replicate (Z.to_nat (x * y)) 0;
     t2_shape := (x, y);
     t2_stride := (1, x) |}.

Definition Tensor2_index (t : Tensor2) (x y : Z) : Z :=
  let '(s0, s1) := t2_stride t in x * s0 + y * s1.

Definition Tensor2_get (t : Tensor2) (x y : Z) : Z :=
  ta_get 0 (t2_data t) (Tensor2_index t x y).

Definition Tensor2_with_data (t : Tensor2) (d : list Z) : Tensor2 :=
  {| t2_data := d; t2_shape := t2_shape t; t2_stride := t2_stride t |}.

Definition Tensor2_set (t : Tensor2) (x y v : Z) : Tensor2 :=
  Tensor2_with_data t (ta_set (t2_data t) (Tensor2_index t x y) v).

(* ===================================================================== *)
(** * Registry *)
(* ===================================================================== *)

(** Of the registry the core reads the [solid] table; [solid[b]] outside
    the table is [undefined], which every use treats as false. *)
Record Registry := mkRegistry {
  reg_opaque : list bool;
  reg_solid : list bool;
}.

Definition Registry_new : Registry :=
  {| reg_opaque := [false; false]; reg_solid := [false; true] |}.

Definition Registry_isSolid (r : Registry) (b : Z) : bool :=
  ta_get false (reg_solid r) b.

(* ===================================================================== *)
(** * Column *)
(* ===================================================================== *)

Record Column := mkColumn {
  col_decorations : list (Z * Z);     (* int[]: block, level, block, ... *)
  col_data : list (Z * Z);            (* Int16Array(2 * kWorldHeight) *)
  col_last : Z;
  col_size : Z;
  col_mismatches : list Z;            (* Int16Array(kWorldHeight) *)
  col_reference_data : list (Z * Z);  (* Int16Array(2 * kWorldHeight) *)
  col_reference_size : Z;
}.

Definition Column_new : Column :=
  {| col_decorations := [];
     col_data := replicate (Z.to_nat kWorldHeight) (0, 0);
     col_last := 0;
     col_size := 0;
     col_mismatches := replicate (Z.to_nat kWorldHeight) 0;
     col_reference_data := replicate (Z.to_nat kWorldHeight) (0, 0);
     col_reference_size := 0 |}.

Definition Column_clear (c : Column) : Column :=
  {| col_decorations := [];
     col_data := col_data c;
     col_last := 0;
     col_size := 0;
     col_mismatches := col_mismatches c;
     col_reference_data := col_reference_data c;
     col_reference_size := col_reference_size c |}.

Definition Column_overwrite (block y : Z) (c : Column) : Column :=
  if decide (0 ≤ y ∧ y < kWorldHeight) then
    {| col_decorations := col_decorations c ++ [(block, y)];
       col_data := col_data c;
       col_last := col_last c;
       col_size := col_size c;
       col_mismatches := col_mismatches c;
       col_reference_data := col_reference_data c;
       col_reference_size := col_reference_size c |}
  else c.

Definition Column_push (block height : Z) (c : Column) : Column :=
  let height := Z.min height kWorldHeight in
  if decide (height ≤ col_last c) then c
  else
    {| col_decorations := col_decorations c;
       col_data := ta_set (col_data c) (col_size c) (int16 block, int16 height);
       col_last := height;
       col_size := col_size c + 1;
       col_mismatches := col_mismatches c;
       col_reference_data := col_reference_data c;
       col_reference_size := col_reference_size c |}.

Definition Column_getNthBlock (c : Column) (n bedrock : Z) : Z :=
  if decide (n < 0) then bedrock else fst (ta_get (0, 0) (col_data c) n).

Definition Column_getNthLevel (c : Column) (n : Z) : Z :=
  if decide (n < 0) then 0 else snd (ta_get (0, 0) (col_data c) n).

Definition Column_getSize (c : Column) : Z := col_size c.

(** [fillEquilevels]: the running sum of the mismatch counters. *)
Fixpoint fillEquilevels_from (current : Z) (mismatches : list Z) : list Z :=
  match mismatches with
  | [] => []
  | m :: rest =>
      let current := current + m in
      (if decide (current = 0) then 1 else 0) :: fillEquilevels_from current rest
  end.

Definition Column_fillEquilevels (c : Column) (equilevels : list Z) : list Z :=
  let filled := fillEquilevels_from 0 (take (Z.to_nat kWorldHeight) (col_mismatches c)) in
  filled ++ drop (length filled) equilevels.

(** The calls a loader makes on the column it is handed. *)
Inductive ColumnCall :=
| CallPush (block height : Z)
| CallOverwrite (block y : Z).

Definition Column_call (c : Column) (k : ColumnCall) : Column :=
  match k with
  | CallPush b h => Column_push b h c
  | CallOverwrite b y => Column_overwrite b y c
  end.

(** A loader: for the world column [(x, z)], the calls it makes. *)
Definition Loader := Z → Z → list ColumnCall.

Definition Loader_run (loader : Loader) (x z : Z) (c : Column) : Column :=
  foldl Column_call c (loader x z).

(** [assert(p)]: an exception when [p] fails.  Assertions on constants
    ([kFrontierLOD % 2 === 0], [stride[1] === 1] on a [Tensor3], ...) hold
    by definition and are not repeated. *)
Definition assert (P : Prop) `{Decision P} : option () :=
  if decide P then Some () else None.

(** [this.mismatches[i] += d] on the [Int16Array]. *)
Definition mismatch_add (m : list Z) (i d : Z) : list Z :=
  ta_set m i (int16 (ta_get 0 m i + d)).

Definition count_decoration (m : list Z) (dec : Z * Z) : list Z :=
  let level := snd dec in
  let m := mismatch_add m level 1 in
  if decide (level + 1 < kWorldHeight) then mismatch_add m (level + 1) (-1)
  else m.

(** The state of the lock-step walk over the runs of the column and of the
    reference column. *)
Record Walk := mkWalk {
  w_mismatches : list Z;
  w_matched : bool;
  w_di : Z;
  w_ri : Z;
  w_d_start : Z;
  w_r_start : Z;
}.

Definition walk_step (c : Column) (w : Walk) : Walk :=
  let '(d_block, d_limit) := ta_get (0, 0) (col_data c) (w_di w) in
  let '(r_block, r_limit) := ta_get (0, 0) (col_reference_data c) (w_ri w) in
  let flip := negb (eqb (w_matched w) (bool_decide (d_block = r_block))) in
  let m :=
    if flip
    then mismatch_add (w_mismatches w) (Z.max (w_d_start w) (w_r_start w))
           (if w_matched w then 1 else -1)
    else w_mismatches w in
  let matched := if flip then negb (w_matched w) else w_matched w in
  let d_adv := bool_decide (d_limit ≤ r_limit) in
  let r_adv := bool_decide (r_limit ≤ d_limit) in
  {| w_mismatches := m;
     w_matched := matched;
     w_di := if d_adv then w_di w + 1 else w_di w;
     w_ri := if r_adv then w_ri w + 1 else w_ri w;
     w_d_start := if d_adv then d_limit else w_d_start w;
     w_r_start := if r_adv then r_limit else w_r_start w |}.

(** [while (di < this.size && ri < this.reference_size) ...]: every turn
    advances [di] or [ri], so [size + reference_size] turns are enough. *)
Fixpoint walk_loop (fuel : nat) (c : Column) (w : Walk) : Walk :=
  match fuel with
  | O => w
  | S fuel =>
      if decide (w_di w < col_size c ∧ w_ri w < col_reference_size c)
      then walk_loop fuel c (walk_step c w)
      else w
  end.

Definition Column_seal (c : Column) : Column :=
  if decide (col_last c < kWorldHeight) then
    {| col_decorations := col_decorations c;
       col_data := ta_set (col_data c) (col_size c)
                     (int16 kEmptyBlock, int16 kWorldHeight);
       col_last := col_last c;
       col_size := col_size c + 1;
       col_mismatches := col_mismatches c;
       col_reference_data := col_reference_data c;
       col_reference_size := col_reference_size c |}
  else c.

Definition Column_detectEquiLevelChanges (first : bool) (c : Column)
  : option Column :=
  let c := Column_seal c in
  let m0 := if first then replicate (length (col_mismatches c)) 0
            else col_mismatches c in
  let m1 := foldl count_decoration m0 (col_decorations c) in
  if first then
    Some {| col_decorations := col_decorations c;
            col_data := col_data c;
            col_last := col_last c;
            col_size := col_size c;
            col_mismatches := m1;
            col_reference_data :=
              take (Z.to_nat (col_size c)) (col_data c)
                ++ drop (Z.to_nat (col_size c)) (col_reference_data c);
            col_reference_size := col_size c |}
  else
    let w := walk_loop (Z.to_nat (col_size c + col_reference_size c)) c
               {| w_mismatches := m1; w_matched := true;
                  w_di := 0; w_ri := 0; w_d_start := 0; w_r_start := 0 |} in
    assert (w_di w = col_size c);;
    assert (w_ri w = col_reference_size c);;
    assert (w_d_start w = kWorldHeight);;
    assert (w_r_start w = kWorldHeight);;
    Some {| col_decorations := col_decorations c;
            col_data := col_data c;
            col_last := col_last c;
            col_size := col_size c;
            col_mismatches := w_mismatches w;
            col_reference_data := col_reference_data c;
            col_reference_size := col_reference_size c |}.

(* ===================================================================== *)
(** * Chunk: the record and the operations on the chunk alone *)
(* ===================================================================== *)

(** A handle on a mesh owned by the renderer. *)
Definition VoxelMesh : Type := Z.

(** [instances], the sprite bookkeeping handed to the renderer, is not part
    of the embedding. *)
Record Chunk := mkChunk {
  chunk_cx : Z;
  chunk_cz : Z;
  chunk_dirty : bool;
  chunk_ready : bool;
  chunk_neighbors : Z;
  chunk_solid : option VoxelMesh;
  chunk_water : option VoxelMesh;
  chunk_voxels : Tensor3;
  chunk_heightmap : Tensor2;
  chunk_light_map : Tensor2;
  chunk_equilevels : list Z;          (* Int8Array(kWorldHeight) *)
}.

Definition Chunk_with_dirty (d : bool) (c : Chunk) : Chunk :=
  mkChunk (chunk_cx c) (chunk_cz c) d (chunk_ready c) (chunk_neighbors c)
    (chunk_solid c) (chunk_water c) (chunk_voxels c) (chunk_heightmap c)
    (chunk_light_map c) (chunk_equilevels c).

Definition Chunk_with_neighbors (n : Z) (r : bool) (c : Chunk) : Chunk :=
  mkChunk (chunk_cx c) (chunk_cz c) (chunk_dirty c) r n
    (chunk_solid c) (chunk_water c) (chunk_voxels c) (chunk_heightmap c)
    (chunk_light_map c) (chunk_equilevels c).

Definition Chunk_with_meshes (s w : option VoxelMesh) (c : Chunk) : Chunk :=
  mkChunk (chunk_cx c) (chunk_cz c) (chunk_dirty c) (chunk_ready c)
    (chunk_neighbors c) s w (chunk_voxels c) (chunk_heightmap c)
    (chunk_light_map c) (chunk_equilevels c).

Definition Chunk_with_voxels (v : list Z) (c : Chunk) : Chunk :=
  mkChunk (chunk_cx c) (chunk_cz c) (chunk_dirty c) (chunk_ready c)
    (chunk_neighbors c) (chunk_solid c) (chunk_water c)
    (Tensor3_with_data (chunk_voxels c) v) (chunk_heightmap c)
    (chunk_light_map c) (chunk_equilevels c).

Definition Chunk_with_heights (h l : list Z) (c : Chunk) : Chunk :=
  mkChunk (chunk_cx c) (chunk_cz c) (chunk_dirty c) (chunk_ready c)
    (chunk_neighbors c) (chunk_solid c) (chunk_water c) (chunk_voxels c)
    (Tensor2_with_data (chunk_heightmap c) h)
    (Tensor2_with_data (chunk_light_map c) l) (chunk_equilevels c).

Definition Chunk_with_equilevels (e : list Z) (c : Chunk) : Chunk :=
  mkChunk (chunk_cx c) (chunk_cz c) (chunk_dirty c) (chunk_ready c)
    (chunk_neighbors c) (chunk_solid c) (chunk_water c) (chunk_voxels c)
    (chunk_heightmap c) (chunk_light_map c) e.

(** The chunk as its constructor leaves it before [load]. *)
Definition Chunk_init (cx cz : Z) : Chunk :=
  {| chunk_cx := cx; chunk_cz := cz;
     chunk_dirty := false; chunk_ready := false; chunk_neighbors := 0;
     chunk_solid := None; chunk_water := None;
     chunk_voxels := Tensor3_new kChunkWidth kWorldHeight kChunkWidth;
     chunk_heightmap := Tensor2_new kChunkWidth kChunkWidth;
     chunk_light_map := Tensor2_new kChunkWidth kChunkWidth;
     chunk_equilevels := replicate (Z.to_nat kWorldHeight) 0 |}.

Definition Chunk_getBlock (c : Chunk) (x y z : Z) : Z :=
  let xm := js_and x kChunkMask in
  let zm := js_and z kChunkMask in
  Tensor3_get (chunk_voxels c) xm y zm.

Definition Chunk_getLitHeight (c : Chunk) (x z : Z) : Z :=
  let xm := js_and x kChunkMask in
  let zm := js_and z kChunkMask in
  Tensor2_get (chunk_light_map c) xm zm.

Definition Chunk_hasMesh (c : Chunk) : bool :=
  bool_decide (is_Some (chunk_solid c) ∨ is_Some (chunk_water c)).

Definition Chunk_needsRemesh (c : Chunk) : bool :=
  chunk_dirty c && chunk_ready c.

Definition Chunk_checkReady (neighbors : Z) : bool :=
  bool_decide (neighbors = 4).

(** [for (; i < start; i++) if (stop(voxels.data[index - i - 1])) break;]
    counted from [i], with [n] turns left. *)
Fixpoint scan_down (stop : Z → bool) (data : list Z) (index : Z)
    (n : nat) (i : Z) : Z :=
  match n with
  | O => i
  | S n =>
      if stop (ta_get 0 data (index - i - 1)) then i
      else scan_down stop data index n (i + 1)
  end.

Definition Chunk_updateHeightmap (r : Registry) (c : Chunk)
    (xm zm index start count block : Z) : Chunk :=
  let end_ := start + count in
  let offset := Tensor2_index (chunk_heightmap c) xm zm in
  let height := ta_get 0 (t2_data (chunk_heightmap c)) offset in
  let light_ := ta_get 0 (t2_data (chunk_light_map c)) offset in
  let data := t3_data (chunk_voxels c) in
  let hm :=
    if decide (block = kEmptyBlock ∧ start < height ∧ height ≤ end_) then
      let i := scan_down (λ b, bool_decide (b ≠ kEmptyBlock)) data index
                 (Z.to_nat start) 0 in
      ta_set (t2_data (chunk_heightmap c)) offset (start - i)
    else if decide (block ≠ kEmptyBlock ∧ height ≤ end_) then
      ta_set (t2_data (chunk_heightmap c)) offset end_
    else t2_data (chunk_heightmap c) in
  let lm :=
    if decide (Registry_isSolid r block = false ∧ start < light_ ∧ light_ ≤ end_) then
      let i := scan_down (Registry_isSolid r) data index (Z.to_nat start) 0 in
      ta_set (t2_data (chunk_light_map c)) offset (start - i)
    else if decide (Registry_isSolid r block = true ∧ light_ ≤ end_) then
      ta_set (t2_data (chunk_light_map c)) offset end_
    else t2_data (chunk_light_map c) in
  Chunk_with_heights hm lm c.

Definition Chunk_setColumn (r : Registry) (c : Chunk)
    (x z start count block : Z) : Chunk :=
  let xm := js_and x kChunkMask in
  let zm := js_and z kChunkMask in
  let index := Tensor3_index (chunk_voxels c) xm start zm in
  let c := Chunk_with_voxels
             (ta_fill (t3_data (chunk_voxels c)) block index (index + count)) c in
  Chunk_updateHeightmap r c xm zm index start count block.

(** The part of [Chunk.setBlock] that acts on the chunk itself; the marking
    of the neighbours is [Chunk_setBlock] below. *)
Definition Chunk_setBlock_self (r : Registry) (c : Chunk)
    (x y z block : Z) : Chunk :=
  let xm := js_and x kChunkMask in
  let zm := js_and z kChunkMask in
  let old := Tensor3_get (chunk_voxels c) xm y zm in
  if decide (old = block) then c
  else
    let index := Tensor3_index (chunk_voxels c) xm y zm in
    let c := Chunk_with_voxels (ta_set (t3_data (chunk_voxels c)) index block) c in
    let c := Chunk_with_dirty true c in
    let c := Chunk_updateHeightmap r c xm zm index y 1 block in
    Chunk_with_equilevels (ta_set (chunk_equilevels c) y 0) c.

(** [Column.fillChunk]. *)
Definition fill_run (r : Registry) (x z : Z) (st : Chunk * Z) (run : Z * Z)
  : Chunk * Z :=
  let '(chunk, last) := st in
  let '(block, level) := run in
  (Chunk_setColumn r chunk x z last (level - last) block, level).

Definition fill_decoration (r : Registry) (x z : Z) (chunk : Chunk)
    (dec : Z * Z) : Chunk :=
  let '(block, level) := dec in
  Chunk_setColumn r chunk x z level 1 block.

Definition Column_fillChunk (r : Registry) (col : Column) (x z : Z)
    (chunk : Chunk) (first : bool) : option (Chunk * Column) :=
  let runs := (λ i, ta_get (0, 0) (col_data col) i) <$> seqZ 0 (col_size col) in
  let '(chunk, _) := foldl (fill_run r x z) (chunk, 0) runs in
  let chunk := foldl (fill_decoration r x z) chunk (col_decorations col) in
  col ← Column_detectEquiLevelChanges first col;
  Some (chunk, col).

(** The column loop of [Chunk.load], up to [column.fillEquilevels]. *)
Definition load_column (r : Registry) (loader : Loader) (dx dz x : Z)
    (st : option (Chunk * Column)) (z : Z) : option (Chunk * Column) :=
  '(chunk, col) ← st;
  let first := bool_decide (x + z = 0) in
  let ax := x + dx in
  let az := z + dz in
  let col := Loader_run loader ax az col in
  '(chunk, col) ← Column_fillChunk r col ax az chunk first;
  Some (chunk, Column_clear col).

Definition Chunk_loadColumns (r : Registry) (loader : Loader)
    (chunk : Chunk) (col : Column) : option (Chunk * Column) :=
  let dx := js_shl (chunk_cx chunk) kChunkBits in
  let dz := js_shl (chunk_cz chunk) kChunkBits in
  '(chunk, col) ←
    foldl (λ st x, foldl (load_column r loader dx dz x) st (seqZ 0 kChunkWidth))
      (Some (chunk, col)) (seqZ 0 kChunkWidth);
  Some (Chunk_with_equilevels
          (Column_fillEquilevels col (chunk_equilevels chunk)) chunk, col).

(* ===================================================================== *)
(** * Circle *)
(* ===================================================================== *)

(** [interface CircleElement]: the coordinates of an element.  [dispose]
    acts on the state around the circle and is handed to [Circle_center]
    by the owner of the circle. *)
Class CircleElement (T : Type) := {
  elt_cx : T → Z;
  elt_cz : T → Z;
}.

Record Circle (T : Type) := mkCircle {
  circ_center_x : Z;
  circ_center_z : Z;
  circ_deltas : list Z;               (* Int32Array(floor + 1) *)
  circ_points : list (Z * Z);         (* Int32Array(2 * points.length) *)
  circ_elements : list (option T);
  circ_shift : Z;
  circ_mask : Z;
}.
Arguments mkCircle {T}.
Arguments circ_center_x {T}.
Arguments circ_center_z {T}.
Arguments circ_deltas {T}.
Arguments circ_points {T}.
Arguments circ_elements {T}.
Arguments circ_shift {T}.
Arguments circ_mask {T}.

Definition Circle_with_elements {T} (e : list (option T)) (c : Circle T)
  : Circle T :=
  mkCircle (circ_center_x c) (circ_center_z c) (circ_deltas c)
    (circ_points c) e (circ_shift c) (circ_mask c).

Definition Circle_with_center {T} (x z : Z) (c : Circle T) : Circle T :=
  mkCircle x z (circ_deltas c) (circ_points c) (circ_elements c)
    (circ_shift c) (circ_mask c).

(** The points of the constructor: [(i, j, distance)] for [i], [j] in
    [-floor .. floor], inside the disk. *)
Definition disk_candidates (bound : Q) (floor : Z) : list (Z * Z * Z) :=
  i ← seqZ (- floor) (2 * floor + 1);
  j ← seqZ (- floor) (2 * floor + 1);
  let distance := i * i + j * j in
  if Qlt_le_dec bound (inject_Z distance) then [] else [(i, j, distance)].

(** [points.sort((a, b) => a.distance - b.distance)]: a stable sort, written
    as insertion behind the entries that are not farther. *)
Fixpoint insert_by_distance (p : Z * Z * Z) (l : list (Z * Z * Z))
  : list (Z * Z * Z) :=
  match l with
  | [] => [p]
  | q :: rest =>
      if decide (snd p < snd q) then p :: q :: rest
      else q :: insert_by_distance p rest
  end.

Definition sort_by_distance (l : list (Z * Z * Z)) : list (Z * Z * Z) :=
  foldl (λ acc p, insert_by_distance p acc) [] l.

Definition record_delta (deltas : list Z) (p : Z * Z * Z) : list Z :=
  let '(i, j, _) := p in
  let ai := Z.abs i in
  let aj := Z.abs j in
  ta_set deltas ai (int32 (Z.max (ta_get 0 deltas ai) aj)).

(** [while ((1 << shift) < 2 * floor + 1) shift++], with [fuel] turns. *)
Fixpoint shift_loop (fuel : nat) (floor shift : Z) : option Z :=
  if decide (js_shl 1 shift < 2 * floor + 1) then
    match fuel with
    | O => None
    | S fuel => shift_loop fuel floor (shift + 1)
    end
  else Some shift.

(** [1 << shift] returns to 1 after 32 turns: a loop that has not stopped
    by then never stops. *)
Definition Circle_shift_of (floor : Z) : option Z := shift_loop 32 floor 0.

(** The points of the constructor, sorted, and as stored in [this.points]
    (an [Int32Array]). *)
Definition Circle_sorted_points (radius : Q) : list (Z * Z * Z) :=
  sort_by_distance (disk_candidates (radius * radius)%Q (Qfloor radius)).

Definition Circle_stored_points (radius : Q) : list (Z * Z) :=
  (λ p, (int32 (fst (fst p)), int32 (snd (fst p)))) <$> Circle_sorted_points radius.

Definition Circle_new {T} (radius : Q) : option (Circle T) :=
  let floor := Qfloor radius in
  let points := Circle_sorted_points radius in
  let deltas := foldl record_delta (replicate (Z.to_nat (floor + 1)) 0) points in
  shift ← Circle_shift_of floor;
  Some {| circ_center_x := 0; circ_center_z := 0;
          circ_deltas := deltas;
          circ_points := Circle_stored_points radius;
          circ_elements := replicate (Z.to_nat (js_shl 1 (2 * shift))) None;
          circ_shift := shift;
          circ_mask := js_shl 1 shift - 1 |}.

Definition Circle_index {T} (c : Circle T) (cx cz : Z) : Z :=
  js_or (js_shl (js_and cz (circ_mask c)) (circ_shift c))
        (js_and cx (circ_mask c)).

(** [this.elements[i]]: [None] for [null] and for the [undefined] of a
    read outside the array. *)
Definition Circle_slot {T} (c : Circle T) (i : Z) : option T :=
  ta_get None (circ_elements c) i.

Definition Circle_get {T} `{CircleElement T} (c : Circle T) (cx cz : Z)
  : option T :=
  match Circle_slot c (Circle_index c cx cz) with
  | Some value =>
      if decide (elt_cx value = cx ∧ elt_cz value = cz) then Some value
      else None
  | None => None
  end.

(** [assert(this.elements[index] === null)] fails on an occupied slot and
    on an index outside the array, where the read is [undefined]. *)
Definition Circle_set {T} (c : Circle T) (cx cz : Z) (value : T)
  : option (Circle T) :=
  let index := Circle_index c cx cz in
  if decide (0 ≤ index) then
    match circ_elements c !! Z.to_nat index with
    | Some None =>
        Some (Circle_with_elements
                (ta_set (circ_elements c) index (Some value)) c)
    | _ => None
    end
  else None.

(** [each]: [fn] returns the new state and [done]; [None] is an exception
    escaping [fn]. *)
Fixpoint each_loop {S} (fn : Z → Z → S → option (S * bool))
    (center_x center_z : Z) (points : list (Z * Z)) (s : S) : option S :=
  match points with
  | [] => Some s
  | (i, j) :: rest =>
      '(s, done) ← fn (i + center_x) (j + center_z) s;
      if done : bool then Some s else each_loop fn center_x center_z rest s
  end.

Definition Circle_each {T S} (c : Circle T)
    (fn : Z → Z → S → option (S * bool)) (s : S) : option S :=
  each_loop fn (circ_center_x c) (circ_center_z c) (circ_points c) s.

(** [az <= this.deltas[ax]]: false when [deltas[ax]] is [undefined]. *)
Definition within_deltas (deltas : list Z) (ax az : Z) : bool :=
  match (if decide (0 ≤ ax) then deltas !! Z.to_nat ax else None) with
  | Some d => bool_decide (az ≤ d)
  | None => false
  end.

(** [center], for a circle held in a state [S] (read by [get], written by
    [put]) on which [dispose] acts. *)
Definition Circle_center {T S} (get : S → Circle T) (put : Circle T → S → S)
    (dispose : T → S → option S) (center_x center_z : Z) (s : S) : option S :=
  let c := get s in
  if decide (center_x = circ_center_x c ∧ center_z = circ_center_z c)
  then Some s
  else
    s ← Circle_each c (λ cx cz s,
           let c := get s in
           let ax := Z.abs (cx - center_x) in
           let az := Z.abs (cz - center_z) in
           if within_deltas (circ_deltas c) ax az then Some (s, false)
           else
             let index := Circle_index c cx cz in
             if decide (0 ≤ index) then
               match circ_elements c !! Z.to_nat index with
               | None => None
               | Some None => Some (s, false)
               | Some (Some value) =>
                   s ← dispose value s;
                   let c := get s in
                   Some (put (Circle_with_elements
                                (ta_set (circ_elements c) index None) c) s,
                         false)
               end
             else None) s;
    Some (put (Circle_with_center center_x center_z (get s)) s).

Global Instance Circle_inhabited {T} : Inhabited (Circle T) :=
  populate (mkCircle 0 0 [] [] [] 0 0).

Global Instance Chunk_element : CircleElement Chunk :=
  {| elt_cx := chunk_cx; elt_cz := chunk_cz |}.

(** [chunk.f()] on the element of the circle at [(cx, cz)], if any: the
    element is replaced in its slot. *)
Definition Circle_update {T} `{CircleElement T} (c : Circle T) (cx cz : Z)
    (f : T → T) : Circle T :=
  match Circle_get c cx cz with
  | Some value =>
      Circle_with_elements
        (ta_set (circ_elements c) (Circle_index c cx cz) (Some (f value))) c
  | None => c
  end.

(* ===================================================================== *)
(** * LODMultiMesh and FrontierChunk *)
(* ===================================================================== *)

Record LODMultiMesh := mkLODMultiMesh {
  lod_solid : option VoxelMesh;
  lod_water : option VoxelMesh;
  lod_meshed : list bool;
  lod_mask : list Z;                  (* Int32Array(2) *)
  lod_enabled : list bool;
}.

Definition LODMultiMesh_new : LODMultiMesh :=
  {| lod_solid := None; lod_water := None;
     lod_meshed := replicate (Z.to_nat kMultiMeshArea) false;
     lod_mask := [-1; -1];
     lod_enabled := replicate (Z.to_nat kMultiMeshArea) false |}.

(** [setMask]; the call of [show] on the two meshes goes to the renderer. *)
Definition LODMultiMesh_setMask (m : LODMultiMesh) (index mask : Z)
  : LODMultiMesh :=
  let mask_index := js_sar index 3 in
  let mask_shift := js_and index 7 * 4 in
  let cleared :=
    ta_set (lod_mask m) mask_index
      (int32 (js_and (ta_get 0 (lod_mask m) mask_index)
                (js_not (js_shl kLODSingleMask mask_shift)))) in
  let set :=
    ta_set cleared mask_index
      (int32 (js_or (ta_get 0 cleared mask_index) (js_shl mask mask_shift))) in
  mkLODMultiMesh (lod_solid m) (lod_water m) (lod_meshed m) set (lod_enabled m).

Definition LODMultiMesh_disable (m : LODMultiMesh) (index : Z) : LODMultiMesh :=
  if ta_get false (lod_enabled m) index then
    let m := LODMultiMesh_setMask m index kLODSingleMask in
    let enabled := ta_set (lod_enabled m) index false in
    if existsb (λ x, x) enabled then
      mkLODMultiMesh (lod_solid m) (lod_water m) (lod_meshed m) (lod_mask m)
        enabled
    else
      {| lod_solid := None; lod_water := None;
         lod_meshed := replicate (length (lod_meshed m)) false;
         lod_mask := ta_set (ta_set (lod_mask m) 1 (-1)) 0 (-1);
         lod_enabled := enabled |}
  else m.

Definition LODMultiMesh_index (cx cz : Z) : Z :=
  let mask := kMultiMeshSide - 1 in
  js_or (js_shl (js_and cz mask) kMultiMeshBits) (js_and cx mask).

Definition LODMultiMesh_show (m : LODMultiMesh) (index mask : Z)
  : option LODMultiMesh :=
  assert (ta_get false (lod_meshed m) index = true);;
  let m := LODMultiMesh_setMask m index mask in
  Some (mkLODMultiMesh (lod_solid m) (lod_water m) (lod_meshed m) (lod_mask m)
          (ta_set (lod_enabled m) index true)).

(** [mesh] is the key of the multi-mesh in [Frontier.meshes]. *)
Record FrontierChunk := mkFrontierChunk {
  fc_cx : Z;
  fc_cz : Z;
  fc_index : Z;
  fc_level : Z;
  fc_mesh : Z;
}.

Global Instance FrontierChunk_element : CircleElement FrontierChunk :=
  {| elt_cx := fc_cx; elt_cz := fc_cz |}.

(* ===================================================================== *)
(** * Frontier and World: the records *)
(* ===================================================================== *)

(** [solid_heightmap] and [water_heightmap], scratch strips that only the
    mesher reads, are not part of the embedding. *)
Record Frontier := mkFrontier {
  fr_dirty : list bool;
  fr_levels : list (Circle FrontierChunk);
  fr_meshes : gmap Z LODMultiMesh;
  fr_side : Z;
}.

Definition Frontier_with_dirty (d : list bool) (f : Frontier) : Frontier :=
  mkFrontier d (fr_levels f) (fr_meshes f) (fr_side f).

Definition Frontier_with_level (l : nat) (c : Circle FrontierChunk)
    (f : Frontier) : Frontier :=
  mkFrontier (fr_dirty f) (<[l := c]> (fr_levels f)) (fr_meshes f) (fr_side f).

Definition Frontier_with_meshes (m : gmap Z LODMultiMesh) (f : Frontier)
  : Frontier :=
  mkFrontier (fr_dirty f) (fr_levels f) m (fr_side f).

(** The padded scratch volume ([buffer], [heightmap], [light_map],
    [equilevels]) is written and read inside one [remeshTerrain] and handed
    to the mesher; it is folded into the mesher of [Section Engine]. *)
Record World := mkWorld {
  world_chunks : Circle Chunk;
  world_column : Column;
  world_registry : Registry;
  world_frontier : Frontier;
  world_bedrock : Z;
  world_loadChunk : option Loader;
  world_loadFrontier : option Loader;
}.

Definition World_with_chunks (c : Circle Chunk) (w : World) : World :=
  mkWorld c (world_column w) (world_registry w) (world_frontier w)
    (world_bedrock w) (world_loadChunk w) (world_loadFrontier w).

Definition World_with_column (c : Column) (w : World) : World :=
  mkWorld (world_chunks w) c (world_registry w) (world_frontier w)
    (world_bedrock w) (world_loadChunk w) (world_loadFrontier w).

Definition World_with_frontier (f : Frontier) (w : World) : World :=
  mkWorld (world_chunks w) (world_column w) (world_registry w) f
    (world_bedrock w) (world_loadChunk w) (world_loadFrontier w).

(* ===================================================================== *)
(** * Frontier: construction, centring, dirty flags *)
(* ===================================================================== *)

Definition Frontier_markDirty (level : Z) (f : Frontier) : Frontier :=
  if decide (level < Z.of_nat (length (fr_dirty f)))
  then Frontier_with_dirty (ta_set (fr_dirty f) level true) f
  else f.

Definition FrontierChunk_hasMesh (f : Frontier) (fc : FrontierChunk) : bool :=
  match fr_meshes f !! fc_mesh fc with
  | Some m => ta_get false (lod_meshed m) (fc_index fc)
  | None => false
  end.

Definition FrontierChunk_dispose (fc : FrontierChunk) (f : Frontier)
  : option Frontier :=
  let f := if FrontierChunk_hasMesh f fc
           then Frontier_markDirty (fc_level fc + 1) f else f in
  m ← fr_meshes f !! fc_mesh fc;
  Some (Frontier_with_meshes
          (<[fc_mesh fc := LODMultiMesh_disable m (fc_index fc)]> (fr_meshes f)) f).

(** [radius = (radius + kFrontierRadius) / 2] for each level in turn. *)
Fixpoint Frontier_levels (n : nat) (radius : Q)
  : option (list (Circle FrontierChunk)) :=
  match n with
  | O => Some []
  | S n =>
      let radius := ((radius + inject_Z kFrontierRadius) / 2)%Q in
      c ← Circle_new radius;
      rest ← Frontier_levels n radius;
      Some (c :: rest)
  end.

(** [(kChunkRadius | 0) + 0.5]. *)
Definition chunk_radius : Q := (inject_Z (js_or kChunkRadius 0) + (1 # 2))%Q.

Definition Frontier_new : option Frontier :=
  levels ← Frontier_levels (Z.to_nat kFrontierLevels) chunk_radius;
  Some {| fr_dirty := replicate (Z.to_nat kFrontierLevels) true;
          fr_levels := levels;
          fr_meshes := ∅;
          fr_side := kChunkWidth / kFrontierLOD |}.

Fixpoint Frontier_center_from (l : nat) (n : nat) (cx cz : Z) (f : Frontier)
  : option Frontier :=
  match n with
  | O => Some f
  | S n =>
      let cx := js_sar cx 1 in
      let cz := js_sar cz 1 in
      f ← Circle_center (λ f, fr_levels f !!! l) (Frontier_with_level l)
             FrontierChunk_dispose cx cz f;
      Frontier_center_from (S l) n cx cz f
  end.

Definition Frontier_center (cx cz : Z) (f : Frontier) : option Frontier :=
  Frontier_center_from 0 (length (fr_levels f)) cx cz f.

(* ===================================================================== *)
(** * The engine: chunks in the world, frontier, world *)
(* ===================================================================== *)

Section Engine.

(** The mesher.  [meshChunk] is given the chunk and what [remeshTerrain]
    copies into the scratch volume: the neighbours at -X, +X, -Z, +Z, absent
    ones as [None].  [meshFrontier] is given [mask], [px], [pz], [nx], [nz],
    [lod], the mesh to replace and [is_solid]. *)
Variable meshChunk :
  Chunk → list (option Chunk) → option VoxelMesh * option VoxelMesh.
Variable meshFrontier :
  Z → Z → Z → Z → Z → Z → option VoxelMesh → bool → option VoxelMesh.

(** ** Chunk operations that reach into the world

    [this] is the chunk of the circle at [(cx, cz)]. *)

Definition World_update_chunk (cx cz : Z) (f : Chunk → Chunk) (w : World)
  : World :=
  World_with_chunks (Circle_update (world_chunks w) cx cz f) w.

Definition Chunk_setBlock (w : World) (cx cz : Z) (x y z block : Z) : World :=
  match Circle_get (world_chunks w) cx cz with
  | None => w
  | Some this =>
      let xm := js_and x kChunkMask in
      let zm := js_and z kChunkMask in
      let old := Tensor3_get (chunk_voxels this) xm y zm in
      if decide (old = block) then w
      else
        let w := World_update_chunk cx cz
                   (λ c, Chunk_setBlock_self (world_registry w) c x y z block) w in
        let neighbor (x y z : Z) (w : World) : World :=
          World_update_chunk (x + cx) (z + cz) (Chunk_with_dirty true) w in
        let w := if decide (xm = 0) then neighbor (-1) 0 0 w else w in
        let w := if decide (xm = kChunkMask) then neighbor 1 0 0 w else w in
        let w := if decide (zm = 0) then neighbor 0 0 (-1) w else w in
        let w := if decide (zm = kChunkMask) then neighbor 0 0 1 w else w in
        w
  end.

Definition Chunk_dropMeshes (cx cz : Z) (w : World) : World :=
  match Circle_get (world_chunks w) cx cz with
  | None => w
  | Some this =>
      let w := if Chunk_hasMesh this
               then World_with_frontier
                      (Frontier_markDirty 0 (world_frontier w)) w
               else w in
      World_update_chunk cx cz
        (λ c, Chunk_with_dirty true (Chunk_with_meshes None None c)) w
  end.

Definition Chunk_notifyNeighborDisposed (cx cz : Z) (w : World)
  : option World :=
  match Circle_get (world_chunks w) cx cz with
  | None => Some w
  | Some this =>
      assert (chunk_neighbors this > 0);;
      let n := chunk_neighbors this - 1 in
      let old := chunk_ready this in
      let ready := Chunk_checkReady n in
      let w := World_update_chunk cx cz (Chunk_with_neighbors n ready) w in
      Some (if old && negb ready then Chunk_dropMeshes cx cz w else w)
  end.

Definition Chunk_notifyNeighborLoaded (cx cz : Z) (w : World) : option World :=
  match Circle_get (world_chunks w) cx cz with
  | None => Some w
  | Some this =>
      assert (chunk_neighbors this < 4);;
      let n := chunk_neighbors this + 1 in
      Some (World_update_chunk cx cz
              (Chunk_with_neighbors n (Chunk_checkReady n)) w)
  end.

Definition Chunk_dispose (this : Chunk) (w : World) : option World :=
  let cx := chunk_cx this in
  let cz := chunk_cz this in
  let w := Chunk_dropMeshes cx cz w in
  w ← Chunk_notifyNeighborDisposed (1 + cx) (0 + cz) w;
  w ← Chunk_notifyNeighborDisposed (-1 + cx) (0 + cz) w;
  w ← Chunk_notifyNeighborDisposed (0 + cx) (1 + cz) w;
  Chunk_notifyNeighborDisposed (0 + cx) (-1 + cz) w.

(** [new Chunk(cx, cz, world, loader)]: the chunk is not in the circle yet;
    [load] fills it through the world's column and greets the neighbours. *)
Definition Chunk_greet (cx cz : Z) (st : option (Chunk * World)) (d : Z * Z)
  : option (Chunk * World) :=
  '(this, w) ← st;
  let '(x, z) := d in
  match Circle_get (world_chunks w) (x + cx) (z + cz) with
  | None => Some (this, w)
  | Some _ =>
      w ← Chunk_notifyNeighborLoaded (x + cx) (z + cz) w;
      Some (Chunk_with_neighbors (chunk_neighbors this + 1) (chunk_ready this)
              this, w)
  end.

Definition Chunk_new (cx cz : Z) (w : World) (loader : Loader)
  : option (Chunk * World) :=
  '(this, col) ← Chunk_loadColumns (world_registry w) loader
                   (Chunk_init cx cz) (world_column w);
  let w := World_with_column col w in
  '(this, w) ← foldl (Chunk_greet cx cz) (Some (this, w))
                 [(1, 0); (-1, 0); (0, 1); (0, -1)];
  let this := Chunk_with_dirty true this in
  Some (Chunk_with_neighbors (chunk_neighbors this)
          (Chunk_checkReady (chunk_neighbors this)) this, w).

(** [remeshChunk]: the sprite pass belongs to the renderer; the terrain pass
    gathers the neighbours and calls the mesher. *)
Definition Chunk_remeshChunk (cx cz : Z) (w : World) : option World :=
  this ← Circle_get (world_chunks w) cx cz;
  assert (chunk_dirty this = true);;
  let around :=
    (λ c : Z * Z, Circle_get (world_chunks w) (cx + fst c) (cz + snd c))
      <$> [(-1, 0); (1, 0); (0, -1); (0, 1)] in
  let '(solid, water) := meshChunk this around in
  Some (World_update_chunk cx cz
          (λ c, Chunk_with_dirty false (Chunk_with_meshes solid water c)) w).

(** ** World *)

Definition World_new (registry : Registry) : option World :=
  chunks ← Circle_new chunk_radius;
  frontier ← Frontier_new;
  Some {| world_chunks := chunks;
          world_column := Column_new;
          world_registry := registry;
          world_frontier := frontier;
          world_bedrock := kEmptyBlock;
          world_loadChunk := None;
          world_loadFrontier := None |}.

Definition World_isBlockLit (w : World) (x y z : Z) : bool :=
  let cx := js_sar x kChunkBits in
  let cz := js_sar z kChunkBits in
  match Circle_get (world_chunks w) cx cz with
  | Some chunk => bool_decide (Chunk_getLitHeight chunk x z ≤ y)
  | None => true
  end.

Definition World_getBlock (w : World) (x y z : Z) : Z :=
  if decide (y < 0) then world_bedrock w
  else if decide (kWorldHeight ≤ y) then kEmptyBlock
  else
    let cx := js_sar x kChunkBits in
    let cz := js_sar z kChunkBits in
    match Circle_get (world_chunks w) cx cz with
    | Some chunk => Chunk_getBlock chunk x y z
    | None => kUnknownBlock
    end.

Definition World_setBlock (w : World) (x y z block : Z) : World :=
  if decide (0 ≤ y ∧ y < kWorldHeight) then
    let cx := js_sar x kChunkBits in
    let cz := js_sar z kChunkBits in
    match Circle_get (world_chunks w) cx cz with
    | Some chunk => Chunk_setBlock w (chunk_cx chunk) (chunk_cz chunk) x y z block
    | None => w
    end
  else w.

(** [loadFrontier || loadChunk]; the bedrock plane of the scratch volume is
    with the mesher. *)
Definition World_setLoader (w : World) (bedrock : Z) (loadChunk : Loader)
    (loadFrontier : option Loader) : World :=
  mkWorld (world_chunks w) (world_column w) (world_registry w)
    (world_frontier w) bedrock (Some loadChunk)
    (Some (default loadChunk loadFrontier)).

Definition recenter_visit (loadChunk : Loader) (cx cz : Z) (st : World * Z)
  : option (World * Z * bool) :=
  let '(w, loaded) := st in
  match Circle_get (world_chunks w) cx cz with
  | Some _ => Some (w, loaded, false)
  | None =>
      '(chunk, w) ← Chunk_new cx cz w loadChunk;
      chunks ← Circle_set (world_chunks w) cx cz chunk;
      let loaded := loaded + 1 in
      Some (World_with_chunks chunks w, loaded,
            bool_decide (loaded = kNumChunksToLoadPerFrame))
  end.

Definition World_recenter (w : World) (x y z : Q) : option World :=
  let cx := js_sar (Qfloor x) kChunkBits in
  let cz := js_sar (Qfloor z) kChunkBits in
  w ← Circle_center world_chunks World_with_chunks Chunk_dispose cx cz w;
  f ← Frontier_center cx cz (world_frontier w);
  let w := World_with_frontier f w in
  match world_loadChunk w with
  | None => Some w
  | Some loadChunk =>
      '(w, _) ← Circle_each (world_chunks w) (recenter_visit loadChunk) (w, 0);
      Some w
  end.

(** ** Frontier: level-of-detail meshing *)

Definition Frontier_getOrCreateMultiMesh (cx cz level : Z) (f : Frontier)
  : Z * Frontier :=
  let shift := 12 in
  let mask := js_shl 1 shift - 1 in
  let base := js_or (js_shl (js_and cz mask) shift) (js_and cx mask) in
  let key := base * kFrontierLevels + level in
  match fr_meshes f !! key with
  | Some _ => (key, f)
  | None => (key, Frontier_with_meshes (<[key := LODMultiMesh_new]> (fr_meshes f)) f)
  end.

Definition Frontier_createFrontierChunk (cx cz level : Z) (f : Frontier)
  : FrontierChunk * Frontier :=
  let bits := kMultiMeshBits in
  let '(mesh, f) :=
    Frontier_getOrCreateMultiMesh (js_sar cx bits) (js_sar cz bits) level f in
  let result :=
    {| fc_cx := cx; fc_cz := cz; fc_index := LODMultiMesh_index cx cz;
       fc_level := level; fc_mesh := mesh |} in
  (result,
   if FrontierChunk_hasMesh f result then Frontier_markDirty (level + 1) f
   else f).

(** One quadrant of [createLODMeshes]: the loader is run on the shared
    column for each cell of the strip, and the two meshes are rebuilt. *)
Definition lod_quadrant (w : World) (loadFrontier : Loader) (chunk : FrontierChunk)
    (st : Column * LODMultiMesh) (k : Z) : Column * LODMultiMesh :=
  let '(column, mesh) := st in
  let side := fr_side (world_frontier w) in
  let cx := fc_cx chunk in
  let cz := fc_cz chunk in
  let level := fc_level chunk in
  let lshift := kChunkBits + level in
  let lod := js_shl kFrontierLOD level in
  let x := js_shl (2 * cx + 1) lshift in
  let z := js_shl (2 * cz + 1) lshift in
  let multi := kMultiMeshSide in
  let mx := js_shl (2 * js_and cx (js_not (multi - 1)) + multi) lshift in
  let mz := js_shl (2 * js_and cz (js_not (multi - 1)) + multi) lshift in
  let dx := if decide (js_and k 1 ≠ 0) then 0 else js_shl (-1) lshift in
  let dz := if decide (js_and k 2 ≠ 0) then 0 else js_shl (-1) lshift in
  let ax := x + dx + lod / 2 in
  let az := z + dz + lod / 2 in
  let column :=
    foldl (λ column i,
             foldl (λ column j,
                      Column_clear
                        (Loader_run loadFrontier (ax + i * lod) (az + j * lod)
                           column))
               column (seqZ 0 side))
      column (seqZ 0 side) in
  let n := side + 2 in
  let px := x + dx - mx - lod in
  let pz := z + dz - mz - lod in
  let mask := k + 4 * LODMultiMesh_index cx cz in
  let solid := meshFrontier mask px pz n n lod (lod_solid mesh) true in
  let water := meshFrontier mask px pz n n lod (lod_water mesh) false in
  (column,
   mkLODMultiMesh solid water (lod_meshed mesh) (lod_mask mesh)
     (lod_enabled mesh)).

Definition Frontier_createLODMeshes (chunk : FrontierChunk) (w : World)
  : option World :=
  match world_loadFrontier w with
  | None => Some w
  | Some loadFrontier =>
      assert (Registry_isSolid (world_registry w) (world_bedrock w) = true);;
      mesh ← fr_meshes (world_frontier w) !! fc_mesh chunk;
      let '(column, mesh) :=
        foldl (lod_quadrant w loadFrontier chunk) (world_column w, mesh)
          (seqZ 0 4) in
      let mesh :=
        mkLODMultiMesh (lod_solid mesh) (lod_water mesh)
          (ta_set (lod_meshed mesh) (LODMultiMesh_index (fc_cx chunk) (fc_cz chunk))
             true)
          (lod_mask mesh) (lod_enabled mesh) in
      Some (World_with_column column
              (World_with_frontier
                 (Frontier_with_meshes
                    (<[fc_mesh chunk := mesh]> (fr_meshes (world_frontier w)))
                    (world_frontier w)) w))
  end.

(** The closure [meshed] of [computeLODAtLevel]. *)
Definition lod_meshed_at (l : Z) (w : World) (dx dz : Z) : bool :=
  if decide (0 < l) then
    match Circle_get (fr_levels (world_frontier w) !!! Z.to_nat (l - 1)) dx dz with
    | Some chunk => FrontierChunk_hasMesh (world_frontier w) chunk
    | None => false
    end
  else
    match Circle_get (world_chunks w) dx dz with
    | Some chunk => Chunk_hasMesh chunk
    | None => false
    end.

Definition lod_mask_at (l : Z) (w : World) (cx cz : Z) : Z :=
  foldl (λ mask i,
           let dx := js_shl cx 1 + (if decide (js_and i 1 ≠ 0) then 1 else 0) in
           let dz := js_shl cz 1 + (if decide (js_and i 2 ≠ 0) then 1 else 0) in
           if lod_meshed_at l w dx dz then js_or mask (js_shl 1 i) else mask)
    0 (seqZ 0 4).

(** The variables of the walk of [computeLODAtLevel], and two ghosts:
    [ls_created], the tiles handed to [createLODMeshes] in this call, each
    with its mask and with whether it was new to the circle, and
    [ls_passed], the tiles to show that the walk passed over. *)
Record LODState := mkLODState {
  ls_world : World;
  ls_counter : Z;
  ls_skipped : bool;
  ls_created : list (Z * Z * Z * bool);
  ls_passed : list (Z * Z);
}.

Definition World_with_level (l : Z) (c : Circle FrontierChunk) (w : World)
  : World :=
  World_with_frontier (Frontier_with_level (Z.to_nat l) c (world_frontier w)) w.

Definition lod_visit (l : Z) (cx cz : Z) (st : LODState)
  : option (LODState * bool) :=
  let w := ls_world st in
  let level := fr_levels (world_frontier w) !!! Z.to_nat l in
  let mask := lod_mask_at l w cx cz in
  let shown := bool_decide (mask ≠ 15) in
  let extra := bool_decide (ls_counter st < kNumLODChunksToMeshPerFrame) in
  let create := shown && (extra || bool_decide (mask ≠ 0)) in
  let skipped := if shown && negb create then true else ls_skipped st in
  let passed := if shown && negb create then ls_passed st ++ [(cx, cz)]
                else ls_passed st in
  let existing := Circle_get level cx cz in
  if bool_decide (existing = None) && negb create
  then Some (mkLODState w (ls_counter st) skipped (ls_created st) passed, false)
  else
    '(lod, w) ←
      match existing with
      | Some existing => Some (existing, w)
      | None =>
          let '(created, f) :=
            Frontier_createFrontierChunk cx cz l (world_frontier w) in
          let w := World_with_frontier f w in
          level ← Circle_set (fr_levels f !!! Z.to_nat l) cx cz created;
          Some (created, World_with_level l level w)
      end;
    '(w, counter, created) ←
      if shown && negb (FrontierChunk_hasMesh (world_frontier w) lod) then
        w ← Frontier_createLODMeshes lod w;
        Some (World_with_frontier
                (Frontier_markDirty (l + 1) (world_frontier w)) w,
              ls_counter st + 1,
              ls_created st
                ++ [(fc_cx lod, fc_cz lod, mask, bool_decide (existing = None))])
      else Some (w, ls_counter st, ls_created st);
    mesh ← fr_meshes (world_frontier w) !! fc_mesh lod;
    mesh ← LODMultiMesh_show mesh (LODMultiMesh_index (fc_cx lod) (fc_cz lod)) mask;
    Some (mkLODState
            (World_with_frontier
               (Frontier_with_meshes
                  (<[fc_mesh lod := mesh]> (fr_meshes (world_frontier w)))
                  (world_frontier w)) w)
            counter skipped created passed,
          false).

(** [computeLODAtLevel]: the new world, and the walk's last state when the
    level was dirty. *)
Definition Frontier_computeLODAtLevel (l : Z) (w : World)
  : option (World * option LODState) :=
  if negb (ta_get false (fr_dirty (world_frontier w)) l) then Some (w, None)
  else
    let level := fr_levels (world_frontier w) !!! Z.to_nat l in
    st ← Circle_each level (lod_visit l) (mkLODState w 0 false [] []);
    let w := ls_world st in
    Some (World_with_frontier
            (Frontier_with_dirty
               (ta_set (fr_dirty (world_frontier w)) l (ls_skipped st))
               (world_frontier w)) w,
          Some st).

(** One turn of the loop of [remeshFrontier]: the world, and what
    [computeLODAtLevel] returned for the levels so far. *)
Definition level_step (acc : option (World * list (option LODState))) (i : Z)
  : option (World * list (option LODState)) :=
  '(w, log) ← acc;
  '(w, st) ← Frontier_computeLODAtLevel i w;
  Some (w, log ++ [st]).

Definition Frontier_remeshFrontier (w : World)
  : option (World * list (option LODState)) :=
  foldl level_step (Some (w, [])) (seqZ 0 kFrontierLevels).

(** ** World.remesh *)

(** The variables of the walk of [remesh]; [rs_visited], the cells the walk
    went through with the answer to "was the chunk remeshed", is a ghost. *)
Record RemeshState := mkRemeshState {
  rs_world : World;
  rs_meshed : Z;
  rs_total : Z;
  rs_visited : list (Z * Z * bool);
}.

Definition remesh_visit (cx cz : Z) (st : RemeshState)
  : option (RemeshState * bool) :=
  let total := rs_total st + 1 in
  if decide (9 < total ∧ kNumChunksToMeshPerFrame ≤ rs_meshed st)
  then Some (mkRemeshState (rs_world st) (rs_meshed st) total (rs_visited st),
             true)
  else
    let w := rs_world st in
    match Circle_get (world_chunks w) cx cz with
    | Some chunk =>
        if Chunk_needsRemesh chunk then
          let w := if Chunk_hasMesh chunk then w
                   else World_with_frontier
                          (Frontier_markDirty 0 (world_frontier w)) w in
          w ← Chunk_remeshChunk cx cz w;
          Some (mkRemeshState w (rs_meshed st + 1) total
                  (rs_visited st ++ [(cx, cz, true)]), false)
        else Some (mkRemeshState w (rs_meshed st) total
                     (rs_visited st ++ [(cx, cz, false)]), false)
    | None => Some (mkRemeshState w (rs_meshed st) total
                      (rs_visited st ++ [(cx, cz, false)]), false)
    end.

(** The walk over the chunk circle in [remesh]. *)
Definition World_remesh_chunks (w : World) : option RemeshState :=
  Circle_each (world_chunks w) remesh_visit (mkRemeshState w 0 0 []).

Definition World_remesh (w : World) : option World :=
  st ← World_remesh_chunks w;
  '(w, _) ← Frontier_remeshFrontier (rs_world st);
  Some w.

End Engine.

(* ===================================================================== *)
(** * Timing *)
(* ===================================================================== *)

Inductive Which := Remesh | Render | Update.

(** What the harness does to its callbacks, as a ghost trace: [Invoked w]
    when a callback given to the constructor is entered, [Raised w] when it
    throws. *)
Inductive TimingEvent :=
| Invoked (w : Which)
| Raised (w : Which).

Section Timing.

(** The state the callbacks act on, the errors they throw, and the numbers
    of the clock.  The clock is read through [now.now()]; its readings are
    [clock 0], [clock 1], ... in the order of the reads.  The arithmetic of
    the harness on these numbers is JavaScript's and is kept abstract. *)
Variables (App Error Time : Type).
Variable clock : nat → Time.
Variable t_add : Time → Time → Time.
Variable t_lt : Time → Time → bool.
Variable seconds_between : Time → Time → Time.   (* (now - last) / 1000 *)
Variable updateDelay updateLimit tick : Time.    (* tick = delay / 1000 *)

(** A callback returns, or throws after having changed the state. *)
Inductive Outcome :=
| Returned (a : App)
| Threw (a : App) (e : Error).

Definition Callback := Time → App → Outcome.

(** A callback slot: the function given to the constructor, or the
    [() => {}] that [onError] stores. *)
Inductive Handler :=
| Given (f : Callback)
| Noop.

(** The [Performance] meters take part through their reads of the clock
    only. *)
Record Timing := mkTiming {
  tm_remesh : Handler;
  tm_render : Handler;
  tm_update : Handler;
  tm_lastRender : Time;
  tm_lastUpdate : Time;
  tm_reads : nat;
  tm_app : App;
  tm_console : list Error;
  tm_trace : list TimingEvent;
}.

Definition Timing_new (remesh render update : Callback) (app : App) : Timing :=
  {| tm_remesh := Given remesh; tm_render := Given render;
     tm_update := Given update;
     tm_lastRender := clock 0; tm_lastUpdate := clock 0;
     tm_reads := 1; tm_app := app; tm_console := []; tm_trace := [] |}.

(** [this.now.now()]. *)
Definition Timing_now (t : Timing) : Time * Timing :=
  (clock (tm_reads t),
   mkTiming (tm_remesh t) (tm_render t) (tm_update t) (tm_lastRender t)
     (tm_lastUpdate t) (S (tm_reads t)) (tm_app t) (tm_console t) (tm_trace t)).

(** [perf.begin()] and [perf.end()]. *)
Definition Timing_perf (t : Timing) : Timing := snd (Timing_now t).

Definition Timing_onError (e : Error) (t : Timing) : Timing :=
  mkTiming Noop Noop Noop (tm_lastRender t) (tm_lastUpdate t) (tm_reads t)
    (tm_app t) (tm_console t ++ [e]) (tm_trace t).

Definition Timing_with_app (a : App) (ev : list TimingEvent) (t : Timing)
  : Timing :=
  mkTiming (tm_remesh t) (tm_render t) (tm_update t) (tm_lastRender t)
    (tm_lastUpdate t) (tm_reads t) a (tm_console t) (tm_trace t ++ ev).

Definition Timing_with_lastRender (x : Time) (t : Timing) : Timing :=
  mkTiming (tm_remesh t) (tm_render t) (tm_update t) x
    (tm_lastUpdate t) (tm_reads t) (tm_app t) (tm_console t) (tm_trace t).

Definition Timing_with_lastUpdate (x : Time) (t : Timing) : Timing :=
  mkTiming (tm_remesh t) (tm_render t) (tm_update t) (tm_lastRender t)
    x (tm_reads t) (tm_app t) (tm_console t) (tm_trace t).

(** [this.f(dt)] for the slot [w]: the state after the call, and the error
    if the call threw. *)
Definition Timing_call (w : Which) (dt : Time) (t : Timing)
  : Timing * option Error :=
  let h := match w with
           | Remesh => tm_remesh t
           | Render => tm_render t
           | Update => tm_update t
           end in
  match h with
  | Noop => (t, None)
  | Given f =>
      match f dt (tm_app t) with
      | Returned a => (Timing_with_app a [Invoked w] t, None)
      | Threw a e => (Timing_with_app a [Invoked w; Raised w] t, Some e)
      end
  end.

(** One turn of the loop of [updateHandler], after its test. *)
Definition update_turn (limit : Time) (t : Timing) : Timing * Time * bool :=
  let t :=
    let t := Timing_perf t in
    match Timing_call Update tick t with
    | (t, None) => Timing_perf t
    | (t, Some e) => Timing_onError e t
    end in
  let t := Timing_with_lastUpdate (t_add (tm_lastUpdate t) updateDelay) t in
  let '(now, t) := Timing_now t in
  if t_lt limit now then (Timing_with_lastUpdate now t, now, true)
  else (t, now, false).

(** [while (this.lastUpdate + delay < now) ...] with [fuel] turns; [now] is
    read again at the end of each turn. *)
Fixpoint update_loop (fuel : nat) (limit now : Time) (t : Timing) : Timing :=
  match fuel with
  | O => t
  | S fuel =>
      if t_lt (t_add (tm_lastUpdate t) updateDelay) now then
        let '(t, now, stop) := update_turn limit t in
        if stop : bool then t else update_loop fuel limit now t
      else t
  end.

Definition Timing_updateHandler (fuel : nat) (t : Timing) : Timing :=
  let '(now, t) := Timing_now t in
  let limit := t_add now updateLimit in
  update_loop fuel limit now t.

Definition Timing_renderHandler (fuel : nat) (t : Timing) : Timing :=
  let t := Timing_updateHandler fuel t in
  let '(now, t) := Timing_now t in
  let dt := seconds_between now (tm_lastRender t) in
  let t := Timing_with_lastRender now t in
  let t := Timing_perf t in
  match Timing_call Remesh dt t with
  | (t, Some e) => Timing_onError e t
  | (t, None) =>
      let t := Timing_perf t in
      let t := Timing_perf t in
      match Timing_call Render dt t with
      | (t, Some e) => Timing_onError e t
      | (t, None) => Timing_perf t
      end
  end.

(** The two pumps of the platform: the animation frame and the interval
    timer, each with the number of turns its update loop may take. *)
Inductive Pump :=
| Frame (fuel : nat)
| Interval (fuel : nat).

Definition Timing_pump (t : Timing) (p : Pump) : Timing :=
  match p with
  | Frame fuel => Timing_renderHandler fuel t
  | Interval fuel => Timing_updateHandler fuel t
  end.

Definition Timing_run (pumps : list Pump) (t : Timing) : Timing :=
  foldl Timing_pump t pumps.

(** No callback has thrown so far. *)
Definition unraised (tr : list TimingEvent) : Prop := ∀ w, Raised w ∉ tr.

(** A callback threw, which was the last thing the harness let happen: the
    three slots hold the no-op and one error was reported. *)
Definition silenced (t : Timing) : Prop :=
  tm_remesh t = Noop ∧ tm_render t = Noop ∧ tm_update t = Noop
  ∧ length (tm_console t) = 1%nat
  ∧ ∃ tr w, tm_trace t = tr ++ [Raised w] ∧ unraised tr.

(** The state of the harness between two of its steps. *)
Definition timing_inv (t : Timing) : Prop :=
  silenced t ∨ (unraised (tm_trace t) ∧ tm_console t = []).

(** [t'] differs from [t] in clock reads, time stamps and the state of the
    application only. *)
Definition same_slots (t t' : Timing) : Prop :=
  tm_remesh t' = tm_remesh t ∧ tm_render t' = tm_render t
  ∧ tm_update t' = tm_update t ∧ tm_console t' = tm_console t
  ∧ tm_trace t' = tm_trace t.

End Timing.

Arguments Returned {App Error}.
Arguments Threw {App Error}.
Arguments Given {App Error Time}.
Arguments Noop {App Error Time}.
Arguments tm_remesh {App Error Time}.
Arguments tm_render {App Error Time}.
Arguments tm_update {App Error Time}.
Arguments tm_lastRender {App Error Time}.
Arguments tm_lastUpdate {App Error Time}.
Arguments tm_reads {App Error Time}.
Arguments tm_app {App Error Time}.
Arguments tm_console {App Error Time}.
Arguments tm_trace {App Error Time}.
Arguments Timing_new {App Error Time}.
Arguments Timing_now {App Error Time}.
Arguments Timing_perf {App Error Time}.
Arguments Timing_onError {App Error Time}.
Arguments Timing_with_app {App Error Time}.
Arguments Timing_with_lastRender {App Error Time}.
Arguments Timing_with_lastUpdate {App Error Time}.
Arguments Timing_call {App Error Time}.
Arguments update_turn {App Error Time}.
Arguments update_loop {App Error Time}.
Arguments Timing_updateHandler {App Error Time}.
Arguments Timing_renderHandler {App Error Time}.
Arguments Timing_pump {App Error Time}.
Arguments Timing_run {App Error Time}.
Arguments silenced {App Error Time}.
Arguments timing_inv {App Error Time}.
Arguments same_slots {App Error Time}.

(* ===================================================================== *)
(** * Registry: blocks, faces and materials *)
(* ===================================================================== *)

(** [interface Texture] of the renderer. *)
Record Texture := mkTexture {
  tex_alphaTest : bool;
  tex_url : string;
  tex_x : Z;
  tex_y : Z;
  tex_w : Z;
  tex_h : Z;
}.

(** A colour is four numbers; a number that is not NaN is a rational. *)
Definition Color : Type := Q * Q * Q * Q.

Definition kWhite : Color := (1, 1, 1, 1)%Q.

Record Material := mkMaterial {
  mat_color : Color;
  mat_liquid : bool;
  mat_texture : option Texture;
  mat_textureIndex : Z;
}.

(** A handle on an instanced mesh of the renderer. *)
Definition InstancedMesh : Type := Z.

Definition kNoMaterial : Z := 0.

(** The registry with all its tables: [opaque] and [solid] are those of
    [Registry]; [ids] maps the name of a material to its index in
    [materials]. *)
Record BlockRegistry := mkBlockRegistry {
  breg_tables : Registry;
  breg_faces : list Z;
  breg_meshes : list (option InstancedMesh);
  breg_materials : list Material;
  breg_ids : gmap string Z;
}.

Definition BlockRegistry_new : BlockRegistry :=
  {| breg_tables := Registry_new;
     breg_faces := replicate 12 kNoMaterial;
     breg_meshes := [None; None];
     breg_materials := [];
     breg_ids := ∅ |}.

(** What a call on the registry throws. *)
Inductive RegistryError :=
| UnexpectedMaterials (xs : list string)
| UnknownMaterial (x : string)
| AssertionFailed.

(** [getMaterialData]: the assertion, then the read. *)
Definition Registry_getMaterialData (g : BlockRegistry) (id : Z)
  : option Material :=
  assert (0 < id ∧ id ≤ Z.of_nat (length (breg_materials g)));;
  breg_materials g !! Z.to_nat (id - 1).

(** [getBlockFaceMaterial]: [None] is the [undefined] of a read outside
    [faces]. *)
Definition Registry_getBlockFaceMaterial (g : BlockRegistry) (id face : Z)
  : option Z :=
  if decide (0 ≤ id * 6 + face) then breg_faces g !! Z.to_nat (id * 6 + face)
  else None.

(** [getBlockMesh]: [None] for [null] and for [undefined]. *)
Definition Registry_getBlockMesh (g : BlockRegistry) (id : Z)
  : option InstancedMesh :=
  if decide (0 ≤ id) then default None (breg_meshes g !! Z.to_nat id) else None.

(** The six face materials that [addBlock] reads off its argument. *)
Definition face_names (xs : list string) : option (list string) :=
  match xs with
  | [a] => Some [a; a; a; a; a; a]
  | [a; b] => Some [b; b; a; a; b; b]
  | [a; b; c] => Some [c; c; a; b; c; c]
  | [_; _; _; _; _; _] => Some xs
  | _ => None
  end.

Definition BlockRegistry_with_faces (f : list Z) (g : BlockRegistry)
  : BlockRegistry :=
  mkBlockRegistry (breg_tables g) f (breg_meshes g) (breg_materials g)
    (breg_ids g).

Definition Material_translucent (data : Material) : bool :=
  let '(_, _, _, alpha) := mat_color data in
  let alphaBlend := if Qlt_le_dec alpha 1 then true else false in
  let alphaTest := match mat_texture data with
                   | Some texture => tex_alphaTest texture
                   | None => false
                   end in
  alphaBlend || alphaTest.

(** One turn of [materials.forEach] in [addBlock]: the registry and the
    [opaque] flag so far, or the registry as the exception leaves it. *)
Definition addBlock_face (st : BlockRegistry * (RegistryError + bool))
    (x : string) : BlockRegistry * (RegistryError + bool) :=
  let '(g, flag) := st in
  match flag with
  | inl _ => st
  | inr opaque =>
      match breg_ids g !! x with
      | None => (g, inl (UnknownMaterial x))
      | Some id =>
          let material := id + 1 in
          let g := BlockRegistry_with_faces (breg_faces g ++ [material]) g in
          match Registry_getMaterialData g material with
          | None => (g, inl AssertionFailed)
          | Some data =>
              (g, inr (if Material_translucent data then false else opaque))
          end
      end
  end.

(** [addBlock]: the registry after the call, and the new block or the
    exception. *)
Definition Registry_addBlock (g : BlockRegistry) (xs : list string)
    (solid : bool) : BlockRegistry * (RegistryError + Z) :=
  match face_names xs with
  | None => (g, inl (UnexpectedMaterials xs))
  | Some materials =>
      match foldl addBlock_face (g, inr true) materials with
      | (g, inl e) => (g, inl e)
      | (g, inr opaque) =>
          let result := Z.of_nat (length (reg_opaque (breg_tables g))) in
          (mkBlockRegistry
             (mkRegistry (reg_opaque (breg_tables g) ++ [opaque])
                (reg_solid (breg_tables g) ++ [solid]))
             (breg_faces g) (breg_meshes g ++ [None]) (breg_materials g)
             (breg_ids g),
           inr result)
      end
  end.

Definition Registry_addBlockMesh (g : BlockRegistry) (mesh : InstancedMesh)
    (solid : bool) : BlockRegistry * Z :=
  let result := Z.of_nat (length (reg_opaque (breg_tables g))) in
  (mkBlockRegistry
     (mkRegistry (reg_opaque (breg_tables g) ++ [false])
        (reg_solid (breg_tables g) ++ [solid]))
     (breg_faces g ++ replicate 6 kNoMaterial)
     (breg_meshes g ++ [Some mesh]) (breg_materials g) (breg_ids g),
   result).

(** [addMaterialHelper]; [None] when one of its two assertions fails. *)
Definition Registry_addMaterialHelper (g : BlockRegistry) (name : string)
    (color : Color) (liquid : bool) (texture : option Texture)
  : option BlockRegistry :=
  assert (0 < String.length name)%nat;;
  assert (breg_ids g !! name = None);;
  Some (mkBlockRegistry (breg_tables g) (breg_faces g) (breg_meshes g)
          (breg_materials g ++ [mkMaterial color liquid texture 0])
          (<[name := Z.of_nat (length (breg_materials g))]> (breg_ids g))).

Definition Registry_addMaterialOfColor (g : BlockRegistry) (name : string)
    (color : Color) (liquid : bool) : option BlockRegistry :=
  Registry_addMaterialHelper g name color liquid None.

Definition Registry_addMaterialOfTexture (g : BlockRegistry) (name : string)
    (texture : Texture) (color : Color) (liquid : bool)
  : option BlockRegistry :=
  Registry_addMaterialHelper g name color liquid (Some texture).

(** The calls that set a registry up. *)
Inductive RegistryCall :=
| CallAddMaterialOfColor (name : string) (color : Color) (liquid : bool)
| CallAddMaterialOfTexture (name : string) (texture : Texture) (color : Color)
    (liquid : bool)
| CallAddBlock (xs : list string) (solid : bool)
| CallAddBlockMesh (mesh : InstancedMesh) (solid : bool).

(** A call that returns, and the registry it leaves. *)
Definition Registry_call (g : BlockRegistry) (k : RegistryCall)
  : option BlockRegistry :=
  match k with
  | CallAddMaterialOfColor name color liquid =>
      Registry_addMaterialOfColor g name color liquid
  | CallAddMaterialOfTexture name texture color liquid =>
      Registry_addMaterialOfTexture g name texture color liquid
  | CallAddBlock xs solid =>
      match Registry_addBlock g xs solid with
      | (g, inr _) => Some g
      | (_, inl _) => None
      end
  | CallAddBlockMesh mesh solid => Some (fst (Registry_addBlockMesh g mesh solid))
  end.

(** The tables of a registry that only calls that returned have touched:
    the two blocks of the constructor are there, with six faces per block,
    one mesh slot and one [solid] entry per block, every face [kNoMaterial]
    or a material, every name on a material. *)
Definition BlockRegistry_ok (g : BlockRegistry) : Prop :=
  (2 ≤ length (reg_opaque (breg_tables g)))%nat
  ∧ length (breg_faces g) = (6 * length (reg_opaque (breg_tables g)))%nat
  ∧ length (reg_solid (breg_tables g)) = length (reg_opaque (breg_tables g))
  ∧ length (breg_meshes g) = length (reg_opaque (breg_tables g))
  ∧ Forall (λ m, 0 ≤ m ≤ Z.of_nat (length (breg_materials g))) (breg_faces g)
  ∧ (∀ name id, breg_ids g !! name = Some id →
       0 ≤ id < Z.of_nat (length (breg_materials g)))
  ∧ Registry_isSolid (breg_tables g) kEmptyBlock = false
  ∧ Registry_isSolid (breg_tables g) kUnknownBlock = true.

(** The calls one after the other on the registry of the constructor;
    [None] when one of them throws. *)
Definition Registry_run (calls : list RegistryCall) : option BlockRegistry :=
  foldl (λ g k, g ← g; Registry_call g k) (Some BlockRegistry_new) calls.

(** A registry with the materials [stone] and [glass], the second one
    translucent. *)
Definition example_blocks : BlockRegistry :=
  default BlockRegistry_new
    (Registry_run
       [CallAddMaterialOfColor "stone" (1, 1, 1, 1)%Q false;
        CallAddMaterialOfColor "glass" (1, 1, 1, 1 # 2)%Q false]).

(* ===================================================================== *)
(** * Performance *)
(* ===================================================================== *)

(** The meter keeps the last [samples] readings in a ring.  A reading is
    [Math.round(1000 * (now - last))]: the arithmetic is on floating-point
    clock values and [Performance_end] is handed its result, [tick]. *)
Record Performance := mkPerformance {
  perf_index : Z;
  perf_ticks : list Z;
  perf_sum : Z;
}.

Definition Performance_new (samples : Z) : option Performance :=
  assert (0 < samples);;
  Some {| perf_index := 0;
          perf_ticks := replicate (Z.to_nat samples) 0;
          perf_sum := 0 |}.

Definition Performance_end (p : Performance) (tick : Z) : Performance :=
  let index := perf_index p in
  let next_index := index + 1 in
  {| perf_index :=
       if decide (next_index < Z.of_nat (length (perf_ticks p)))
       then next_index else 0;
     perf_ticks := ta_set (perf_ticks p) index tick;
     perf_sum := perf_sum p + (tick - ta_get 0 (perf_ticks p) index) |}.

Definition Performance_frame (p : Performance) : Z := perf_index p.

(** [Math.max.apply(null, ticks)] on a ring that is not empty. *)
Definition Performance_max (p : Performance) : Z :=
  foldr Z.max (default 0 (head (perf_ticks p))) (perf_ticks p).

Definition Performance_mean (p : Performance) : Q :=
  (inject_Z (perf_sum p) / inject_Z (Z.of_nat (length (perf_ticks p))))%Q.

(** The sum of a list of readings. *)
Definition sum_ticks (ticks : list Z) : Z := foldr Z.add 0 ticks.

(* ===================================================================== *)
(** * The scratch volume that [remeshTerrain] fills for the mesher *)
(* ===================================================================== *)

(** [world.buffer], [world.heightmap], [world.light_map] and
    [world.equilevels]: one block wider than a chunk on each side and one
    level higher above and below.  The constructor of the world allocates
    them, [setLoader] writes the bedrock plane, [remeshTerrain] fills the
    rest, and the mesher reads them; nothing else touches them. *)
Record Scratch := mkScratch {
  sc_buffer : Tensor3;
  sc_heightmap : Tensor2;
  sc_light_map : Tensor2;
  sc_equilevels : list Z;             (* Int8Array(h) *)
}.

Definition Scratch_with_equilevels (e : list Z) (s : Scratch) : Scratch :=
  mkScratch (sc_buffer s) (sc_heightmap s) (sc_light_map s) e.

Definition Scratch_with_buffer (b : Tensor3) (s : Scratch) : Scratch :=
  mkScratch b (sc_heightmap s) (sc_light_map s) (sc_equilevels s).

(** The constructor of [World], for the scratch volume. *)
Definition Scratch_new : Scratch :=
  let w := kChunkWidth + 2 in
  let h := kWorldHeight + 2 in
  {| sc_buffer := Tensor3_new w h w;
     sc_heightmap := Tensor2_new w w;
     sc_light_map := Tensor2_new w w;
     sc_equilevels := ta_set (ta_set (replicate (Z.to_nat h) 0) (h - 1) 1) 0 1 |}.

(** The loop of [World.setLoader]: bedrock on the plane [y = 0]. *)
Definition Scratch_setBedrock (bedrock : Z) (s : Scratch) : Scratch :=
  let buffer := sc_buffer s in
  let '(sx, _, sz) := t3_shape buffer in
  Scratch_with_buffer
    (foldl (λ b x, foldl (λ b z, Tensor3_set b x 0 z bedrock) b (seqZ 0 sz))
       buffer (seqZ 0 sx)) s.

(** [a[i]] read as a value: [undefined] outside the array. *)
Definition ta_read (a : list Z) (i : Z) : option Z :=
  if decide (0 ≤ i) then a !! Z.to_nat i else None.

(** [a.subarray(s, e)]. *)
Definition ta_subarray (a : list Z) (s e : Z) : list Z :=
  let len := Z.of_nat (length a) in
  let from := rel_index len s in
  let to := rel_index len e in
  take (Z.to_nat (to - from)) (drop (Z.to_nat from) a).

(** [a.set(src, offset)]: a [RangeError] when [src] does not fit. *)
Definition ta_set_array (a src : list Z) (offset : Z) : option (list Z) :=
  assert (0 ≤ offset
          ∧ offset + Z.of_nat (length src) ≤ Z.of_nat (length a));;
  Some (take (Z.to_nat offset) a ++ src
          ++ drop (Z.to_nat offset + length src) a).

Definition Point : Type := Z * Z * Z.

Definition pt_x (p : Point) : Z := fst (fst p).
Definition pt_y (p : Point) : Z := snd (fst p).
Definition pt_z (p : Point) : Z := snd p.

(** The chunks that are gathered for one meshing: the offset of the chunk,
    where its part goes in the scratch volume, where it starts in the
    chunk, and its size. *)
Definition kNeighborOffsets : list (Point * Point * Point * Point) :=
  let W := kChunkWidth in
  let H := kWorldHeight in
  let L := W - 1 in
  let N := W + 1 in
  [ ((0, 0, 0), (1, 1, 1), (0, 0, 0), (W, H, W));
    ((-1, 0, 0), (0, 1, 1), (L, 0, 0), (1, H, W));
    ((1, 0, 0), (N, 1, 1), (0, 0, 0), (1, H, W));
    ((0, 0, -1), (1, 1, 0), (0, 0, L), (W, H, 1));
    ((0, 0, 1), (1, 1, N), (0, 0, 0), (W, H, 1)) ].

(** [copyHeightmap]; a height read outside [src] is [undefined], the sum
    [NaN], stored as 0. *)
Definition Chunk_copyHeightmap (dst : Tensor2) (dstPos : Point)
    (src : Tensor2) (srcPos size : Point) : Tensor2 :=
  let ni := pt_x size in
  let nk := pt_z size in
  let di := pt_x dstPos in
  let dk := pt_z dstPos in
  let si := pt_x srcPos in
  let sk := pt_z srcPos in
  let offset := pt_y dstPos - pt_y srcPos in
  foldl (λ dst i,
    foldl (λ dst k,
      let sindex := Tensor2_index src (si + i) (sk + k) in
      let dindex := Tensor2_index dst (di + i) (dk + k) in
      let v := match ta_read (t2_data src) sindex with
               | Some v => v + offset
               | None => 0
               end in
      Tensor2_with_data dst (ta_set (t2_data dst) dindex v))
    dst (seqZ 0 nk)) dst (seqZ 0 ni).

(** [copyVoxels]: column by column. *)
Definition Chunk_copyVoxels (dst : Tensor3) (dstPos : Point)
    (src : Tensor3) (srcPos size : Point) : option Tensor3 :=
  let ni := pt_x size in
  let nj := pt_y size in
  let nk := pt_z size in
  let di := pt_x dstPos in
  let dj := pt_y dstPos in
  let dk := pt_z dstPos in
  let si := pt_x srcPos in
  let sj := pt_y srcPos in
  let sk := pt_z srcPos in
  assert (snd (fst (t3_stride dst)) = 1);;
  assert (snd (fst (t3_stride src)) = 1);;
  foldl (λ dst i,
    foldl (λ dst k,
      dst ← dst;
      let sindex := Tensor3_index src (si + i) sj (sk + k) in
      let dindex := Tensor3_index dst (di + i) dj (dk + k) in
      data ← ta_set_array (t3_data dst)
                (ta_subarray (t3_data src) sindex (sindex + nj)) dindex;
      Some (Tensor3_with_data dst data))
    dst (seqZ 0 nk)) (Some dst) (seqZ 0 ni).

Definition Chunk_zeroHeightmap (dst : Tensor2) (dstPos size : Point)
    (delta : Z) : Tensor2 :=
  let ni := pt_x size in
  let nk := pt_z size in
  let di := pt_x dstPos in
  let dk := pt_z dstPos in
  foldl (λ dst i,
    foldl (λ dst k, Tensor2_set dst (di + i) (dk + k) delta)
      dst (seqZ 0 nk)) dst (seqZ 0 ni).

Definition Chunk_zeroVoxels (dst : Tensor3) (dstPos size : Point) : Tensor3 :=
  let ni := pt_x size in
  let nj := pt_y size in
  let nk := pt_z size in
  let di := pt_x dstPos in
  let dj := pt_y dstPos in
  let dk := pt_z dstPos in
  let dsj := snd (fst (t3_stride dst)) in
  foldl (λ dst i,
    foldl (λ dst k,
      let dindex := Tensor3_index dst (di + i) dj (dk + k) in
      Tensor3_with_data dst
        (foldl (λ data j, ta_set data (dindex + j * dsj) kEmptyBlock)
           (t3_data dst) (seqZ 0 nj)))
    dst (seqZ 0 nk)) dst (seqZ 0 ni).

(** The inner loop of [copyEquilevels]: whether a voxel of the edge of
    [chunk] at height [i] differs from [base].  The loop ends when
    [stride] is positive; [None] stands for a loop that does not end. *)
Fixpoint edge_differs (fuel : nat) (chunk_data : list Z) (base : option Z)
    (index i stride limit offset : Z) : option bool :=
  match fuel with
  | O => None
  | S fuel =>
      if decide (offset < limit) then
        if decide (ta_read chunk_data (index + offset + i) = base)
        then edge_differs fuel chunk_data base index i stride limit
               (offset + stride)
        else Some true
      else Some false
  end.

(** [copyEquilevels]: a level of the scratch volume stays an equi-level
    only when the edge of the neighbour holds the block of this chunk at
    that level, or when there is no neighbour and that block is empty. *)
Definition Chunk_copyEquilevels (this : Chunk) (dst : list Z)
    (chunk : option Chunk) (srcPos size : Point) (delta : Z)
  : option (list Z) :=
  assert (snd (fst (t3_stride (chunk_voxels this))) = 1);;
  let data := t3_data (chunk_voxels this) in
  match chunk with
  | None =>
      Some (foldl (λ dst i,
              if decide (ta_read dst (i + delta) = Some 0) then dst
              else if decide (ta_read data i ≠ Some kEmptyBlock)
                   then ta_set dst (i + delta) 0
                   else dst)
              dst (seqZ 0 kWorldHeight))
  | Some chunk =>
      assert (snd (fst (t3_stride (chunk_voxels chunk))) = 1);;
      assert (pt_x size = 1 ∨ pt_z size = 1);;
      let stride := if decide (pt_x size = 1)
                    then snd (t3_stride (chunk_voxels chunk))
                    else fst (fst (t3_stride (chunk_voxels chunk))) in
      let index := Tensor3_index (chunk_voxels chunk)
                     (pt_x srcPos) (pt_y srcPos) (pt_z srcPos) in
      let limit := stride * (if decide (pt_x size = 1) then pt_z size
                             else pt_x size) in
      let chunk_equilevels := chunk_equilevels chunk in
      let chunk_data := t3_data (chunk_voxels chunk) in
      foldl (λ dst i,
        dst ← dst;
        if decide (ta_read dst (i + delta) = Some 0) then Some dst
        else
          let base := ta_read data i in
          if decide (ta_read chunk_equilevels i = Some 1
                     ∧ ta_read chunk_data i = base) then Some dst
          else
            differs ← edge_differs (Z.to_nat limit) chunk_data base index i
                        stride limit 0;
            Some (if differs : bool then ta_set dst (i + delta) 0 else dst))
        (Some dst) (seqZ 0 kWorldHeight)
  end.

(** [chunk !== this], for [this] in the circle of the world and [chunk]
    looked up in it: the circle holds one chunk for each pair of
    coordinates, so that the two are the same object exactly when their
    coordinates agree. *)
Definition same_chunk (chunk : option Chunk) (this : Chunk) : bool :=
  match chunk with
  | Some c => bool_decide (chunk_cx c = chunk_cx this ∧ chunk_cz c = chunk_cz this)
  | None => false
  end.

(** One turn of the loop of [remeshTerrain]. *)
Definition gather_offset (w : World) (this : Chunk) (st : option Scratch)
    (offset : Point * Point * Point * Point) : option Scratch :=
  s ← st;
  let '(c, dstPos, srcPos, size) := offset in
  let chunk := Circle_get (world_chunks w) (chunk_cx this + pt_x c)
                 (chunk_cz this + pt_z c) in
  let delta := pt_y dstPos - pt_y srcPos in
  assert (delta = 1);;
  s ← match chunk with
       | Some chunk =>
           let heightmap := Chunk_copyHeightmap (sc_heightmap s) dstPos
                              (chunk_heightmap chunk) srcPos size in
           let light_map := Chunk_copyHeightmap (sc_light_map s) dstPos
                              (chunk_light_map chunk) srcPos size in
           buffer ← Chunk_copyVoxels (sc_buffer s) dstPos
                      (chunk_voxels chunk) srcPos size;
           Some (mkScratch buffer heightmap light_map (sc_equilevels s))
       | None =>
           Some (mkScratch
                   (Chunk_zeroVoxels (sc_buffer s) dstPos size)
                   (Chunk_zeroHeightmap (sc_heightmap s) dstPos size delta)
                   (Chunk_zeroHeightmap (sc_light_map s) dstPos size delta)
                   (sc_equilevels s))
       end;
  if same_chunk chunk this then Some s
  else
    e ← Chunk_copyEquilevels this (sc_equilevels s) chunk srcPos size delta;
    Some (Scratch_with_equilevels e s).

(** [remeshTerrain] up to the call of the mesher: what the mesher is
    handed for the chunk [this]. *)
Definition Chunk_gather (w : World) (this : Chunk) (s : Scratch)
  : option Scratch :=
  e ← ta_set_array (sc_equilevels s) (chunk_equilevels this) 1;
  foldl (gather_offset w this) (Some (Scratch_with_equilevels e s))
    kNeighborOffsets.

(* ===================================================================== *)
(** * Well-formed chunks *)
(* ===================================================================== *)

(** The shape of the tensors of a chunk, as [Chunk_init] builds them; no
    operation changes it. *)
Definition Chunk_wf (c : Chunk) : Prop :=
  t3_stride (chunk_voxels c) = (256, 1, 4096)
  ∧ Z.of_nat (length (t3_data (chunk_voxels c))) = 65536
  ∧ t2_stride (chunk_heightmap c) = (1, 16)
  ∧ Z.of_nat (length (t2_data (chunk_heightmap c))) = 256
  ∧ t2_stride (chunk_light_map c) = (1, 16)
  ∧ Z.of_nat (length (t2_data (chunk_light_map c))) = 256
  ∧ Z.of_nat (length (chunk_equilevels c)) = 256.

(** The cells that a write at [(xm, zm)] of the chunk [(cx, cz)] marks:
    the neighbours across the chunk edges the cell lies on. *)
Definition marked_neighbor (xm zm cx cz a b : Z) : Prop :=
  (xm = 0 ∧ a = cx - 1 ∧ b = cz) ∨ (xm = 15 ∧ a = cx + 1 ∧ b = cz)
  ∨ (zm = 0 ∧ a = cx ∧ b = cz - 1) ∨ (zm = 15 ∧ a = cx ∧ b = cz + 1).

Global Instance marked_neighbor_dec xm zm cx cz a b :
  Decision (marked_neighbor xm zm cx cz a b).
Proof. unfold marked_neighbor. apply _. Defined.

(* ===================================================================== *)
(** * Vocabulary of the walks *)
(* ===================================================================== *)

(** The squared distance of a point of a circle from its centre. *)
Definition distance2 (p : Z * Z) : Z := fst p * fst p + snd p * snd p.

(** The cells a walk over the circle goes through. *)
Definition Circle_cells {T} (c : Circle T) : list (Z * Z) :=
  (λ p, (fst p + circ_center_x c, snd p + circ_center_z c)) <$> circ_points c.

(** How many of the visited cells had their chunk remeshed. *)
Definition remeshed_count (visited : list (Z * Z * bool)) : Z :=
  Z.of_nat (length (filter (λ e, snd e = true) visited)).

(** The order of the sort of the constructor. *)
Definition by_distance (p q : Z * Z * Z) : Prop := snd p ≤ snd q.

(** What holds of the variables of the walk after the points [pre]. *)
Definition remesh_inv (cx cz : Z) (pre : list (Z * Z)) (st : RemeshState)
  : Prop :=
  fst <$> rs_visited st = (λ p : Z * Z, (fst p + cx, snd p + cz)) <$> pre
  ∧ rs_total st = Z.of_nat (length pre)
  ∧ rs_meshed st = remeshed_count (rs_visited st)
  ∧ remeshed_count (drop 9 (rs_visited st)) ≤ kNumChunksToMeshPerFrame
  ∧ (∀ k, (9 ≤ k < length (rs_visited st))%nat →
       remeshed_count (take k (rs_visited st)) < kNumChunksToMeshPerFrame).

(** What holds when the walk over [all] has ended. *)
Definition remesh_post (cx cz : Z) (all : list (Z * Z)) (st : RemeshState)
  : Prop :=
  fst <$> rs_visited st `prefix_of` (λ p : Z * Z, (fst p + cx, snd p + cz)) <$> all
  ∧ remeshed_count (drop 9 (rs_visited st)) ≤ kNumChunksToMeshPerFrame
  ∧ (∀ k, (9 ≤ k < length (rs_visited st))%nat →
       remeshed_count (take k (rs_visited st)) < kNumChunksToMeshPerFrame)
  ∧ ((length (rs_visited st) < length all)%nat →
       (9 ≤ length (rs_visited st))%nat
       ∧ kNumChunksToMeshPerFrame ≤ remeshed_count (rs_visited st)).

(** The dirty flags [d'] are those of [d] up to level [l]. *)
Definition dirty_below (l : Z) (d d' : list bool) : Prop :=
  length d' = length d ∧ ∀ k, k ≤ l → ta_get false d' k = ta_get false d k.

(** How many of the tiles meshed in a walk were new to the circle and had
    no meshed child: the ones the budget is counted against. *)
Definition budgeted_count (created : list (Z * Z * Z * bool)) : Z :=
  Z.of_nat (length (filter (λ e, snd (fst e) = 0 ∧ snd e = true) created)).

(** What holds of the variables of the walk of [computeLODAtLevel] between
    two visits. *)
Definition lod_inv (l : Z) (d0 : list bool) (st : LODState) : Prop :=
  ls_counter st = Z.of_nat (length (ls_created st))
  ∧ budgeted_count (ls_created st) ≤ kNumLODChunksToMeshPerFrame
  ∧ (ls_passed st ≠ [] → ls_skipped st = true)
  ∧ dirty_below l d0 (fr_dirty (world_frontier (ls_world st))).

(** What one level of [remeshFrontier] leaves behind, read in the world
    [w'] to come. *)
Definition level_ok (w' : World) (l : Z) (st : LODState) : Prop :=
  ls_counter st = Z.of_nat (length (ls_created st))
  ∧ budgeted_count (ls_created st) ≤ kNumLODChunksToMeshPerFrame
  ∧ (ls_passed st ≠ [] → ta_get false (fr_dirty (world_frontier w')) l = true).

(** The tiles handed to [createLODMeshes] at level [l] of a run of
    [remeshFrontier]. *)
Definition created_at (l : nat) (run : option (World * list (option LODState)))
  : option (list (Z * Z * Z * bool)) :=
  '(_, logs) ← run; log ← logs !! l; st ← log; Some (ls_created st).


(** A circle that the constructor built for the given radius, in any later
    state: centre and elements vary, [shift] and [mask] do not. *)
Definition Circle_of_radius {T} (radius : Q) (c : Circle T) : Prop :=
  Circle_shift_of (Qfloor radius) = Some (circ_shift c)
  ∧ circ_mask c = js_shl 1 (circ_shift c) - 1.

(** Every element sits in the slot of its own coordinates, where [set]
    puts it. *)
Definition Circle_placed {T} `{CircleElement T} (c : Circle T) : Prop :=
  ∀ (i : nat) e, circ_elements c !! i = Some (Some e) →
    Circle_index c (elt_cx e) (elt_cz e) = Z.of_nat i.




(** ** Heights *)

(** [stop] tells the blocks that count: the blocks other than the empty one
    for [heightmap], the solid ones for [light_map]. *)
Definition nonempty (b : Z) : bool := bool_decide (b ≠ kEmptyBlock).

(** [h] is the smallest [y] such that no voxel of the column [(xm, zm)] at
    [y .. kWorldHeight - 1] counts: none does from [h] on, and the one
    below [h], if there is one, does. *)
Definition top_of (stop : Z → bool) (c : Chunk) (xm zm h : Z) : Prop :=
  0 ≤ h ≤ kWorldHeight
  ∧ (∀ y, h ≤ y < kWorldHeight →
       stop (Tensor3_get (chunk_voxels c) xm y zm) = false)
  ∧ (0 < h → stop (Tensor3_get (chunk_voxels c) xm (h - 1) zm) = true).

Definition heights_ok (r : Registry) (c : Chunk) : Prop :=
  ∀ xm zm, 0 ≤ xm < kChunkWidth → 0 ≤ zm < kChunkWidth →
    top_of nonempty c xm zm (Tensor2_get (chunk_heightmap c) xm zm)
    ∧ top_of (Registry_isSolid r) c xm zm
        (Tensor2_get (chunk_light_map c) xm zm).

(** The height that [updateHeightmap] leaves in the cell of its column,
    from the height [h] it finds there. *)
Definition next_top (stop : Z → bool) (data : list Z)
    (index start count block h : Z) : Z :=
  if decide (stop block = false ∧ start < h ∧ h ≤ start + count) then
    start - scan_down stop data index (Z.to_nat start) 0
  else if decide (stop block = true ∧ h ≤ start + count) then start + count
  else h.

(** The calls that write into a chunk. *)
Inductive ChunkCall :=
| CallSetBlock (x y z block : Z)
| CallSetColumn (x z start count block : Z).

Definition Chunk_call (r : Registry) (c : Chunk) (k : ChunkCall) : Chunk :=
  match k with
  | CallSetBlock x y z block => Chunk_setBlock_self r c x y z block
  | CallSetColumn x z start count block =>
      Chunk_setColumn r c x z start count block
  end.

(** A call that stays inside the column and writes at least one cell. *)
Definition call_in_range (k : ChunkCall) : Prop :=
  match k with
  | CallSetBlock x y z block => 0 ≤ y < kWorldHeight
  | CallSetColumn x z start count block =>
      0 ≤ start ∧ 1 ≤ count ∧ start + count ≤ kWorldHeight
  end.

(** ** Columns *)

(** The runs of a column, as [fillChunk] reads them. *)
Definition Column_runs (col : Column) : list (Z * Z) :=
  (λ i, ta_get (0, 0) (col_data col) i) <$> seqZ 0 (col_size col).

(** Runs that stack up from [start] to [stop], each one higher than the
    one before and none above [kWorldHeight]. *)
Fixpoint runs_ok (start : Z) (runs : list (Z * Z)) (stop : Z) : Prop :=
  match runs with
  | [] => start = stop
  | run :: rest =>
      start < snd run ≤ kWorldHeight ∧ runs_ok (snd run) rest stop
  end.

(** The column between [clear] and the next call of the loader. *)
Definition Column_idle (col : Column) : Prop :=
  col_decorations col = [] ∧ col_last col = 0 ∧ col_size col = 0
  ∧ Z.of_nat (length (col_data col)) = kWorldHeight
  ∧ Z.of_nat (length (col_mismatches col)) = kWorldHeight
  ∧ Z.of_nat (length (col_reference_data col)) = kWorldHeight.

(** The column while the loader fills it. *)
Definition Column_ok (col : Column) : Prop :=
  Z.of_nat (length (col_data col)) = kWorldHeight
  ∧ Z.of_nat (length (col_mismatches col)) = kWorldHeight
  ∧ Z.of_nat (length (col_reference_data col)) = kWorldHeight
  ∧ 0 ≤ col_size col ≤ col_last col
  ∧ col_last col ≤ kWorldHeight
  ∧ runs_ok 0 (Column_runs col) (col_last col)
  ∧ Forall (λ d, 0 ≤ snd d < kWorldHeight) (col_decorations col).

(** The runs of the reference column. *)
Definition Column_ref_runs (col : Column) : list (Z * Z) :=
  (λ i, ta_get (0, 0) (col_reference_data col) i)
    <$> seqZ 0 (col_reference_size col).

(** The reference column once the first column of a chunk was sealed into
    it: its runs stack up to [kWorldHeight]. *)
Definition Column_ref_ok (col : Column) : Prop :=
  0 ≤ col_reference_size col ≤ kWorldHeight
  ∧ runs_ok 0 (Column_ref_runs col) kWorldHeight.

(** The column once [detectEquiLevelChanges] sealed it. *)
Definition Column_sealed (col : Column) : Prop :=
  Z.of_nat (length (col_data col)) = kWorldHeight
  ∧ Z.of_nat (length (col_mismatches col)) = kWorldHeight
  ∧ Z.of_nat (length (col_reference_data col)) = kWorldHeight
  ∧ 0 ≤ col_size col ≤ kWorldHeight
  ∧ runs_ok 0 (Column_runs col) kWorldHeight
  ∧ Forall (λ d, 0 ≤ snd d < kWorldHeight) (col_decorations col).

(** The lock-step walk between two turns: the runs still ahead of each
    side stack up from where the side stands, and one side is through
    exactly when the other is. *)
Definition walk_inv (c : Column) (w : Walk) : Prop :=
  0 ≤ w_di w ≤ col_size c
  ∧ 0 ≤ w_ri w ≤ col_reference_size c
  ∧ 0 ≤ w_d_start w ∧ 0 ≤ w_r_start w
  ∧ runs_ok (w_d_start w) (drop (Z.to_nat (w_di w)) (Column_runs c))
      kWorldHeight
  ∧ runs_ok (w_r_start w) (drop (Z.to_nat (w_ri w)) (Column_ref_runs c))
      kWorldHeight
  ∧ (w_d_start w = kWorldHeight ↔ w_r_start w = kWorldHeight)
  ∧ Z.of_nat (length (w_mismatches w)) = kWorldHeight.

(** The state of [Chunk.load] between two columns, once the first column
    is through: a chunk that satisfies [P], the column cleared and the
    reference column sealed. *)
Definition loading (P : Chunk → Prop) (st : option (Chunk * Column)) : Prop :=
  ∃ chunk col, st = Some (chunk, col)
    ∧ P chunk ∧ Column_idle col ∧ Column_ref_ok col.

(** ** Worlds *)

(** Every chunk held by the circle of the world, in whatever slot,
    satisfies [P]. *)
Definition World_all (P : Chunk → Prop) (w : World) : Prop :=
  ∀ (i : nat) c, circ_elements (world_chunks w) !! i = Some (Some c) → P c.

(** The world between two calls: the shared column is cleared, the
    registry is [r], and the chunks satisfy [P]. *)
Definition World_keeps (r : Registry) (P : Chunk → Prop) (w : World) : Prop :=
  Column_idle (world_column w) ∧ world_registry w = r ∧ World_all P w.

(** What the frontier may change of the world: not the chunks, not the
    registry, and the column only so that it stays cleared. *)
Definition frontier_frame (w w' : World) : Prop :=
  world_chunks w' = world_chunks w
  ∧ world_registry w' = world_registry w
  ∧ (Column_idle (world_column w) → Column_idle (world_column w')).

(** A world whose chunks have their two maps right. *)
Definition World_sound (w : World) : Prop :=
  Registry_isSolid (world_registry w) kEmptyBlock = false
  ∧ World_keeps (world_registry w)
      (λ c, Chunk_wf c ∧ heights_ok (world_registry w) c) w.

(** The calls of the engine on its world. *)
Inductive WorldCall :=
| CallSetLoader (bedrock : Z) (loadChunk : Loader) (loadFrontier : option Loader)
| CallRecenter (x y z : Q)
| CallWorldSetBlock (x y z block : Z)
| CallRemesh.

Definition World_call
    (meshChunk : Chunk → list (option Chunk)
                 → option VoxelMesh * option VoxelMesh)
    (meshFrontier : Z → Z → Z → Z → Z → Z → option VoxelMesh → bool
                    → option VoxelMesh)
    (w : World) (k : WorldCall) : option World :=
  match k with
  | CallSetLoader bedrock loadChunk loadFrontier =>
      Some (World_setLoader w bedrock loadChunk loadFrontier)
  | CallRecenter x y z => World_recenter w x y z
  | CallWorldSetBlock x y z block => Some (World_setBlock w x y z block)
  | CallRemesh => World_remesh meshChunk meshFrontier w
  end.

(** The calls one after the other; an exception ends the run. *)
Definition World_run meshChunk meshFrontier (w : World) (calls : list WorldCall)
  : option World :=
  foldl (λ w k, w ← w; World_call meshChunk meshFrontier w k) (Some w) calls.

(** ** Equi-levels *)

(** The block that the runs of a column put at height [y]: the block of the
    first run that ends above [y], the empty block above the last run. *)
Fixpoint block_at (runs : list (Z * Z)) (y : Z) : Z :=
  match runs with
  | [] => kEmptyBlock
  | run :: rest => if decide (y < snd run) then fst run else block_at rest y
  end.

(** The block at height [y] once the decorations are written over [base]:
    the last decoration at [y] wins. *)
Definition decorated (decs : list (Z * Z)) (y base : Z) : Z :=
  foldl (λ b (d : Z * Z), if decide (snd d = y) then fst d else b) base decs.

(** The number of decorations at height [y]. *)
Definition count_level (decs : list (Z * Z)) (y : Z) : Z :=
  Z.of_nat (length (filter (λ d : Z * Z, snd d = y) decs)).

(** The running sum that [fillEquilevels] tests at height [y]. *)
Definition mismatch_sum (m : list Z) (y : Z) : Z :=
  sum_ticks (take (Z.to_nat (y + 1)) m).

(** The decorations that the calls of a loader leave in a column. *)
Definition call_decorations (calls : list ColumnCall) : list (Z * Z) :=
  calls ≫= λ k,
    match k with
    | CallOverwrite block y =>
        if decide (0 ≤ y ∧ y < kWorldHeight) then [(block, y)] else []
    | CallPush _ _ => []
    end.

(** The columns of a chunk in the order in which [load] goes through
    them. *)
Definition load_order : list (Z * Z) :=
  x ← seqZ 0 kChunkWidth; z ← seqZ 0 kChunkWidth; [(x, z)].

(** The number of decorations at height [y] in the columns [cells] of the
    chunk [(cx, cz)]. *)
Definition decorations_at (loader : Loader) (cx cz : Z) (cells : list (Z * Z))
    (y : Z) : Z :=
  sum_ticks
    ((λ p : Z * Z,
        count_level
          (call_decorations
             (loader (fst p + js_shl cx kChunkBits)
                (snd p + js_shl cz kChunkBits))) y) <$> cells).

(** 1 when [P] holds, 0 when not. *)
Definition indicator (P : Prop) `{Decision P} : Z := if decide P then 1 else 0.

(** The walk between two turns, with what it has counted so far: up to
    where both sides stand, one mismatch at each height where the column
    and the reference differ; from there on, one when a mismatch is open.
    The counters are 16 bits wide: the sums are known modulo [2 ^ 16]. *)
Definition walk_sums (c : Column) (m0 : list Z) (w : Walk) : Prop :=
  walk_inv c w
  ∧ (∀ run, drop (Z.to_nat (w_di w)) (Column_runs c) !! O = Some run →
       w_r_start w < snd run)
  ∧ (∀ run, drop (Z.to_nat (w_ri w)) (Column_ref_runs c) !! O = Some run →
       w_d_start w < snd run)
  ∧ (∀ y, w_d_start w ≤ y →
       block_at (Column_runs c) y
       = block_at (drop (Z.to_nat (w_di w)) (Column_runs c)) y)
  ∧ (∀ y, w_r_start w ≤ y →
       block_at (Column_ref_runs c) y
       = block_at (drop (Z.to_nat (w_ri w)) (Column_ref_runs c)) y)
  ∧ ∀ y, 0 ≤ y < kWorldHeight →
      ∃ q, mismatch_sum (w_mismatches w) y
           = mismatch_sum m0 y
             + (if decide (y < Z.max (w_d_start w) (w_r_start w))
                then indicator (block_at (Column_runs c) y
                                ≠ block_at (Column_ref_runs c) y)
                else indicator (w_matched w = false))
             + q * 2 ^ 16.

(** [Chunk.load] after the columns [cells]: the columns still to come are
    empty; at each height the counters sum, modulo [2 ^ 16], to a number
    [T] of mismatches that is at least the decorations at that height and
    at most one more for each column but the first; and where [T] is 0
    every column so far holds the block of the reference column. *)
Definition load_inv (loader : Loader) (cx cz : Z) (cells : list (Z * Z))
    (st : Chunk * Column) : Prop :=
  Chunk_wf (fst st) ∧ Column_idle (snd st) ∧ Column_ref_ok (snd st)
  ∧ (∀ x z, (x, z) ∈ cells → 0 ≤ x < 16 ∧ 0 ≤ z < 16)
  ∧ (∀ x y z, 0 ≤ x < 16 → 0 ≤ z < 16 → 0 ≤ y < kWorldHeight →
       (x, z) ∉ cells →
       Tensor3_get (chunk_voxels (fst st)) x y z = kEmptyBlock)
  ∧ ∀ y, 0 ≤ y < kWorldHeight →
      ∃ T q,
        mismatch_sum (col_mismatches (snd st)) y = T + q * 2 ^ 16
        ∧ decorations_at loader cx cz cells y ≤ T
        ∧ T ≤ decorations_at loader cx cz cells y + Z.of_nat (length cells) - 1
        ∧ (T = 0 → ∀ x z, (x, z) ∈ cells →
             Tensor3_get (chunk_voxels (fst st)) x y z
             = block_at (Column_ref_runs (snd st)) y).

(** ** The scratch volume *)

(** The shape of the scratch volume, as [Scratch_new] builds it. *)
Definition Scratch_wf (s : Scratch) : Prop :=
  t3_stride (sc_buffer s) = (258, 1, 4644)
  ∧ Z.of_nat (length (t3_data (sc_buffer s))) = 83592
  ∧ t2_stride (sc_heightmap s) = (1, 18)
  ∧ Z.of_nat (length (t2_data (sc_heightmap s))) = 324
  ∧ t2_stride (sc_light_map s) = (1, 18)
  ∧ Z.of_nat (length (t2_data (sc_light_map s))) = 324
  ∧ Z.of_nat (length (sc_equilevels s)) = 258.

(** The four corner columns of the scratch volume. *)
Definition corner (i k : Z) : Prop := (i = 0 ∨ i = 17) ∧ (k = 0 ∨ k = 17).

Global Instance corner_dec i k : Decision (corner i k).
Proof. unfold corner. apply _. Defined.

(** The chunk that the column [(i, k)] of the scratch volume is taken
    from when [this] is meshed: [this] for the columns 1 to 16, its
    neighbour for column 0 and for column 17. *)
Definition gather_source (w : World) (this : Chunk) (i k : Z) : option Chunk :=
  Circle_get (world_chunks w)
    (chunk_cx this + js_sar (i - 1) kChunkBits)
    (chunk_cz this + js_sar (k - 1) kChunkBits).

(** The shape of the voxels of the scratch volume and of a chunk. *)
Definition buffer_wf (t : Tensor3) : Prop :=
  t3_stride t = (258, 1, 4644) ∧ Z.of_nat (length (t3_data t)) = 83592.

Definition voxels_wf (t : Tensor3) : Prop :=
  t3_stride t = (256, 1, 4096) ∧ Z.of_nat (length (t3_data t)) = 65536.

(** The shape of a height map of the scratch volume and of a chunk. *)
Definition border_map_wf (t : Tensor2) : Prop :=
  t2_stride t = (1, 18) ∧ Z.of_nat (length (t2_data t)) = 324.

Definition map_wf (t : Tensor2) : Prop :=
  t2_stride t = (1, 16) ∧ Z.of_nat (length (t2_data t)) = 256.

(** The cells of the scratch volume. *)
Definition in_buffer (a j b : Z) : Prop :=
  0 ≤ a < 18 ∧ 0 ≤ j < 258 ∧ 0 ≤ b < 18.

(** A part to copy: it lies inside the scratch volume and inside the
    chunk. *)
Definition part_ok (di dk si sk ni nk : Z) : Prop :=
  0 ≤ ni ∧ 0 ≤ nk ∧ 0 ≤ di ∧ di + ni ≤ 18 ∧ 0 ≤ dk ∧ dk + nk ≤ 18
  ∧ 0 ≤ si ∧ si + ni ≤ 16 ∧ 0 ≤ sk ∧ sk + nk ≤ 16.

(** What [copyEquilevels] checks of the edge of a neighbour at height
    [y], against the block of [this] at [(0, y, 0)]: without a neighbour,
    that the block is empty; with one, that the level of the neighbour is
    an equi-level of that block, or that the 16 voxels of its edge all
    hold it. *)
Definition edge_ok (this : Chunk) (chunk : option Chunk) (srcPos size : Point)
    (y : Z) : Prop :=
  let base := Tensor3_get (chunk_voxels this) 0 y 0 in
  match chunk with
  | None => base = kEmptyBlock
  | Some c =>
      (ta_get 0 (chunk_equilevels c) y = 1
       ∧ Tensor3_get (chunk_voxels c) 0 y 0 = base)
      ∨ ∀ n, 0 ≤ n < 16 →
          Tensor3_get (chunk_voxels c)
            (pt_x srcPos + (if decide (pt_x size = 1) then 0 else n)) y
            (pt_z srcPos + (if decide (pt_x size = 1) then n else 0))
          = base
  end.

(** What the mesher is to find in the column [(i, k)] of the scratch
    volume, one level up: the blocks and the two heights of the chunk the
    column is taken from, or an empty column of height 0 where no chunk is
    loaded. *)
Definition window_block (w : World) (this : Chunk) (i y k : Z) : Z :=
  match gather_source w this i k with
  | Some c => Chunk_getBlock c (i - 1) y (k - 1)
  | None => kEmptyBlock
  end.

Definition window_height (w : World) (this : Chunk) (i k : Z) : Z :=
  match gather_source w this i k with
  | Some c => Tensor2_get (chunk_heightmap c) (js_and (i - 1) kChunkMask)
                (js_and (k - 1) kChunkMask) + 1
  | None => 1
  end.

Definition window_lit (w : World) (this : Chunk) (i k : Z) : Z :=
  match gather_source w this i k with
  | Some c => Chunk_getLitHeight c (i - 1) (k - 1) + 1
  | None => 1
  end.

(** One turn of the loop of [remeshTerrain], from [s] to [s']: the part
    [di <= a < di + ni], [dk <= b < dk + nk] of the scratch volume holds
    the blocks and the heights of the chunk at the offset [c], or an empty
    column of height 0 when there is none, the rest is as before; and the
    equi-levels that the edge of the neighbour breaks are cleared. *)
Definition gathered_part (w : World) (this : Chunk) (c : Point)
    (di dk si sk ni nk : Z) (s s' : Scratch) : Prop :=
  let chunk := Circle_get (world_chunks w) (chunk_cx this + pt_x c)
                 (chunk_cz this + pt_z c) in
  (∀ a j b, in_buffer a j b →
     Tensor3_get (sc_buffer s') a j b
     = if decide (di ≤ a < di + ni ∧ dk ≤ b < dk + nk ∧ 1 ≤ j < 257)
       then match chunk with
            | Some c0 => Tensor3_get (chunk_voxels c0)
                           (si + (a - di)) (j - 1) (sk + (b - dk))
            | None => kEmptyBlock
            end
       else Tensor3_get (sc_buffer s) a j b)
  ∧ (∀ a b, 0 ≤ a < 18 → 0 ≤ b < 18 →
       Tensor2_get (sc_heightmap s') a b
       = if decide (di ≤ a < di + ni ∧ dk ≤ b < dk + nk)
         then match chunk with
              | Some c0 => Tensor2_get (chunk_heightmap c0)
                             (si + (a - di)) (sk + (b - dk)) + 1
              | None => 1
              end
         else Tensor2_get (sc_heightmap s) a b)
  ∧ (∀ a b, 0 ≤ a < 18 → 0 ≤ b < 18 →
       Tensor2_get (sc_light_map s') a b
       = if decide (di ≤ a < di + ni ∧ dk ≤ b < dk + nk)
         then match chunk with
              | Some c0 => Tensor2_get (chunk_light_map c0)
                             (si + (a - di)) (sk + (b - dk)) + 1
              | None => 1
              end
         else Tensor2_get (sc_light_map s) a b)
  ∧ (if same_chunk chunk this then sc_equilevels s' = sc_equilevels s
     else ∀ j,
       (¬ 1 ≤ j < 257 →
        ta_get 0 (sc_equilevels s') j = ta_get 0 (sc_equilevels s) j)
       ∧ (edge_ok this chunk (si, 0, sk) (ni, 256, nk) (j - 1) →
          ta_get 0 (sc_equilevels s') j = ta_get 0 (sc_equilevels s) j)
       ∧ (1 ≤ j < 257 →
          ¬ edge_ok this chunk (si, 0, sk) (ni, 256, nk) (j - 1) →
          ta_get 0 (sc_equilevels s') j = 0)).

(** The five turns, one after the other. *)
Definition gathered (w : World) (this : Chunk) (s0 s5 : Scratch) : Prop :=
  ∃ s1 s2 s3 s4,
    gathered_part w this (0, 0, 0) 1 1 0 0 16 16 s0 s1
    ∧ gathered_part w this (-1, 0, 0) 0 1 15 0 1 16 s1 s2
    ∧ gathered_part w this (1, 0, 0) 17 1 0 0 1 16 s2 s3
    ∧ gathered_part w this (0, 0, -1) 1 0 0 15 16 1 s3 s4
    ∧ gathered_part w this (0, 0, 1) 1 17 0 0 16 1 s4 s5.

(** The equi-levels of a chunk are sound: where [equilevels[y]] is 1, the
    256 voxels of the chunk at height [y] hold the same block. *)
Definition equilevels_ok (c : Chunk) : Prop :=
  ∀ y, 0 ≤ y < kWorldHeight → ta_get 0 (chunk_equilevels c) y = 1 →
    ∀ x z, 0 ≤ x < kChunkWidth → 0 ≤ z < kChunkWidth →
      Tensor3_get (chunk_voxels c) x y z = Tensor3_get (chunk_voxels c) 0 y 0.

(** A loader that writes at most 65280 decorations at each height of each
    chunk: the 16-bit counters of the column then tell apart "no
    mismatch" and "some mismatch" at every height. *)
Definition Loader_bounded (loader : Loader) : Prop :=
  ∀ cx cz y, 0 ≤ y < kWorldHeight →
    decorations_at loader cx cz load_order y ≤ 65280.

(** The loader that a call hands to the world, if any, is one of [L]. *)
Definition call_loads (L : Loader → Prop) (k : WorldCall) : Prop :=
  match k with
  | CallSetLoader _ loadChunk _ => L loadChunk
  | _ => True
  end.

(** ** The trace of the timing harness *)

Global Instance Which_eq_dec : EqDecision Which.
Proof. solve_decision. Defined.

Global Instance TimingEvent_eq_dec : EqDecision TimingEvent.
Proof. solve_decision. Defined.

(** Every entry into [render] comes right after an entry into [remesh]
    that returned. *)
Definition render_follows_remesh (tr : list TimingEvent) : Prop :=
  ∀ i, tr !! i = Some (Invoked Render) →
    ∃ j, i = S j ∧ tr !! j = Some (Invoked Remesh).

(** The number of entries into the callback [w]. *)
Definition invoked (w : Which) (tr : list TimingEvent) : nat :=
  length (filter (λ ev, ev = Invoked w) tr).

(** The number of animation frames among the pumps. *)
Fixpoint frames (pumps : list Pump) : nat :=
  match pumps with
  | [] => 0
  | Frame _ :: rest => S (frames rest)
  | Interval _ :: rest => frames rest
  end.

(** The harness between two pumps: [render] is entered after [remesh]
    only, at most once for each frame so far, and the slot of [render] is
    not left armed while the slot of [remesh] is disarmed. *)
Definition frame_inv {App Error Time} (n : nat) (t : Timing App Error Time)
  : Prop :=
  render_follows_remesh (tm_trace t)
  ∧ (invoked Render (tm_trace t) ≤ invoked Remesh (tm_trace t) ≤ n)%nat
  ∧ (tm_remesh t = Noop → tm_render t = Noop).

(** The trace of [t'] is the trace of [t] followed by entries into
    [update] only. *)
Definition updates_only {App Error Time} (t t' : Timing App Error Time)
  : Prop :=
  ∃ evs, tm_trace t' = tm_trace t ++ evs
    ∧ Forall (λ ev, ev = Invoked Update ∨ ev = Raised Update) evs.

(** ** The mask of a multi-mesh, as the vertex shader reads it *)

(** [hide] in the vertex shader of the renderer: the bit [a_mask] of the two
    words of [u_mask]. The shader's [int] is the 32-bit integer of the bit
    operators above. *)
Definition shader_hide (u_mask : list Z) (a_mask : Z) : bool :=
  let mask := a_mask in
  let mask_index := js_sar mask 5 in
  let mask_value := js_shl 1 (js_and mask 31) in
  bool_decide (js_and (ta_get 0 u_mask mask_index) mask_value ≠ 0).

(* ===================================================================== *)
(** * Worlds to run the definitions on *)
(* ===================================================================== *)

(** A registry with two registered blocks, both solid: 2 and 3. *)
Definition example_registry : Registry :=
  {| reg_opaque := [false; false; true; true];
     reg_solid := [false; true; true; true] |}.

(** The loader of the empty flat world: it pushes nothing. *)
Definition empty_loader : Loader := λ _ _, [].

(** Flat ground of block 2 up to height 4, and one block 3 written at
    height 6 over the column at the origin. *)
Definition tree_loader : Loader := λ x z,
  if decide (x = 0 ∧ z = 0) then [CallPush 2 4; CallOverwrite 3 6]
  else [CallPush 2 4].

Definition empty_world : World :=
  mkWorld (mkCircle 0 0 [] [] [] 0 0) Column_new example_registry
    (mkFrontier [] [] ∅ 0) kEmptyBlock None None.

(** A fresh world with its loader set, bedrock being block 2. *)
Definition fresh_world : World :=
  default empty_world
    (w ← World_new example_registry;
     Some (World_setLoader w 2 empty_loader None)).

Fixpoint recenter_times (n : nat) (w : World) : option World :=
  match n with
  | O => Some w
  | S n => w ← World_recenter w 0 0 0; recenter_times n w
  end.

(** The world after five calls of [recenter(0, 0, 0)]: the chunk [(0, 0)]
    and its four neighbours are loaded. *)
Definition example_world : World :=
  default empty_world (recenter_times 5 fresh_world).

(** Its chunk at [(cx, cz)]. *)
Definition example_chunk (cx cz : Z) : Chunk :=
  default (Chunk_init cx cz) (Circle_get (world_chunks example_world) cx cz).

(** A mesher that answers every chunk with one solid mesh. *)
Definition example_mesher (this : Chunk) (around : list (option Chunk))
  : option VoxelMesh * option VoxelMesh := (Some 1, None).

(** A frontier mesher that answers every strip with a mesh. *)
Definition example_lod_mesher (mask px pz nx nz lod : Z)
    (old : option VoxelMesh) (is_solid : bool) : option VoxelMesh := Some mask.

(** The world after ten calls of [recenter(0, 0, 0)] and the chunk walk of
    one [remesh]: the chunks [(0, 0)] and [(-1, 0)] have their four
    neighbours and are meshed. *)
Definition lod_world : World :=
  default empty_world
    (w ← recenter_times 10 fresh_world;
     st ← World_remesh_chunks example_mesher w;
     Some (rs_world st)).

(** [lod_world] after [recenter(64, 0, 0)]: the centre chunk is [(4, 0)]
    and the tile at the centre of level 0, [(2, 0)], has no meshed chunk
    below it, while the tiles [(0, 0)] and [(-1, 0)] have one each. *)
Definition budget_world : World :=
  default empty_world
    (w ← recenter_times 10 fresh_world;
     st ← World_remesh_chunks example_mesher w;
     World_recenter (rs_world st) 64 0 0).

(** A run of the timing harness whose [render] callback throws: the clock
    advances 20 ms per read, ticks are 16 ms apart, and the pumps are a
    frame, a timer interval and another frame. *)
Definition example_clock (n : nat) : Z := 20 * Z.of_nat n.

Definition example_timing : Timing Z Z Z :=
  Timing_run example_clock Z.add Z.ltb (λ a b, (a - b) / 1000) 16 64 0
    [Frame 4; Interval 4; Frame 4]
    (Timing_new example_clock
       (λ _ a, Returned (a + 1)) (λ _ a, Threw a 7) (λ _ a, Returned a) 0).

(** A multi-mesh with tile 5 meshed, and with tile 5 shown under mask 6. *)
Definition example_multimesh : LODMultiMesh :=
  mkLODMultiMesh None None (ta_set (lod_meshed LODMultiMesh_new) 5 true)
    (lod_mask LODMultiMesh_new) (lod_enabled LODMultiMesh_new).

Definition example_shown : LODMultiMesh :=
  default example_multimesh (LODMultiMesh_show example_multimesh 5 6).

(* ===================================================================== *)
(** * Properties *)
(* ===================================================================== *)

(** ** Integers and typed arrays *)

Lemma int32_small z : - 2 ^ 31 ≤ z < 2 ^ 31 → int32 z = z.
Proof. intros H. unfold int32. rewrite Z.mod_small; lia. Qed.

Lemma int32_range z : - 2 ^ 31 ≤ int32 z < 2 ^ 31.
Proof.
  unfold int32. pose proof (Z.mod_pos_bound (z + 2 ^ 31) (2 ^ 32)). lia.
Qed.

Lemma int32_mod z : int32 z mod 2 ^ 32 = z mod 2 ^ 32.
Proof.
  unfold int32. rewrite (Z.mod_eq (z + 2 ^ 31)) by lia.
  replace (z + 2 ^ 31 - 2 ^ 32 * ((z + 2 ^ 31) `div` 2 ^ 32) - 2 ^ 31)
    with (z + (- ((z + 2 ^ 31) `div` 2 ^ 32)) * 2 ^ 32) by lia.
  apply Z.mod_add. lia.
Qed.

Lemma js_and_ones a k :
  0 ≤ k ≤ 31 → js_and a (2 ^ k - 1) = a mod 2 ^ k.
Proof.
  intros Hk. unfold js_and.
  assert (0 < 2 ^ k ≤ 2 ^ 31).
  { split; [apply Z.pow_pos_nonneg; lia|apply Z.pow_le_mono_r; lia]. }
  rewrite (int32_small (2 ^ k - 1)) by lia.
  replace (2 ^ k - 1) with (Z.ones k) by (rewrite Z.ones_equiv; lia).
  rewrite Z.land_ones by lia.
  replace (2 ^ 32) with (2 ^ k * 2 ^ (32 - k)) in *.
  2:{ rewrite <- Z.pow_add_r by lia. f_equal. lia. }
  pose proof (int32_mod a) as Hm.
  replace (2 ^ 32) with (2 ^ k * 2 ^ (32 - k)) in Hm.
  2:{ rewrite <- Z.pow_add_r by lia. f_equal. lia. }
  apply (f_equal (λ v, v mod 2 ^ k)) in Hm.
  assert (0 < 2 ^ (32 - k)) by (apply Z.pow_pos_nonneg; lia).
  rewrite !Z.rem_mul_r in Hm by lia.
  rewrite !(Z.mul_comm (2 ^ k)), !Z.mod_add in Hm by lia.
  by rewrite !Z.mod_mod in Hm by lia.
Qed.

Lemma js_and_15 a : js_and a 15 = a mod 16.
Proof. apply (js_and_ones a 4). lia. Qed.

Lemma js_and_15_range a : 0 ≤ js_and a 15 < 16.
Proof. rewrite js_and_15. apply Z.mod_pos_bound. lia. Qed.

Lemma kChunkMask_eq : kChunkMask = 15.
Proof. reflexivity. Qed.

Lemma kChunkWidth_eq : kChunkWidth = 16.
Proof. reflexivity. Qed.

Section typed_arrays.
Context {A : Type}.
Implicit Types (a : list A) (i j : Z) (v d : A).

Lemma length_ta_set a i v : length (ta_set a i v) = length a.
Proof. unfold ta_set. case_decide; [apply length_insert|done]. Qed.

Lemma ta_get_set_eq a i v d :
  0 ≤ i < Z.of_nat (length a) → ta_get d (ta_set a i v) i = v.
Proof.
  intros Hi. unfold ta_get, ta_set. rewrite !decide_True by lia.
  rewrite list_lookup_insert_eq by lia. done.
Qed.

Lemma ta_get_set_ne a i j v d :
  i ≠ j → ta_get d (ta_set a i v) j = ta_get d a j.
Proof.
  intros Hne. unfold ta_get, ta_set.
  destruct (decide (0 ≤ j)); [|done].
  destruct (decide (0 ≤ i)); [|done].
  rewrite list_lookup_insert_ne by lia. done.
Qed.

Lemma ta_get_lookup a i d x :
  0 ≤ i → a !! Z.to_nat i = Some x → ta_get d a i = x.
Proof. intros Hi Hx. unfold ta_get. rewrite decide_True by done. by rewrite Hx. Qed.

End typed_arrays.

(** ** Circle: reading and replacing elements *)

Section circle_lookup.
Context {T : Type} `{CircleElement T}.
Implicit Types (c : Circle T) (f : T → T).

Lemma Circle_get_Some c cx cz v :
  Circle_get c cx cz = Some v →
  0 ≤ Circle_index c cx cz
  ∧ circ_elements c !! Z.to_nat (Circle_index c cx cz) = Some (Some v)
  ∧ elt_cx v = cx ∧ elt_cz v = cz.
Proof.
  unfold Circle_get, Circle_slot, ta_get. intros Hget.
  destruct (decide (0 ≤ Circle_index c cx cz)); [|done].
  destruct (circ_elements c !! _) as [[u|]|] eqn:Hslot; simpl in Hget; try done.
  case_decide as Hd; [|done]. destruct Hd. by simplify_eq.
Qed.

Lemma Circle_get_slot c cx cz v :
  0 ≤ Circle_index c cx cz →
  circ_elements c !! Z.to_nat (Circle_index c cx cz) = Some (Some v) →
  Circle_get c cx cz =
    if decide (elt_cx v = cx ∧ elt_cz v = cz) then Some v else None.
Proof.
  intros Hi Hslot. unfold Circle_get, Circle_slot, ta_get.
  rewrite decide_True by done. by rewrite Hslot.
Qed.

(** Replacing the element at [(cx, cz)] by one with the same coordinates
    is seen at [(cx, cz)] and nowhere else. *)
Lemma Circle_get_update c cx cz f a b :
  (∀ v, elt_cx (f v) = elt_cx v ∧ elt_cz (f v) = elt_cz v) →
  Circle_get (Circle_update c cx cz f) a b =
    if decide (a = cx ∧ b = cz) then f <$> Circle_get c cx cz
    else Circle_get c a b.
Proof.
  intros Hf. unfold Circle_update.
  destruct (Circle_get c cx cz) as [v|] eqn:Hget.
  2:{ case_decide as Hab; [|done]. destruct Hab as [-> ->]. by rewrite Hget. }
  destruct (Circle_get_Some _ _ _ _ Hget) as (Hi & Hslot & Hx & Hz).
  pose proof (lookup_lt_Some _ _ _ Hslot) as Hlt.
  case_decide as Hab.
  - destruct Hab as [-> ->]. simpl.
    unfold Circle_get, Circle_slot. simpl.
    change (Circle_index (Circle_with_elements _ c) cx cz)
      with (Circle_index c cx cz).
    rewrite ta_get_set_eq by lia.
    destruct (Hf v) as [-> ->]. by rewrite decide_True.
  - unfold Circle_get at 1, Circle_slot. simpl.
    change (Circle_index (Circle_with_elements _ c) a b)
      with (Circle_index c a b).
    destruct (decide (Circle_index c cx cz = Circle_index c a b)) as [Heq|Hne].
    + rewrite <- Heq, ta_get_set_eq by lia.
      destruct (Hf v) as [-> ->].
      rewrite decide_False by (intros [? ?]; apply Hab; split; congruence).
      rewrite (Circle_get_slot c a b v) by (rewrite <- ?Heq; done).
      rewrite decide_False by (intros [? ?]; apply Hab; split; congruence).
      done.
    + by rewrite ta_get_set_ne.
Qed.

End circle_lookup.

Lemma Circle_get_set {T} `{CircleElement T} (c c' : Circle T) cx cz v a b :
  elt_cx v = cx → elt_cz v = cz →
  Circle_set c cx cz v = Some c' →
  Circle_get c cx cz = None
  ∧ Circle_get c' a b
    = if decide (a = cx ∧ b = cz) then Some v else Circle_get c a b.
Proof.
  intros Hx Hz Hset. unfold Circle_set in Hset.
  destruct (decide (0 ≤ Circle_index c cx cz)) as [Hi|]; [|discriminate Hset].
  destruct (circ_elements c !! _) as [[|]|] eqn:Hslot; try discriminate Hset.
  injection Hset as <-.
  pose proof (lookup_lt_Some _ _ _ Hslot) as Hlt.
  assert (Circle_get c cx cz = None) as Hnone.
  { unfold Circle_get, Circle_slot, ta_get. rewrite decide_True by done.
    by rewrite Hslot. }
  split; [done|].
  unfold Circle_get at 1, Circle_slot. cbn [circ_elements Circle_with_elements].
  change (Circle_index (Circle_with_elements _ c) a b) with (Circle_index c a b).
  destruct (decide (Circle_index c cx cz = Circle_index c a b)) as [Heq|Hne].
  - rewrite <- Heq, ta_get_set_eq by lia. rewrite Hx, Hz.
    destruct (decide (cx = a ∧ cz = b)) as [[-> ->]|Hab].
    + by rewrite decide_True.
    + rewrite decide_False by (intros [-> ->]; by apply Hab).
      unfold Circle_get, Circle_slot, ta_get. rewrite <- Heq.
      rewrite decide_True by done. by rewrite Hslot.
  - rewrite ta_get_set_ne by done.
    rewrite decide_False; [done|]. intros [-> ->]. by apply Hne.
Qed.

(** ** Chunk.setBlock *)

Lemma Chunk_wf_index (c : Chunk) (xm y zm : Z) :
  Chunk_wf c → Tensor3_index (chunk_voxels c) xm y zm = xm * 256 + y + zm * 4096.
Proof. intros (Hs & _). unfold Tensor3_index. rewrite Hs. lia. Qed.

Lemma Chunk_updateHeightmap_voxels r c xm zm index start count block :
  chunk_voxels (Chunk_updateHeightmap r c xm zm index start count block)
  = chunk_voxels c.
Proof. done. Qed.

Lemma Chunk_setBlock_self_coords r c x y z b :
  chunk_cx (Chunk_setBlock_self r c x y z b) = chunk_cx c
  ∧ chunk_cz (Chunk_setBlock_self r c x y z b) = chunk_cz c.
Proof. unfold Chunk_setBlock_self. by case_decide. Qed.

(** What a write of a new block leaves in the chunk itself. *)
Lemma Chunk_setBlock_self_written r c x y z b :
  Chunk_wf c → 0 ≤ y < kWorldHeight →
  Chunk_getBlock c x y z ≠ b →
  let c' := Chunk_setBlock_self r c x y z b in
  Chunk_getBlock c' x y z = b
  ∧ chunk_dirty c' = true
  ∧ ta_get 1 (chunk_equilevels c') y = 0.
Proof.
  intros Hwf Hy Hold. pose proof Hwf as (Hs & Hlen & _ & _ & _ & _ & Heq).
  unfold kWorldHeight in Hy.
  unfold Chunk_getBlock in Hold.
  unfold Chunk_setBlock_self. rewrite decide_False by done. simpl.
  split_and!; [|done|].
  - unfold Chunk_getBlock, Tensor3_get. simpl.
    unfold Tensor3_index; simpl. rewrite Hs.
    pose proof (js_and_15_range x). pose proof (js_and_15_range z).
    rewrite kChunkMask_eq. apply ta_get_set_eq. lia.
  - apply ta_get_set_eq. lia.
Qed.

(** Marking the neighbour at [(a0, c0)] when [cond] holds. *)
Lemma Circle_get_mark (cond : Prop) `{Decision cond} (w : World) (a0 c0 a c : Z) :
  Circle_get
    (world_chunks
       (if decide cond
        then World_update_chunk a0 c0 (Chunk_with_dirty true) w else w)) a c
  = if decide (cond ∧ a = a0 ∧ c = c0)
    then Chunk_with_dirty true <$> Circle_get (world_chunks w) a c
    else Circle_get (world_chunks w) a c.
Proof.
  destruct (decide cond) as [Hc|Hc].
  - unfold World_update_chunk. simpl. rewrite Circle_get_update by done.
    destruct (decide (a = a0 ∧ c = c0)) as [[-> ->]|Hne].
    + by rewrite decide_True.
    + rewrite decide_False; [done|]. intros (_ & ? & ?). by apply Hne.
  - rewrite decide_False; [done|]. intros (? & _). by apply Hc.
Qed.

Lemma Chunk_with_dirty_idemp (o : option Chunk) :
  Chunk_with_dirty true <$> (Chunk_with_dirty true <$> o)
  = Chunk_with_dirty true <$> o.
Proof. by destruct o. Qed.

(** C7. [Chunk.setBlock] on a loaded chunk, for a height in range: nothing
    changes when the stored block is already [b]; otherwise the voxel is
    written, the chunk is marked dirty, its equi-level at [y] is cleared,
    and the loaded neighbours that become dirty are exactly those across
    the chunk edges the cell lies on (at most two) -- every other chunk is
    left as it was, so a write in the interior marks no neighbour. *)
Theorem Chunk_setBlock_effects (w : World) (this : Chunk) (cx cz x y z b : Z) :
  Circle_get (world_chunks w) cx cz = Some this →
  Chunk_wf this →
  0 ≤ y < kWorldHeight →
  let xm := js_and x 15 in
  let zm := js_and z 15 in
  let w' := Chunk_setBlock w cx cz x y z b in
  (Chunk_getBlock this x y z = b → w' = w)
  ∧ (Chunk_getBlock this x y z ≠ b →
     (∃ this', Circle_get (world_chunks w') cx cz = Some this'
        ∧ Chunk_getBlock this' x y z = b
        ∧ chunk_dirty this' = true
        ∧ ta_get 1 (chunk_equilevels this') y = 0)
     ∧ (∀ a c, (a, c) ≠ (cx, cz) →
        Circle_get (world_chunks w') a c =
          if decide (marked_neighbor xm zm cx cz a c)
          then Chunk_with_dirty true <$> Circle_get (world_chunks w) a c
          else Circle_get (world_chunks w) a c)
     ∧ (0 < xm < 15 → 0 < zm < 15 → ∀ a c, (a, c) ≠ (cx, cz) →
        Circle_get (world_chunks w') a c = Circle_get (world_chunks w) a c)).
Proof.
  intros Hget Hwf Hy xm zm w'.
  split.
  { intros Hsame. subst w'. unfold Chunk_setBlock. rewrite Hget.
    unfold Chunk_getBlock in Hsame. by rewrite decide_True. }
  intros Hnew.
  set (self := Chunk_setBlock_self (world_registry w) this x y z b).
  assert (Hall : ∀ a c, Circle_get (world_chunks w') a c =
            if decide (a = cx ∧ c = cz) then Some self
            else if decide (marked_neighbor xm zm cx cz a c)
                 then Chunk_with_dirty true <$> Circle_get (world_chunks w) a c
                 else Circle_get (world_chunks w) a c).
  { intros a c. subst w'. unfold Chunk_setBlock. rewrite Hget.
    unfold Chunk_getBlock in Hnew. rewrite decide_False by done.
    rewrite kChunkMask_eq. fold xm zm. clearbody xm zm.
    rewrite !Circle_get_mark. unfold World_update_chunk.
    cbn [world_chunks World_with_chunks].
    rewrite Circle_get_update by (intros v; apply Chunk_setBlock_self_coords).
    rewrite Hget. cbn [fmap option_fmap option_map]. fold self. clearbody self.
    clear Hget Hwf Hy Hnew. unfold marked_neighbor.
    destruct (decide (a = cx ∧ c = cz)) as [[-> ->]|Hne].
    - rewrite !decide_False by lia. done.
    - set (o := Circle_get (world_chunks w) a c). clearbody o.
      repeat case_decide.
      all: rewrite ?Chunk_with_dirty_idemp.
      all: try reflexivity.
      all: exfalso; destruct_and?; subst;
        try (apply H3; clear; lia); unfold not in *; intuition lia. }
  split_and!.
  - exists self. rewrite Hall, decide_True by done. split; [done|].
    by apply Chunk_setBlock_self_written.
  - intros a c Hne. rewrite Hall, decide_False; [done|].
    intros [-> ->]. by apply Hne.
  - intros Hx Hz a c Hne. rewrite Hall, decide_False.
    + rewrite decide_False; [done|]. unfold marked_neighbor. lia.
    + intros [-> ->]. by apply Hne.
Qed.


(** The chunks of [example_world] are read off by evaluation. *)
Lemma example_chunk_loaded (cx cz : Z) :
  bool_decide (is_Some (Circle_get (world_chunks example_world) cx cz)) = true →
  Circle_get (world_chunks example_world) cx cz = Some (example_chunk cx cz).
Proof.
  intros Hsome. apply bool_decide_eq_true_1 in Hsome. unfold example_chunk.
  by destruct Hsome as [c ->].
Defined.

Lemma Chunk_setBlock_effects_witness :
  let w' := Chunk_setBlock example_world 0 0 15 10 4 3 in
  (Chunk_getBlock (example_chunk 0 0) 15 10 4 = 3 → w' = example_world)
  ∧ (Chunk_getBlock (example_chunk 0 0) 15 10 4 ≠ 3 →
     (∃ this', Circle_get (world_chunks w') 0 0 = Some this'
        ∧ Chunk_getBlock this' 15 10 4 = 3
        ∧ chunk_dirty this' = true
        ∧ ta_get 1 (chunk_equilevels this') 10 = 0)
     ∧ (∀ a c, (a, c) ≠ (0, 0) →
        Circle_get (world_chunks w') a c =
          if decide (marked_neighbor (js_and 15 15) (js_and 4 15) 0 0 a c)
          then Chunk_with_dirty true <$> Circle_get (world_chunks example_world) a c
          else Circle_get (world_chunks example_world) a c)
     ∧ (0 < js_and 15 15 < 15 → 0 < js_and 4 15 < 15 →
        ∀ a c, (a, c) ≠ (0, 0) →
        Circle_get (world_chunks w') a c
        = Circle_get (world_chunks example_world) a c)).
Proof.
  apply (Chunk_setBlock_effects example_world (example_chunk 0 0) 0 0 15 10 4 3).
  - apply example_chunk_loaded. vm_compute. reflexivity.
  - unfold Chunk_wf. vm_compute. done.
  - vm_compute. done.
Defined.

(** ** World.getBlock and World.setBlock *)

(** C8. [World.getBlock(x, y, z)] is the bedrock block below [y = 0], the
    empty block (0) at and above [kWorldHeight], the unknown block (1) for a
    height in range whose chunk [(x >> 4, z >> 4)] is not loaded, and
    otherwise the voxel stored in the loaded chunk. *)
Theorem World_getBlock_cases (w : World) (x y z : Z) :
  (y < 0 → World_getBlock w x y z = world_bedrock w)
  ∧ (256 ≤ y → World_getBlock w x y z = 0)
  ∧ (0 ≤ y < 256 →
     Circle_get (world_chunks w) (js_sar x 4) (js_sar z 4) = None →
     World_getBlock w x y z = 1)
  ∧ (∀ chunk, 0 ≤ y < 256 →
     Circle_get (world_chunks w) (js_sar x 4) (js_sar z 4) = Some chunk →
     World_getBlock w x y z
     = Tensor3_get (chunk_voxels chunk) (js_and x 15) y (js_and z 15)).
Proof.
  unfold World_getBlock. change kChunkBits with 4. change kWorldHeight with 256.
  split_and!.
  - intros Hy. by rewrite decide_True.
  - intros Hy. rewrite decide_False, decide_True by lia. done.
  - intros Hy Hnone. rewrite !decide_False by lia. by rewrite Hnone.
  - intros chunk Hy Hsome. rewrite !decide_False by lia. by rewrite Hsome.
Qed.

(** C10. [World.setBlock(x, y, z, b)] with [y] below 0, at or above
    [kWorldHeight], or with no chunk loaded at [(x >> 4, z >> 4)] returns
    the world it was given: no voxel, heightmap, lit height, equi-level or
    dirty flag of any chunk changes, and every [getBlock] answers as
    before. *)
Theorem World_setBlock_noop (w : World) (x y z b : Z) :
  y < 0 ∨ kWorldHeight ≤ y
    ∨ Circle_get (world_chunks w) (js_sar x 4) (js_sar z 4) = None →
  World_setBlock w x y z b = w
  ∧ ∀ x' y' z', World_getBlock (World_setBlock w x y z b) x' y' z'
                = World_getBlock w x' y' z'.
Proof.
  intros Hcase.
  assert (Heq : World_setBlock w x y z b = w).
  { unfold World_setBlock. case_decide as Hy; [|done].
    destruct Hcase as [Hlo|[Hhi|Hnone]]; [lia|lia|].
    change kChunkBits with 4. by rewrite Hnone. }
  split; [done|]. intros. by rewrite Heq.
Qed.

Lemma World_setBlock_noop_witness :
  World_setBlock example_world 40 10 4 3 = example_world
  ∧ ∀ x' y' z', World_getBlock (World_setBlock example_world 40 10 4 3) x' y' z'
                = World_getBlock example_world x' y' z'.
Proof.
  apply World_setBlock_noop. right. right. vm_compute. reflexivity.
Defined.

(** ** Timing: a throwing callback silences the harness *)

Section timing_silence.
Context {App Error Time : Type}.
Context (clock : nat → Time) (t_add : Time → Time → Time)
  (t_lt : Time → Time → bool) (seconds_between : Time → Time → Time)
  (updateDelay updateLimit tick : Time).

Local Abbreviation Timing := (Timing App Error Time).
Local Abbreviation now := (Timing_now clock).
Local Abbreviation perf := (Timing_perf clock).
Local Abbreviation onError := (@Timing_onError App Error Time).
Local Abbreviation call := (@Timing_call App Error Time).
Local Abbreviation turn :=
  (update_turn clock t_add t_lt updateDelay tick).
Local Abbreviation loop :=
  (update_loop clock t_add t_lt updateDelay tick).
Local Abbreviation updateHandler :=
  (Timing_updateHandler clock t_add t_lt updateDelay
     updateLimit tick).
Local Abbreviation renderHandler :=
  (Timing_renderHandler clock t_add t_lt seconds_between
     updateDelay updateLimit tick).
Local Abbreviation pump :=
  (Timing_pump clock t_add t_lt seconds_between
     updateDelay updateLimit tick).

Implicit Types (t : Timing) (tr : list TimingEvent).

Lemma timing_inv_same t t' : same_slots t t' → timing_inv t → timing_inv t'.
Proof.
  intros (H1 & H2 & H3 & H4 & H5). unfold timing_inv, silenced.
  by rewrite H1, H2, H3, H4, H5.
Qed.

Lemma timing_inv_perf t : timing_inv t → timing_inv (perf t).
Proof. by apply timing_inv_same. Qed.

Lemma timing_inv_now t : timing_inv t → timing_inv (now t).2.
Proof. by apply timing_inv_same. Qed.

Lemma timing_inv_lastUpdate x t :
  timing_inv t → timing_inv (Timing_with_lastUpdate x t).
Proof. by apply timing_inv_same. Qed.

Lemma timing_inv_lastRender x t :
  timing_inv t → timing_inv (Timing_with_lastRender x t).
Proof. by apply timing_inv_same. Qed.

Lemma unraised_app_invoked tr w : unraised tr → unraised (tr ++ [Invoked w]).
Proof.
  intros Htr w' Hin. apply elem_of_app in Hin as [Hin|Hin].
  - by apply (Htr w').
  - by apply list_elem_of_singleton in Hin.
Qed.

(** A call through a slot, followed by [onError] if it threw. *)
Lemma timing_inv_call w dt t :
  timing_inv t →
  match call w dt t with
  | (t', None) => timing_inv t'
  | (t', Some e) => timing_inv (onError e t')
  end.
Proof.
  intros [Hs|[Hu Hc]].
  - (* silenced: the slot holds the no-op *)
    destruct Hs as (Hr & Hd & Hup & Hrest).
    unfold Timing_call. destruct w; rewrite ?Hr, ?Hd, ?Hup; by left.
  - unfold Timing_call.
    destruct (match w with
              | Remesh => tm_remesh t
              | Render => tm_render t
              | Update => tm_update t
              end) as [f|]; [|by right].
    destruct (f dt (tm_app t)) as [a|a e].
    + right. simpl. split; [by apply unraised_app_invoked|done].
    + left. unfold silenced. simpl. rewrite Hc. split_and!; try done.
      exists (tm_trace t ++ [Invoked w]), w. split.
      * by rewrite <- app_assoc.
      * by apply unraised_app_invoked.
Qed.

Lemma timing_inv_turn limit t : timing_inv t → timing_inv (turn limit t).1.1.
Proof.
  intros Hinv. unfold update_turn.
  pose proof (timing_inv_call Update tick (perf t) (timing_inv_perf _ Hinv)) as Hc.
  destruct (call Update tick (perf t)) as [t1 [e|]].
  - set (t2 := Timing_with_lastUpdate _ (onError e t1)).
    assert (timing_inv t2) as H2 by by apply timing_inv_lastUpdate.
    destruct (now t2) as [n t3] eqn:Hnow.
    assert (timing_inv t3) as H3.
    { replace t3 with (now t2).2 by by rewrite Hnow. by apply timing_inv_now. }
    destruct (t_lt limit n); simpl; [by apply timing_inv_lastUpdate|done].
  - set (t2 := Timing_with_lastUpdate _ (perf t1)).
    assert (timing_inv t2) as H2.
    { apply timing_inv_lastUpdate. by apply timing_inv_perf. }
    destruct (now t2) as [n t3] eqn:Hnow.
    assert (timing_inv t3) as H3.
    { replace t3 with (now t2).2 by by rewrite Hnow. by apply timing_inv_now. }
    destruct (t_lt limit n); simpl; [by apply timing_inv_lastUpdate|done].
Qed.

Lemma timing_inv_loop fuel limit n t :
  timing_inv t → timing_inv (loop fuel limit n t).
Proof.
  revert n t. induction fuel as [|fuel IH]; intros n t Hinv; [done|].
  simpl. destruct (t_lt _ n); [|done].
  pose proof (timing_inv_turn limit t Hinv) as Hturn.
  destruct (turn limit t) as [[t1 n1] stop]. simpl in Hturn.
  destruct stop; [done|]. by apply IH.
Qed.

Lemma timing_inv_updateHandler fuel t :
  timing_inv t → timing_inv (updateHandler fuel t).
Proof.
  intros Hinv. unfold Timing_updateHandler.
  pose proof (timing_inv_now t Hinv) as Hn.
  destruct (now t) as [n t1]. by apply timing_inv_loop.
Qed.

Lemma timing_inv_renderHandler fuel t :
  timing_inv t → timing_inv (renderHandler fuel t).
Proof.
  intros Hinv. unfold Timing_renderHandler.
  pose proof (timing_inv_updateHandler fuel t Hinv) as H1.
  pose proof (timing_inv_now _ H1) as H2.
  destruct (now (updateHandler fuel t)) as [n t1]. simpl in H2.
  set (dt := seconds_between n _).
  set (t2 := perf (Timing_with_lastRender n t1)).
  assert (timing_inv t2) as H3.
  { apply timing_inv_perf. by apply timing_inv_lastRender. }
  pose proof (timing_inv_call Remesh dt t2 H3) as H4.
  destruct (call Remesh dt t2) as [t3 [e|]]; [done|].
  set (t4 := perf (perf t3)).
  assert (timing_inv t4) as H5 by by do 2 apply timing_inv_perf.
  pose proof (timing_inv_call Render dt t4 H5) as H6.
  destruct (call Render dt t4) as [t5 [e|]]; [done|].
  by apply timing_inv_perf.
Qed.

Lemma timing_inv_pump t p : timing_inv t → timing_inv (pump t p).
Proof.
  destruct p; [apply timing_inv_renderHandler|apply timing_inv_updateHandler].
Qed.

Lemma timing_inv_run pumps t :
  timing_inv t → timing_inv (foldl pump t pumps).
Proof.
  revert t. induction pumps as [|p pumps IH]; intros t Hinv; [done|].
  simpl. apply IH. by apply timing_inv_pump.
Qed.

(** C9. In the timing harness, once one of the three callbacks has thrown,
    nothing given to the constructor is called again: in the trace of any
    run of the two pumps, the throw is the last event -- no callback is
    entered after it -- and from then on the three slots hold the no-op,
    the error having been reported once. *)
Theorem Timing_silenced_after_throw
    (remesh render update : Callback App Error Time) (app : App)
    (pumps : list Pump) (pre post : list TimingEvent) (w : Which) :
  let t := Timing_run clock t_add t_lt seconds_between
             updateDelay updateLimit tick pumps
             (Timing_new clock remesh render update app) in
  tm_trace t = pre ++ Raised w :: post →
  post = []
  ∧ tm_remesh t = Noop
  ∧ tm_render t = Noop
  ∧ tm_update t = Noop
  ∧ length (tm_console t) = 1%nat.
Proof.
  intros t Htrace.
  assert (timing_inv t) as [Hs|[Hu _]].
  { apply timing_inv_run. right. split; [|done]. intros w' Hin.
    by apply elem_of_nil in Hin. }
  - destruct Hs as (Hr & Hd & Hup & Hc & tr & w' & Htr & Hu).
    split_and!; try done.
    rewrite Htr in Htrace.
    destruct post as [|ev post _] using rev_ind; [done|].
    exfalso. rewrite app_comm_cons, app_assoc in Htrace.
    apply app_inj_tail in Htrace as [-> _].
    apply (Hu w). apply elem_of_app. right. apply list_elem_of_here.
  - exfalso. apply (Hu w). rewrite Htrace. apply elem_of_app. right.
    apply list_elem_of_here.
Qed.

End timing_silence.

Lemma Timing_silenced_after_throw_witness :
  @nil TimingEvent = []
  ∧ tm_remesh example_timing = Noop
  ∧ tm_render example_timing = Noop
  ∧ tm_update example_timing = Noop
  ∧ length (tm_console example_timing) = 1%nat.
Proof.
  apply (Timing_silenced_after_throw example_clock Z.add Z.ltb
           (λ a b, (a - b) / 1000) 16 64 0
           (λ _ a, Returned (a + 1)) (λ _ a, Threw a 7) (λ _ a, Returned a) 0
           [Frame 4; Interval 4; Frame 4]
           [Invoked Update; Invoked Update; Invoked Remesh; Invoked Render]
           [] Render).
  vm_compute. reflexivity.
Defined.

(** ** Circle: the points are sorted nearest first *)

Lemma insert_by_distance_hd q p l :
  HdRel by_distance q l → by_distance q p →
  HdRel by_distance q (insert_by_distance p l).
Proof.
  intros Hl Hp. destruct l as [|r l]; simpl; [by constructor|].
  case_decide; constructor; [done|]. by inversion Hl.
Qed.

Lemma insert_by_distance_sorted p l :
  Sorted by_distance l → Sorted by_distance (insert_by_distance p l).
Proof.
  induction 1 as [|q l Hs IH Hhd]; simpl.
  - by repeat constructor.
  - case_decide as Hlt.
    + constructor; [by constructor|]. constructor. unfold by_distance. lia.
    + constructor; [done|]. apply insert_by_distance_hd; [done|].
      unfold by_distance. lia.
Qed.

Lemma elem_of_insert_by_distance x p l :
  x ∈ insert_by_distance p l ↔ x = p ∨ x ∈ l.
Proof.
  induction l as [|q l IH]; simpl.
  - rewrite list_elem_of_singleton, elem_of_nil. tauto.
  - case_decide; rewrite !elem_of_cons, ?IH; tauto.
Qed.

Lemma sort_by_distance_spec l :
  Sorted by_distance (sort_by_distance l)
  ∧ ∀ x, x ∈ sort_by_distance l ↔ x ∈ l.
Proof.
  unfold sort_by_distance.
  assert (∀ acc, Sorted by_distance acc →
            Sorted by_distance (foldl (λ acc p, insert_by_distance p acc) acc l)
            ∧ ∀ x, x ∈ foldl (λ acc p, insert_by_distance p acc) acc l
                   ↔ x ∈ acc ∨ x ∈ l) as Hgen.
  { induction l as [|p l IH]; intros acc Hacc; simpl.
    - split; [done|]. intros x. rewrite elem_of_nil. tauto.
    - destruct (IH (insert_by_distance p acc)) as [Hs Hin].
      { by apply insert_by_distance_sorted. }
      split; [done|]. intros x.
      rewrite Hin, elem_of_insert_by_distance, elem_of_cons. tauto. }
  destruct (Hgen []) as [Hs Hin]; [constructor|].
  split; [done|]. intros x. rewrite Hin, elem_of_nil. tauto.
Qed.

Lemma elem_of_disk_candidates bound floor i j d :
  (i, j, d) ∈ disk_candidates bound floor →
  d = i * i + j * j ∧ - floor ≤ i ≤ floor ∧ - floor ≤ j ≤ floor
  ∧ (inject_Z d <= bound)%Q.
Proof.
  unfold disk_candidates. intros Hin.
  apply list_elem_of_bind in Hin as (i' & Hin & Hi).
  apply list_elem_of_bind in Hin as (j' & Hin & Hj).
  apply elem_of_seqZ in Hi, Hj.
  destruct (Qlt_le_dec _ _) as [|Hle]; [by apply elem_of_nil in Hin|].
  apply list_elem_of_singleton in Hin. simplify_eq. split_and!; try done; lia.
Qed.

(** The stored points are in non-decreasing distance from the centre. *)
Lemma Circle_stored_points_sorted (radius : Q) :
  Qfloor radius < 2 ^ 31 →
  Sorted (λ p q, distance2 p ≤ distance2 q) (Circle_stored_points radius).
Proof.
  intros Hfloor. unfold Circle_stored_points, Circle_sorted_points.
  destruct (sort_by_distance_spec
              (disk_candidates (radius * radius)%Q (Qfloor radius)))
    as [Hs Hin].
  assert (Forall (λ p, snd p = distance2 (fst p)
                     ∧ int32 (fst (fst p)) = fst (fst p)
                     ∧ int32 (snd (fst p)) = snd (fst p))
            (sort_by_distance
               (disk_candidates (radius * radius)%Q (Qfloor radius)))) as Hall.
  { apply Forall_forall. intros [[i j] d] Hp. apply Hin in Hp.
    apply elem_of_disk_candidates in Hp as (-> & Hi & Hj & _). simpl.
    split; [done|]. split; apply int32_small; lia. }
  clear Hin. revert Hall.
  induction Hs as [|p l Hs IH Hhd]; intros Hall; [constructor|].
  apply Forall_cons in Hall as [(Hd & Hi & Hj) Hall].
  rewrite fmap_cons. constructor; [by apply IH|].
  destruct Hhd as [|q l Hpq]; [constructor|].
  apply Forall_cons in Hall as [(Hd' & Hi' & Hj') _].
  rewrite fmap_cons. constructor. unfold distance2 in *. simpl.
  rewrite Hi, Hj, Hi', Hj'. unfold by_distance in Hpq. lia.
Qed.

(** ** World.remesh: the walk over the chunk circle *)

Lemma remeshed_count_snoc (v : list (Z * Z * bool)) (e : Z * Z * bool) :
  remeshed_count (v ++ [e]) = remeshed_count v + (if snd e then 1 else 0).
Proof.
  unfold remeshed_count. rewrite filter_app, length_app.
  destruct e as [cell []].
  - rewrite filter_cons_True by done. simpl. lia.
  - rewrite filter_cons_False by done. simpl. lia.
Qed.

Lemma remeshed_count_nonneg (v : list (Z * Z * bool)) : 0 ≤ remeshed_count v.
Proof. unfold remeshed_count. lia. Qed.

Lemma remeshed_count_drop (n : nat) (v : list (Z * Z * bool)) :
  remeshed_count (drop n v) ≤ remeshed_count v.
Proof.
  rewrite <- (take_drop n v) at 2. unfold remeshed_count.
  rewrite filter_app, length_app. lia.
Qed.

Section remesh_walk.
Variable meshChunk :
  Chunk → list (option Chunk) → option VoxelMesh * option VoxelMesh.

Lemma Chunk_remeshChunk_Some (cx cz : Z) (w : World) (chunk : Chunk) :
  Circle_get (world_chunks w) cx cz = Some chunk →
  chunk_dirty chunk = true →
  is_Some (Chunk_remeshChunk meshChunk cx cz w).
Proof.
  intros Hget Hdirty. unfold Chunk_remeshChunk. rewrite Hget. simpl.
  unfold assert. rewrite decide_True by done. simpl.
  by destruct (meshChunk _ _).
Qed.

Lemma remesh_inv_snoc cx cz pre (p : Z * Z) st w (e : Z * Z * bool) :
  remesh_inv cx cz pre st →
  ¬ (9 < rs_total st + 1 ∧ kNumChunksToMeshPerFrame ≤ rs_meshed st) →
  fst e = (fst p + cx, snd p + cz) →
  remesh_inv cx cz (pre ++ [p])
    (mkRemeshState w (rs_meshed st + (if snd e then 1 else 0))
       (rs_total st + 1) (rs_visited st ++ [e])).
Proof.
  intros (Hcells & Htotal & Hmeshed & Hbudget & Hgate) Hopen He.
  assert (length (rs_visited st) = length pre) as Hlen.
  { by rewrite <- (length_fmap fst (rs_visited st)), Hcells, length_fmap. }
  unfold remesh_inv. simpl. split_and!.
  - rewrite !fmap_app, Hcells. simpl. by rewrite He.
  - rewrite length_app. simpl. lia.
  - rewrite remeshed_count_snoc. lia.
  - destruct (decide (length (rs_visited st) < 9)%nat) as [Hshort|Hlong].
    + rewrite drop_app_ge by lia. rewrite drop_ge by (simpl; lia).
      unfold remeshed_count, kNumChunksToMeshPerFrame. simpl. lia.
    + rewrite drop_app_le by lia. rewrite remeshed_count_snoc.
      pose proof (remeshed_count_drop 9 (rs_visited st)).
      destruct (snd e); lia.
  - intros k Hk. rewrite length_app in Hk. simpl in Hk.
    destruct (decide (k < length (rs_visited st))%nat) as [Hin|Hlast].
    + rewrite take_app_le by lia. apply Hgate. lia.
    + assert (k = length (rs_visited st)) as -> by lia.
      rewrite take_app_length. lia.
Qed.

Lemma remesh_visit_stop cx cz st :
  9 < rs_total st + 1 ∧ kNumChunksToMeshPerFrame ≤ rs_meshed st →
  remesh_visit meshChunk cx cz st
  = Some (mkRemeshState (rs_world st) (rs_meshed st) (rs_total st + 1)
            (rs_visited st), true).
Proof. intros Hstop. unfold remesh_visit. by rewrite decide_True. Qed.

(** A visit that the budget lets through returns, and logs its cell. *)
Lemma remesh_visit_open cx cz st :
  ¬ (9 < rs_total st + 1 ∧ kNumChunksToMeshPerFrame ≤ rs_meshed st) →
  ∃ w (e : Z * Z * bool),
    remesh_visit meshChunk cx cz st
    = Some (mkRemeshState w (rs_meshed st + (if snd e then 1 else 0))
              (rs_total st + 1) (rs_visited st ++ [e]), false)
    ∧ fst e = (cx, cz).
Proof.
  intros Hopen. unfold remesh_visit. rewrite decide_False by done.
  destruct (Circle_get (world_chunks (rs_world st)) cx cz) as [chunk|] eqn:Hget.
  - destruct (Chunk_needsRemesh chunk) eqn:Hneeds.
    + set (w1 := if Chunk_hasMesh chunk then rs_world st
                 else World_with_frontier
                        (Frontier_markDirty 0 (world_frontier (rs_world st)))
                        (rs_world st)).
      destruct (Chunk_remeshChunk_Some cx cz w1 chunk) as [w2 Hw2].
      { subst w1. by destruct (Chunk_hasMesh chunk). }
      { unfold Chunk_needsRemesh in Hneeds.
        by apply andb_true_iff in Hneeds as [? _]. }
      rewrite Hw2. by exists w2, (cx, cz, true).
    + exists (rs_world st), (cx, cz, false). by rewrite Z.add_0_r.
  - exists (rs_world st), (cx, cz, false). by rewrite Z.add_0_r.
Qed.

Lemma remesh_walk_spec cx cz points :
  ∀ pre st, remesh_inv cx cz pre st →
  ∃ st', each_loop (remesh_visit meshChunk) cx cz points st = Some st'
         ∧ remesh_post cx cz (pre ++ points) st'.
Proof.
  induction points as [|[i j] points IH]; intros pre st Hinv.
  - exists st. split; [done|].
    destruct Hinv as (Hcells & Htotal & Hmeshed & Hbudget & Hgate).
    rewrite app_nil_r. unfold remesh_post. rewrite Hcells.
    split_and!; try done.
    rewrite <- (length_fmap fst (rs_visited st)), Hcells, length_fmap. lia.
  - change (each_loop (remesh_visit meshChunk) cx cz ((i, j) :: points) st)
      with (remesh_visit meshChunk (i + cx) (j + cz) st ≫=
              λ '(s, done), if done : bool then Some s
                            else each_loop (remesh_visit meshChunk) cx cz points s).
    destruct (decide (9 < rs_total st + 1
                      ∧ kNumChunksToMeshPerFrame ≤ rs_meshed st)) as [Hstop|Hopen].
    + (* the budget is spent: the walk stops here *)
      rewrite remesh_visit_stop by done. simpl. eexists. split; [done|].
      destruct Hinv as (Hcells & Htotal & Hmeshed & Hbudget & Hgate).
      unfold remesh_post. simpl. rewrite Hcells. split_and!; try done.
      * rewrite fmap_app. apply prefix_app_r. done.
      * intros _. rewrite <- (length_fmap fst (rs_visited st)), Hcells, length_fmap.
        lia.
    + destruct (remesh_visit_open (i + cx) (j + cz) st Hopen)
        as (w & e & -> & He).
      simpl.
      destruct (IH (pre ++ [(i, j)])
                  (mkRemeshState w
                     (rs_meshed st + (if snd e then 1 else 0))
                     (rs_total st + 1) (rs_visited st ++ [e])))
        as (st' & Hrun & Hpost).
      { by apply (remesh_inv_snoc cx cz pre (i, j)). }
      exists st'. split; [done|]. by rewrite <- app_assoc in Hpost.
Qed.

End remesh_walk.

(** C6. One call of [World.remesh] walks the chunk circle nearest first:
    the cells it goes through are, in order, an initial stretch of the cells
    of the circle, whose points are sorted by distance and begin with the
    3x3 core.  Past the first nine cells the walk goes on only while fewer
    than [kNumChunksToMeshPerFrame] chunks have been remeshed in this call,
    it stops early for no other reason, and the chunks remeshed past the
    core are never more than [kNumChunksToMeshPerFrame]. *)
Theorem World_remesh_budget
    (meshChunk : Chunk → list (option Chunk) → option VoxelMesh * option VoxelMesh)
    (w : World) :
  circ_points (world_chunks w) = Circle_stored_points chunk_radius →
  ∃ st, World_remesh_chunks meshChunk w = Some st
    ∧ fst <$> rs_visited st `prefix_of` Circle_cells (world_chunks w)
    ∧ Sorted (λ p q, distance2 p ≤ distance2 q) (circ_points (world_chunks w))
    ∧ take 9 (circ_points (world_chunks w))
      = [(0, 0); (-1, 0); (0, -1); (0, 1); (1, 0);
         (-1, -1); (-1, 1); (1, -1); (1, 1)]
    ∧ (∀ k, (9 ≤ k < length (rs_visited st))%nat →
         remeshed_count (take k (rs_visited st)) < kNumChunksToMeshPerFrame)
    ∧ ((length (rs_visited st) < length (Circle_cells (world_chunks w)))%nat →
         (9 ≤ length (rs_visited st))%nat
         ∧ kNumChunksToMeshPerFrame ≤ remeshed_count (rs_visited st))
    ∧ remeshed_count (drop 9 (rs_visited st)) ≤ kNumChunksToMeshPerFrame.
Proof.
  intros Hpoints.
  destruct (remesh_walk_spec meshChunk (circ_center_x (world_chunks w))
              (circ_center_z (world_chunks w)) (circ_points (world_chunks w))
              [] (mkRemeshState w 0 0 []))
    as (st & Hrun & Hprefix & Hbudget & Hgate & Hstop).
  { unfold remesh_inv. cbn [rs_visited rs_total rs_meshed].
    split_and!; [reflexivity|reflexivity|reflexivity|by vm_compute|].
    intros k Hk. simpl in Hk. lia. }
  exists st. split; [exact Hrun|].
  rewrite app_nil_l in Hprefix, Hstop.
  split; [exact Hprefix|].
  split; [rewrite Hpoints; apply Circle_stored_points_sorted; reflexivity|].
  split; [rewrite Hpoints; vm_compute; reflexivity|].
  split; [exact Hgate|].
  split; [|exact Hbudget].
  intros Hlen. apply Hstop. unfold Circle_cells in Hlen.
  rewrite length_fmap in Hlen. exact Hlen.
Qed.

Lemma World_remesh_budget_witness :
  ∃ st, World_remesh_chunks example_mesher example_world = Some st
    ∧ fst <$> rs_visited st `prefix_of` Circle_cells (world_chunks example_world)
    ∧ Sorted (λ p q, distance2 p ≤ distance2 q)
        (circ_points (world_chunks example_world))
    ∧ take 9 (circ_points (world_chunks example_world))
      = [(0, 0); (-1, 0); (0, -1); (0, 1); (1, 0);
         (-1, -1); (-1, 1); (1, -1); (1, 1)]
    ∧ (∀ k, (9 ≤ k < length (rs_visited st))%nat →
         remeshed_count (take k (rs_visited st)) < kNumChunksToMeshPerFrame)
    ∧ ((length (rs_visited st)
        < length (Circle_cells (world_chunks example_world)))%nat →
         (9 ≤ length (rs_visited st))%nat
         ∧ kNumChunksToMeshPerFrame ≤ remeshed_count (rs_visited st))
    ∧ remeshed_count (drop 9 (rs_visited st)) ≤ kNumChunksToMeshPerFrame.
Proof.
  apply World_remesh_budget. vm_compute. reflexivity.
Defined.

(** ** Frontier: the budget of new meshes per level *)

(** Projections of updated records, and nothing else. *)
Ltac proj_simpl :=
  cbn [fst snd fr_dirty fr_levels fr_meshes fr_side
       Frontier_with_meshes Frontier_with_dirty Frontier_with_level
       world_frontier world_chunks world_column World_with_frontier
       World_with_column World_with_chunks World_with_level
       ls_world ls_counter ls_skipped ls_created ls_passed] in *.

Lemma dirty_below_refl l d : dirty_below l d d.
Proof. by split. Qed.

Lemma dirty_below_trans l d1 d2 d3 :
  dirty_below l d1 d2 → dirty_below l d2 d3 → dirty_below l d1 d3.
Proof.
  intros [Hl1 H1] [Hl2 H2]. split; [congruence|].
  intros k Hk. rewrite H2, H1; done.
Qed.

Lemma dirty_below_mono l l' d d' :
  l' ≤ l → dirty_below l d d' → dirty_below l' d d'.
Proof. intros Hle [Hl H]. split; [done|]. intros k Hk. apply H. lia. Qed.

Lemma dirty_below_markDirty l level f :
  l < level → dirty_below l (fr_dirty f) (fr_dirty (Frontier_markDirty level f)).
Proof.
  intros Hlt. unfold Frontier_markDirty. case_decide; [|apply dirty_below_refl].
  simpl. split; [apply length_ta_set|].
  intros k Hk. apply ta_get_set_ne. lia.
Qed.

Lemma Frontier_createFrontierChunk_dirty cx cz l f :
  dirty_below l (fr_dirty f)
    (fr_dirty (Frontier_createFrontierChunk cx cz l f).2).
Proof.
  unfold Frontier_createFrontierChunk, Frontier_getOrCreateMultiMesh.
  destruct (fr_meshes f !! _); proj_simpl.
  - case_match; [apply dirty_below_markDirty; lia|apply dirty_below_refl].
  - case_match; [|apply dirty_below_refl].
    apply (dirty_below_markDirty l (l + 1)
             (Frontier_with_meshes _ f)). lia.
Qed.

Section lod_budget.
Variable meshFrontier :
  Z → Z → Z → Z → Z → Z → option VoxelMesh → bool → option VoxelMesh.

Lemma Frontier_createLODMeshes_dirty chunk w w' :
  Frontier_createLODMeshes meshFrontier chunk w = Some w' →
  fr_dirty (world_frontier w') = fr_dirty (world_frontier w).
Proof.
  unfold Frontier_createLODMeshes. intros Hrun.
  destruct (world_loadFrontier w) as [loader|]; [|by simplify_eq].
  apply bind_Some in Hrun as (? & _ & Hrun).
  apply bind_Some in Hrun as (mesh & _ & Hrun).
  destruct (foldl _ _ _) as [column mesh'].
  by simplify_eq.
Qed.

Lemma budgeted_count_le created :
  budgeted_count created ≤ Z.of_nat (length created).
Proof.
  unfold budgeted_count. pose proof (length_filter (λ e : Z * Z * Z * bool,
    snd (fst e) = 0 ∧ snd e = true) created). lia.
Qed.

Lemma budgeted_count_snoc created (e : Z * Z * Z * bool) :
  budgeted_count (created ++ [e])
  = budgeted_count created
    + (if decide (snd (fst e) = 0 ∧ snd e = true) then 1 else 0).
Proof.
  unfold budgeted_count. rewrite filter_app, length_app.
  case_decide.
  - rewrite filter_cons_True by done. simpl. lia.
  - rewrite filter_cons_False by done. simpl. lia.
Qed.

(** What one visit of the walk does to its variables. *)
Lemma lod_visit_shape l cx cz st st' done :
  lod_visit meshFrontier l cx cz st = Some (st', done) →
  let mask := lod_mask_at l (ls_world st) cx cz in
  let shown := bool_decide (mask ≠ 15) in
  let extra := bool_decide (ls_counter st < kNumLODChunksToMeshPerFrame) in
  let create := shown && (extra || bool_decide (mask ≠ 0)) in
  let existing :=
    Circle_get (fr_levels (world_frontier (ls_world st)) !!! Z.to_nat l) cx cz in
  ls_skipped st' = (if shown && negb create then true else ls_skipped st)
  ∧ ls_passed st' = (if shown && negb create then ls_passed st ++ [(cx, cz)]
                     else ls_passed st)
  ∧ ((ls_counter st' = ls_counter st ∧ ls_created st' = ls_created st)
     ∨ (ls_counter st' = ls_counter st + 1
        ∧ (existing = None → create = true)
        ∧ ∃ x z, ls_created st'
                 = ls_created st ++ [(x, z, mask, bool_decide (existing = None))]))
  ∧ dirty_below l (fr_dirty (world_frontier (ls_world st)))
      (fr_dirty (world_frontier (ls_world st'))).
Proof.
  intros Hrun mask shown extra create existing.
  unfold lod_visit in Hrun. fold mask shown extra create existing in Hrun.
  destruct (bool_decide (existing = None) && negb create) eqn:Hearly.
  { simplify_eq. proj_simpl.
    split; [done|]. split; [done|]. split; [by left|apply dirty_below_refl]. }
  apply bind_Some in Hrun as ([lod w1] & Hlod & Hrun).
  assert (dirty_below l (fr_dirty (world_frontier (ls_world st)))
            (fr_dirty (world_frontier w1))) as Hd1.
  { destruct existing as [e|]; [simplify_eq; apply dirty_below_refl|].
    pose proof (Frontier_createFrontierChunk_dirty cx cz l
                  (world_frontier (ls_world st))) as Hc.
    destruct (Frontier_createFrontierChunk cx cz l _) as [created f].
    apply bind_Some in Hlod as (level & _ & Hlod). by simplify_eq. }
  assert (existing = None → create = true) as Hfresh.
  { intros Hnone. rewrite Hnone in Hearly. simpl in Hearly.
    by destruct create. }
  apply bind_Some in Hrun as ([[w2 counter] created] & Hmesh & Hrun).
  apply bind_Some in Hrun as (mesh & _ & Hrun).
  apply bind_Some in Hrun as (mesh' & _ & Hrun).
  simplify_eq. proj_simpl.
  split; [done|]. split; [done|].
  destruct (shown && negb (FrontierChunk_hasMesh (world_frontier w1) lod)).
  - apply bind_Some in Hmesh as (w3 & Hw3 & Hmesh). simplify_eq. proj_simpl.
    split.
    + right. split; [done|]. split; [done|]. eauto.
    + eapply dirty_below_trans; [exact Hd1|].
      rewrite <- (Frontier_createLODMeshes_dirty _ _ _ Hw3).
      apply dirty_below_markDirty. lia.
  - simplify_eq. split; [by left|done].
Qed.

Lemma lod_inv_visit l d0 cx cz st st' done :
  lod_inv l d0 st →
  lod_visit meshFrontier l cx cz st = Some (st', done) →
  lod_inv l d0 st'.
Proof.
  intros (Hcount & Hbudget & Hpassed & Hdirty) Hrun.
  apply lod_visit_shape in Hrun as (Hs & Hp & Hc & Hd).
  unfold lod_inv. split_and!.
  - destruct Hc as [[-> ->]|(-> & _ & x & z & ->)]; [done|].
    rewrite length_app. cbn [length]. lia.
  - destruct Hc as [[_ ->]|(_ & Hfresh & x & z & ->)]; [done|].
    rewrite budgeted_count_snoc. clear Hs Hp.
    destruct (decide (_ ∧ _)) as [Hb|Hb]; [|lia].
    cbn [fst snd] in Hb. destruct Hb as [Hmask Hnew].
    apply bool_decide_eq_true_1 in Hnew. specialize (Hfresh Hnew).
    rewrite Hmask in Hfresh.
    rewrite (bool_decide_eq_false_2 (0 ≠ 0)), orb_false_r in Hfresh by lia.
    apply andb_true_iff in Hfresh as [_ Hfresh].
    apply bool_decide_eq_true_1 in Hfresh.
    pose proof (budgeted_count_le (ls_created st)). lia.
  - rewrite Hs, Hp. case_match; [done|exact Hpassed].
  - by eapply dirty_below_trans.
Qed.

Lemma lod_inv_walk l d0 cx cz points :
  ∀ st st', lod_inv l d0 st →
  each_loop (lod_visit meshFrontier l) cx cz points st = Some st' →
  lod_inv l d0 st'.
Proof.
  induction points as [|[i j] points IH]; intros st st' Hinv Hrun.
  - cbn [each_loop] in Hrun. by simplify_eq.
  - change (each_loop (lod_visit meshFrontier l) cx cz ((i, j) :: points) st)
      with (lod_visit meshFrontier l (i + cx) (j + cz) st ≫=
              λ '(s, done), if done : bool then Some s
                            else each_loop (lod_visit meshFrontier l) cx cz points s)
      in Hrun.
    apply bind_Some in Hrun as ([st1 done] & Hvisit & Hrun).
    pose proof (lod_inv_visit _ _ _ _ _ _ _ Hinv Hvisit) as Hinv1.
    destruct done; [by simplify_eq|]. by eapply IH.
Qed.

(** [computeLODAtLevel]: the level's flag becomes [skipped]; the flags of
    the levels below are left alone. *)
Lemma Frontier_computeLODAtLevel_spec l w w' log :
  0 ≤ l < Z.of_nat (length (fr_dirty (world_frontier w))) →
  Frontier_computeLODAtLevel meshFrontier l w = Some (w', log) →
  dirty_below (l - 1) (fr_dirty (world_frontier w)) (fr_dirty (world_frontier w'))
  ∧ ∀ st, log = Some st →
      ls_counter st = Z.of_nat (length (ls_created st))
      ∧ budgeted_count (ls_created st) ≤ kNumLODChunksToMeshPerFrame
      ∧ (ls_passed st ≠ [] → ta_get false (fr_dirty (world_frontier w')) l = true).
Proof.
  intros Hl Hrun. unfold Frontier_computeLODAtLevel in Hrun.
  destruct (negb (ta_get false (fr_dirty (world_frontier w)) l)).
  { simplify_eq. split; [apply dirty_below_refl|done]. }
  apply bind_Some in Hrun as (st & Hwalk & Hrun).
  unfold Circle_each in Hwalk.
  apply (lod_inv_walk l (fr_dirty (world_frontier w))) in Hwalk
    as (Hcount & Hbudget & Hpassed & Hlen & Hdirty).
  2:{ unfold lod_inv. proj_simpl.
      split; [reflexivity|]. split; [by vm_compute|].
      split; [done|apply dirty_below_refl]. }
  simplify_eq. proj_simpl. split.
  - split; [by rewrite length_ta_set|].
    intros k Hk. rewrite ta_get_set_ne by lia. apply Hdirty. lia.
  - intros st' ?. simplify_eq. split_and!; try done.
    intros Hne. rewrite ta_get_set_eq by lia. by apply Hpassed.
Qed.

End lod_budget.

Section lod_levels.
Variable meshFrontier :
  Z → Z → Z → Z → Z → Z → option VoxelMesh → bool → option VoxelMesh.

Lemma level_step_None levels : foldl (level_step meshFrontier) None levels = None.
Proof. by induction levels. Qed.

Lemma level_step_Some w logs i :
  level_step meshFrontier (Some (w, logs)) i
  = match Frontier_computeLODAtLevel meshFrontier i w with
    | Some (w1, st) => Some (w1, logs ++ [st])
    | None => None
    end.
Proof.
  unfold level_step. cbn [mbind option_bind].
  by destruct (Frontier_computeLODAtLevel meshFrontier i w) as [[w1 st]|].
Qed.

Lemma remesh_levels_spec (n : nat) :
  ∀ (a : Z) w logs w' logs',
  0 ≤ a →
  a + Z.of_nat n ≤ Z.of_nat (length (fr_dirty (world_frontier w))) →
  foldl (level_step meshFrontier) (Some (w, logs)) (seqZ a (Z.of_nat n)) = Some (w', logs') →
  ∃ new, logs' = logs ++ new
    ∧ length new = n
    ∧ dirty_below (a - 1) (fr_dirty (world_frontier w))
        (fr_dirty (world_frontier w'))
    ∧ ∀ (i : nat) st, new !! i = Some (Some st) → level_ok w' (a + Z.of_nat i) st.
Proof.
  induction n as [|n IH]; intros a w logs w' logs' Ha Hlen Hrun.
  - rewrite seqZ_nil in Hrun by lia. cbn [foldl] in Hrun. simplify_eq.
    exists []. rewrite app_nil_r. split; [done|]. split; [done|].
    split; [apply dirty_below_refl|]. intros i st Hi. by destruct i.
  - rewrite seqZ_cons in Hrun by lia. cbn [foldl] in Hrun.
    rewrite level_step_Some in Hrun.
    destruct (Frontier_computeLODAtLevel meshFrontier a w) as [[w1 log]|] eqn:Hlevel.
    2:{ by rewrite level_step_None in Hrun. }
    destruct (Frontier_computeLODAtLevel_spec meshFrontier a w w1 log)
      as [[Hl1 Hd1] Hst]; [lia|done|].
    replace (Z.pred (Z.of_nat (S n))) with (Z.of_nat n) in Hrun by lia.
    destruct (IH (Z.succ a) w1 (logs ++ [log]) w' logs')
      as (new & -> & Hnew & [Hl2 Hd2] & Hrest); [lia|lia|done|].
    exists (log :: new). rewrite <- app_assoc. split; [done|].
    split; [simpl; lia|]. split.
    + split; [congruence|]. intros k Hk. rewrite Hd2, Hd1 by lia. done.
    + intros [|i] st Hi.
      * cbn in Hi. simplify_eq. destruct (Hst st eq_refl) as (Hc & Hb & Hp).
        rewrite Z.add_0_r. split; [done|]. split; [done|].
        intros Hne. replace (Z.succ a - 1) with a in Hd2 by lia.
        rewrite Hd2 by lia. by apply Hp.
      * cbn in Hi. specialize (Hrest i st Hi).
        by replace (a + Z.of_nat (S i)) with (Z.succ a + Z.of_nat i) by lia.
Qed.

End lod_levels.

(** *** Tiles that their children cover in part *)

Lemma Circle_set_inhabitant {T} cx cz (v : T) :
  Circle_set (inhabitant : Circle T) cx cz v = None.
Proof.
  unfold Circle_set. case_decide; [|reflexivity]. reflexivity.
Qed.

Lemma Frontier_createFrontierChunk_levels cx cz l f :
  fr_levels (Frontier_createFrontierChunk cx cz l f).2 = fr_levels f
  ∧ fc_cx (Frontier_createFrontierChunk cx cz l f).1 = cx
  ∧ fc_cz (Frontier_createFrontierChunk cx cz l f).1 = cz.
Proof.
  unfold Frontier_createFrontierChunk, Frontier_getOrCreateMultiMesh.
  destruct (fr_meshes f !! _); proj_simpl.
  - split; [|done]. case_match; [|done]. unfold Frontier_markDirty.
    case_decide; done.
  - split; [|done]. case_match; [|done]. unfold Frontier_markDirty.
    case_decide; done.
Qed.

Lemma LODMultiMesh_show_meshed m index mask m' :
  LODMultiMesh_show m index mask = Some m' →
  ta_get false (lod_meshed m') index = true.
Proof.
  unfold LODMultiMesh_show, assert. intros Hshow.
  destruct (decide (ta_get false (lod_meshed m) index = true)) as [Hm|];
    [|discriminate Hshow].
  cbn [mbind option_bind] in Hshow. injection Hshow as <-. exact Hm.
Qed.

Section lod_partial.
Variable meshFrontier :
  Z → Z → Z → Z → Z → Z → option VoxelMesh → bool → option VoxelMesh.

Lemma Frontier_createLODMeshes_levels chunk w w' :
  Frontier_createLODMeshes meshFrontier chunk w = Some w' →
  fr_levels (world_frontier w') = fr_levels (world_frontier w).
Proof.
  unfold Frontier_createLODMeshes. intros Hrun.
  destruct (world_loadFrontier w) as [loader|]; [|by simplify_eq].
  apply bind_Some in Hrun as (? & _ & Hrun).
  apply bind_Some in Hrun as (mesh & _ & Hrun).
  destruct (foldl _ _ _) as [column mesh'].
  by simplify_eq.
Qed.

(** A visit to a tile that some but not all of its children cover, whatever
    the counter: the tile is not passed over; after the visit it is in the
    level, its quadrants are meshed in its multi-mesh, and it was handed to
    [createLODMeshes] unless they were meshed before. *)
Lemma lod_visit_partial l cx cz st st' done :
  lod_visit meshFrontier l cx cz st = Some (st', done) →
  lod_mask_at l (ls_world st) cx cz ≠ 0 →
  lod_mask_at l (ls_world st) cx cz ≠ 15 →
  ls_skipped st' = ls_skipped st ∧ ls_passed st' = ls_passed st
  ∧ ∃ lod mesh,
      Circle_get (fr_levels (world_frontier (ls_world st')) !!! Z.to_nat l)
        cx cz = Some lod
      ∧ fr_meshes (world_frontier (ls_world st')) !! fc_mesh lod = Some mesh
      ∧ ta_get false (lod_meshed mesh) (LODMultiMesh_index cx cz) = true
      ∧ (ls_created st' = ls_created st
         ∨ ∃ new, ls_created st'
                  = ls_created st
                    ++ [(cx, cz, lod_mask_at l (ls_world st) cx cz, new)]).
Proof.
  intros Hrun Hm0 Hm15. unfold lod_visit in Hrun.
  set (mask := lod_mask_at l (ls_world st) cx cz) in *.
  rewrite (bool_decide_eq_true_2 (mask ≠ 15)) in Hrun by exact Hm15.
  rewrite (bool_decide_eq_true_2 (mask ≠ 0)) in Hrun by exact Hm0.
  rewrite orb_true_r in Hrun. cbn [andb negb] in Hrun.
  rewrite andb_false_r in Hrun.
  apply bind_Some in Hrun as ([lod w1] & Hlod & Hrun).
  assert (Hin : Circle_get (fr_levels (world_frontier w1) !!! Z.to_nat l) cx cz
                = Some lod ∧ fc_cx lod = cx ∧ fc_cz lod = cz).
  { destruct (Circle_get _ cx cz) as [existing|] eqn:Hget.
    - injection Hlod as <- <-. split; [exact Hget|].
      apply Circle_get_Some in Hget as (_ & _ & Hx & Hz). split; assumption.
    - pose proof (Frontier_createFrontierChunk_levels cx cz l
                    (world_frontier (ls_world st))) as (Hlevels & Hx & Hz).
      destruct (Frontier_createFrontierChunk cx cz l _) as [created f].
      cbn [fst snd] in Hlevels, Hx, Hz.
      apply bind_Some in Hlod as (level & Hset & Hlod).
      injection Hlod as <- <-. proj_simpl.
      assert (Hlt : (Z.to_nat l < length (fr_levels f))%nat).
      { destruct (decide (Z.to_nat l < length (fr_levels f))%nat) as [|Hge];
          [assumption|].
        rewrite list_lookup_total_alt, lookup_ge_None_2 in Hset by lia.
        cbn [default] in Hset. rewrite Circle_set_inhabitant in Hset.
        discriminate Hset. }
      rewrite list_lookup_total_insert_eq by exact Hlt.
      destruct (Circle_get_set (fr_levels f !!! Z.to_nat l) level cx cz
                  created cx cz) as [_ Hnew];
        [exact Hx|exact Hz|exact Hset|].
      rewrite Hnew, decide_True by done. done. }
  destruct Hin as (Hin & Hx & Hz).
  apply bind_Some in Hrun as ([[w2 counter] created] & Hmesh & Hrun).
  apply bind_Some in Hrun as (mesh & Hmeshes & Hrun).
  apply bind_Some in Hrun as (mesh' & Hshow & Hrun).
  injection Hrun as <- <-. proj_simpl.
  split; [reflexivity|]. split; [reflexivity|].
  assert (Hw2 : fr_levels (world_frontier w2) = fr_levels (world_frontier w1)
                ∧ (created = ls_created st
                   ∨ ∃ new, created = ls_created st ++ [(cx, cz, mask, new)])).
  { destruct (negb (FrontierChunk_hasMesh (world_frontier w1) lod)).
    - apply bind_Some in Hmesh as (w3 & Hw3 & Hmesh).
      injection Hmesh as <- _ <-. proj_simpl. split.
      + unfold Frontier_markDirty. case_decide; proj_simpl;
          exact (Frontier_createLODMeshes_levels _ _ _ Hw3).
      + right. rewrite Hx, Hz. eauto.
    - injection Hmesh as <- _ <-. split; [reflexivity|]. by left. }
  destruct Hw2 as [Hlevels Hcreated]. rewrite Hlevels.
  exists lod, mesh'. split; [exact Hin|].
  split; [apply lookup_insert_eq|]. split; [|exact Hcreated].
  rewrite Hx, Hz in Hshow. exact (LODMultiMesh_show_meshed _ _ _ _ Hshow).
Qed.

End lod_partial.

(** C3, as the code has it.  During one call of [Frontier.remeshFrontier]
    that returns, at each frontier level at most
    [kNumLODChunksToMeshPerFrame] of the tiles handed to [createLODMeshes]
    are tiles new to the level with no meshed child, and if a tile to show
    was passed over, the level's dirty flag is true after the call.  The
    tiles that some but not all of their children cover are not under the
    budget: whatever the counter of the walk says, a visit to such a tile
    does not pass it over; when the visit returns the tile is in the level,
    its quadrants are meshed in its multi-mesh, and the tile was handed to
    [createLODMeshes] unless it came with its mesh. *)
Theorem Frontier_remesh_budget
    (meshFrontier :
       Z → Z → Z → Z → Z → Z → option VoxelMesh → bool → option VoxelMesh)
    (w w' : World) (logs : list (option LODState)) :
  Z.of_nat (length (fr_dirty (world_frontier w))) = kFrontierLevels →
  Frontier_remeshFrontier meshFrontier w = Some (w', logs) →
  Z.of_nat (length logs) = kFrontierLevels
  ∧ (∀ (l : nat) st, logs !! l = Some (Some st) →
       ls_counter st = Z.of_nat (length (ls_created st))
       ∧ budgeted_count (ls_created st) ≤ kNumLODChunksToMeshPerFrame
       ∧ (ls_passed st ≠ [] →
          ta_get false (fr_dirty (world_frontier w')) (Z.of_nat l) = true))
  ∧ ∀ l cx cz st st' done,
      lod_visit meshFrontier l cx cz st = Some (st', done) →
      lod_mask_at l (ls_world st) cx cz ≠ 0 →
      lod_mask_at l (ls_world st) cx cz ≠ 15 →
      ls_skipped st' = ls_skipped st ∧ ls_passed st' = ls_passed st
      ∧ ∃ lod mesh,
          Circle_get (fr_levels (world_frontier (ls_world st')) !!! Z.to_nat l)
            cx cz = Some lod
          ∧ fr_meshes (world_frontier (ls_world st')) !! fc_mesh lod = Some mesh
          ∧ ta_get false (lod_meshed mesh) (LODMultiMesh_index cx cz) = true
          ∧ (ls_created st' = ls_created st
             ∨ ∃ new, ls_created st'
                      = ls_created st
                        ++ [(cx, cz, lod_mask_at l (ls_world st) cx cz, new)]).
Proof.
  intros Hdirty Hrun.
  change (Frontier_remeshFrontier meshFrontier w)
    with (foldl (level_step meshFrontier) (Some (w, [])) (seqZ 0 (Z.of_nat 6)))
    in Hrun.
  apply remesh_levels_spec in Hrun as (new & -> & Hlen & _ & Hok).
  - split; [rewrite app_nil_l, Hlen; reflexivity|]. split.
    + intros l st Hl. rewrite app_nil_l in Hl. apply (Hok l st Hl).
    + intros l cx cz st st' done. apply lod_visit_partial.
  - lia.
  - rewrite Hdirty. by vm_compute.
Qed.

(** In [budget_world] the walk of level 0 meshes the tile [(2, 0)] at the
    centre, new and with no meshed child, on the budget; it passes over
    the other tiles with no meshed child; and it meshes the tiles [(0, 0)]
    and [(-1, 0)], each with one meshed child, beyond the budget. *)
Lemma Frontier_remesh_budget_witness :
  ∃ w' logs st st1,
    Frontier_remeshFrontier example_lod_mesher budget_world = Some (w', logs)
    ∧ logs !! 0%nat = Some (Some st)
    ∧ ls_created st = [(2, 0, 0, true); (0, 0, 1, true); (-1, 0, 2, true)]
    ∧ budgeted_count (ls_created st) = kNumLODChunksToMeshPerFrame
    ∧ ls_passed st ≠ []
    ∧ lod_visit example_lod_mesher 0 0 0 (mkLODState budget_world 1 false [] [])
      = Some (st1, false)
    ∧ lod_mask_at 0 budget_world 0 0 = 1
    ∧ ls_created st1 = [(0, 0, 1, true)]
    ∧ Z.of_nat (length logs) = kFrontierLevels
    ∧ (∀ (l : nat) st, logs !! l = Some (Some st) →
         ls_counter st = Z.of_nat (length (ls_created st))
         ∧ budgeted_count (ls_created st) ≤ kNumLODChunksToMeshPerFrame
         ∧ (ls_passed st ≠ [] →
            ta_get false (fr_dirty (world_frontier w')) (Z.of_nat l) = true))
    ∧ ∀ l cx cz st st' done,
        lod_visit example_lod_mesher l cx cz st = Some (st', done) →
        lod_mask_at l (ls_world st) cx cz ≠ 0 →
        lod_mask_at l (ls_world st) cx cz ≠ 15 →
        ls_skipped st' = ls_skipped st ∧ ls_passed st' = ls_passed st
        ∧ ∃ lod mesh,
            Circle_get
              (fr_levels (world_frontier (ls_world st')) !!! Z.to_nat l)
              cx cz = Some lod
            ∧ fr_meshes (world_frontier (ls_world st')) !! fc_mesh lod
              = Some mesh
            ∧ ta_get false (lod_meshed mesh) (LODMultiMesh_index cx cz) = true
            ∧ (ls_created st' = ls_created st
               ∨ ∃ new, ls_created st'
                        = ls_created st
                          ++ [(cx, cz, lod_mask_at l (ls_world st) cx cz, new)]).
Proof.
  assert (match Frontier_remeshFrontier example_lod_mesher budget_world with
          | Some (w', logs) =>
              match logs !! 0%nat with
              | Some (Some st) =>
                  bool_decide
                    (ls_created st
                     = [(2, 0, 0, true); (0, 0, 1, true); (-1, 0, 2, true)])
                  && negb (bool_decide (ls_passed st = []))
              | _ => false
              end
          | None => false
          end = true) as Hrun by (vm_compute; reflexivity).
  assert (match lod_visit example_lod_mesher 0 0 0
                  (mkLODState budget_world 1 false [] []) with
          | Some (st1, done) =>
              negb done && bool_decide (ls_created st1 = [(0, 0, 1, true)])
          | None => false
          end = true) as Hvisit by (vm_compute; reflexivity).
  destruct (Frontier_remeshFrontier example_lod_mesher budget_world)
    as [[w' logs]|] eqn:Hremesh; [|discriminate Hrun].
  destruct (logs !! 0%nat) as [[st|]|] eqn:Hlog; try discriminate Hrun.
  apply andb_true_iff in Hrun as [Hcreated Hpassed].
  apply bool_decide_eq_true_1 in Hcreated.
  apply negb_true_iff, bool_decide_eq_false_1 in Hpassed.
  destruct (lod_visit example_lod_mesher 0 0 0 _) as [[st1 done]|];
    [|discriminate Hvisit].
  apply andb_true_iff in Hvisit as [Hdone Hcreated1].
  apply negb_true_iff in Hdone. subst done.
  apply bool_decide_eq_true_1 in Hcreated1.
  exists w', logs, st, st1. split; [reflexivity|]. split; [exact Hlog|].
  split; [exact Hcreated|]. split; [rewrite Hcreated; reflexivity|].
  split; [exact Hpassed|]. split; [reflexivity|].
  split; [vm_compute; reflexivity|]. split; [exact Hcreated1|].
  apply (Frontier_remesh_budget example_lod_mesher budget_world w' logs).
  - vm_compute. reflexivity.
  - exact Hremesh.
Defined.

(** C3, as stated, fails: in [lod_world] the level-0 walk of one
    [remeshFrontier] hands two tiles to [createLODMeshes], the tiles
    [(0, 0)] and [(-1, 0)], each with one meshed child, which is more than
    [kNumLODChunksToMeshPerFrame]. *)
Lemma Frontier_budget_exceeded :
  ∃ w' logs st,
    Frontier_remeshFrontier example_lod_mesher lod_world = Some (w', logs)
    ∧ logs !! 0%nat = Some (Some st)
    ∧ ls_created st = [(0, 0, 1, true); (-1, 0, 2, true)]
    ∧ kNumLODChunksToMeshPerFrame < Z.of_nat (length (ls_created st)).
Proof.
  assert (created_at 0 (Frontier_remeshFrontier example_lod_mesher lod_world)
          = Some [(0, 0, 1, true); (-1, 0, 2, true)])
    as Hrun by (vm_compute; reflexivity).
  destruct (Frontier_remeshFrontier example_lod_mesher lod_world)
    as [[w' logs]|]; [|discriminate Hrun].
  unfold created_at in Hrun. cbn [mbind option_bind] in Hrun.
  destruct (logs !! 0%nat) as [[st|]|] eqn:Hlog; try discriminate Hrun.
  cbn [mbind option_bind] in Hrun. injection Hrun as Hcreated.
  exists w', logs, st. rewrite Hcreated.
  split; [reflexivity|]. split; [exact Hlog|]. split; reflexivity.
Qed.

(** ** Circle: the torus hash *)





Lemma int32_idemp z : int32 (int32 z) = int32 z.
Proof. apply int32_small. apply int32_range. Qed.

Lemma int32_multiple z s :
  0 ≤ s ≤ 32 → z mod 2 ^ s = 0 → int32 z mod 2 ^ s = 0.
Proof.
  intros Hs Hz.
  assert (0 < 2 ^ s) by (apply Z.pow_pos_nonneg; lia).
  assert (2 ^ 32 = 2 ^ s * 2 ^ (32 - s)) as Hpow.
  { rewrite <- Z.pow_add_r by lia. f_equal. lia. }
  unfold int32. rewrite (Z.mod_eq (z + 2 ^ 31)) by lia.
  replace (z + 2 ^ 31 - 2 ^ 32 * ((z + 2 ^ 31) `div` 2 ^ 32) - 2 ^ 31)
    with (z + (- (2 ^ (32 - s) * ((z + 2 ^ 31) `div` 2 ^ 32))) * 2 ^ s)
    by (rewrite Hpow; lia).
  by rewrite Z.mod_add by lia.
Qed.




Section circle_hash.
Context {T : Type} `{CircleElement T}.


End circle_hash.

(** The constructor and [set] establish what the theorem asks of a circle. *)
Lemma Circle_new_of_radius {T} `{CircleElement T} (radius : Q) (c : Circle T) :
  Circle_new radius = Some c → Circle_of_radius radius c ∧ Circle_placed c.
Proof.
  unfold Circle_new. intros Hnew.
  apply bind_Some in Hnew as (shift & Hshift & Hnew).
  injection Hnew as <-. split; [by split|].
  intros i e Hi. cbn [circ_elements] in Hi.
  apply lookup_replicate in Hi as [Hi _]. discriminate Hi.
Qed.

Lemma Circle_set_placed {T} `{CircleElement T} (radius : Q) (c c' : Circle T)
    (cx cz : Z) (v : T) :
  elt_cx v = cx → elt_cz v = cz →
  Circle_set c cx cz v = Some c' →
  (Circle_placed c → Circle_placed c')
  ∧ (Circle_of_radius radius c → Circle_of_radius radius c').
Proof.
  intros Hx Hz Hset. unfold Circle_set in Hset.
  destruct (decide (0 ≤ Circle_index c cx cz)) as [Hi|]; [|discriminate Hset].
  destruct (circ_elements c !! _) as [[|]|] eqn:Hslot; try discriminate Hset.
  injection Hset as <-. split; [|done].
  intros Hplaced i e Hlook. cbn [circ_elements Circle_with_elements] in Hlook.
  change (Circle_index (Circle_with_elements _ c) (elt_cx e) (elt_cz e))
    with (Circle_index c (elt_cx e) (elt_cz e)).
  unfold ta_set in Hlook. rewrite decide_True in Hlook by done.
  destruct (decide (i = Z.to_nat (Circle_index c cx cz))) as [->|Hne].
  - rewrite list_lookup_insert_eq in Hlook by (by eapply lookup_lt_Some).
    injection Hlook as <-. rewrite Hx, Hz. lia.
  - rewrite list_lookup_insert_ne in Hlook by done. by apply Hplaced.
Qed.



(** ** Folds over fallible steps *)

Lemma foldl_option_inv {A B} (Q : A → Prop) (f : option A → B → option A)
    (l : list B) :
  (∀ st b a', (∀ a, st = Some a → Q a) → f st b = Some a' → Q a') →
  ∀ st a', (∀ a, st = Some a → Q a) → foldl f st l = Some a' → Q a'.
Proof.
  intros Hstep. induction l as [|b l IH]; intros st a' Hst Hrun.
  - by apply Hst.
  - cbn [foldl] in Hrun. apply (IH (f st b)); [|done].
    intros a Ha. by eapply Hstep.
Qed.

Lemma foldl_inv {A B} (Q : A → Prop) (f : A → B → A) (l : list B) (a : A) :
  (∀ a b, Q a → Q (f a b)) → Q a → Q (foldl f a l).
Proof.
  intros Hstep. revert a. induction l as [|b l IH]; intros a Ha; [done|].
  cbn [foldl]. apply IH. by apply Hstep.
Qed.

(** ** Chunk.load keeps what every column fill keeps *)



(** ** World.recenter at an unchanged centre *)










(** ** Typed arrays: fill *)

Lemma length_ta_fill (a : list Z) v s e : length (ta_fill a v s e) = length a.
Proof.
  unfold ta_fill, rel_index. case_decide as Hlt; [|done].
  rewrite !length_app, length_take, length_replicate, length_drop.
  repeat case_decide; lia.
Qed.

Lemma ta_get_fill (a : list Z) d v s e i :
  0 ≤ s → s ≤ e → e ≤ Z.of_nat (length a) →
  ta_get d (ta_fill a v s e) i
  = if decide (s ≤ i < e) then v else ta_get d a i.
Proof.
  intros Hs Hse He. unfold ta_fill, rel_index.
  rewrite (decide_False (P := s < 0)), (decide_False (P := e < 0)) by lia.
  rewrite !Z.min_l by lia.
  destruct (decide (s < e)) as [Hlt|Hge].
  2:{ rewrite decide_False by lia. done. }
  unfold ta_get. destruct (decide (0 ≤ i)) as [Hi|Hi].
  2:{ rewrite decide_False by lia. done. }
  destruct (decide (s ≤ i < e)) as [Hin|Hout].
  - rewrite lookup_app_r by (rewrite length_take; lia).
    rewrite length_take, lookup_app_l by (rewrite length_replicate; lia).
    rewrite lookup_replicate_2 by lia. done.
  - destruct (decide (i < s)) as [Hlow|Hhigh].
    + rewrite lookup_app_l by (rewrite length_take; lia).
      rewrite lookup_take_lt by lia. done.
    + rewrite lookup_app_r by (rewrite length_take; lia).
      rewrite length_take, lookup_app_r by (rewrite length_replicate; lia).
      rewrite length_replicate, lookup_drop. f_equal. f_equal. lia.
Qed.

Lemma ta_set_fill (a : list Z) i v :
  0 ≤ i < Z.of_nat (length a) → ta_set a i v = ta_fill a v i (i + 1).
Proof.
  intros Hi. apply list_eq. intros k.
  pose proof (length_ta_set a i v) as Hl1.
  pose proof (length_ta_fill a v i (i + 1)) as Hl2.
  destruct (decide (k < length a)%nat) as [Hk|Hk].
  2:{ rewrite !lookup_ge_None_2 by lia. done. }
  destruct (lookup_lt_is_Some_2 (ta_set a i v) k) as [x Hx]; [lia|].
  destruct (lookup_lt_is_Some_2 (ta_fill a v i (i + 1)) k) as [y Hy]; [lia|].
  rewrite Hx, Hy. f_equal.
  pose proof (ta_get_lookup (ta_set a i v) (Z.of_nat k) 0 x ltac:(lia)) as H1.
  pose proof (ta_get_lookup (ta_fill a v i (i + 1)) (Z.of_nat k) 0 y
                ltac:(lia)) as H2.
  rewrite Nat2Z.id in H1, H2. rewrite <- (H1 Hx), <- (H2 Hy).
  rewrite ta_get_fill by lia.
  destruct (decide (i ≤ Z.of_nat k < i + 1)) as [Hin|Hout].
  - assert (Z.of_nat k = i) as -> by lia. apply ta_get_set_eq. lia.
  - apply ta_get_set_ne. lia.
Qed.

(** ** The downward scan of [updateHeightmap] *)

Lemma scan_down_spec stop data index n :
  ∀ i, let r := scan_down stop data index n i in
  i ≤ r ≤ i + Z.of_nat n
  ∧ (∀ k, i ≤ k < r → stop (ta_get 0 data (index - k - 1)) = false)
  ∧ (r < i + Z.of_nat n → stop (ta_get 0 data (index - r - 1)) = true).
Proof.
  induction n as [|n IH]; intros i; cbn [scan_down].
  - split; [lia|]. split; intros; lia.
  - destruct (stop (ta_get 0 data (index - i - 1))) eqn:Hstop.
    + split; [lia|]. split; [intros; lia|done].
    + destruct (IH (i + 1)) as (Hr & Hbelow & Hat).
      split; [lia|]. split.
      * intros k Hk. destruct (decide (k = i)) as [->|]; [done|].
        apply Hbelow. lia.
      * intros Hlt. apply Hat. lia.
Qed.

(** ** Heights *)

Lemma Chunk_wf_with_voxels v c :
  Chunk_wf c → length v = length (t3_data (chunk_voxels c)) →
  Chunk_wf (Chunk_with_voxels v c).
Proof.
  intros (Hs & Hl & Hrest) Hv. split; [exact Hs|]. split; [|exact Hrest].
  cbn. rewrite Hv. exact Hl.
Qed.

Lemma Chunk_wf_with_equilevels e c :
  Chunk_wf c → length e = length (chunk_equilevels c) →
  Chunk_wf (Chunk_with_equilevels e c).
Proof.
  intros (H1 & H2 & H3 & H4 & H5 & H6 & H7) He. repeat (split; [assumption|]).
  cbn. rewrite He. exact H7.
Qed.

Lemma Chunk_wf_with_dirty d c : Chunk_wf c → Chunk_wf (Chunk_with_dirty d c).
Proof. intros H. exact H. Qed.

Lemma Chunk_wf_updateHeightmap r c xm zm index start count block :
  Chunk_wf c → Chunk_wf (Chunk_updateHeightmap r c xm zm index start count block).
Proof.
  intros (H1 & H2 & H3 & H4 & H5 & H6 & H7).
  unfold Chunk_updateHeightmap, Chunk_wf. cbn.
  repeat (split; [assumption|]). split; [|split; [assumption|split; [|assumption]]].
  - repeat case_decide; rewrite ?length_ta_set; assumption.
  - repeat case_decide; rewrite ?length_ta_set; assumption.
Qed.

Lemma Chunk_wf_setColumn r c x z start count block :
  Chunk_wf c → Chunk_wf (Chunk_setColumn r c x z start count block).
Proof.
  intros Hwf. unfold Chunk_setColumn. apply Chunk_wf_updateHeightmap.
  apply Chunk_wf_with_voxels; [exact Hwf|apply length_ta_fill].
Qed.

Lemma Chunk_wf_setBlock_self r c x y z block :
  Chunk_wf c → Chunk_wf (Chunk_setBlock_self r c x y z block).
Proof.
  intros Hwf. unfold Chunk_setBlock_self. case_decide; [exact Hwf|].
  apply Chunk_wf_with_equilevels; [|apply length_ta_set].
  apply Chunk_wf_updateHeightmap, Chunk_wf_with_dirty.
  apply Chunk_wf_with_voxels; [exact Hwf|apply length_ta_set].
Qed.

Lemma Chunk_wf_init cx cz : Chunk_wf (Chunk_init cx cz).
Proof. repeat split. Qed.

(** The voxels after a fill of [count] cells from [(xm, start, zm)]. *)
Lemma Tensor3_get_fill c xm zm start count block x y z :
  Chunk_wf c →
  0 ≤ xm < 16 → 0 ≤ zm < 16 → 0 ≤ start → 0 ≤ count →
  start + count ≤ 256 →
  0 ≤ x < 16 → 0 ≤ z < 16 → 0 ≤ y < 256 →
  let index := xm * 256 + start + zm * 4096 in
  Tensor3_get
    (chunk_voxels
       (Chunk_with_voxels
          (ta_fill (t3_data (chunk_voxels c)) block index (index + count)) c))
    x y z
  = if decide (x = xm ∧ z = zm ∧ start ≤ y < start + count) then block
    else Tensor3_get (chunk_voxels c) x y z.
Proof.
  intros Hwf Hxm Hzm Hstart Hcount Hend Hx Hz Hy index.
  pose proof Hwf as (Hs & Hl & _).
  unfold Tensor3_get, Tensor3_index. cbn. rewrite Hs.
  rewrite ta_get_fill by (unfold index; lia).
  destruct (decide (x = xm ∧ z = zm ∧ start ≤ y < start + count))
    as [(-> & -> & Hin)|Hout].
  - rewrite decide_True by (unfold index; lia). reflexivity.
  - rewrite decide_False; [reflexivity|]. unfold index. intros Hin.
    apply Hout. lia.
Qed.

Lemma top_of_fill stop c xm zm start count block h :
  Chunk_wf c →
  0 ≤ xm < 16 → 0 ≤ zm < 16 → 0 ≤ start → 1 ≤ count →
  start + count ≤ 256 →
  top_of stop c xm zm h →
  let index := xm * 256 + start + zm * 4096 in
  let data := ta_fill (t3_data (chunk_voxels c)) block index (index + count) in
  top_of stop (Chunk_with_voxels data c) xm zm
    (next_top stop data index start count block h).
Proof.
  intros Hwf Hxm Hzm Hstart Hcount Hend (Hh & Hup & Hat) index data.
  unfold kWorldHeight in *.
  assert (Hget : ∀ y, 0 ≤ y < 256 →
    Tensor3_get (chunk_voxels (Chunk_with_voxels data c)) xm y zm
    = if decide (start ≤ y < start + count) then block
      else Tensor3_get (chunk_voxels c) xm y zm).
  { intros y Hy. unfold data, index.
    rewrite Tensor3_get_fill by (try assumption; lia).
    destruct (decide (start ≤ y < start + count)).
    - rewrite decide_True by lia. reflexivity.
    - rewrite decide_False by lia. reflexivity. }
  assert (Hraw : ∀ y, 0 ≤ y < 256 →
    ta_get 0 data (xm * 256 + y + zm * 4096)
    = Tensor3_get (chunk_voxels (Chunk_with_voxels data c)) xm y zm).
  { intros y Hy. unfold Tensor3_get, Tensor3_index. cbn.
    destruct Hwf as (-> & _). f_equal. lia. }
  unfold next_top, top_of, kWorldHeight.
  destruct (decide (stop block = false ∧ start < h ∧ h ≤ start + count))
    as [(Hb & Hlo & Hhi)|Hno].
  - pose proof (scan_down_spec stop data index (Z.to_nat start) 0)
      as (Hr & Hbelow & Hstop).
    set (i := scan_down stop data index (Z.to_nat start) 0) in *.
    split; [lia|]. split.
    + intros y Hy. rewrite Hget by lia.
      destruct (decide (start ≤ y < start + count)); [exact Hb|].
      destruct (decide (y < start)) as [Hlow|Hhigh].
      * pose proof (Hget y ltac:(lia)) as Hsame.
        rewrite decide_False in Hsame by lia.
        rewrite <- Hsame, <- Hraw by lia.
        replace (xm * 256 + y + zm * 4096) with (index - (start - y - 1) - 1)
          by (unfold index; lia).
        apply Hbelow. lia.
      * apply Hup. lia.
    + intros Hpos. rewrite <- Hraw by lia.
      replace (xm * 256 + (start - i - 1) + zm * 4096) with (index - i - 1)
        by (unfold index; lia).
      apply Hstop. lia.
  - destruct (decide (stop block = true ∧ h ≤ start + count)) as [(Hb & Hhi)|Hno'].
    + split; [lia|]. split.
      * intros y Hy. rewrite Hget by lia. rewrite decide_False by lia.
        apply Hup. lia.
      * intros _. rewrite Hget by lia. rewrite decide_True by lia. exact Hb.
    + split; [lia|]. split.
      * intros y Hy. rewrite Hget by lia.
        destruct (decide (start ≤ y < start + count)); [|apply Hup; lia].
        destruct (stop block) eqn:Hb; [|reflexivity].
        exfalso. apply Hno'. split; [reflexivity|lia].
      * intros Hpos. rewrite Hget by lia.
        destruct (decide (start ≤ h - 1 < start + count)) as [Hin|Hout];
          [|apply Hat; lia].
        destruct (stop block) eqn:Hb; [reflexivity|].
        exfalso. apply Hno. split; [reflexivity|lia].
Qed.

Lemma top_of_fill_other stop c xm zm start count block x z h :
  Chunk_wf c →
  0 ≤ xm < 16 → 0 ≤ zm < 16 → 0 ≤ start → 0 ≤ count →
  start + count ≤ 256 →
  0 ≤ x < 16 → 0 ≤ z < 16 → ¬ (x = xm ∧ z = zm) →
  top_of stop c x z h →
  let index := xm * 256 + start + zm * 4096 in
  let data := ta_fill (t3_data (chunk_voxels c)) block index (index + count) in
  top_of stop (Chunk_with_voxels data c) x z h.
Proof.
  intros Hwf Hxm Hzm Hstart Hcount Hend Hx Hz Hne (Hh & Hup & Hat) index data.
  unfold top_of, kWorldHeight in *.
  split; [exact Hh|]. split.
  - intros y Hy. unfold data, index.
    rewrite Tensor3_get_fill by (try assumption; lia).
    rewrite decide_False by tauto. apply Hup. exact Hy.
  - intros Hpos. unfold data, index.
    rewrite Tensor3_get_fill by (try assumption; lia).
    rewrite decide_False by tauto. apply Hat. exact Hpos.
Qed.

(** The two maps after [updateHeightmap]: one cell each, the one of the
    column. *)
Lemma Chunk_updateHeightmap_maps r c xm zm index start count block x z :
  Chunk_wf c →
  0 ≤ xm < 16 → 0 ≤ zm < 16 → 0 ≤ x < 16 → 0 ≤ z < 16 →
  let c' := Chunk_updateHeightmap r c xm zm index start count block in
  Tensor2_get (chunk_heightmap c') x z
  = (if decide (x = xm ∧ z = zm)
     then next_top nonempty (t3_data (chunk_voxels c)) index start count block
            (Tensor2_get (chunk_heightmap c) xm zm)
     else Tensor2_get (chunk_heightmap c) x z)
  ∧ Tensor2_get (chunk_light_map c') x z
    = (if decide (x = xm ∧ z = zm)
       then next_top (Registry_isSolid r) (t3_data (chunk_voxels c)) index
              start count block (Tensor2_get (chunk_light_map c) xm zm)
       else Tensor2_get (chunk_light_map c) x z).
Proof.
  intros (_ & _ & Hs1 & Hl1 & Hs2 & Hl2 & _) Hxm Hzm Hx Hz c'.
  unfold c', Chunk_updateHeightmap, Tensor2_get, Tensor2_index. cbn.
  rewrite Hs1, Hs2. unfold next_top, nonempty.
  set (hm := t2_data (chunk_heightmap c)) in *.
  set (lm := t2_data (chunk_light_map c)) in *.
  set (data := t3_data (chunk_voxels c)).
  assert (Hcell : ∀ (a : list Z) v, Z.of_nat (length a) = 256 →
    ta_get 0 (ta_set a (xm * 1 + zm * 16) v) (x * 1 + z * 16)
    = if decide (x = xm ∧ z = zm) then v else ta_get 0 a (x * 1 + z * 16)).
  { intros a v Ha. destruct (decide (x = xm ∧ z = zm)) as [[-> ->]|Hne].
    - apply ta_get_set_eq. lia.
    - apply ta_get_set_ne. lia. }
  split.
  - destruct (decide (block = kEmptyBlock ∧ _)) as [(Hb & Hlo)|Hno].
    + rewrite Hcell by exact Hl1.
      rewrite (decide_True (P := bool_decide (block ≠ kEmptyBlock) = false ∧ _));
        [reflexivity|].
      split; [|exact Hlo]. apply bool_decide_eq_false. intros Hne. exact (Hne Hb).
    + rewrite (decide_False (P := bool_decide (block ≠ kEmptyBlock) = false ∧ _)).
      2:{ intros (Hb & Hlo). apply Hno. split; [|exact Hlo].
          apply bool_decide_eq_false in Hb.
          destruct (decide (block = kEmptyBlock)); tauto. }
      destruct (decide (block ≠ kEmptyBlock ∧ _)) as [(Hb & Hhi)|Hno'].
      * rewrite Hcell by exact Hl1.
        rewrite (decide_True (P := bool_decide (block ≠ kEmptyBlock) = true ∧ _));
          [reflexivity|].
        split; [|exact Hhi]. apply bool_decide_eq_true. exact Hb.
      * rewrite (decide_False (P := bool_decide (block ≠ kEmptyBlock) = true ∧ _)).
        2:{ intros (Hb & Hhi). apply Hno'. split; [|exact Hhi].
            apply bool_decide_eq_true in Hb. exact Hb. }
        destruct (decide (x = xm ∧ z = zm)) as [[-> ->]|]; reflexivity.
  - destruct (decide (Registry_isSolid r block = false ∧ _)) as [Hyes|Hno].
    + rewrite Hcell by exact Hl2. reflexivity.
    + destruct (decide (Registry_isSolid r block = true ∧ _)) as [Hyes'|Hno'].
      * rewrite Hcell by exact Hl2. reflexivity.
      * destruct (decide (x = xm ∧ z = zm)) as [[-> ->]|]; reflexivity.
Qed.

(** A fill that stays inside its column keeps the two maps right. *)
Lemma top_of_with_heights stop hm lm c x z h :
  top_of stop (Chunk_with_heights hm lm c) x z h ↔ top_of stop c x z h.
Proof. reflexivity. Qed.

Lemma Chunk_setColumn_heights r c x z start count block :
  Chunk_wf c → heights_ok r c →
  0 ≤ start → 1 ≤ count → start + count ≤ kWorldHeight →
  heights_ok r (Chunk_setColumn r c x z start count block).
Proof.
  intros Hwf Hok Hstart Hcount Hend. unfold kWorldHeight in Hend.
  pose proof (js_and_15_range x) as Hxm. pose proof (js_and_15_range z) as Hzm.
  unfold Chunk_setColumn. rewrite kChunkMask_eq, Chunk_wf_index by exact Hwf.
  set (xm := js_and x 15) in *. set (zm := js_and z 15) in *.
  set (index := xm * 256 + start + zm * 4096).
  set (data := ta_fill (t3_data (chunk_voxels c)) block index (index + count)).
  assert (Hwf' : Chunk_wf (Chunk_with_voxels data c)).
  { apply Chunk_wf_with_voxels; [exact Hwf|apply length_ta_fill]. }
  intros a b Ha Hb. rewrite kChunkWidth_eq in Ha, Hb.
  destruct (Chunk_updateHeightmap_maps r (Chunk_with_voxels data c) xm zm index
              start count block a b Hwf' Hxm Hzm Ha Hb) as [-> ->].
  unfold Chunk_updateHeightmap. rewrite !top_of_with_heights.
  destruct (Hok a b) as [Hh Hl]; [rewrite kChunkWidth_eq; lia..|].
  destruct (decide (a = xm ∧ b = zm)) as [[-> ->]|Hne].
  - split; apply top_of_fill; assumption.
  - split; apply top_of_fill_other; try assumption; lia.
Qed.

Lemma Chunk_setBlock_self_heights r c x y z block :
  Chunk_wf c → heights_ok r c → 0 ≤ y < kWorldHeight →
  heights_ok r (Chunk_setBlock_self r c x y z block).
Proof.
  intros Hwf Hok Hy. pose proof Hy as Hy'. unfold kWorldHeight in Hy'.
  pose proof (js_and_15_range x) as Hxm. pose proof (js_and_15_range z) as Hzm.
  pose proof (Chunk_setColumn_heights r c x z y 1 block Hwf Hok) as Hcol.
  unfold Chunk_setBlock_self. case_decide as Hold; [exact Hok|].
  unfold Chunk_setColumn in Hcol.
  rewrite kChunkMask_eq in *. rewrite Chunk_wf_index in * by exact Hwf.
  rewrite <- ta_set_fill in Hcol.
  2:{ destruct Hwf as (_ & -> & _). lia. }
  intros a b Ha Hb. exact (Hcol ltac:(lia) ltac:(lia) ltac:(unfold kWorldHeight; lia) a b Ha Hb).
Qed.

Lemma Chunk_init_heights r cx cz :
  Registry_isSolid r kEmptyBlock = false → heights_ok r (Chunk_init cx cz).
Proof.
  intros Hr a b Ha Hb. rewrite kChunkWidth_eq in Ha, Hb.
  assert (Hv : ∀ y, Tensor3_get (chunk_voxels (Chunk_init cx cz)) a y b = 0).
  { intros y. unfold Tensor3_get, ta_get. case_decide; [|reflexivity].
    cbn [Chunk_init chunk_voxels Tensor3_new t3_data].
    destruct (replicate _ 0 !! _) eqn:Hl; [|reflexivity].
    apply lookup_replicate in Hl as [-> _]. reflexivity. }
  assert (Hm : ∀ i, ta_get 0 (replicate (Z.to_nat (kChunkWidth * kChunkWidth)) 0) i = 0).
  { intros i. unfold ta_get. case_decide; [|reflexivity].
    destruct (replicate _ 0 !! _) eqn:Hl; [|reflexivity].
    apply lookup_replicate in Hl as [-> _]. reflexivity. }
  unfold Tensor2_get. cbn [Chunk_init chunk_heightmap chunk_light_map Tensor2_new t2_data].
  rewrite !Hm. unfold top_of, kWorldHeight.
  split; (split; [lia|]); (split; [|lia]); intros y _; rewrite Hv; [reflexivity|exact Hr].
Qed.

Lemma Chunk_call_wf r c k : Chunk_wf c → Chunk_wf (Chunk_call r c k).
Proof.
  intros Hwf. destruct k; [apply Chunk_wf_setBlock_self|apply Chunk_wf_setColumn];
    exact Hwf.
Qed.

Lemma Chunk_call_heights r c k :
  Chunk_wf c → heights_ok r c → call_in_range k →
  heights_ok r (Chunk_call r c k).
Proof.
  intros Hwf Hok Hk. destruct k; cbn in Hk |- *.
  - apply Chunk_setBlock_self_heights; assumption.
  - destruct Hk as (? & ? & ?). apply Chunk_setColumn_heights; assumption.
Qed.

(** ** Columns: what the loader leaves in them *)

Lemma int16_small z : - 2 ^ 15 ≤ z < 2 ^ 15 → int16 z = z.
Proof. intros Hz. unfold int16. rewrite Z.mod_small; lia. Qed.

Lemma runs_snoc (data : list (Z * Z)) (size : Z) (v : Z * Z) :
  0 ≤ size < Z.of_nat (length data) →
  (λ i, ta_get (0, 0) (ta_set data size v) i) <$> seqZ 0 (size + 1)
  = ((λ i, ta_get (0, 0) data i) <$> seqZ 0 size) ++ [v].
Proof.
  intros Hsize. rewrite seqZ_app, fmap_app by lia. f_equal.
  - apply Forall_fmap_ext, Forall_forall. intros i Hi%elem_of_seqZ.
    apply ta_get_set_ne. lia.
  - rewrite seqZ_cons, seqZ_nil by lia. cbn [fmap list_fmap]. f_equal.
    apply ta_get_set_eq. lia.
Qed.

Lemma runs_ok_snoc start runs stop (v : Z * Z) :
  runs_ok start runs stop → stop < snd v ≤ kWorldHeight →
  runs_ok start (runs ++ [v]) (snd v).
Proof.
  revert start. induction runs as [|run runs IH]; intros start Hruns Hv.
  - cbn in Hruns |- *. subst stop. split; [exact Hv|reflexivity].
  - destruct Hruns as [Hrun Hrest]. split; [exact Hrun|].
    apply IH; assumption.
Qed.

Lemma runs_ok_le start runs stop : runs_ok start runs stop → start ≤ stop.
Proof.
  revert start. induction runs as [|run runs IH]; intros start Hruns.
  - cbn in Hruns. lia.
  - destruct Hruns as [Hrun Hrest]. apply IH in Hrest. lia.
Qed.

Ltac col_simpl :=
  cbn [col_decorations col_data col_last col_size col_mismatches
       col_reference_data col_reference_size].

Lemma Column_idle_ok col : Column_idle col → Column_ok col.
Proof.
  intros (Hd & Hlast & Hsize & Hl1 & Hl2 & Hl3).
  unfold Column_ok, Column_runs. rewrite Hd, Hlast, Hsize.
  split_and!; try assumption; try lia.
  - reflexivity.
  - constructor.
Qed.

Lemma Column_push_ok block height col :
  Column_ok col → Column_ok (Column_push block height col).
Proof.
  intros Hok. pose proof Hok as (Hl1 & Hl2 & Hl3 & Hsize & Hlast & Hruns & Hdec).
  unfold Column_push. case_decide as Hh; [exact Hok|].
  unfold kWorldHeight in *.
  assert (Hlevel : int16 (Z.min height 256) = Z.min height 256).
  { apply int16_small. lia. }
  unfold Column_ok, Column_runs. col_simpl. rewrite length_ta_set.
  split_and!; try assumption; try (unfold kWorldHeight; lia).
  rewrite runs_snoc by lia. rewrite Hlevel.
  apply (runs_ok_snoc 0 _ (col_last col) (int16 block, Z.min height 256));
    [exact Hruns|]. cbn. unfold kWorldHeight. lia.
Qed.

Lemma Column_overwrite_ok block y col :
  Column_ok col → Column_ok (Column_overwrite block y col).
Proof.
  intros Hok. pose proof Hok as (Hl1 & Hl2 & Hl3 & Hsize & Hlast & Hruns & Hdec).
  unfold Column_overwrite. case_decide as Hy; [|exact Hok].
  unfold Column_ok, Column_runs. col_simpl.
  split_and!; try assumption; try lia.
  apply Forall_app. split; [exact Hdec|]. constructor; [|constructor].
  cbn. lia.
Qed.

Lemma Loader_run_ok loader x z col :
  Column_ok col → Column_ok (Loader_run loader x z col).
Proof.
  intros Hok. unfold Loader_run. apply foldl_inv; [|exact Hok].
  intros c [b h|b y] Hc; [apply Column_push_ok|apply Column_overwrite_ok];
    exact Hc.
Qed.

(** ** Columns: what [fillChunk] leaves in the chunk *)

Section fill_inv.
Variables (r : Registry) (P : Chunk → Prop).
Hypothesis P_setColumn : ∀ c x z start count block,
  0 ≤ start → 1 ≤ count → start + count ≤ kWorldHeight →
  P c → P (Chunk_setColumn r c x z start count block).

Lemma fill_runs_inv x z runs :
  ∀ start stop chunk,
    0 ≤ start → runs_ok start runs stop → P chunk →
    P (fst (foldl (fill_run r x z) (chunk, start) runs)).
Proof.
  induction runs as [|[block level] runs IH]; intros start stop chunk Hs Hruns Hc.
  - exact Hc.
  - destruct Hruns as [Hrun Hrest]. cbn in Hrun, Hrest.
    cbn [foldl fill_run]. apply (IH level stop); [lia|exact Hrest|].
    apply P_setColumn; [lia..|exact Hc].
Qed.

Lemma fill_decorations_inv x z decs chunk :
  Forall (λ d : Z * Z, 0 ≤ snd d < kWorldHeight) decs → P chunk →
  P (foldl (fill_decoration r x z) chunk decs).
Proof.
  revert chunk. induction decs as [|[block level] decs IH]; intros chunk Hd Hc.
  - exact Hc.
  - apply Forall_cons in Hd as [Hd Hrest]. cbn in Hd.
    cbn [foldl fill_decoration]. apply IH; [exact Hrest|].
    apply P_setColumn; [lia..|exact Hc].
Qed.

Lemma Column_fillChunk_ok col x z chunk first chunk' col' :
  Column_ok col → P chunk →
  Column_fillChunk r col x z chunk first = Some (chunk', col') →
  P chunk'.
Proof.
  intros (_ & _ & _ & _ & _ & Hruns & Hdec) Hchunk. unfold Column_fillChunk.
  fold (Column_runs col). intros Hrun.
  destruct (foldl (fill_run r x z) (chunk, 0) _) as [chunk1 last] eqn:Hfill.
  apply bind_Some in Hrun as (col1 & _ & Hrun). injection Hrun as <- _.
  apply fill_decorations_inv; [exact Hdec|].
  change chunk1 with (fst (chunk1, last)). rewrite <- Hfill.
  apply (fill_runs_inv x z _ 0 (col_last col)); [lia|exact Hruns|exact Hchunk].
Qed.

End fill_inv.

(** ** Columns: the seal and the walk of [detectEquiLevelChanges] *)

Lemma Column_seal_sealed col : Column_ok col → Column_sealed (Column_seal col).
Proof.
  intros (Hl1 & Hl2 & Hl3 & Hsize & Hlast & Hruns & Hdec).
  unfold Column_seal. case_decide as Hopen; unfold Column_sealed, Column_runs;
    col_simpl; rewrite ?length_ta_set.
  - unfold kWorldHeight in *.
    split_and!; try assumption; try lia.
    rewrite runs_snoc by lia.
    apply (runs_ok_snoc 0 _ (col_last col) (int16 kEmptyBlock, int16 256));
      [exact Hruns|].
    cbn [snd]. rewrite int16_small by lia. unfold kWorldHeight. lia.
  - assert (col_last col = kWorldHeight) as Hfull by lia.
    rewrite Hfull in Hruns, Hsize.
    split_and!; try assumption; lia.
Qed.

Lemma runs_ok_top runs stop : runs_ok kWorldHeight runs stop → runs = [].
Proof.
  destruct runs as [|run runs]; [reflexivity|]. intros [Hrun _]. lia.
Qed.

Lemma runs_lookup (data : list (Z * Z)) (size i : Z) :
  0 ≤ i < size →
  ((λ i, ta_get (0, 0) data i) <$> seqZ 0 size) !! Z.to_nat i
  = Some (ta_get (0, 0) data i).
Proof.
  intros Hi. rewrite list_lookup_fmap, lookup_seqZ_lt by lia.
  cbn. f_equal. f_equal. lia.
Qed.

Lemma runs_length (data : list (Z * Z)) (size : Z) :
  0 ≤ size →
  Z.of_nat (length ((λ i, ta_get (0, 0) data i) <$> seqZ 0 size)) = size.
Proof. intros Hs. rewrite length_fmap, length_seqZ. lia. Qed.

Lemma count_decoration_length m dec :
  length (count_decoration m dec) = length m.
Proof.
  unfold count_decoration, mismatch_add. case_decide; rewrite ?length_ta_set;
    reflexivity.
Qed.

Lemma count_decorations_length decs : ∀ m,
  length (foldl count_decoration m decs) = length m.
Proof.
  induction decs as [|d decs IH]; intros m; [reflexivity|].
  cbn [foldl]. rewrite IH. apply count_decoration_length.
Qed.

Lemma walk_step_inv c w :
  walk_inv c w → w_di w < col_size c → w_ri w < col_reference_size c →
  walk_inv c (walk_step c w)
  ∧ (col_size c - w_di (walk_step c w))
    + (col_reference_size c - w_ri (walk_step c w))
    < (col_size c - w_di w) + (col_reference_size c - w_ri w).
Proof.
  intros (Hdi & Hri & Hd0 & Hr0 & Hd & Hr & Htop & Hlen) Hdlt Hrlt.
  pose proof Hd as Hd'. pose proof Hr as Hr'.
  unfold Column_runs in Hd'. unfold Column_ref_runs in Hr'.
  rewrite (drop_S _ (ta_get (0, 0) (col_data c) (w_di w))) in Hd'
    by (apply runs_lookup; lia).
  rewrite (drop_S _ (ta_get (0, 0) (col_reference_data c) (w_ri w))) in Hr'
    by (apply runs_lookup; lia).
  destruct Hd' as [Hdrun Hdrest]. destruct Hr' as [Hrrun Hrrest].
  replace (S (Z.to_nat (w_di w))) with (Z.to_nat (w_di w + 1)) in Hdrest by lia.
  replace (S (Z.to_nat (w_ri w))) with (Z.to_nat (w_ri w + 1)) in Hrrest by lia.
  fold (Column_runs c) in Hdrest. fold (Column_ref_runs c) in Hrrest.
  unfold walk_step.
  destruct (ta_get (0, 0) (col_data c) (w_di w)) as [d_block d_limit].
  destruct (ta_get (0, 0) (col_reference_data c) (w_ri w)) as [r_block r_limit].
  cbn [snd] in Hdrun, Hdrest, Hrrun, Hrrest.
  unfold walk_inv.
  cbn [w_mismatches w_matched w_di w_ri w_d_start w_r_start].
  assert (Hm : Z.of_nat (length
      (if negb (eqb (w_matched w) (bool_decide (d_block = r_block)))
       then mismatch_add (w_mismatches w) (w_d_start w `max` w_r_start w)
              (if w_matched w then 1 else -1)
       else w_mismatches w)) = kWorldHeight).
  { destruct (negb _); [|exact Hlen].
    unfold mismatch_add. rewrite length_ta_set. exact Hlen. }
  unfold kWorldHeight in *.
  destruct (bool_decide (d_limit ≤ r_limit)) eqn:Hdadv;
    destruct (bool_decide (r_limit ≤ d_limit)) eqn:Hradv.
  - apply bool_decide_eq_true in Hdadv. apply bool_decide_eq_true in Hradv.
    split; [|lia]. split_and!; try lia; assumption.
  - apply bool_decide_eq_true in Hdadv. apply bool_decide_eq_false in Hradv.
    split; [|lia]. split_and!; try lia; assumption.
  - apply bool_decide_eq_false in Hdadv. apply bool_decide_eq_true in Hradv.
    split; [|lia]. split_and!; try lia; assumption.
  - apply bool_decide_eq_false in Hdadv. apply bool_decide_eq_false in Hradv.
    lia.
Qed.

Lemma walk_loop_spec c fuel : ∀ w,
  walk_inv c w →
  (col_size c - w_di w) + (col_reference_size c - w_ri w) ≤ Z.of_nat fuel →
  let w' := walk_loop fuel c w in
  walk_inv c w'
  ∧ w_di w' = col_size c ∧ w_ri w' = col_reference_size c
  ∧ w_d_start w' = kWorldHeight ∧ w_r_start w' = kWorldHeight.
Proof.
  assert (Hdone : ∀ w, walk_inv c w →
    ¬ (w_di w < col_size c ∧ w_ri w < col_reference_size c) →
    w_di w = col_size c ∧ w_ri w = col_reference_size c
    ∧ w_d_start w = kWorldHeight ∧ w_r_start w = kWorldHeight).
  { intros w (Hdi & Hri & Hd0 & Hr0 & Hd & Hr & Htop & Hlen) Hstop.
    assert (Hdtop : w_di w = col_size c → w_d_start w = kWorldHeight).
    { intros Heq. rewrite Heq in Hd. unfold Column_runs in Hd.
      rewrite drop_ge in Hd; [exact Hd|].
      rewrite length_fmap, length_seqZ. lia. }
    assert (Hrtop : w_ri w = col_reference_size c → w_r_start w = kWorldHeight).
    { intros Heq. rewrite Heq in Hr. unfold Column_ref_runs in Hr.
      rewrite drop_ge in Hr; [exact Hr|].
      rewrite length_fmap, length_seqZ. lia. }
    assert (Hdback : w_d_start w = kWorldHeight → w_di w = col_size c).
    { intros Heq. rewrite Heq in Hd. apply runs_ok_top in Hd.
      apply (f_equal length) in Hd. unfold Column_runs in Hd.
      rewrite length_drop, length_fmap, length_seqZ in Hd. cbn in Hd. lia. }
    assert (Hrback : w_r_start w = kWorldHeight → w_ri w = col_reference_size c).
    { intros Heq. rewrite Heq in Hr. apply runs_ok_top in Hr.
      apply (f_equal length) in Hr. unfold Column_ref_runs in Hr.
      rewrite length_drop, length_fmap, length_seqZ in Hr. cbn in Hr. lia. }
    destruct (decide (w_di w = col_size c)) as [Hd1|Hd1].
    - pose proof (Hdtop Hd1). tauto.
    - assert (w_ri w = col_reference_size c) as Hr1 by lia.
      pose proof (Hrtop Hr1). tauto. }
  induction fuel as [|fuel IH]; intros w Hinv Hfuel; cbn [walk_loop].
  - split; [exact Hinv|]. apply Hdone; [exact Hinv|].
    destruct Hinv as (Hdi & Hri & _). lia.
  - case_decide as Hgo.
    + destruct Hgo as [Hdlt Hrlt].
      destruct (walk_step_inv c w Hinv Hdlt Hrlt) as [Hinv' Hless].
      apply IH; [exact Hinv'|lia].
    + split; [exact Hinv|]. apply Hdone; assumption.
Qed.

Lemma Column_detectEquiLevelChanges_Some first col :
  Column_ok col → (first = false → Column_ref_ok col) →
  ∃ col', Column_detectEquiLevelChanges first col = Some col'
    ∧ Column_sealed col' ∧ Column_ref_ok col'
    ∧ col_decorations col' = col_decorations col.
Proof.
  intros Hok Href. pose proof (Column_seal_sealed col Hok) as Hsealed.
  assert (Hsame : col_reference_data (Column_seal col) = col_reference_data col
    ∧ col_reference_size (Column_seal col) = col_reference_size col
    ∧ col_decorations (Column_seal col) = col_decorations col).
  { unfold Column_seal. case_decide; repeat split. }
  destruct Hsame as (Hrd & Hrs & Hdecs).
  unfold Column_detectEquiLevelChanges.
  set (c := Column_seal col) in *.
  destruct Hsealed as (Hl1 & Hl2 & Hl3 & Hsize & Hruns & Hdec).
  destruct first.
  - eexists. split; [reflexivity|]. unfold kWorldHeight in *.
    assert (Href' : (λ i, ta_get (0, 0)
        (take (Z.to_nat (col_size c)) (col_data c)
           ++ drop (Z.to_nat (col_size c)) (col_reference_data c)) i)
        <$> seqZ 0 (col_size c) = Column_runs c).
    { apply Forall_fmap_ext, Forall_forall. intros i Hi%elem_of_seqZ.
      unfold ta_get. case_decide; [|reflexivity].
      rewrite lookup_app_l by (rewrite length_take; lia).
      rewrite lookup_take_lt by lia. reflexivity. }
    split; [|split; [|exact Hdecs]].
    + unfold Column_sealed, Column_runs. col_simpl.
      rewrite count_decorations_length, length_replicate.
      rewrite length_app, length_take, length_drop.
      split_and!; try assumption; unfold kWorldHeight; lia.
    + unfold Column_ref_ok, Column_ref_runs. col_simpl.
      rewrite Href'. split; [unfold kWorldHeight; lia|exact Hruns].
  - destruct (Href eq_refl) as [Hrsize Hrruns].
    set (w0 := {| w_mismatches := foldl count_decoration (col_mismatches c)
                                    (col_decorations c);
                  w_matched := true; w_di := 0; w_ri := 0;
                  w_d_start := 0; w_r_start := 0 |}).
    assert (Hinv : walk_inv c w0).
    { unfold walk_inv, w0.
      cbn [w_mismatches w_matched w_di w_ri w_d_start w_r_start].
      rewrite count_decorations_length. change (Z.to_nat 0) with O.
      rewrite !drop_0. unfold Column_ref_runs. rewrite Hrd, Hrs.
      split_and!; try assumption; try lia; unfold kWorldHeight; lia. }
    destruct (walk_loop_spec c (Z.to_nat (col_size c + col_reference_size c)) w0
                Hinv) as (Hinv' & Hdi & Hri & Hds & Hrs').
    { unfold w0. cbn [w_di w_ri]. lia. }
    set (w := walk_loop _ c w0) in *.
    unfold assert. rewrite !decide_True by assumption.
    cbn [mbind option_bind]. eexists. split; [reflexivity|].
    destruct Hinv' as (_ & _ & _ & _ & _ & _ & _ & Hlen).
    split; [|split; [|exact Hdecs]].
    + unfold Column_sealed, Column_runs. col_simpl.
      split_and!; first [assumption|lia].
    + unfold Column_ref_ok, Column_ref_runs. col_simpl.
      unfold Column_ref_ok, Column_ref_runs in Href. rewrite Hrd, Hrs.
      exact (Href eq_refl).
Qed.

(** ** Chunk.load: every column goes through *)

Lemma Column_call_reference col k :
  col_reference_data (Column_call col k) = col_reference_data col
  ∧ col_reference_size (Column_call col k) = col_reference_size col
  ∧ col_mismatches (Column_call col k) = col_mismatches col.
Proof.
  destruct k as [b h|b y]; cbn [Column_call].
  - unfold Column_push. case_decide; repeat split.
  - unfold Column_overwrite. case_decide; repeat split.
Qed.

Lemma Loader_run_reference loader x z col :
  col_reference_data (Loader_run loader x z col) = col_reference_data col
  ∧ col_reference_size (Loader_run loader x z col) = col_reference_size col
  ∧ col_mismatches (Loader_run loader x z col) = col_mismatches col.
Proof.
  unfold Loader_run. apply foldl_inv; [|repeat split].
  intros c k (H1 & H2 & H3). destruct (Column_call_reference c k) as (-> & -> & ->).
  repeat split; assumption.
Qed.

Lemma Column_clear_idle col : Column_sealed col → Column_idle (Column_clear col).
Proof.
  intros (Hl1 & Hl2 & Hl3 & _). unfold Column_idle, Column_clear. col_simpl.
  repeat split; assumption.
Qed.

Section load_inv.
Variables (r : Registry) (loader : Loader) (P : Chunk → Prop).
Hypothesis P_setColumn : ∀ c x z start count block,
  0 ≤ start → 1 ≤ count → start + count ≤ kWorldHeight →
  P c → P (Chunk_setColumn r c x z start count block).

Lemma Column_fillChunk_Some col x z chunk first :
  Column_ok col → (first = false → Column_ref_ok col) → P chunk →
  ∃ chunk' col', Column_fillChunk r col x z chunk first = Some (chunk', col')
    ∧ P chunk' ∧ Column_sealed col' ∧ Column_ref_ok col'.
Proof.
  intros Hok Href Hchunk.
  destruct (Column_detectEquiLevelChanges_Some first col Hok Href)
    as (col' & Hdetect & Hsealed & Href' & _).
  assert (Hrun : ∃ chunk', Column_fillChunk r col x z chunk first
                           = Some (chunk', col')).
  { unfold Column_fillChunk.
    destruct (foldl (fill_run r x z) (chunk, 0) _) as [chunk1 last].
    rewrite Hdetect. eexists. reflexivity. }
  destruct Hrun as [chunk' Hrun]. exists chunk', col'.
  split; [exact Hrun|]. split; [|split; assumption].
  exact (Column_fillChunk_ok r P P_setColumn col x z chunk first chunk' col'
           Hok Hchunk Hrun).
Qed.

Lemma load_column_Some dx dz x z chunk col :
  P chunk → Column_idle col → (x + z ≠ 0 → Column_ref_ok col) →
  loading P (load_column r loader dx dz x (Some (chunk, col)) z).
Proof.
  intros Hchunk Hidle Href. unfold load_column. cbn [mbind option_bind].
  set (col1 := Loader_run loader (x + dx) (z + dz) col).
  assert (Hok : Column_ok col1).
  { apply Loader_run_ok, Column_idle_ok, Hidle. }
  assert (Href1 : bool_decide (x + z = 0) = false → Column_ref_ok col1).
  { intros Hfirst%bool_decide_eq_false. specialize (Href Hfirst).
    unfold Column_ref_ok, Column_ref_runs, col1 in *.
    destruct (Loader_run_reference loader (x + dx) (z + dz) col) as (-> & -> & _).
    exact Href. }
  destruct (Column_fillChunk_Some col1 (x + dx) (z + dz) chunk
              (bool_decide (x + z = 0)) Hok Href1 Hchunk)
    as (chunk' & col' & -> & Hchunk' & Hsealed & Href').
  cbn [mbind option_bind]. exists chunk', (Column_clear col').
  split; [reflexivity|]. split; [exact Hchunk'|].
  split; [apply Column_clear_idle, Hsealed|exact Href'].
Qed.

Lemma load_columns_loading dx dz x zs : ∀ st,
  loading P st → loading P (foldl (load_column r loader dx dz x) st zs).
Proof.
  induction zs as [|z zs IH]; intros st Hst; [exact Hst|].
  cbn [foldl]. apply IH.
  destruct Hst as (chunk & col & -> & Hchunk & Hidle & Href).
  apply load_column_Some; [assumption..|]. intros _. exact Href.
Qed.

Lemma load_rows_loading dx dz xs : ∀ st,
  loading P st →
  loading P (foldl (λ st x, foldl (load_column r loader dx dz x) st
                            (seqZ 0 kChunkWidth)) st xs).
Proof.
  induction xs as [|x xs IH]; intros st Hst; [exact Hst|].
  cbn [foldl]. apply IH, load_columns_loading, Hst.
Qed.

Hypothesis P_equilevels : ∀ c col,
  P c → Column_idle col →
  P (Chunk_with_equilevels (Column_fillEquilevels col (chunk_equilevels c)) c).

Lemma Chunk_loadColumns_Some chunk col :
  P chunk → Column_idle col →
  ∃ chunk' col', Chunk_loadColumns r loader chunk col = Some (chunk', col')
    ∧ P chunk' ∧ Column_idle col' ∧ Column_ref_ok col'.
Proof.
  intros Hchunk Hidle. unfold Chunk_loadColumns.
  set (dx := js_shl (chunk_cx chunk) kChunkBits).
  set (dz := js_shl (chunk_cz chunk) kChunkBits).
  assert (Hrows : loading P
    (foldl (λ st x, foldl (load_column r loader dx dz x) st (seqZ 0 kChunkWidth))
       (Some (chunk, col)) (seqZ 0 kChunkWidth))).
  { rewrite kChunkWidth_eq. rewrite (seqZ_cons 0 16) by lia.
    cbn [foldl]. apply load_rows_loading.
    apply load_columns_loading, load_column_Some; [assumption..|].
    intros Hne. exfalso. apply Hne. reflexivity. }
  destruct Hrows as (chunk1 & col1 & -> & Hchunk1 & Hidle1 & Href1).
  cbn [mbind option_bind]. eexists _, col1. split; [reflexivity|].
  split; [apply P_equilevels; assumption|]. split; assumption.
Qed.

End load_inv.

(* ===================================================================== *)
(** * Columns and chunks beyond the claims *)
(* ===================================================================== *)

(** The level below the run [i] of [runs]: [start] below the first. *)
Lemma runs_ok_levels runs : ∀ start stop,
  runs_ok start runs stop →
  (∀ i run, runs !! i = Some run →
     match i with
     | O => start
     | S j => snd (default (0, 0) (runs !! j))
     end < snd run ≤ kWorldHeight)
  ∧ stop = match length runs with
           | O => start
           | S j => snd (default (0, 0) (runs !! j))
           end.
Proof.
  induction runs as [|run runs IH]; intros start stop Hruns.
  - split; [intros i run Hi; discriminate Hi|]. symmetry. exact Hruns.
  - destruct Hruns as [Hrun Hrest]. destruct (IH _ _ Hrest) as [Hlevels Hstop].
    split.
    + intros [|i] run' Hi.
      * injection Hi as <-. exact Hrun.
      * specialize (Hlevels i run' Hi). destruct i as [|i]; exact Hlevels.
    + cbn [length]. rewrite Hstop. destruct (length runs) as [|j]; reflexivity.
Qed.

(** X1.  Whatever the loader calls on a cleared column -- any sequence of
    [push] and [overwrite], with any arguments -- the runs it leaves are
    strictly increasing in level and end at most at [kWorldHeight], [last]
    is the level of the last run (0 when there is none), there are at most
    [last] runs, and every decoration kept lies inside the column. *)
Theorem Column_calls_keep_runs (col : Column) (calls : list ColumnCall) :
  Column_idle col →
  let col' := foldl Column_call col calls in
  0 ≤ Column_getSize col' ≤ col_last col'
  ∧ col_last col' ≤ kWorldHeight
  ∧ col_last col' = Column_getNthLevel col' (Column_getSize col' - 1)
  ∧ (∀ i, 0 ≤ i < Column_getSize col' →
       Column_getNthLevel col' (i - 1) < Column_getNthLevel col' i
       ∧ Column_getNthLevel col' i ≤ kWorldHeight)
  ∧ (∀ block y, (block, y) ∈ col_decorations col' → 0 ≤ y < kWorldHeight).
Proof.
  intros Hidle col'.
  assert (Hok : Column_ok col').
  { apply foldl_inv; [|apply Column_idle_ok, Hidle].
    intros c [b h|b y] Hc; [apply Column_push_ok|apply Column_overwrite_ok];
      exact Hc. }
  destruct Hok as (Hl1 & _ & _ & Hsize & Hlast & Hruns & Hdec).
  destruct (runs_ok_levels _ _ _ Hruns) as [Hlevels Hstop].
  assert (Hlevel : ∀ i, 0 ≤ i < col_size col' →
    Column_getNthLevel col' i
    = snd (default (0, 0) (Column_runs col' !! Z.to_nat i))).
  { intros i Hi. unfold Column_getNthLevel, Column_runs.
    rewrite decide_False by lia. rewrite runs_lookup by lia. reflexivity. }
  unfold Column_getSize. split; [exact Hsize|]. split; [exact Hlast|].
  split; [|split].
  - rewrite Hstop. unfold Column_runs at 1.
    rewrite length_fmap, length_seqZ.
    destruct (Z.to_nat (col_size col')) as [|j] eqn:Hj.
    + unfold Column_getNthLevel. rewrite decide_True by lia. reflexivity.
    + rewrite Hlevel by lia. do 3 f_equal. lia.
  - intros i Hi. rewrite (Hlevel i Hi).
    pose proof (runs_lookup (col_data col') (col_size col') i Hi) as Hrun.
    fold (Column_runs col') in Hrun. specialize (Hlevels _ _ Hrun).
    rewrite Hrun. cbn [default]. split; [|apply Hlevels].
    destruct (Z.to_nat i) as [|j] eqn:Hj.
    + unfold Column_getNthLevel. rewrite decide_True by lia. apply Hlevels.
    + rewrite Hlevel by lia. replace (Z.to_nat (i - 1)) with j by lia.
      apply Hlevels.
  - intros block y Hin. rewrite Forall_forall in Hdec.
    exact (Hdec _ Hin).
Qed.

Lemma Column_calls_keep_runs_witness :
  let col' := foldl Column_call Column_new
                [CallPush 2 10; CallOverwrite 3 300; CallPush 1 4;
                 CallOverwrite 3 12; CallPush 1 1000] in
  0 ≤ Column_getSize col' ≤ col_last col'
  ∧ col_last col' ≤ kWorldHeight
  ∧ col_last col' = Column_getNthLevel col' (Column_getSize col' - 1)
  ∧ (∀ i, 0 ≤ i < Column_getSize col' →
       Column_getNthLevel col' (i - 1) < Column_getNthLevel col' i
       ∧ Column_getNthLevel col' i ≤ kWorldHeight)
  ∧ (∀ block y, (block, y) ∈ col_decorations col' → 0 ≤ y < kWorldHeight).
Proof.
  apply (Column_calls_keep_runs Column_new).
  repeat split; reflexivity.
Defined.

(** X2.  [push] and the accessors.  A push that does not rise above [last]
    (after the clamp to [kWorldHeight]) leaves the column as it is.  One
    that does adds one run: the size grows by one, the new run reads back
    with the clamped height as its level and with the block as the
    [Int16Array] holds it, and the runs below read as before. *)
Theorem Column_push_get (col : Column) (block height bedrock : Z) :
  Column_ok col →
  let col' := Column_push block height col in
  (Z.min height kWorldHeight ≤ col_last col → col' = col)
  ∧ (col_last col < Z.min height kWorldHeight →
     Column_getSize col' = Column_getSize col + 1
     ∧ col_last col' = Z.min height kWorldHeight
     ∧ Column_getNthBlock col' (Column_getSize col) bedrock = int16 block
     ∧ Column_getNthLevel col' (Column_getSize col)
       = Z.min height kWorldHeight
     ∧ ∀ n, n < Column_getSize col →
         Column_getNthBlock col' n bedrock = Column_getNthBlock col n bedrock
         ∧ Column_getNthLevel col' n = Column_getNthLevel col n).
Proof.
  intros (Hl1 & _ & _ & Hsize & Hlast & _) col'. unfold col', Column_push.
  split.
  - intros Hlow. rewrite decide_True by exact Hlow. reflexivity.
  - intros Hrise. rewrite decide_False by lia.
    unfold Column_getSize, Column_getNthBlock, Column_getNthLevel. col_simpl.
    unfold kWorldHeight in *.
    split; [reflexivity|]. split; [reflexivity|].
    rewrite !(decide_False (P := col_size col < 0)) by lia.
    rewrite ta_get_set_eq by lia. cbn [fst snd].
    split; [reflexivity|]. split; [apply int16_small; lia|].
    intros n Hn. destruct (decide (n < 0)); [split; reflexivity|].
    rewrite ta_get_set_ne by lia. split; reflexivity.
Qed.

Lemma Column_push_get_witness :
  let col' := Column_push 40000 300 Column_new in
  (Z.min 300 kWorldHeight ≤ col_last Column_new → col' = Column_new)
  ∧ (col_last Column_new < Z.min 300 kWorldHeight →
     Column_getSize col' = Column_getSize Column_new + 1
     ∧ col_last col' = Z.min 300 kWorldHeight
     ∧ Column_getNthBlock col' (Column_getSize Column_new) 7 = int16 40000
     ∧ Column_getNthLevel col' (Column_getSize Column_new)
       = Z.min 300 kWorldHeight
     ∧ ∀ n, n < Column_getSize Column_new →
         Column_getNthBlock col' n 7 = Column_getNthBlock Column_new n 7
         ∧ Column_getNthLevel col' n = Column_getNthLevel Column_new n).
Proof.
  apply (Column_push_get Column_new 40000 300 7).
  apply Column_idle_ok. repeat split; reflexivity.
Defined.

Lemma Column_new_idle : Column_idle Column_new.
Proof. repeat split; reflexivity. Qed.

Lemma fillEquilevels_from_length mismatches : ∀ current,
  length (fillEquilevels_from current mismatches) = length mismatches.
Proof.
  induction mismatches as [|m rest IH]; intros current; [reflexivity|].
  cbn [fillEquilevels_from length]. rewrite IH. reflexivity.
Qed.

Lemma Column_fillEquilevels_length col equilevels :
  Column_idle col → Z.of_nat (length equilevels) = kWorldHeight →
  length (Column_fillEquilevels col equilevels) = length equilevels.
Proof.
  intros (_ & _ & _ & _ & Hm & _) He. unfold Column_fillEquilevels.
  rewrite length_app, length_drop, fillEquilevels_from_length, length_take.
  lia.
Qed.

(** X3.  [Chunk.load] goes through for every loader: from a cleared column
    none of the four assertions at the end of [detectEquiLevelChanges]
    fails, in any of the 256 columns, and the column comes back cleared, so
    that the next chunk can be loaded with it. *)
Theorem Chunk_load_returns (r : Registry) (loader : Loader) (chunk : Chunk)
    (col : Column) :
  Column_idle col →
  ∃ chunk' col',
    Chunk_loadColumns r loader chunk col = Some (chunk', col')
    ∧ Column_idle col'
    ∧ chunk_cx chunk' = chunk_cx chunk ∧ chunk_cz chunk' = chunk_cz chunk.
Proof.
  intros Hidle.
  destruct (Chunk_loadColumns_Some r loader
              (λ c, chunk_cx c = chunk_cx chunk ∧ chunk_cz c = chunk_cz chunk))
    with (chunk := chunk) (col := col)
    as (chunk' & col' & Hrun & [Hcx Hcz] & Hidle' & _).
  - intros c x z start count block _ _ _ Hc. exact Hc.
  - intros c e Hc _. exact Hc.
  - split; reflexivity.
  - exact Hidle.
  - exists chunk', col'. split; [exact Hrun|]. split; [exact Hidle'|].
    split; assumption.
Qed.

Lemma Chunk_load_returns_witness :
  ∃ chunk' col',
    Chunk_loadColumns example_registry (λ x z, [CallPush 2 (x + z); CallOverwrite 3 7])
      (Chunk_init 2 (-1)) Column_new = Some (chunk', col')
    ∧ Column_idle col'
    ∧ chunk_cx chunk' = chunk_cx (Chunk_init 2 (-1))
    ∧ chunk_cz chunk' = chunk_cz (Chunk_init 2 (-1)).
Proof.
  apply (Chunk_load_returns example_registry
           (λ x z, [CallPush 2 (x + z); CallOverwrite 3 7])
           (Chunk_init 2 (-1)) Column_new).
  repeat split; reflexivity.
Defined.

(** X4.  A chunk that [Chunk.load] fills from a cleared column, with a
    registry in which the empty block is not solid, has both maps right:
    for every column, [heightmap] holds the smallest [y] from which on all
    voxels are empty and [light_map] the smallest [y] from which on none is
    solid. *)
Theorem Chunk_load_heights (r : Registry) (loader : Loader) (cx cz : Z)
    (col col' : Column) (chunk : Chunk) :
  Registry_isSolid r kEmptyBlock = false →
  Column_idle col →
  Chunk_loadColumns r loader (Chunk_init cx cz) col = Some (chunk, col') →
  Chunk_wf chunk ∧ heights_ok r chunk.
Proof.
  intros Hr Hidle Hrun.
  destruct (Chunk_loadColumns_Some r loader (λ c, Chunk_wf c ∧ heights_ok r c))
    with (chunk := Chunk_init cx cz) (col := col)
    as (chunk1 & col1 & Hrun1 & Hchunk & _).
  - intros c x z start count block Hstart Hcount Hend [Hwf Hok].
    split; [apply Chunk_wf_setColumn, Hwf|].
    apply Chunk_setColumn_heights; assumption.
  - intros c col0 [Hwf Hok] Hidle0. split; [|exact Hok].
    apply Chunk_wf_with_equilevels; [exact Hwf|].
    apply Column_fillEquilevels_length; [exact Hidle0|].
    destruct Hwf as (_ & _ & _ & _ & _ & _ & Heq). exact Heq.
  - split; [apply Chunk_wf_init|apply Chunk_init_heights, Hr].
  - exact Hidle.
  - rewrite Hrun in Hrun1. injection Hrun1 as <- _. exact Hchunk.
Qed.

Lemma Chunk_load_heights_witness :
  ∃ chunk col',
    Chunk_loadColumns example_registry empty_loader (Chunk_init 0 0) Column_new
    = Some (chunk, col')
    ∧ Chunk_wf chunk ∧ heights_ok example_registry chunk.
Proof.
  destruct (Chunk_loadColumns example_registry empty_loader (Chunk_init 0 0)
              Column_new) as [[chunk col']|] eqn:Hrun.
  - exists chunk, col'. split; [reflexivity|].
    apply (Chunk_load_heights example_registry empty_loader 0 0 Column_new col').
    + reflexivity.
    + repeat split; reflexivity.
    + exact Hrun.
  - exfalso.
    destruct (Chunk_loadColumns_Some example_registry empty_loader (λ _, True))
      with (chunk := Chunk_init 0 0) (col := Column_new)
      as (c & k & Hsome & _).
    + intros; exact I.
    + intros; exact I.
    + exact I.
    + exact Column_new_idle.
    + rewrite Hrun in Hsome. discriminate Hsome.
Defined.

(** X5.  Calls that stay inside the column keep both maps right: after any
    sequence of [setBlock] with [0 <= y < kWorldHeight] and of [setColumn]
    with [0 <= start], [1 <= count] and [start + count <= kWorldHeight], on
    a chunk whose maps were right, [heightmap] still holds for every column
    the smallest [y] from which on all voxels are empty and [light_map] the
    smallest [y] from which on none is solid. *)
Theorem Chunk_calls_keep_heights (r : Registry) (c : Chunk)
    (calls : list ChunkCall) :
  Chunk_wf c → heights_ok r c → Forall call_in_range calls →
  Chunk_wf (foldl (Chunk_call r) c calls)
  ∧ heights_ok r (foldl (Chunk_call r) c calls).
Proof.
  revert c. induction calls as [|k calls IH]; intros c Hwf Hok Hcalls.
  - split; assumption.
  - apply Forall_cons in Hcalls as [Hk Hrest]. cbn [foldl].
    apply IH; [| |exact Hrest].
    + apply Chunk_call_wf, Hwf.
    + apply Chunk_call_heights; assumption.
Qed.

Lemma Chunk_calls_keep_heights_witness :
  let calls := [CallSetColumn 3 5 0 40 2; CallSetBlock 3 39 5 0;
                CallSetColumn 19 21 10 246 0; CallSetBlock 0 255 0 3] in
  Chunk_wf (foldl (Chunk_call example_registry) (Chunk_init 0 0) calls)
  ∧ heights_ok example_registry
      (foldl (Chunk_call example_registry) (Chunk_init 0 0) calls).
Proof.
  apply (Chunk_calls_keep_heights example_registry (Chunk_init 0 0)).
  - apply Chunk_wf_init.
  - apply Chunk_init_heights. reflexivity.
  - repeat constructor; unfold kWorldHeight; lia.
Defined.

(** X6.  The edge the invariant of the maps depends on: [setColumn] with
    [count = 0] writes no voxel, and yet, for a block other than the empty
    one and a [start] at or above the height of the column, it raises
    [heightmap] there to [start]. *)
Theorem Chunk_setColumn_empty_range (r : Registry) (c : Chunk)
    (x z start block : Z) :
  Chunk_wf c → block ≠ kEmptyBlock →
  Tensor2_get (chunk_heightmap c) (js_and x kChunkMask) (js_and z kChunkMask)
    ≤ start →
  let c' := Chunk_setColumn r c x z start 0 block in
  chunk_voxels c' = chunk_voxels c
  ∧ Tensor2_get (chunk_heightmap c') (js_and x kChunkMask) (js_and z kChunkMask)
    = start.
Proof.
  intros Hwf Hblock Hh c'.
  pose proof (js_and_15_range x) as Hxm. pose proof (js_and_15_range z) as Hzm.
  unfold c', Chunk_setColumn. rewrite kChunkMask_eq in *.
  set (xm := js_and x 15) in *. set (zm := js_and z 15) in *.
  set (index := Tensor3_index (chunk_voxels c) xm start zm).
  assert (Hfill : ta_fill (t3_data (chunk_voxels c)) block index (index + 0)
                  = t3_data (chunk_voxels c)).
  { unfold ta_fill. rewrite Z.add_0_r. apply decide_False. lia. }
  rewrite Hfill.
  assert (Hsame : Chunk_with_voxels (t3_data (chunk_voxels c)) c = c).
  { destruct c as [? ? ? ? ? ? ? [? ? ?] ? ? ?]. reflexivity. }
  rewrite Hsame. split; [reflexivity|].
  destruct (Chunk_updateHeightmap_maps r c xm zm index start 0 block xm zm
              Hwf Hxm Hzm Hxm Hzm) as [-> _].
  rewrite decide_True by (split; reflexivity).
  unfold next_top, nonempty.
  rewrite decide_False.
  2:{ intros (Hb & _). apply bool_decide_eq_false in Hb. tauto. }
  rewrite decide_True; [lia|]. split; [|lia].
  apply bool_decide_eq_true. exact Hblock.
Qed.

Lemma Chunk_setColumn_empty_range_witness :
  let c' := Chunk_setColumn example_registry (Chunk_init 0 0) 0 0 5 0 3 in
  chunk_voxels c' = chunk_voxels (Chunk_init 0 0)
  ∧ Tensor2_get (chunk_heightmap c') (js_and 0 kChunkMask) (js_and 0 kChunkMask)
    = 5.
Proof.
  apply (Chunk_setColumn_empty_range example_registry (Chunk_init 0 0) 0 0 5 3).
  - apply Chunk_wf_init.
  - discriminate.
  - vm_compute. discriminate.
Defined.

(** ** World.setBlock, then World.getBlock *)

Lemma js_sar_4 a : js_sar a 4 = int32 a `div` 16.
Proof. unfold js_sar. change (4 mod 32) with 4. apply Z.shiftr_div_pow2. lia. Qed.

Lemma int32_cell a b :
  - 2 ^ 31 ≤ a < 2 ^ 31 → - 2 ^ 31 ≤ b < 2 ^ 31 →
  js_sar a 4 = js_sar b 4 → js_and a 15 = js_and b 15 → a = b.
Proof.
  intros Ha Hb. rewrite !js_sar_4, !js_and_15, !int32_small by assumption.
  intros Hdiv Hmod.
  rewrite (Z.div_mod a 16), (Z.div_mod b 16) by lia. congruence.
Qed.

Lemma Chunk_setBlock_self_voxel r c x y z b xm' y' zm' :
  Chunk_wf c → 0 ≤ y < kWorldHeight → 0 ≤ y' < kWorldHeight →
  0 ≤ xm' < 16 → 0 ≤ zm' < 16 →
  Tensor3_get (chunk_voxels (Chunk_setBlock_self r c x y z b)) xm' y' zm'
  = if decide (xm' = js_and x 15 ∧ y' = y ∧ zm' = js_and z 15) then b
    else Tensor3_get (chunk_voxels c) xm' y' zm'.
Proof.
  intros Hwf Hy Hy' Hxm' Hzm'. unfold kWorldHeight in *.
  pose proof (js_and_15_range x) as Hxm. pose proof (js_and_15_range z) as Hzm.
  unfold Chunk_setBlock_self. rewrite kChunkMask_eq.
  destruct (decide (Tensor3_get (chunk_voxels c) (js_and x 15) y (js_and z 15) = b))
    as [Hold|Hold].
  - destruct (decide (xm' = js_and x 15 ∧ y' = y ∧ zm' = js_and z 15))
      as [(-> & -> & ->)|]; [exact Hold|reflexivity].
  - unfold Tensor3_get.
    cbn [chunk_voxels Chunk_with_equilevels Chunk_updateHeightmap
         Chunk_with_heights Chunk_with_dirty Chunk_with_voxels
         Tensor3_with_data t3_data].
    unfold Tensor3_index. cbn [t3_stride Tensor3_with_data].
    destruct Hwf as (-> & Hlen & _).
    destruct (decide (xm' = js_and x 15 ∧ y' = y ∧ zm' = js_and z 15))
      as [(-> & -> & ->)|Hne].
    + apply ta_get_set_eq. lia.
    + apply ta_get_set_ne. lia.
Qed.

Lemma fmap_voxels_mark (cond : Prop) `{Decision cond} (o : option Chunk) :
  chunk_voxels <$> (if decide cond then Chunk_with_dirty true <$> o else o)
  = chunk_voxels <$> o.
Proof. destruct (decide cond); destruct o; reflexivity. Qed.

(** The voxels that [Chunk.setBlock] leaves in the chunks of the world. *)
Lemma Chunk_setBlock_voxels w this cx cz x y z b a c :
  Circle_get (world_chunks w) cx cz = Some this →
  world_bedrock (Chunk_setBlock w cx cz x y z b) = world_bedrock w
  ∧ chunk_voxels <$> Circle_get (world_chunks (Chunk_setBlock w cx cz x y z b)) a c
    = if decide (a = cx ∧ c = cz)
      then Some (chunk_voxels (Chunk_setBlock_self (world_registry w) this x y z b))
      else chunk_voxels <$> Circle_get (world_chunks w) a c.
Proof.
  intros Hget. unfold Chunk_setBlock. rewrite Hget.
  destruct (decide (Tensor3_get (chunk_voxels this) (js_and x kChunkMask) y
                      (js_and z kChunkMask) = b)) as [Hold|Hold].
  - split; [reflexivity|].
    destruct (decide (a = cx ∧ c = cz)) as [[-> ->]|]; [|reflexivity].
    rewrite Hget. unfold Chunk_setBlock_self. rewrite decide_True by exact Hold.
    reflexivity.
  - split.
    { repeat (destruct (decide _)); reflexivity. }
    rewrite !Circle_get_mark.
    rewrite !(fmap_voxels_mark _).
    unfold World_update_chunk. cbn [world_chunks World_with_chunks].
    rewrite Circle_get_update by (intros v; apply Chunk_setBlock_self_coords).
    rewrite Hget.
    destruct (decide (a = cx ∧ c = cz)); reflexivity.
Qed.

(** X7.  Write, then read.  For cells with 32-bit coordinates: after
    [World.setBlock(x, y, z, block)], [World.getBlock] returns [block] at
    [(x, y, z)] when [y] is in range and the chunk of the cell is loaded,
    and at every other cell, and in every other case, what it returned
    before. *)
Theorem World_setBlock_getBlock (w : World) (x y z block x' y' z' : Z) :
  - 2 ^ 31 ≤ x < 2 ^ 31 → - 2 ^ 31 ≤ z < 2 ^ 31 →
  - 2 ^ 31 ≤ x' < 2 ^ 31 → - 2 ^ 31 ≤ z' < 2 ^ 31 →
  (∀ chunk, Circle_get (world_chunks w) (js_sar x 4) (js_sar z 4) = Some chunk →
     Chunk_wf chunk) →
  World_getBlock (World_setBlock w x y z block) x' y' z'
  = if decide ((x', y', z') = (x, y, z) ∧ 0 ≤ y < kWorldHeight
               ∧ is_Some (Circle_get (world_chunks w) (js_sar x 4) (js_sar z 4)))
    then block
    else World_getBlock w x' y' z'.
Proof.
  intros Hx Hz Hx' Hz' Hwf. unfold World_setBlock.
  change kChunkBits with 4.
  destruct (decide (0 ≤ y ∧ y < kWorldHeight)) as [Hy|Hy].
  2:{ rewrite decide_False; [reflexivity|]. intros (_ & Hy' & _). lia. }
  destruct (Circle_get (world_chunks w) (js_sar x 4) (js_sar z 4))
    as [this|] eqn:Hget.
  2:{ rewrite decide_False; [reflexivity|].
      intros (_ & _ & Hsome). destruct Hsome as [? Hsome]. discriminate Hsome. }
  destruct (Circle_get_Some _ _ _ _ Hget) as (_ & _ & Hcx & Hcz).
  cbn [elt_cx elt_cz Chunk_element] in Hcx, Hcz. rewrite Hcx, Hcz.
  specialize (Hwf this eq_refl).
  unfold World_getBlock. change kChunkBits with 4.
  destruct (Chunk_setBlock_voxels w this (js_sar x 4) (js_sar z 4) x y z block
              (js_sar x' 4) (js_sar z' 4) Hget) as [-> Hvoxels].
  destruct (decide (y' < 0)) as [Hlow|Hlow].
  { rewrite decide_False; [reflexivity|]. intros (Heq & _). injection Heq. lia. }
  destruct (decide (kWorldHeight ≤ y')) as [Hhigh|Hhigh].
  { rewrite decide_False; [reflexivity|]. intros (Heq & _). injection Heq. lia. }
  assert (Hread : ∀ o : option Chunk,
    match o with
    | Some chunk => Chunk_getBlock chunk x' y' z'
    | None => kUnknownBlock
    end
    = default kUnknownBlock
        ((λ v, Tensor3_get v (js_and x' 15) y' (js_and z' 15))
           <$> (chunk_voxels <$> o))).
  { intros [chunk|]; reflexivity. }
  rewrite !Hread, Hvoxels.
  pose proof (js_and_15_range x') as Hxm'. pose proof (js_and_15_range z') as Hzm'.
  destruct (decide (js_sar x' 4 = js_sar x 4 ∧ js_sar z' 4 = js_sar z 4))
    as [[Hsx Hsz]|Hother].
  - cbn [fmap option_fmap option_map default].
    rewrite Chunk_setBlock_self_voxel by (try assumption; lia).
    rewrite Hsx, Hsz, Hget. cbn [fmap option_fmap option_map default].
    destruct (decide (js_and x' 15 = js_and x 15 ∧ y' = y
                      ∧ js_and z' 15 = js_and z 15)) as [(Hax & -> & Haz)|Hne].
    + rewrite decide_True; [reflexivity|].
      rewrite (int32_cell x' x), (int32_cell z' z) by assumption.
      split; [reflexivity|]. split; [lia|]. eexists. reflexivity.
    + rewrite decide_False; [reflexivity|].
      intros (Heq & _). injection Heq as -> -> ->. apply Hne. repeat split.
  - rewrite decide_False; [reflexivity|].
    intros (Heq & _). injection Heq as -> -> ->. apply Hother. split; reflexivity.
Qed.

Lemma World_setBlock_getBlock_witness :
  World_getBlock (World_setBlock example_world 15 10 4 3) 15 10 4
  = if decide ((15, 10, 4) = (15, 10, 4) ∧ 0 ≤ 10 < kWorldHeight
               ∧ is_Some (Circle_get (world_chunks example_world)
                            (js_sar 15 4) (js_sar 4 4)))
    then 3
    else World_getBlock example_world 15 10 4.
Proof.
  apply (World_setBlock_getBlock example_world 15 10 4 3 15 10 4); try lia.
  intros chunk Hget.
  assert (Hwf : match Circle_get (world_chunks example_world)
                        (js_sar 15 4) (js_sar 4 4) with
                | Some c => bool_decide (Chunk_wf c)
                | None => true
                end = true) by (vm_compute; reflexivity).
  rewrite Hget in Hwf. apply bool_decide_eq_true_1 in Hwf. exact Hwf.
Defined.

(** ** World.isBlockLit *)

(** X8.  In a loaded chunk whose [light_map] is right, a cell at a height
    [y >= 0] is lit exactly when no block at or above it in its column is
    solid, as [World.getBlock] reads the column. *)
Theorem World_isBlockLit_iff (w : World) (chunk : Chunk) (x y z : Z) :
  Circle_get (world_chunks w) (js_sar x 4) (js_sar z 4) = Some chunk →
  heights_ok (world_registry w) chunk →
  0 ≤ y →
  World_isBlockLit w x y z = true
  ↔ ∀ y', y ≤ y' < kWorldHeight →
      Registry_isSolid (world_registry w) (World_getBlock w x y' z) = false.
Proof.
  intros Hget Hok Hy.
  pose proof (js_and_15_range x) as Hxm. pose proof (js_and_15_range z) as Hzm.
  destruct (Hok (js_and x 15) (js_and z 15)) as [_ (Hh & Hup & Hat)];
    [rewrite kChunkWidth_eq; lia..|].
  assert (Hread : ∀ y', 0 ≤ y' < kWorldHeight →
    World_getBlock w x y' z
    = Tensor3_get (chunk_voxels chunk) (js_and x 15) y' (js_and z 15)).
  { intros y' Hy'. unfold World_getBlock. change kChunkBits with 4.
    rewrite decide_False, decide_False, Hget by lia. reflexivity. }
  unfold World_isBlockLit. change kChunkBits with 4. rewrite Hget.
  unfold Chunk_getLitHeight. rewrite kChunkMask_eq.
  set (h := Tensor2_get (chunk_light_map chunk) (js_and x 15) (js_and z 15)) in *.
  rewrite bool_decide_eq_true. split.
  - intros Hlit y' Hy'. rewrite Hread by lia. apply Hup. lia.
  - intros Hnone. destruct (decide (h ≤ y)) as [|Hdark]; [assumption|].
    exfalso. specialize (Hnone (h - 1)). rewrite Hread in Hnone by lia.
    rewrite Hat in Hnone by lia. specialize (Hnone ltac:(lia)).
    discriminate Hnone.
Qed.

(* ===================================================================== *)
(** * What the world keeps of its chunks *)
(* ===================================================================== *)

Lemma each_loop_inv {S} (Q : S → Prop) (fn : Z → Z → S → option (S * bool))
    cx cz points :
  (∀ a b s s' d, Q s → fn a b s = Some (s', d) → Q s') →
  ∀ s s', Q s → each_loop fn cx cz points s = Some s' → Q s'.
Proof.
  intros Hfn. induction points as [|[i j] points IH]; intros s s' Hs Hrun.
  - cbn [each_loop] in Hrun. injection Hrun as <-. exact Hs.
  - cbn [each_loop] in Hrun.
    apply bind_Some in Hrun as ([s1 d] & Hvisit & Hrun).
    pose proof (Hfn _ _ _ _ _ Hs Hvisit) as Hs1.
    destruct d; [injection Hrun as <-; exact Hs1|].
    exact (IH _ _ Hs1 Hrun).
Qed.

Lemma Column_clear_ok_idle col : Column_ok col → Column_idle (Column_clear col).
Proof.
  intros (Hl1 & Hl2 & Hl3 & _). unfold Column_idle, Column_clear. col_simpl.
  repeat split; assumption.
Qed.

Section world_keeps.
Variables (r : Registry) (P : Chunk → Prop).
Hypothesis P_dirty : ∀ d c, P c → P (Chunk_with_dirty d c).
Hypothesis P_neighbors : ∀ n b c, P c → P (Chunk_with_neighbors n b c).
Hypothesis P_meshes : ∀ s w c, P c → P (Chunk_with_meshes s w c).

Lemma World_keeps_frame w w' :
  frontier_frame w w' → World_keeps r P w → World_keeps r P w'.
Proof.
  intros (Hchunks & Hreg & Hcol) (Hidle & Hr & Hall).
  split; [exact (Hcol Hidle)|]. split; [congruence|].
  unfold World_all. rewrite Hchunks. exact Hall.
Qed.

Lemma World_update_chunk_keeps cx cz f w :
  (∀ c, P c → P (f c)) →
  World_keeps r P w → World_keeps r P (World_update_chunk cx cz f w).
Proof.
  intros Hf (Hidle & Hr & Hall). split; [exact Hidle|]. split; [exact Hr|].
  unfold World_all, World_update_chunk, Circle_update.
  cbn [world_chunks World_with_chunks].
  destruct (Circle_get (world_chunks w) cx cz) as [value|] eqn:Hget;
    [|exact Hall].
  destruct (Circle_get_Some _ _ _ _ Hget) as (Hi & Hslot & _).
  cbn [circ_elements Circle_with_elements]. intros i c Hc.
  unfold ta_set in Hc. rewrite decide_True in Hc by exact Hi.
  destruct (decide (i = Z.to_nat (Circle_index (world_chunks w) cx cz)))
    as [->|Hne].
  - rewrite list_lookup_insert_eq in Hc by (eapply lookup_lt_Some, Hslot).
    injection Hc as <-. apply Hf. exact (Hall _ _ Hslot).
  - rewrite list_lookup_insert_ne in Hc by congruence. exact (Hall _ _ Hc).
Qed.

Lemma World_with_frontier_keeps f w :
  World_keeps r P w → World_keeps r P (World_with_frontier f w).
Proof. intros H. exact H. Qed.

Lemma Chunk_dropMeshes_keeps cx cz w :
  World_keeps r P w → World_keeps r P (Chunk_dropMeshes cx cz w).
Proof.
  intros Hw. unfold Chunk_dropMeshes.
  destruct (Circle_get (world_chunks w) cx cz) as [this|]; [|exact Hw].
  apply World_update_chunk_keeps.
  - intros c Hc. apply P_dirty, P_meshes, Hc.
  - destruct (Chunk_hasMesh this); [apply World_with_frontier_keeps|]; exact Hw.
Qed.

Lemma Chunk_notifyNeighborDisposed_keeps cx cz w w' :
  World_keeps r P w → Chunk_notifyNeighborDisposed cx cz w = Some w' →
  World_keeps r P w'.
Proof.
  intros Hw. unfold Chunk_notifyNeighborDisposed.
  destruct (Circle_get (world_chunks w) cx cz) as [this|].
  2:{ intros Hrun. injection Hrun as <-. exact Hw. }
  intros Hrun. apply bind_Some in Hrun as (? & _ & Hrun). injection Hrun as <-.
  assert (Hw1 : World_keeps r P
    (World_update_chunk cx cz
       (Chunk_with_neighbors (chunk_neighbors this - 1)
          (Chunk_checkReady (chunk_neighbors this - 1))) w)).
  { apply World_update_chunk_keeps; [|exact Hw].
    intros c Hc. apply P_neighbors, Hc. }
  destruct (chunk_ready this && negb _); [|exact Hw1].
  apply Chunk_dropMeshes_keeps, Hw1.
Qed.

Lemma Chunk_notifyNeighborLoaded_keeps cx cz w w' :
  World_keeps r P w → Chunk_notifyNeighborLoaded cx cz w = Some w' →
  World_keeps r P w'.
Proof.
  intros Hw. unfold Chunk_notifyNeighborLoaded.
  destruct (Circle_get (world_chunks w) cx cz) as [this|].
  2:{ intros Hrun. injection Hrun as <-. exact Hw. }
  intros Hrun. apply bind_Some in Hrun as (? & _ & Hrun). injection Hrun as <-.
  apply World_update_chunk_keeps; [|exact Hw].
  intros c Hc. apply P_neighbors, Hc.
Qed.

Lemma Chunk_dispose_keeps this w w' :
  World_keeps r P w → Chunk_dispose this w = Some w' → World_keeps r P w'.
Proof.
  intros Hw. unfold Chunk_dispose. intros Hrun.
  apply bind_Some in Hrun as (w1 & H1 & Hrun).
  apply bind_Some in Hrun as (w2 & H2 & Hrun).
  apply bind_Some in Hrun as (w3 & H3 & Hrun).
  eapply Chunk_notifyNeighborDisposed_keeps; [|exact Hrun].
  eapply Chunk_notifyNeighborDisposed_keeps; [|exact H3].
  eapply Chunk_notifyNeighborDisposed_keeps; [|exact H2].
  eapply Chunk_notifyNeighborDisposed_keeps; [|exact H1].
  apply Chunk_dropMeshes_keeps, Hw.
Qed.

Lemma Circle_center_keeps cx cz w w' :
  World_keeps r P w →
  Circle_center world_chunks World_with_chunks Chunk_dispose cx cz w = Some w' →
  World_keeps r P w'.
Proof.
  intros Hw. unfold Circle_center.
  case_decide as Hsame; [intros Hrun; injection Hrun as <-; exact Hw|].
  intros Hrun. apply bind_Some in Hrun as (w1 & Hwalk & Hrun).
  injection Hrun as <-.
  assert (Hw1 : World_keeps r P w1).
  { revert Hwalk. unfold Circle_each. apply each_loop_inv; [|exact Hw].
    intros a b s s' d Hs Hvisit.
    destruct (within_deltas _ _ _); [injection Hvisit as <- _; exact Hs|].
    case_decide as Hi; [|discriminate Hvisit].
    destruct (circ_elements (world_chunks s) !! _) as [[value|]|] eqn:Hslot;
      [|injection Hvisit as <- _; exact Hs|discriminate Hvisit].
    apply bind_Some in Hvisit as (s1 & Hdispose & Hvisit).
    injection Hvisit as <- _.
    destruct (Chunk_dispose_keeps _ _ _ Hs Hdispose) as (Hidle & Hr & Hall).
    split; [exact Hidle|]. split; [exact Hr|].
    unfold World_all. cbn [world_chunks World_with_chunks circ_elements
                           Circle_with_elements].
    intros i c Hc. unfold ta_set in Hc. rewrite decide_True in Hc by exact Hi.
    destruct (decide (i = Z.to_nat (Circle_index (world_chunks s) a b)))
      as [->|Hne].
    - destruct (decide (Z.to_nat (Circle_index (world_chunks s) a b)
                        < length (circ_elements (world_chunks s1)))%nat).
      + rewrite list_lookup_insert_eq in Hc by assumption. discriminate Hc.
      + rewrite list_insert_ge in Hc by lia. exact (Hall _ _ Hc).
    - rewrite list_lookup_insert_ne in Hc by congruence. exact (Hall _ _ Hc). }
  destruct Hw1 as (Hidle & Hr & Hall). split; [exact Hidle|].
  split; [exact Hr|]. exact Hall.
Qed.

End world_keeps.

(** ** The frontier leaves the chunks alone *)

Lemma frontier_frame_refl w : frontier_frame w w.
Proof. split; [reflexivity|]. split; [reflexivity|]. intros H. exact H. Qed.

Lemma frontier_frame_trans w1 w2 w3 :
  frontier_frame w1 w2 → frontier_frame w2 w3 → frontier_frame w1 w3.
Proof.
  intros (H1 & H2 & H3) (H4 & H5 & H6). split; [congruence|].
  split; [congruence|tauto].
Qed.

Lemma frontier_frame_frontier f w : frontier_frame w (World_with_frontier f w).
Proof. split; [reflexivity|]. split; [reflexivity|]. intros H. exact H. Qed.

Section frontier_keeps.
Variable meshFrontier :
  Z → Z → Z → Z → Z → Z → option VoxelMesh → bool → option VoxelMesh.

Lemma lod_quadrant_idle w loadFrontier chunk st k :
  Column_idle (fst st) →
  Column_idle (fst (lod_quadrant meshFrontier w loadFrontier chunk st k)).
Proof.
  destruct st as [column mesh]. cbn [fst]. intros Hidle.
  unfold lod_quadrant. cbn [fst].
  apply (foldl_inv Column_idle); [|exact Hidle].
  intros col i Hcol. apply (foldl_inv Column_idle); [|exact Hcol].
  intros col' j Hcol'.
  apply Column_clear_ok_idle, Loader_run_ok, Column_idle_ok, Hcol'.
Qed.

Lemma Frontier_createLODMeshes_frame chunk w w' :
  Frontier_createLODMeshes meshFrontier chunk w = Some w' → frontier_frame w w'.
Proof.
  unfold Frontier_createLODMeshes.
  destruct (world_loadFrontier w) as [loadFrontier|].
  2:{ intros Hrun. injection Hrun as <-. apply frontier_frame_refl. }
  intros Hrun. apply bind_Some in Hrun as (? & _ & Hrun).
  apply bind_Some in Hrun as (mesh & _ & Hrun).
  pose proof (foldl_inv (λ st : Column * LODMultiMesh,
                           Column_idle (world_column w) → Column_idle (fst st))
                (lod_quadrant meshFrontier w loadFrontier chunk) (seqZ 0 4)
                (world_column w, mesh)) as Hcol.
  destruct (foldl _ _ _) as [column mesh'].
  injection Hrun as <-. split; [reflexivity|]. split; [reflexivity|].
  cbn [world_column World_with_column]. apply Hcol.
  - intros st k Hst Hidle. apply lod_quadrant_idle, Hst, Hidle.
  - cbn [fst]. tauto.
Qed.

Lemma lod_visit_frame l cx cz st st' d :
  lod_visit meshFrontier l cx cz st = Some (st', d) →
  frontier_frame (ls_world st) (ls_world st').
Proof.
  unfold lod_visit. intros Hrun.
  destruct (bool_decide _ && negb _).
  { injection Hrun as <- _. apply frontier_frame_refl. }
  apply bind_Some in Hrun as ([lod w1] & Hlod & Hrun).
  apply bind_Some in Hrun as ([[w2 counter] created] & Hmesh & Hrun).
  apply bind_Some in Hrun as (mesh & _ & Hrun).
  apply bind_Some in Hrun as (mesh' & _ & Hrun).
  injection Hrun as <- _. cbn [ls_world].
  eapply frontier_frame_trans; [|apply frontier_frame_frontier].
  assert (H1 : frontier_frame (ls_world st) w1).
  { destruct (Circle_get _ cx cz) as [existing|].
    - injection Hlod as _ <-. apply frontier_frame_refl.
    - destruct (Frontier_createFrontierChunk cx cz l _) as [made f].
      apply bind_Some in Hlod as (level & _ & Hlod). injection Hlod as _ <-.
      split; [reflexivity|]. split; [reflexivity|]. intros H. exact H. }
  eapply frontier_frame_trans; [exact H1|].
  destruct (_ && negb _).
  - apply bind_Some in Hmesh as (w3 & Hcreate & Hmesh). injection Hmesh as <- _ _.
    eapply frontier_frame_trans; [|apply frontier_frame_frontier].
    eapply Frontier_createLODMeshes_frame, Hcreate.
  - injection Hmesh as <- _ _. apply frontier_frame_refl.
Qed.

Lemma Frontier_computeLODAtLevel_frame l w w' st :
  Frontier_computeLODAtLevel meshFrontier l w = Some (w', st) →
  frontier_frame w w'.
Proof.
  unfold Frontier_computeLODAtLevel.
  destruct (negb _); [intros Hrun; injection Hrun as <- _; apply frontier_frame_refl|].
  intros Hrun. apply bind_Some in Hrun as (st1 & Hwalk & Hrun).
  injection Hrun as <- _.
  eapply frontier_frame_trans; [|apply frontier_frame_frontier].
  revert Hwalk. unfold Circle_each.
  apply (each_loop_inv (λ s, frontier_frame w (ls_world s))).
  - intros a b s s' d Hs Hvisit.
    eapply frontier_frame_trans; [exact Hs|]. eapply lod_visit_frame, Hvisit.
  - apply frontier_frame_refl.
Qed.

Lemma Frontier_remeshFrontier_frame w w' log :
  Frontier_remeshFrontier meshFrontier w = Some (w', log) → frontier_frame w w'.
Proof.
  unfold Frontier_remeshFrontier. intros Hrun.
  change w' with (fst (w', log)). revert Hrun.
  apply (foldl_option_inv
           (λ st : World * list (option LODState), frontier_frame w (fst st))
           (level_step meshFrontier)).
  - intros acc i [w2 log2] Hacc Hstep. unfold level_step in Hstep.
    apply bind_Some in Hstep as ([w1 log1] & -> & Hstep).
    apply bind_Some in Hstep as ([w3 st3] & Hlevel & Hstep).
    injection Hstep as <- _. cbn [fst].
    eapply frontier_frame_trans; [exact (Hacc _ eq_refl)|].
    eapply Frontier_computeLODAtLevel_frame, Hlevel.
  - intros a Ha. injection Ha as <-. apply frontier_frame_refl.
Qed.

End frontier_keeps.

(** ** What no call but [setLoader] writes

    A field of the world that the three record updates leave alone -- the
    registry, the bedrock, the two loaders -- is left alone by every
    operation built from them. *)

Section world_field.
Context {A : Type} (field : World → A).
Hypothesis field_chunks : ∀ c w, field (World_with_chunks c w) = field w.
Hypothesis field_column : ∀ c w, field (World_with_column c w) = field w.
Hypothesis field_frontier : ∀ f w, field (World_with_frontier f w) = field w.
Variable meshChunk :
  Chunk → list (option Chunk) → option VoxelMesh * option VoxelMesh.
Variable meshFrontier :
  Z → Z → Z → Z → Z → Z → option VoxelMesh → bool → option VoxelMesh.

Lemma World_update_chunk_field cx cz f w :
  field (World_update_chunk cx cz f w) = field w.
Proof. apply field_chunks. Qed.

Lemma Chunk_dropMeshes_field cx cz w : field (Chunk_dropMeshes cx cz w) = field w.
Proof.
  unfold Chunk_dropMeshes.
  destruct (Circle_get (world_chunks w) cx cz) as [this|]; [|reflexivity].
  rewrite World_update_chunk_field.
  destruct (Chunk_hasMesh this); [apply field_frontier|reflexivity].
Qed.

Lemma Chunk_notifyNeighborDisposed_field cx cz w w' :
  Chunk_notifyNeighborDisposed cx cz w = Some w' → field w' = field w.
Proof.
  unfold Chunk_notifyNeighborDisposed.
  destruct (Circle_get (world_chunks w) cx cz) as [this|].
  2:{ intros Hrun. injection Hrun as <-. reflexivity. }
  intros Hrun. apply bind_Some in Hrun as (? & _ & Hrun). injection Hrun as <-.
  destruct (chunk_ready this && negb _);
    [rewrite Chunk_dropMeshes_field|]; apply World_update_chunk_field.
Qed.

Lemma Chunk_notifyNeighborLoaded_field cx cz w w' :
  Chunk_notifyNeighborLoaded cx cz w = Some w' → field w' = field w.
Proof.
  unfold Chunk_notifyNeighborLoaded.
  destruct (Circle_get (world_chunks w) cx cz) as [this|].
  2:{ intros Hrun. injection Hrun as <-. reflexivity. }
  intros Hrun. apply bind_Some in Hrun as (? & _ & Hrun). injection Hrun as <-.
  apply World_update_chunk_field.
Qed.

Lemma Chunk_dispose_field this w w' :
  Chunk_dispose this w = Some w' → field w' = field w.
Proof.
  unfold Chunk_dispose. intros Hrun.
  apply bind_Some in Hrun as (w1 & H1 & Hrun).
  apply bind_Some in Hrun as (w2 & H2 & Hrun).
  apply bind_Some in Hrun as (w3 & H3 & Hrun).
  rewrite (Chunk_notifyNeighborDisposed_field _ _ _ _ Hrun),
    (Chunk_notifyNeighborDisposed_field _ _ _ _ H3),
    (Chunk_notifyNeighborDisposed_field _ _ _ _ H2),
    (Chunk_notifyNeighborDisposed_field _ _ _ _ H1).
  apply Chunk_dropMeshes_field.
Qed.

Lemma Circle_center_field cx cz w w' :
  Circle_center world_chunks World_with_chunks Chunk_dispose cx cz w = Some w' →
  field w' = field w.
Proof.
  unfold Circle_center.
  case_decide as Hsame; [intros Hrun; injection Hrun as <-; reflexivity|].
  intros Hrun. apply bind_Some in Hrun as (w1 & Hwalk & Hrun).
  injection Hrun as <-. rewrite field_chunks.
  revert Hwalk. unfold Circle_each.
  apply (each_loop_inv (λ s, field s = field w)); [|reflexivity].
  intros a b s s' d Hs Hvisit.
  destruct (within_deltas _ _ _); [injection Hvisit as <- _; exact Hs|].
  case_decide as Hi; [|discriminate Hvisit].
  destruct (circ_elements (world_chunks s) !! _) as [[value|]|];
    [|injection Hvisit as <- _; exact Hs|discriminate Hvisit].
  apply bind_Some in Hvisit as (s1 & Hdispose & Hvisit).
  injection Hvisit as <- _. rewrite field_chunks.
  rewrite (Chunk_dispose_field _ _ _ Hdispose). exact Hs.
Qed.

Lemma Chunk_new_field cx cz w loader this w' :
  Chunk_new cx cz w loader = Some (this, w') → field w' = field w.
Proof.
  unfold Chunk_new. intros Hrun.
  apply bind_Some in Hrun as ([this0 col] & Hload & Hrun).
  apply bind_Some in Hrun as ([this1 w1] & Hgreet & Hrun).
  injection Hrun as _ <-.
  change w1 with (snd (this1, w1)). revert Hgreet.
  apply (foldl_option_inv (λ st : Chunk * World, field (snd st) = field w)
           (Chunk_greet cx cz)).
  - intros st [dx dz] [this2 w2] Hst Hstep. unfold Chunk_greet in Hstep.
    apply bind_Some in Hstep as ([this3 w3] & -> & Hstep).
    pose proof (Hst _ eq_refl) as Hw3. cbn [snd] in *.
    destruct (Circle_get (world_chunks w3) (dx + cx) (dz + cz)).
    + apply bind_Some in Hstep as (w4 & Hnotify & Hstep).
      injection Hstep as _ <-.
      rewrite (Chunk_notifyNeighborLoaded_field _ _ _ _ Hnotify). exact Hw3.
    + injection Hstep as _ <-. exact Hw3.
  - intros a Ha. injection Ha as <-. cbn [snd]. apply field_column.
Qed.

Lemma recenter_visit_field loadChunk cx cz st st' d :
  recenter_visit loadChunk cx cz st = Some (st', d) →
  field (fst st') = field (fst st).
Proof.
  destruct st as [w loaded]. cbn [fst]. unfold recenter_visit.
  destruct (Circle_get (world_chunks w) cx cz).
  { intros Hrun. injection Hrun as <- _. reflexivity. }
  intros Hrun. apply bind_Some in Hrun as ([chunk w1] & Hnew & Hrun).
  apply bind_Some in Hrun as (chunks & Hset & Hrun). injection Hrun as <- _.
  cbn [fst]. rewrite field_chunks. exact (Chunk_new_field _ _ _ _ _ _ Hnew).
Qed.

Lemma World_recenter_field w x y z w' :
  World_recenter w x y z = Some w' → field w' = field w.
Proof.
  unfold World_recenter. intros Hrun.
  apply bind_Some in Hrun as (w1 & Hcenter & Hrun).
  apply bind_Some in Hrun as (f & _ & Hrun).
  pose proof (Circle_center_field _ _ _ _ Hcenter) as Hw1.
  cbn [world_loadChunk World_with_frontier] in Hrun.
  destruct (world_loadChunk w1) as [loadChunk|].
  2:{ injection Hrun as <-. rewrite field_frontier. exact Hw1. }
  apply bind_Some in Hrun as ([w2 n] & Hwalk & Hrun). injection Hrun as <-.
  change w2 with (fst (w2, n)). revert Hwalk. unfold Circle_each.
  apply (each_loop_inv (λ st : World * Z, field (fst st) = field w)).
  - intros a b s s' d Hs Hvisit.
    rewrite (recenter_visit_field _ _ _ _ _ _ Hvisit). exact Hs.
  - cbn [fst]. rewrite field_frontier. exact Hw1.
Qed.

Lemma World_setBlock_field w x y z block :
  field (World_setBlock w x y z block) = field w.
Proof.
  unfold World_setBlock. case_decide; [|reflexivity].
  destruct (Circle_get (world_chunks w) _ _); [|reflexivity].
  unfold Chunk_setBlock.
  destruct (Circle_get (world_chunks w) _ _); [|reflexivity].
  case_decide; [reflexivity|].
  repeat (case_decide; rewrite ?World_update_chunk_field).
  all: reflexivity.
Qed.

Lemma Frontier_createLODMeshes_field chunk w w' :
  Frontier_createLODMeshes meshFrontier chunk w = Some w' → field w' = field w.
Proof.
  unfold Frontier_createLODMeshes.
  destruct (world_loadFrontier w) as [loadFrontier|].
  2:{ intros Hrun. injection Hrun as <-. reflexivity. }
  intros Hrun. apply bind_Some in Hrun as (? & _ & Hrun).
  apply bind_Some in Hrun as (mesh & _ & Hrun).
  destruct (foldl _ _ _) as [column mesh'].
  injection Hrun as <-. rewrite field_column. apply field_frontier.
Qed.

Lemma lod_visit_field l cx cz st st' d :
  lod_visit meshFrontier l cx cz st = Some (st', d) →
  field (ls_world st') = field (ls_world st).
Proof.
  unfold lod_visit. intros Hrun.
  destruct (bool_decide _ && negb _).
  { injection Hrun as <- _. reflexivity. }
  apply bind_Some in Hrun as ([lod w1] & Hlod & Hrun).
  apply bind_Some in Hrun as ([[w2 counter] created] & Hmesh & Hrun).
  apply bind_Some in Hrun as (mesh & _ & Hrun).
  apply bind_Some in Hrun as (mesh' & _ & Hrun).
  injection Hrun as <- _. cbn [ls_world]. rewrite field_frontier.
  assert (H1 : field w1 = field (ls_world st)).
  { destruct (Circle_get _ cx cz) as [existing|].
    - injection Hlod as _ <-. reflexivity.
    - destruct (Frontier_createFrontierChunk cx cz l _) as [made f].
      apply bind_Some in Hlod as (level & _ & Hlod). injection Hlod as _ <-.
      unfold World_with_level. rewrite !field_frontier. reflexivity. }
  rewrite <- H1. destruct (_ && negb _).
  - apply bind_Some in Hmesh as (w3 & Hcreate & Hmesh). injection Hmesh as <- _ _.
    rewrite field_frontier.
    exact (Frontier_createLODMeshes_field _ _ _ Hcreate).
  - injection Hmesh as <- _ _. reflexivity.
Qed.

Lemma Frontier_remeshFrontier_field w w' log :
  Frontier_remeshFrontier meshFrontier w = Some (w', log) → field w' = field w.
Proof.
  unfold Frontier_remeshFrontier. intros Hrun.
  change w' with (fst (w', log)). revert Hrun.
  apply (foldl_option_inv
           (λ st : World * list (option LODState), field (fst st) = field w)
           (level_step meshFrontier)).
  - intros acc i [w2 log2] Hacc Hstep. unfold level_step in Hstep.
    apply bind_Some in Hstep as ([w1 log1] & -> & Hstep).
    apply bind_Some in Hstep as ([w3 st3] & Hlevel & Hstep).
    injection Hstep as <- _. cbn [fst].
    rewrite <- (Hacc _ eq_refl). cbn [fst].
    unfold Frontier_computeLODAtLevel in Hlevel.
    destruct (negb _); [injection Hlevel as <- _; reflexivity|].
    apply bind_Some in Hlevel as (st1 & Hwalk & Hlevel).
    injection Hlevel as <- _. rewrite field_frontier.
    revert Hwalk. unfold Circle_each.
    apply (each_loop_inv (λ s, field (ls_world s) = field w1)); [|reflexivity].
    intros a b s s' d Hs Hvisit.
    rewrite (lod_visit_field _ _ _ _ _ _ Hvisit). exact Hs.
  - intros a Ha. injection Ha as <-. reflexivity.
Qed.

Lemma World_remesh_field w w' :
  World_remesh meshChunk meshFrontier w = Some w' → field w' = field w.
Proof.
  unfold World_remesh. intros Hrun.
  apply bind_Some in Hrun as (st & Hwalk & Hrun).
  apply bind_Some in Hrun as ([w1 log] & Hfrontier & Hrun).
  injection Hrun as <-.
  rewrite (Frontier_remeshFrontier_field _ _ _ Hfrontier).
  revert Hwalk. unfold World_remesh_chunks, Circle_each.
  apply (each_loop_inv (λ st, field (rs_world st) = field w)); [|reflexivity].
  intros a b s s' d Hs. unfold remesh_visit.
  case_decide; [intros Hrun; injection Hrun as <- _; exact Hs|].
  destruct (Circle_get (world_chunks (rs_world s)) a b) as [chunk|].
  2:{ intros Hrun; injection Hrun as <- _; exact Hs. }
  destruct (Chunk_needsRemesh chunk).
  2:{ intros Hrun; injection Hrun as <- _; exact Hs. }
  intros Hrun. apply bind_Some in Hrun as (w2 & Hremesh & Hrun).
  injection Hrun as <- _. cbn [rs_world].
  unfold Chunk_remeshChunk in Hremesh.
  apply bind_Some in Hremesh as (this & _ & Hremesh).
  apply bind_Some in Hremesh as (? & _ & Hremesh).
  destruct (meshChunk this _) as [solid water]. injection Hremesh as <-.
  rewrite World_update_chunk_field.
  destruct (Chunk_hasMesh chunk); [|rewrite field_frontier]; exact Hs.
Qed.

End world_field.

(** ** The calls on the world keep what the chunks keep *)

Section world_calls.
Variables (r : Registry) (P : Chunk → Prop) (L : Loader → Prop).
Hypothesis P_dirty : ∀ d c, P c → P (Chunk_with_dirty d c).
Hypothesis P_neighbors : ∀ n b c, P c → P (Chunk_with_neighbors n b c).
Hypothesis P_meshes : ∀ s w c, P c → P (Chunk_with_meshes s w c).
Hypothesis P_load : ∀ cx cz loader col this col',
  L loader → Column_idle col →
  Chunk_loadColumns r loader (Chunk_init cx cz) col = Some (this, col') →
  P this.

(** The loader of the world is one of [L]. *)
Local Abbreviation loads w := (∀ l, world_loadChunk w = Some l → L l).
Hypothesis P_setBlock : ∀ c x y z block,
  0 ≤ y < kWorldHeight → P c → P (Chunk_setBlock_self r c x y z block).

Lemma Chunk_new_keeps cx cz w loader this w' :
  L loader →
  World_keeps r P w → Chunk_new cx cz w loader = Some (this, w') →
  P this ∧ World_keeps r P w'.
Proof.
  intros Hloader (Hidle & Hr & Hall). unfold Chunk_new. rewrite Hr. intros Hrun.
  apply bind_Some in Hrun as ([this0 col] & Hload & Hrun).
  apply bind_Some in Hrun as ([this1 w1] & Hgreet & Hrun).
  injection Hrun as <- <-.
  assert (Hcol : Column_idle col).
  { destruct (Chunk_loadColumns_Some r loader (λ _, True))
      with (chunk := Chunk_init cx cz) (col := world_column w)
      as (c1 & col1 & Hsome & _ & Hcol1 & _);
      [intros; exact I|intros; exact I|exact I|exact Hidle|].
    rewrite Hload in Hsome. injection Hsome as _ <-. exact Hcol1. }
  assert (Hst : P this1 ∧ World_keeps r P w1).
  { change (P (fst (this1, w1)) ∧ World_keeps r P (snd (this1, w1))).
    revert Hgreet.
    apply (foldl_option_inv
             (λ st : Chunk * World, P (fst st) ∧ World_keeps r P (snd st))
             (Chunk_greet cx cz)).
    - intros st [dx dz] [this2 w2] Hst Hstep. unfold Chunk_greet in Hstep.
      apply bind_Some in Hstep as ([this3 w3] & -> & Hstep).
      destruct (Hst _ eq_refl) as [Hthis3 Hw3]. cbn [fst snd] in *.
      destruct (Circle_get (world_chunks w3) (dx + cx) (dz + cz)).
      + apply bind_Some in Hstep as (w4 & Hnotify & Hstep).
        injection Hstep as <- <-. split; [apply P_neighbors, Hthis3|].
        eapply Chunk_notifyNeighborLoaded_keeps; eassumption.
      + injection Hstep as <- <-. split; assumption.
    - intros a Ha. injection Ha as <-. cbn [fst snd].
      split; [exact (P_load _ _ _ _ _ _ Hloader Hidle Hload)|].
      split; [exact Hcol|]. split; [exact Hr|exact Hall]. }
  destruct Hst as [Hthis1 Hw1]. split; [|exact Hw1].
  apply P_neighbors, P_dirty, Hthis1.
Qed.

Lemma recenter_visit_keeps loadChunk cx cz st st' d :
  L loadChunk →
  World_keeps r P (fst st) →
  recenter_visit loadChunk cx cz st = Some (st', d) →
  World_keeps r P (fst st').
Proof.
  destruct st as [w loaded]. cbn [fst]. intros Hloader Hw.
  unfold recenter_visit.
  destruct (Circle_get (world_chunks w) cx cz).
  { intros Hrun. injection Hrun as <- _. exact Hw. }
  intros Hrun. apply bind_Some in Hrun as ([chunk w1] & Hnew & Hrun).
  apply bind_Some in Hrun as (chunks & Hset & Hrun). injection Hrun as <- _.
  destruct (Chunk_new_keeps _ _ _ _ _ _ Hloader Hw Hnew)
    as [Hchunk (Hidle & Hr & Hall)].
  cbn [fst]. split; [exact Hidle|]. split; [exact Hr|].
  unfold World_all. cbn [world_chunks World_with_chunks].
  unfold Circle_set in Hset. case_decide as Hi; [|discriminate Hset].
  destruct (circ_elements (world_chunks w1) !! _) as [[|]|] eqn:Hslot;
    try discriminate Hset.
  injection Hset as <-. cbn [circ_elements Circle_with_elements].
  intros i c Hc. unfold ta_set in Hc. rewrite decide_True in Hc by exact Hi.
  destruct (decide (i = Z.to_nat (Circle_index (world_chunks w1) cx cz)))
    as [->|Hne].
  - rewrite list_lookup_insert_eq in Hc by (eapply lookup_lt_Some, Hslot).
    injection Hc as <-. exact Hchunk.
  - rewrite list_lookup_insert_ne in Hc by congruence. exact (Hall _ _ Hc).
Qed.

Lemma World_recenter_keeps w x y z w' :
  loads w →
  World_keeps r P w → World_recenter w x y z = Some w' → World_keeps r P w'.
Proof.
  intros Hloads Hw. unfold World_recenter. intros Hrun.
  apply bind_Some in Hrun as (w1 & Hcenter & Hrun).
  apply bind_Some in Hrun as (f & _ & Hrun).
  pose proof (Circle_center_keeps r P P_dirty P_neighbors P_meshes _ _ _ _
                Hw Hcenter) as Hw1.
  assert (Hsame : world_loadChunk w1 = world_loadChunk w)
    by (eapply (Circle_center_field world_loadChunk);
        [..|exact Hcenter]; intros; reflexivity).
  cbn [world_loadChunk World_with_frontier] in Hrun.
  destruct (world_loadChunk w1) as [loadChunk|].
  2:{ injection Hrun as <-. exact Hw1. }
  apply bind_Some in Hrun as ([w2 n] & Hwalk & Hrun). injection Hrun as <-.
  change w2 with (fst (w2, n)). revert Hwalk. unfold Circle_each.
  apply (each_loop_inv (λ st : World * Z, World_keeps r P (fst st))).
  - intros a b s s' d Hs Hvisit.
    eapply recenter_visit_keeps; [|exact Hs|exact Hvisit].
    apply Hloads. symmetry. exact Hsame.
  - exact Hw1.
Qed.

Lemma World_setBlock_keeps w x y z block :
  World_keeps r P w → World_keeps r P (World_setBlock w x y z block).
Proof.
  intros Hw. unfold World_setBlock. case_decide as Hy; [|exact Hw].
  destruct (Circle_get (world_chunks w) _ _) as [chunk|]; [|exact Hw].
  unfold Chunk_setBlock.
  destruct (Circle_get (world_chunks w) _ _) as [this|]; [|exact Hw].
  case_decide; [exact Hw|].
  assert (Hmark : ∀ (cond : Prop) `{Decision cond} a b w0,
    World_keeps r P w0 →
    World_keeps r P
      (if decide cond then World_update_chunk a b (Chunk_with_dirty true) w0
       else w0)).
  { intros cond Hdec a b w0 Hw0. destruct (decide cond); [|exact Hw0].
    apply World_update_chunk_keeps; [|exact Hw0]. intros c0. apply P_dirty. }
  do 4 apply Hmark.
  apply World_update_chunk_keeps; [|exact Hw].
  intros c Hc. destruct Hw as (_ & -> & _). apply P_setBlock; [lia|exact Hc].
Qed.

Lemma World_setLoader_keeps w bedrock loadChunk loadFrontier :
  World_keeps r P w →
  World_keeps r P (World_setLoader w bedrock loadChunk loadFrontier).
Proof. intros H. exact H. Qed.

Section remesh.
Variable meshChunk :
  Chunk → list (option Chunk) → option VoxelMesh * option VoxelMesh.
Variable meshFrontier :
  Z → Z → Z → Z → Z → Z → option VoxelMesh → bool → option VoxelMesh.

Lemma Chunk_remeshChunk_keeps cx cz w w' :
  World_keeps r P w → Chunk_remeshChunk meshChunk cx cz w = Some w' →
  World_keeps r P w'.
Proof.
  intros Hw. unfold Chunk_remeshChunk. intros Hrun.
  apply bind_Some in Hrun as (this & _ & Hrun).
  apply bind_Some in Hrun as (? & _ & Hrun).
  destruct (meshChunk this _) as [solid water]. injection Hrun as <-.
  apply World_update_chunk_keeps; [|exact Hw].
  intros c Hc. apply P_dirty, P_meshes, Hc.
Qed.

Lemma remesh_visit_keeps cx cz st st' d :
  World_keeps r P (rs_world st) →
  remesh_visit meshChunk cx cz st = Some (st', d) →
  World_keeps r P (rs_world st').
Proof.
  intros Hw. unfold remesh_visit.
  case_decide; [intros Hrun; injection Hrun as <- _; exact Hw|].
  destruct (Circle_get (world_chunks (rs_world st)) cx cz) as [chunk|].
  2:{ intros Hrun; injection Hrun as <- _; exact Hw. }
  destruct (Chunk_needsRemesh chunk).
  2:{ intros Hrun; injection Hrun as <- _; exact Hw. }
  intros Hrun. apply bind_Some in Hrun as (w1 & Hremesh & Hrun).
  injection Hrun as <- _. cbn [rs_world].
  eapply Chunk_remeshChunk_keeps; [|exact Hremesh].
  destruct (Chunk_hasMesh chunk); [exact Hw|].
  apply World_with_frontier_keeps, Hw.
Qed.

Lemma World_remesh_keeps w w' :
  World_keeps r P w → World_remesh meshChunk meshFrontier w = Some w' →
  World_keeps r P w'.
Proof.
  intros Hw. unfold World_remesh. intros Hrun.
  apply bind_Some in Hrun as (st & Hwalk & Hrun).
  apply bind_Some in Hrun as ([w1 log] & Hfrontier & Hrun).
  injection Hrun as <-.
  eapply World_keeps_frame; [eapply Frontier_remeshFrontier_frame, Hfrontier|].
  revert Hwalk. unfold World_remesh_chunks, Circle_each.
  apply (each_loop_inv (λ st, World_keeps r P (rs_world st))).
  - intros a b s s' d Hs Hvisit. eapply remesh_visit_keeps; eassumption.
  - exact Hw.
Qed.

Lemma World_call_keeps w k w' :
  call_loads L k → loads w →
  World_keeps r P w → World_call meshChunk meshFrontier w k = Some w' →
  World_keeps r P w' ∧ loads w'.
Proof.
  intros Hk Hloads Hw.
  destruct k as [bedrock loadChunk loadFrontier|x y z|x y z block|];
    cbn [World_call call_loads] in *; intros Hrun.
  - injection Hrun as <-. split; [apply World_setLoader_keeps, Hw|].
    intros l Hl. injection Hl as <-. exact Hk.
  - split; [eapply World_recenter_keeps; eassumption|].
    assert (Hsame : world_loadChunk w' = world_loadChunk w)
      by (eapply (World_recenter_field world_loadChunk);
          [..|exact Hrun]; intros; reflexivity).
    rewrite Hsame. exact Hloads.
  - injection Hrun as <-. split; [apply World_setBlock_keeps, Hw|].
    assert (Hsame : world_loadChunk (World_setBlock w x y z block)
                    = world_loadChunk w)
      by (apply (World_setBlock_field world_loadChunk); intros; reflexivity).
    rewrite Hsame. exact Hloads.
  - split; [eapply World_remesh_keeps; eassumption|].
    assert (Hsame : world_loadChunk w' = world_loadChunk w)
      by (eapply (World_remesh_field world_loadChunk);
          [..|exact Hrun]; intros; reflexivity).
    rewrite Hsame. exact Hloads.
Qed.

Lemma World_run_keeps calls : ∀ w w',
  Forall (call_loads L) calls → loads w →
  World_keeps r P w → World_run meshChunk meshFrontier w calls = Some w' →
  World_keeps r P w' ∧ loads w'.
Proof.
  unfold World_run.
  induction calls as [|k calls IH]; intros w w' Hcalls Hloads Hw Hrun.
  - injection Hrun as <-. split; [exact Hw|exact Hloads].
  - apply Forall_cons in Hcalls as [Hk Hcalls].
    cbn [foldl mbind option_bind] in Hrun.
    destruct (World_call meshChunk meshFrontier w k) as [w1|] eqn:Hcall.
    + destruct (World_call_keeps _ _ _ Hk Hloads Hw Hcall) as [Hw1 Hloads1].
      exact (IH _ _ Hcalls Hloads1 Hw1 Hrun).
    + exfalso. clear -Hrun. induction calls as [|k' calls IH'];
        [discriminate Hrun|]. cbn [foldl mbind option_bind] in Hrun.
      exact (IH' Hrun).
Qed.

End remesh.
End world_calls.

Lemma Circle_new_empty {T} (radius : Q) (c : Circle T) (i : nat) e :
  Circle_new radius = Some c → circ_elements c !! i = Some e → e = None.
Proof.
  unfold Circle_new. destruct (Circle_shift_of (Qfloor radius)) as [shift|];
    [|discriminate].
  cbn [mbind option_bind]. intros Hc. injection Hc as <-.
  cbn [circ_elements]. intros He. apply lookup_replicate in He as [He _].
  exact He.
Qed.

Lemma World_new_keeps r P w : World_new r = Some w → World_keeps r P w.
Proof.
  unfold World_new. generalize chunk_radius. intros radius.
  destruct (Circle_new radius) as [chunks|] eqn:Hchunks; [|discriminate].
  cbn [mbind option_bind]. destruct Frontier_new as [frontier|]; [|discriminate].
  cbn [mbind option_bind]. intros Hrun. injection Hrun as <-.
  split; [apply Column_new_idle|]. split; [reflexivity|].
  unfold World_all. cbn [world_chunks]. intros i c Hc.
  apply (Circle_new_empty _ _ _ _ Hchunks) in Hc. discriminate Hc.
Qed.

(** ** The maps of every chunk of the world *)

Lemma Chunk_loadColumns_sound r loader chunk col chunk' col' :
  Chunk_wf chunk ∧ heights_ok r chunk →
  Column_idle col →
  Chunk_loadColumns r loader chunk col = Some (chunk', col') →
  Chunk_wf chunk' ∧ heights_ok r chunk'.
Proof.
  intros Hchunk Hidle Hrun.
  destruct (Chunk_loadColumns_Some r loader (λ c, Chunk_wf c ∧ heights_ok r c))
    with (chunk := chunk) (col := col)
    as (chunk1 & col1 & Hrun1 & Hchunk1 & _).
  - intros c x z start count block Hstart Hcount Hend [Hwf Hok].
    split; [apply Chunk_wf_setColumn, Hwf|].
    apply Chunk_setColumn_heights; assumption.
  - intros c col0 [Hwf Hok] Hidle0. split; [|exact Hok].
    apply Chunk_wf_with_equilevels; [exact Hwf|].
    apply Column_fillEquilevels_length; [exact Hidle0|].
    destruct Hwf as (_ & _ & _ & _ & _ & _ & Heq). exact Heq.
  - exact Hchunk.
  - exact Hidle.
  - rewrite Hrun in Hrun1. injection Hrun1 as <- _. exact Hchunk1.
Qed.

Section world_sound.
Variable meshChunk :
  Chunk → list (option Chunk) → option VoxelMesh * option VoxelMesh.
Variable meshFrontier :
  Z → Z → Z → Z → Z → Z → option VoxelMesh → bool → option VoxelMesh.

Lemma World_run_sound w calls w' :
  World_sound w → World_run meshChunk meshFrontier w calls = Some w' →
  World_sound w' ∧ world_registry w' = world_registry w.
Proof.
  intros [Hr Hw] Hrun.
  assert (Hw' : World_keeps (world_registry w)
                  (λ c, Chunk_wf c ∧ heights_ok (world_registry w) c) w').
  { refine (proj1 (World_run_keeps (world_registry w)
             (λ c, Chunk_wf c ∧ heights_ok (world_registry w) c) (λ _, True)
             _ _ _ _ _ meshChunk meshFrontier calls w w' _ _ Hw Hrun));
      [| | | | | |intros; exact I].
    - intros d c Hc. exact Hc.
    - intros n b c Hc. exact Hc.
    - intros s v c Hc. exact Hc.
    - intros cx cz loader col this col' _ Hidle Hload.
      apply (Chunk_loadColumns_sound _ _ _ _ _ _
               (conj (Chunk_wf_init cx cz) (Chunk_init_heights _ cx cz Hr))
               Hidle Hload).
    - intros c x y z block Hy [Hwf Hok].
      split; [apply Chunk_wf_setBlock_self, Hwf|].
      apply Chunk_setBlock_self_heights; assumption.
    - apply Forall_forall. intros k _. destruct k; exact I. }
  destruct Hw' as (Hidle & Hreg & Hall). split; [|exact Hreg].
  unfold World_sound. rewrite Hreg.
  split; [exact Hr|]. split; [exact Hidle|]. split; [exact Hreg|exact Hall].
Qed.

(** X9.  In a world that [new World] built on a registry whose empty block
    is not solid, whatever calls of [setLoader], [recenter], [setBlock]
    and [remesh] have returned since, with any loaders and meshers, every
    loaded chunk has its two maps right: [heightmap] holds for every column
    the smallest [y] from which on all voxels are empty and [light_map] the
    smallest [y] from which on none is solid.  The column the loaders fill
    is cleared between the calls. *)
Theorem World_calls_keep_heights (r : Registry) (w0 w' : World)
    (calls : list WorldCall) :
  Registry_isSolid r kEmptyBlock = false →
  World_new r = Some w0 →
  World_run meshChunk meshFrontier w0 calls = Some w' →
  world_registry w' = r
  ∧ Column_idle (world_column w')
  ∧ ∀ cx cz chunk, Circle_get (world_chunks w') cx cz = Some chunk →
      Chunk_wf chunk ∧ heights_ok r chunk.
Proof.
  intros Hr Hnew Hrun.
  pose proof (World_new_keeps r (λ c, Chunk_wf c ∧ heights_ok r c) w0 Hnew)
    as Hw0.
  assert (Hreg : world_registry w0 = r) by apply Hw0.
  assert (Hsound : World_sound w0).
  { unfold World_sound. rewrite Hreg. split; [exact Hr|exact Hw0]. }
  destruct (World_run_sound _ _ _ Hsound Hrun)
    as [(_ & Hidle & _ & Hall) Hreg'].
  rewrite Hreg in Hreg'. rewrite Hreg' in Hall.
  split; [exact Hreg'|]. split; [exact Hidle|].
  intros cx cz chunk Hget.
  destruct (Circle_get_Some _ _ _ _ Hget) as (_ & Hslot & _).
  exact (Hall _ _ Hslot).
Qed.

End world_sound.

Lemma World_calls_keep_heights_witness :
  ∃ w0 w',
    World_new example_registry = Some w0
    ∧ World_run example_mesher example_lod_mesher w0
        [CallSetLoader 2 empty_loader None; CallRecenter 0 0 0;
         CallWorldSetBlock 3 9 4 2; CallRemesh] = Some w'
    ∧ world_registry w' = example_registry
    ∧ Column_idle (world_column w')
    ∧ ∀ cx cz chunk, Circle_get (world_chunks w') cx cz = Some chunk →
        Chunk_wf chunk ∧ heights_ok example_registry chunk.
Proof.
  assert (Hsome : bool_decide (is_Some
            (w0 ← World_new example_registry;
             World_run example_mesher example_lod_mesher w0
               [CallSetLoader 2 empty_loader None; CallRecenter 0 0 0;
                CallWorldSetBlock 3 9 4 2; CallRemesh])) = true)
    by (vm_compute; reflexivity).
  apply bool_decide_eq_true_1 in Hsome.
  destruct (World_new example_registry) as [w0|] eqn:Hnew.
  2:{ destruct Hsome as [? Hsome]. discriminate Hsome. }
  cbn [mbind option_bind] in Hsome.
  destruct (World_run example_mesher example_lod_mesher w0
              [CallSetLoader 2 empty_loader None; CallRecenter 0 0 0;
               CallWorldSetBlock 3 9 4 2; CallRemesh]) as [w'|] eqn:Hrun.
  2:{ destruct Hsome as [? Hsome]. discriminate Hsome. }
  exists w0, w'. split; [reflexivity|]. split; [exact Hrun|].
  apply (World_calls_keep_heights example_mesher example_lod_mesher
           example_registry w0 w' _ eq_refl Hnew Hrun).
Defined.

(** The example world is one of these. *)
Lemma recenter_times_sound n : ∀ w w',
  World_sound w → recenter_times n w = Some w' → World_sound w'.
Proof.
  induction n as [|n IH]; intros w w' Hw Hrun.
  - injection Hrun as <-. exact Hw.
  - cbn [recenter_times] in Hrun. apply bind_Some in Hrun as (w1 & Hstep & Hrun).
    apply (IH w1 w'); [|exact Hrun].
    apply (World_run_sound example_mesher example_lod_mesher w [CallRecenter 0 0 0]);
      [exact Hw|].
    unfold World_run. cbn [foldl mbind option_bind World_call]. exact Hstep.
Qed.

Lemma empty_world_sound : World_sound empty_world.
Proof.
  split; [reflexivity|]. split; [apply Column_new_idle|].
  split; [reflexivity|]. intros i c Hc. discriminate Hc.
Qed.

Lemma fresh_world_sound : World_sound fresh_world.
Proof.
  unfold fresh_world.
  destruct (World_new example_registry) as [w|] eqn:Hnew;
    cbn [mbind option_bind default]; [|apply empty_world_sound].
  pose proof (World_new_keeps example_registry
                (λ c, Chunk_wf c ∧ heights_ok example_registry c) w Hnew)
    as Hw.
  assert (Hreg : world_registry w = example_registry) by apply Hw.
  assert (Hsound : World_sound w).
  { unfold World_sound. rewrite Hreg. split; [reflexivity|]. exact Hw. }
  exact Hsound.
Qed.

Lemma example_world_sound : World_sound example_world.
Proof.
  unfold example_world.
  destruct (recenter_times 5 fresh_world) as [w|] eqn:Hrun;
    cbn [default]; [|apply empty_world_sound].
  exact (recenter_times_sound 5 _ _ fresh_world_sound Hrun).
Qed.

Lemma World_isBlockLit_iff_witness :
  World_isBlockLit example_world 15 10 4 = true
  ↔ ∀ y', 10 ≤ y' < kWorldHeight →
      Registry_isSolid (world_registry example_world)
        (World_getBlock example_world 15 y' 4) = false.
Proof.
  apply (World_isBlockLit_iff example_world (example_chunk 0 0) 15 10 4).
  - apply example_chunk_loaded. vm_compute. reflexivity.
  - destruct example_world_sound as (_ & _ & _ & Hall).
    assert (Hget : Circle_get (world_chunks example_world) 0 0
                   = Some (example_chunk 0 0)).
    { apply example_chunk_loaded. vm_compute. reflexivity. }
    destruct (Circle_get_Some _ _ _ _ Hget) as (_ & Hslot & _).
    exact (proj2 (Hall _ _ Hslot)).
  - lia.
Defined.

(* ===================================================================== *)
(** * The registry of blocks and materials *)
(* ===================================================================== *)

Lemma Registry_getMaterialData_Some g id :
  0 ≤ id < Z.of_nat (length (breg_materials g)) →
  is_Some (Registry_getMaterialData g (id + 1)).
Proof.
  intros Hid. unfold Registry_getMaterialData, assert.
  rewrite decide_True by lia. cbn [mbind option_bind].
  apply lookup_lt_is_Some_2. lia.
Qed.

Lemma addBlock_face_error g e names :
  foldl addBlock_face (g, inl e) names = (g, inl e).
Proof. induction names as [|x names IH]; [reflexivity|exact IH]. Qed.

(** The turns of [forEach] over names that are all known. *)
Lemma addBlock_faces_known names : ∀ g opaque,
  (∀ name id, breg_ids g !! name = Some id →
     0 ≤ id < Z.of_nat (length (breg_materials g))) →
  Forall (λ x, is_Some (breg_ids g !! x)) names →
  ∃ opaque',
    foldl addBlock_face (g, inr opaque) names
    = (BlockRegistry_with_faces
         (breg_faces g ++ ((λ x, default 0 (breg_ids g !! x) + 1) <$> names)) g,
       inr opaque').
Proof.
  induction names as [|x names IH]; intros g opaque Hids Hknown.
  - exists opaque. cbn [foldl fmap list_fmap]. rewrite app_nil_r.
    destruct g; reflexivity.
  - apply Forall_cons in Hknown as [[id Hx] Hknown].
    cbn [foldl addBlock_face]. rewrite Hx.
    set (g1 := BlockRegistry_with_faces (breg_faces g ++ [id + 1]) g).
    destruct (Registry_getMaterialData_Some g1 id (Hids _ _ Hx)) as [data ->].
    destruct (IH g1 (if Material_translucent data then false else opaque))
      as [opaque' ->]; [exact Hids|exact Hknown|].
    exists opaque'. unfold g1, BlockRegistry_with_faces.
    cbn [breg_faces breg_tables breg_meshes breg_materials breg_ids
         fmap list_fmap default].
    rewrite Hx. cbn [default]. rewrite <- app_assoc. reflexivity.
Qed.

Lemma face_names_length xs names :
  face_names xs = Some names → length names = 6%nat.
Proof.
  destruct xs as [|a [|b [|c [|d [|e [|f [|? ?]]]]]]]; intros H;
    try discriminate H; injection H as <-; reflexivity.
Qed.

Lemma Forall_faces_known (ids : gmap string Z) (n : Z) names :
  (∀ name id, ids !! name = Some id → 0 ≤ id < n) →
  Forall (λ x, is_Some (ids !! x)) names →
  Forall (λ m, 0 ≤ m ≤ n) ((λ x, default 0 (ids !! x) + 1) <$> names).
Proof.
  intros Hids Hknown. apply Forall_fmap. eapply Forall_impl; [exact Hknown|].
  intros x [i Hx]. unfold compose. rewrite Hx. simpl.
  specialize (Hids _ _ Hx). lia.
Qed.

(** X10.  [addBlock] with names that are all known, on a registry whose
    tables are aligned: it returns the next block id, the old number of
    blocks; the new block has the solidity asked for and its six faces are
    the materials named, in the order the argument stands for; the blocks
    registered before read as before; and the tables stay aligned. *)
Theorem Registry_addBlock_returns (g : BlockRegistry) (xs names : list string)
    (solid : bool) :
  BlockRegistry_ok g →
  face_names xs = Some names →
  Forall (λ x, is_Some (breg_ids g !! x)) names →
  let id := Z.of_nat (length (reg_opaque (breg_tables g))) in
  ∃ g', Registry_addBlock g xs solid = (g', inr id)
    ∧ BlockRegistry_ok g'
    ∧ Registry_isSolid (breg_tables g') id = solid
    ∧ (∀ face x, names !! face = Some x →
         Registry_getBlockFaceMaterial g' id (Z.of_nat face)
         = Some (default 0 (breg_ids g !! x) + 1))
    ∧ (∀ b face, 0 ≤ b < id → 0 ≤ face < 6 →
         Registry_getBlockFaceMaterial g' b face
         = Registry_getBlockFaceMaterial g b face
         ∧ Registry_isSolid (breg_tables g') b = Registry_isSolid (breg_tables g) b
         ∧ Registry_getBlockMesh g' b = Registry_getBlockMesh g b).
Proof.
  intros (Htwo & Hfaces & Hsolid & Hmeshes & Hrange & Hids & Hempty & Hunknown)
    Hnames Hknown id.
  pose proof (face_names_length _ _ Hnames) as Hsix.
  destruct (addBlock_faces_known names g true Hids Hknown) as [opaque Hfold].
  unfold Registry_addBlock. rewrite Hnames, Hfold.
  cbn [breg_tables breg_faces breg_meshes breg_materials breg_ids
       BlockRegistry_with_faces].
  eexists. split; [reflexivity|].
  set (new := (λ x, default 0 (breg_ids g !! x) + 1) <$> names).
  assert (Hnew : length new = 6%nat) by (unfold new; rewrite length_fmap; exact Hsix).
  split; [|split; [|split]].
  - unfold BlockRegistry_ok, Registry_isSolid in *.
    cbn [breg_tables breg_faces breg_meshes breg_materials breg_ids
         reg_opaque reg_solid].
    rewrite !length_app, Hnew. cbn [length].
    split_and!; try lia.
    + apply Forall_app. split; [exact Hrange|].
      apply Forall_faces_known; assumption.
    + exact Hids.
    + unfold ta_get, kEmptyBlock in *. rewrite decide_True in * by lia.
      rewrite lookup_app_l by (change (Z.to_nat 0) with O; lia). exact Hempty.
    + unfold ta_get, kUnknownBlock in *. rewrite decide_True in * by lia.
      rewrite lookup_app_l by (change (Z.to_nat 1) with 1%nat; lia).
      exact Hunknown.
  - unfold Registry_isSolid, ta_get. cbn [breg_tables reg_solid].
    rewrite decide_True by lia. unfold id.
    rewrite Nat2Z.id, <- Hsolid, lookup_app_r by lia.
    rewrite Nat.sub_diag. reflexivity.
  - intros face x Hx. unfold Registry_getBlockFaceMaterial.
    cbn [breg_faces]. rewrite decide_True by lia.
    rewrite lookup_app_r by (unfold id; lia).
    replace (Z.to_nat (id * 6 + Z.of_nat face) - length (breg_faces g))%nat
      with face by (unfold id; lia).
    unfold new. rewrite list_lookup_fmap, Hx. reflexivity.
  - intros b face Hb Hface. unfold id in Hb. split; [|split].
    + unfold Registry_getBlockFaceMaterial. cbn [breg_faces].
      rewrite !decide_True by lia. apply lookup_app_l. lia.
    + unfold Registry_isSolid, ta_get. cbn [breg_tables reg_solid].
      rewrite !decide_True by lia. rewrite lookup_app_l by lia. reflexivity.
    + unfold Registry_getBlockMesh. cbn [breg_meshes].
      rewrite !decide_True by lia. rewrite lookup_app_l by lia. reflexivity.
Qed.

Lemma Registry_addBlock_returns_witness :
  let id := Z.of_nat (length (reg_opaque (breg_tables example_blocks))) in
  ∃ g', Registry_addBlock example_blocks ["glass"; "stone"] true = (g', inr id)
    ∧ BlockRegistry_ok g'
    ∧ Registry_isSolid (breg_tables g') id = true
    ∧ (∀ face x,
         ["stone"; "stone"; "glass"; "glass"; "stone"; "stone"] !! face = Some x →
         Registry_getBlockFaceMaterial g' id (Z.of_nat face)
         = Some (default 0 (breg_ids example_blocks !! x) + 1))
    ∧ (∀ b face, 0 ≤ b < id → 0 ≤ face < 6 →
         Registry_getBlockFaceMaterial g' b face
         = Registry_getBlockFaceMaterial example_blocks b face
         ∧ Registry_isSolid (breg_tables g') b
           = Registry_isSolid (breg_tables example_blocks) b
         ∧ Registry_getBlockMesh g' b = Registry_getBlockMesh example_blocks b).
Proof.
  apply (Registry_addBlock_returns example_blocks ["glass"; "stone"]
           ["stone"; "stone"; "glass"; "glass"; "stone"; "stone"] true).
  - unfold BlockRegistry_ok. split_and!; try (vm_compute; reflexivity).
    + repeat constructor; vm_compute; intros H; discriminate H.
    + intros name id.
      change (breg_ids example_blocks)
        with (<["glass" := 1]> (<["stone" := 0]> (∅ : gmap string Z))).
      intros Hid. apply lookup_insert_Some in Hid as [[_ <-]|[_ Hid]];
        [vm_compute; split; [intros H; discriminate H|reflexivity]|].
      apply lookup_insert_Some in Hid as [[_ <-]|[_ Hid]];
        [vm_compute; split; [intros H; discriminate H|reflexivity]|].
      rewrite lookup_empty in Hid. discriminate Hid.
  - reflexivity.
  - repeat constructor; vm_compute; eexists; reflexivity.
Defined.

(** X11.  [addBlock] with a name that is not known throws
    [Unknown material], but not before it has pushed one face for each
    known name in front of it: the faces stay in the registry, no block is
    added, and when there is such a face the tables are no longer aligned
    at six faces per block. *)
Theorem Registry_addBlock_unknown (g : BlockRegistry)
    (xs names known rest : list string) (x : string) (solid : bool) :
  BlockRegistry_ok g →
  face_names xs = Some names →
  names = known ++ x :: rest →
  Forall (λ x, is_Some (breg_ids g !! x)) known →
  breg_ids g !! x = None →
  let g' := BlockRegistry_with_faces
              (breg_faces g ++ ((λ x, default 0 (breg_ids g !! x) + 1) <$> known))
              g in
  Registry_addBlock g xs solid = (g', inl (UnknownMaterial x))
  ∧ (known ≠ [] → ¬ BlockRegistry_ok g').
Proof.
  intros (Htwo & Hfaces & Hsolid & Hmeshes & Hrange & Hids & _) Hnames Hsplit
    Hknown Hx g'.
  pose proof (face_names_length _ _ Hnames) as Hsix.
  split.
  - unfold Registry_addBlock. rewrite Hnames, Hsplit, foldl_app.
    destruct (addBlock_faces_known known g true Hids Hknown) as [opaque ->].
    cbn [foldl addBlock_face breg_ids BlockRegistry_with_faces].
    rewrite Hx, addBlock_face_error. reflexivity.
  - intros Hsome (_ & Hfaces' & _). unfold g' in Hfaces'.
    cbn [breg_faces breg_tables BlockRegistry_with_faces] in Hfaces'.
    rewrite length_app, length_fmap in Hfaces'.
    rewrite Hsplit, length_app in Hsix. cbn [length] in Hsix.
    destruct known; [apply Hsome; reflexivity|]. cbn [length] in *. lia.
Qed.

Lemma Registry_addBlock_unknown_witness :
  let g' := BlockRegistry_with_faces
              (breg_faces example_blocks
                 ++ ((λ x, default 0 (breg_ids example_blocks !! x) + 1)
                       <$> ["stone"; "stone"]))
              example_blocks in
  Registry_addBlock example_blocks ["sand"; "stone"] true
  = (g', inl (UnknownMaterial "sand"))
  ∧ (["stone"; "stone"] ≠ [] → ¬ BlockRegistry_ok g').
Proof.
  apply (Registry_addBlock_unknown example_blocks ["sand"; "stone"]
           ["stone"; "stone"; "sand"; "sand"; "stone"; "stone"]
           ["stone"; "stone"] ["sand"; "stone"; "stone"] "sand" true).
  - unfold BlockRegistry_ok. split_and!; try (vm_compute; reflexivity).
    + repeat constructor; vm_compute; intros H; discriminate H.
    + intros name id.
      change (breg_ids example_blocks)
        with (<["glass" := 1]> (<["stone" := 0]> (∅ : gmap string Z))).
      intros Hid. apply lookup_insert_Some in Hid as [[_ <-]|[_ Hid]];
        [vm_compute; split; [intros H; discriminate H|reflexivity]|].
      apply lookup_insert_Some in Hid as [[_ <-]|[_ Hid]];
        [vm_compute; split; [intros H; discriminate H|reflexivity]|].
      rewrite lookup_empty in Hid. discriminate Hid.
  - reflexivity.
  - reflexivity.
  - repeat constructor; vm_compute; eexists; reflexivity.
  - vm_compute. reflexivity.
Defined.

(** What the turns of [forEach] leave, known names or not. *)
Lemma addBlock_faces_spec names : ∀ g flag g' flag',
  (∀ name id, breg_ids g !! name = Some id →
     0 ≤ id < Z.of_nat (length (breg_materials g))) →
  foldl addBlock_face (g, flag) names = (g', flag') →
  ∃ extra,
    g' = BlockRegistry_with_faces (breg_faces g ++ extra) g
    ∧ Forall (λ m, 0 ≤ m ≤ Z.of_nat (length (breg_materials g))) extra
    ∧ (∀ o o', flag = inr o → flag' = inr o' → length extra = length names).
Proof.
  induction names as [|x names IH]; intros g flag g' flag' Hids Hfold.
  - injection Hfold as <- <-. exists []. rewrite app_nil_r.
    split; [destruct g; reflexivity|]. split; [constructor|reflexivity].
  - cbn [foldl] in Hfold. destruct flag as [e|opaque].
    { cbn [addBlock_face] in Hfold. rewrite addBlock_face_error in Hfold.
      injection Hfold as <- <-. exists []. rewrite app_nil_r.
      split; [destruct g; reflexivity|]. split; [constructor|].
      intros o o' Ho. discriminate Ho. }
    cbn [addBlock_face] in Hfold.
    destruct (breg_ids g !! x) as [id|] eqn:Hx.
    2:{ rewrite addBlock_face_error in Hfold. injection Hfold as <- <-.
        exists []. rewrite app_nil_r.
        split; [destruct g; reflexivity|]. split; [constructor|].
        intros o o' _ Ho. discriminate Ho. }
    set (g1 := BlockRegistry_with_faces (breg_faces g ++ [id + 1]) g) in *.
    destruct (Registry_getMaterialData_Some g1 id (Hids _ _ Hx)) as [data Hdata].
    rewrite Hdata in Hfold.
    destruct (IH g1 _ g' flag' Hids Hfold) as (extra & -> & Hextra & Hlen).
    exists ((id + 1) :: extra). split; [|split].
    + unfold g1, BlockRegistry_with_faces.
      cbn [breg_faces breg_tables breg_meshes breg_materials breg_ids].
      rewrite <- app_assoc. reflexivity.
    + constructor; [|exact Hextra]. specialize (Hids _ _ Hx). lia.
    + intros o o' _ Ho'. cbn [length]. f_equal. exact (Hlen _ _ eq_refl Ho').
Qed.

Lemma BlockRegistry_new_ok : BlockRegistry_ok BlockRegistry_new.
Proof.
  unfold BlockRegistry_ok. split_and!; try reflexivity.
  - repeat constructor; vm_compute; intros H; discriminate H.
  - intros name id Hid. cbn [BlockRegistry_new breg_ids] in Hid.
    rewrite lookup_empty in Hid. discriminate Hid.
Qed.

Lemma Registry_addBlock_ok g xs solid g' id :
  BlockRegistry_ok g → Registry_addBlock g xs solid = (g', inr id) →
  BlockRegistry_ok g'.
Proof.
  intros (Htwo & Hfaces & Hsolid & Hmeshes & Hrange & Hids & Hempty & Hunknown).
  unfold Registry_addBlock.
  destruct (face_names xs) as [names|] eqn:Hnames; [|discriminate].
  pose proof (face_names_length _ _ Hnames) as Hsix.
  destruct (foldl addBlock_face (g, inr true) names) as [g1 [e|opaque]] eqn:Hfold;
    [discriminate|].
  destruct (addBlock_faces_spec _ _ _ _ _ Hids Hfold) as (extra & -> & Hextra & Hlen).
  specialize (Hlen _ _ eq_refl eq_refl). intros Hrun. injection Hrun as <- _.
  unfold BlockRegistry_ok, Registry_isSolid in *.
  cbn [breg_tables breg_faces breg_meshes breg_materials breg_ids
       reg_opaque reg_solid BlockRegistry_with_faces].
  rewrite !length_app. cbn [length].
  split_and!; try lia.
  - apply Forall_app. split; assumption.
  - exact Hids.
  - unfold ta_get, kEmptyBlock in *. rewrite decide_True in * by lia.
    rewrite lookup_app_l by (change (Z.to_nat 0) with O; lia). exact Hempty.
  - unfold ta_get, kUnknownBlock in *. rewrite decide_True in * by lia.
    rewrite lookup_app_l by (change (Z.to_nat 1) with 1%nat; lia).
    exact Hunknown.
Qed.

Lemma Registry_addBlockMesh_ok g mesh solid :
  BlockRegistry_ok g → BlockRegistry_ok (fst (Registry_addBlockMesh g mesh solid)).
Proof.
  intros (Htwo & Hfaces & Hsolid & Hmeshes & Hrange & Hids & Hempty & Hunknown).
  unfold BlockRegistry_ok, Registry_isSolid, Registry_addBlockMesh in *.
  cbn [fst breg_tables breg_faces breg_meshes breg_materials breg_ids
       reg_opaque reg_solid].
  rewrite !length_app, length_replicate. cbn [length].
  split_and!; try lia.
  - apply Forall_app. split; [exact Hrange|].
    apply Forall_replicate. unfold kNoMaterial. lia.
  - exact Hids.
  - unfold ta_get, kEmptyBlock in *. rewrite decide_True in * by lia.
    rewrite lookup_app_l by (change (Z.to_nat 0) with O; lia). exact Hempty.
  - unfold ta_get, kUnknownBlock in *. rewrite decide_True in * by lia.
    rewrite lookup_app_l by (change (Z.to_nat 1) with 1%nat; lia).
    exact Hunknown.
Qed.

Lemma Registry_addMaterialHelper_ok g name color liquid texture g' :
  BlockRegistry_ok g →
  Registry_addMaterialHelper g name color liquid texture = Some g' →
  BlockRegistry_ok g'.
Proof.
  intros (Htwo & Hfaces & Hsolid & Hmeshes & Hrange & Hids & Hempty & Hunknown).
  unfold Registry_addMaterialHelper. intros Hrun.
  apply bind_Some in Hrun as (? & _ & Hrun).
  apply bind_Some in Hrun as (? & _ & Hrun). injection Hrun as <-.
  unfold BlockRegistry_ok.
  cbn [breg_tables breg_faces breg_meshes breg_materials breg_ids].
  rewrite length_app. cbn [length].
  split_and!; try assumption.
  - eapply Forall_impl; [exact Hrange|]. intros m Hm. cbn beta in *. lia.
  - intros other id Hid. apply lookup_insert_Some in Hid as [[_ <-]|[_ Hid]];
      [lia|]. specialize (Hids _ _ Hid). lia.
Qed.

Lemma Registry_call_ok g k g' :
  BlockRegistry_ok g → Registry_call g k = Some g' → BlockRegistry_ok g'.
Proof.
  intros Hg. destruct k as [name color liquid|name texture color liquid
                           |xs solid|mesh solid]; cbn [Registry_call].
  - apply Registry_addMaterialHelper_ok, Hg.
  - apply Registry_addMaterialHelper_ok, Hg.
  - destruct (Registry_addBlock g xs solid) as [g1 [e|id]] eqn:Hadd;
      [discriminate|].
    intros Hrun. injection Hrun as <-. eapply Registry_addBlock_ok; eassumption.
  - intros Hrun. injection Hrun as <-. apply Registry_addBlockMesh_ok, Hg.
Qed.

(** X12.  A registry set up by calls that all returned -- materials and
    blocks added in any order -- keeps its tables aligned: six faces, one
    mesh slot and one solidity per block; the empty block is not solid and
    the unknown block is; and every face of every block reads
    [kNoMaterial] or a material that [getMaterialData] accepts. *)
Theorem Registry_run_keeps_tables (calls : list RegistryCall)
    (g : BlockRegistry) :
  Registry_run calls = Some g →
  BlockRegistry_ok g
  ∧ ∀ b face, 0 ≤ b < Z.of_nat (length (reg_opaque (breg_tables g))) →
      0 ≤ face < 6 →
      ∃ m, Registry_getBlockFaceMaterial g b face = Some m
        ∧ (m = kNoMaterial ∨ is_Some (Registry_getMaterialData g m)).
Proof.
  intros Hrun.
  assert (Hok : BlockRegistry_ok g).
  { revert Hrun. unfold Registry_run.
    apply (foldl_option_inv BlockRegistry_ok
             (λ g k, g ← g; Registry_call g k)).
    - intros st k g1 Hst Hstep. destruct st as [g0|]; [|discriminate Hstep].
      cbn [mbind option_bind] in Hstep.
      eapply Registry_call_ok; [|exact Hstep]. apply Hst. reflexivity.
    - intros g0 Hg0. injection Hg0 as <-. apply BlockRegistry_new_ok. }
  split; [exact Hok|]. intros b face Hb Hface.
  destruct Hok as (_ & Hfaces & _ & _ & Hrange & _).
  unfold Registry_getBlockFaceMaterial. rewrite decide_True by lia.
  destruct (lookup_lt_is_Some_2 (breg_faces g) (Z.to_nat (b * 6 + face)))
    as [m Hm]; [lia|].
  exists m. split; [exact Hm|].
  rewrite Forall_forall in Hrange.
  specialize (Hrange m (list_elem_of_lookup_2 _ _ _ Hm)).
  destruct (decide (m = 0)) as [->|Hne]; [left; reflexivity|right].
  replace m with ((m - 1) + 1) by lia.
  apply Registry_getMaterialData_Some. lia.
Qed.

Lemma Registry_run_keeps_tables_witness :
  BlockRegistry_ok example_blocks
  ∧ ∀ b face,
      0 ≤ b < Z.of_nat (length (reg_opaque (breg_tables example_blocks))) →
      0 ≤ face < 6 →
      ∃ m, Registry_getBlockFaceMaterial example_blocks b face = Some m
        ∧ (m = kNoMaterial
           ∨ is_Some (Registry_getMaterialData example_blocks m)).
Proof.
  apply (Registry_run_keeps_tables
           [CallAddMaterialOfColor "stone" (1, 1, 1, 1)%Q false;
            CallAddMaterialOfColor "glass" (1, 1, 1, 1 # 2)%Q false]).
  vm_compute. reflexivity.
Defined.

(** X13.  [addMaterialOfColor] and [addMaterialOfTexture] refuse the empty
    name and a name that is taken.  Otherwise the material is registered
    under the next index: its name maps to it, [getMaterialData] returns
    it with [textureIndex = 0], the other names and materials read as
    before, and the tables of the blocks are untouched. *)
Theorem Registry_addMaterial_get (g : BlockRegistry) (name : string)
    (color : Color) (liquid : bool) (texture : option Texture) :
  (name = EmptyString ∨ is_Some (breg_ids g !! name) →
   Registry_addMaterialHelper g name color liquid texture = None)
  ∧ (name ≠ EmptyString → breg_ids g !! name = None →
     ∃ g', Registry_addMaterialHelper g name color liquid texture = Some g'
       ∧ breg_ids g' !! name = Some (Z.of_nat (length (breg_materials g)))
       ∧ Registry_getMaterialData g' (Z.of_nat (length (breg_materials g)) + 1)
         = Some (mkMaterial color liquid texture 0)
       ∧ (∀ other, other ≠ name →
            breg_ids g' !! other = breg_ids g !! other)
       ∧ (∀ id data, Registry_getMaterialData g id = Some data →
            Registry_getMaterialData g' id = Some data)
       ∧ breg_tables g' = breg_tables g ∧ breg_faces g' = breg_faces g
       ∧ breg_meshes g' = breg_meshes g).
Proof.
  unfold Registry_addMaterialHelper, assert. split.
  - intros [->|[id Hid]].
    + destruct (decide (0 < String.length EmptyString)%nat) as [H|_];
        [inversion H|reflexivity].
    + destruct (decide (0 < String.length name)%nat); [|reflexivity].
      cbn [mbind option_bind]. rewrite decide_False; [reflexivity|].
      rewrite Hid. discriminate.
  - intros Hname Hfree.
    destruct (decide (0 < String.length name)%nat) as [_|Hlen].
    2:{ exfalso. apply Hlen. destruct name; [congruence|apply Nat.lt_0_succ]. }
    cbn [mbind option_bind]. rewrite decide_True by exact Hfree.
    cbn [mbind option_bind]. eexists. split; [reflexivity|].
    cbn [breg_tables breg_faces breg_meshes breg_materials breg_ids].
    split; [apply lookup_insert_eq|]. split; [|split; [|split]].
    + unfold Registry_getMaterialData, assert. cbn [breg_materials].
      rewrite length_app. cbn [length]. rewrite decide_True by lia.
      cbn [mbind option_bind]. rewrite lookup_app_r by lia.
      replace (Z.to_nat (Z.of_nat (length (breg_materials g)) + 1 - 1)
               - length (breg_materials g))%nat with O by lia.
      reflexivity.
    + intros other Hother. apply lookup_insert_ne. congruence.
    + intros id data. unfold Registry_getMaterialData, assert.
      cbn [breg_materials]. rewrite length_app. cbn [length].
      case_decide as Hid; [|discriminate]. cbn [mbind option_bind].
      intros Hdata. rewrite decide_True by lia. cbn [mbind option_bind].
      rewrite lookup_app_l by (eapply lookup_lt_Some, Hdata). exact Hdata.
    + repeat split.
Qed.

(* ===================================================================== *)
(** * The meter *)
(* ===================================================================== *)

Lemma sum_ticks_app a b : sum_ticks (a ++ b) = sum_ticks a + sum_ticks b.
Proof.
  induction a as [|x a IH]; [reflexivity|].
  cbn [app sum_ticks foldr] in *. fold (sum_ticks (a ++ b)) (sum_ticks a).
  rewrite IH. lia.
Qed.

Lemma sum_ticks_set ticks (i : nat) tick old :
  ticks !! i = Some old →
  sum_ticks (<[i := tick]> ticks) = sum_ticks ticks + (tick - old).
Proof.
  intros Hi. pose proof (lookup_lt_Some _ _ _ Hi) as Hlt.
  rewrite <- (take_drop_middle _ _ _ Hi).
  rewrite insert_app_r_alt by (rewrite length_take; lia).
  rewrite length_take, Nat.min_l, Nat.sub_diag by lia.
  cbn [insert list_insert]. rewrite !sum_ticks_app.
  cbn [sum_ticks foldr]. lia.
Qed.

Lemma sum_ticks_replicate n : sum_ticks (replicate n 0) = 0.
Proof. induction n as [|n IH]; [reflexivity|exact IH]. Qed.

Lemma Performance_end_inv samples p tick :
  0 < samples →
  Z.of_nat (length (perf_ticks p)) = samples ∧ 0 ≤ perf_index p < samples
  ∧ perf_sum p = sum_ticks (perf_ticks p) →
  let p' := Performance_end p tick in
  Z.of_nat (length (perf_ticks p')) = samples ∧ 0 ≤ perf_index p' < samples
  ∧ perf_sum p' = sum_ticks (perf_ticks p')
  ∧ perf_index p' = (perf_index p + 1) mod samples
  ∧ ∀ i, 0 ≤ i < samples →
      ta_get 0 (perf_ticks p') i
      = if decide (i = perf_index p) then tick else ta_get 0 (perf_ticks p) i.
Proof.
  intros Hsamples (Hlen & Hindex & Hsum) p'. unfold p', Performance_end.
  cbn [perf_index perf_ticks perf_sum]. rewrite length_ta_set, Hlen.
  split; [reflexivity|].
  destruct (lookup_lt_is_Some_2 (perf_ticks p) (Z.to_nat (perf_index p)))
    as [old Hold]; [lia|].
  split; [case_decide; lia|]. split; [|split].
  - unfold ta_set, ta_get. rewrite !decide_True by lia.
    rewrite (sum_ticks_set _ _ _ old Hold), Hold. cbn. lia.
  - case_decide as Hnext.
    + rewrite Z.mod_small by lia. reflexivity.
    + replace (perf_index p + 1) with samples by lia.
      rewrite Z.mod_same by lia. reflexivity.
  - intros i Hi. destruct (decide (i = perf_index p)) as [->|Hne].
    + apply ta_get_set_eq. lia.
    + apply ta_get_set_ne. congruence.
Qed.

(** X14.  The meter after any number of readings: the ring keeps its
    [samples] slots, [index] is the number of readings modulo [samples],
    [sum] is the sum of the slots, so that [mean()] is their average, and
    the slots hold the last [samples] readings, each at its number modulo
    [samples] (slots not yet written hold 0). *)
Theorem Performance_ring (samples : Z) (p0 : Performance) (ticks : list Z) :
  Performance_new samples = Some p0 →
  let p := foldl Performance_end p0 ticks in
  let n := Z.of_nat (length ticks) in
  Z.of_nat (length (perf_ticks p)) = samples
  ∧ Performance_frame p = n mod samples
  ∧ perf_sum p = sum_ticks (perf_ticks p)
  ∧ ∀ k, 0 ≤ k < n → n - samples ≤ k →
      ta_get 0 (perf_ticks p) (k mod samples)
      = default 0 (ticks !! Z.to_nat k).
Proof.
  unfold Performance_new, assert. case_decide as Hsamples; [|discriminate].
  cbn [mbind option_bind]. intros Hp0. injection Hp0 as <-.
  induction ticks as [|tick ticks IH] using rev_ind.
  - cbn [foldl length perf_ticks perf_index perf_sum Performance_frame].
    rewrite length_replicate, sum_ticks_replicate, Z.mod_0_l by lia.
    split; [lia|]. split; [reflexivity|]. split; [reflexivity|].
    intros k Hk. lia.
  - rewrite foldl_app, length_app. cbn [foldl length].
    set (p := foldl Performance_end _ ticks) in *.
    destruct IH as (Hlen & Hframe & Hsum & Hring).
    unfold Performance_frame in *.
    assert (Hindex : 0 ≤ perf_index p < samples).
    { rewrite Hframe. apply Z.mod_pos_bound. lia. }
    destruct (Performance_end_inv samples p tick Hsamples
                (conj Hlen (conj Hindex Hsum)))
      as (Hlen' & Hindex' & Hsum' & Hnext & Hslots).
    split; [exact Hlen'|]. split; [|split; [exact Hsum'|]].
    + rewrite Hnext, Hframe, Nat2Z.inj_add, Zplus_mod_idemp_l. reflexivity.
    + intros k Hk Hlate. rewrite Nat2Z.inj_add in Hk, Hlate.
      rewrite Hslots by (apply Z.mod_pos_bound; lia).
      destruct (decide (k = Z.of_nat (length ticks))) as [->|Hne].
      * rewrite decide_True by (symmetry; exact Hframe).
        rewrite Nat2Z.id, lookup_app_r, Nat.sub_diag by lia. reflexivity.
      * rewrite decide_False.
        -- rewrite Hring by lia. rewrite lookup_app_l by lia. reflexivity.
        -- rewrite Hframe. intros Heq.
           assert (Hdiff : (Z.of_nat (length ticks) - k) mod samples = 0).
           { rewrite Zminus_mod, Heq, Z.sub_diag. apply Z.mod_0_l. lia. }
           apply Z.mod_divide in Hdiff as [q Hq]; [|lia].
           change (Z.of_nat 1) with 1 in *.
           destruct (decide (q ≤ 0)); nia.
Qed.

Lemma Performance_ring_witness :
  let p0 := {| perf_index := 0; perf_ticks := replicate (Z.to_nat 3) 0;
               perf_sum := 0 |} in
  let p := foldl Performance_end p0 [16; 17; 15; 40; 16] in
  let n := Z.of_nat (length [16; 17; 15; 40; 16]) in
  Z.of_nat (length (perf_ticks p)) = 3
  ∧ Performance_frame p = n mod 3
  ∧ perf_sum p = sum_ticks (perf_ticks p)
  ∧ ∀ k, 0 ≤ k < n → n - 3 ≤ k →
      ta_get 0 (perf_ticks p) (k mod 3)
      = default 0 ([16; 17; 15; 40; 16] !! Z.to_nat k).
Proof.
  apply (Performance_ring 3). reflexivity.
Defined.

(* ===================================================================== *)
(** * Equi-levels *)
(* ===================================================================== *)

(** ** The voxels that [fillChunk] writes *)

Lemma Chunk_setColumn_voxel r c x z start count block x' y z' :
  Chunk_wf c → 0 ≤ start → 0 ≤ count → start + count ≤ kWorldHeight →
  0 ≤ x' < 16 → 0 ≤ z' < 16 → 0 ≤ y < kWorldHeight →
  Tensor3_get (chunk_voxels (Chunk_setColumn r c x z start count block)) x' y z'
  = if decide (x' = js_and x 15 ∧ z' = js_and z 15 ∧ start ≤ y < start + count)
    then block else Tensor3_get (chunk_voxels c) x' y z'.
Proof.
  intros Hwf Hstart Hcount Hend Hx' Hz' Hy. unfold kWorldHeight in *.
  pose proof (js_and_15_range x) as Hxm. pose proof (js_and_15_range z) as Hzm.
  unfold Chunk_setColumn. rewrite Chunk_updateHeightmap_voxels.
  rewrite kChunkMask_eq, Chunk_wf_index by exact Hwf.
  apply Tensor3_get_fill; assumption.
Qed.

Lemma fill_runs_voxels r x z runs : ∀ c start stop,
  Chunk_wf c → 0 ≤ start → runs_ok start runs stop →
  let c' := fst (foldl (fill_run r x z) (c, start) runs) in
  Chunk_wf c'
  ∧ ∀ x' y z', 0 ≤ x' < 16 → 0 ≤ z' < 16 → 0 ≤ y < kWorldHeight →
      Tensor3_get (chunk_voxels c') x' y z'
      = if decide (x' = js_and x 15 ∧ z' = js_and z 15 ∧ start ≤ y < stop)
        then block_at runs y else Tensor3_get (chunk_voxels c) x' y z'.
Proof.
  induction runs as [|[block level] runs IH]; intros c start stop Hwf Hstart Hruns.
  - cbn in Hruns. subst stop. cbn [foldl fst]. split; [exact Hwf|].
    intros x' y z' _ _ _. rewrite decide_False by lia. reflexivity.
  - destruct Hruns as [Hrun Hrest]. cbn [fst snd] in Hrun, Hrest.
    cbn [foldl fill_run].
    set (c1 := Chunk_setColumn r c x z start (level - start) block).
    assert (Hwf1 : Chunk_wf c1) by apply Chunk_wf_setColumn, Hwf.
    destruct (IH c1 level stop Hwf1 ltac:(lia) Hrest) as [Hwf' Hvoxels].
    split; [exact Hwf'|]. intros x' y z' Hx' Hz' Hy.
    pose proof (runs_ok_le _ _ _ Hrest) as Hle.
    rewrite Hvoxels by assumption. unfold c1.
    rewrite Chunk_setColumn_voxel by (try assumption; lia).
    cbn [block_at fst snd].
    destruct (decide (x' = js_and x 15 ∧ z' = js_and z 15)) as [[-> ->]|Hne].
    + destruct (decide (y < level)) as [Hlow|Hhigh].
      * rewrite decide_False by lia.
        destruct (decide (start ≤ y)) as [Hin|Hout].
        -- rewrite !decide_True by lia. reflexivity.
        -- rewrite !decide_False by lia. reflexivity.
      * destruct (decide (y < stop)) as [Hin|Hout].
        -- rewrite !decide_True by lia. reflexivity.
        -- rewrite !decide_False by lia. reflexivity.
    + rewrite !decide_False by tauto. reflexivity.
Qed.

Lemma fill_decorations_voxels r x z decs : ∀ c,
  Chunk_wf c → Forall (λ d : Z * Z, 0 ≤ snd d < kWorldHeight) decs →
  let c' := foldl (fill_decoration r x z) c decs in
  Chunk_wf c'
  ∧ ∀ x' y z', 0 ≤ x' < 16 → 0 ≤ z' < 16 → 0 ≤ y < kWorldHeight →
      Tensor3_get (chunk_voxels c') x' y z'
      = if decide (x' = js_and x 15 ∧ z' = js_and z 15)
        then decorated decs y (Tensor3_get (chunk_voxels c) x' y z')
        else Tensor3_get (chunk_voxels c) x' y z'.
Proof.
  induction decs as [|[block level] decs IH]; intros c Hwf Hdecs.
  - cbn [foldl]. split; [exact Hwf|]. intros x' y z' _ _ _.
    case_decide; reflexivity.
  - apply Forall_cons in Hdecs as [Hd Hdecs]. cbn [snd] in Hd.
    cbn [foldl fill_decoration].
    set (c1 := Chunk_setColumn r c x z level 1 block).
    assert (Hwf1 : Chunk_wf c1) by apply Chunk_wf_setColumn, Hwf.
    destruct (IH c1 Hwf1 Hdecs) as [Hwf' Hvoxels].
    split; [exact Hwf'|]. intros x' y z' Hx' Hz' Hy.
    rewrite Hvoxels by assumption. unfold c1.
    rewrite Chunk_setColumn_voxel by (try assumption; lia).
    unfold decorated. cbn [foldl fst snd].
    destruct (decide (x' = js_and x 15 ∧ z' = js_and z 15)) as [[-> ->]|Hne].
    + destruct (decide (level = y)) as [->|Hother].
      * rewrite decide_True by lia. reflexivity.
      * rewrite decide_False by lia. reflexivity.
    + rewrite decide_False by tauto. reflexivity.
Qed.

(** ** The counters, modulo [2 ^ 16] *)

Lemma int16_cong v : ∃ q, int16 v = v + q * 2 ^ 16.
Proof.
  unfold int16. exists (- ((v + 2 ^ 15) `div` 2 ^ 16)).
  rewrite (Z.mod_eq (v + 2 ^ 15)) by lia. lia.
Qed.

Lemma mismatch_sum_add m i d y :
  Z.of_nat (length m) = kWorldHeight → 0 ≤ i < kWorldHeight →
  0 ≤ y < kWorldHeight →
  ∃ q, mismatch_sum (mismatch_add m i d) y
       = mismatch_sum m y + (if decide (i ≤ y) then d else 0) + q * 2 ^ 16.
Proof.
  unfold kWorldHeight. intros Hlen Hi Hy. unfold mismatch_sum, mismatch_add.
  destruct (int16_cong (ta_get 0 m i + d)) as [q Hq]. rewrite Hq.
  unfold ta_set, ta_get. rewrite !decide_True by lia.
  destruct (lookup_lt_is_Some_2 m (Z.to_nat i)) as [old Hold]; [lia|].
  rewrite Hold. cbn [default from_option].
  destruct (decide (i ≤ y)) as [Hle|Hgt].
  - exists q. rewrite take_insert_lt by lia.
    rewrite (sum_ticks_set _ _ _ old) by (rewrite lookup_take_lt by lia; exact Hold).
    unfold id. lia.
  - exists 0. rewrite take_insert_ge by lia. lia.
Qed.

Lemma count_decoration_sum m (dec : Z * Z) y :
  Z.of_nat (length m) = kWorldHeight → 0 ≤ snd dec < kWorldHeight →
  0 ≤ y < kWorldHeight →
  ∃ q, mismatch_sum (count_decoration m dec) y
       = mismatch_sum m y + (if decide (snd dec = y) then 1 else 0) + q * 2 ^ 16.
Proof.
  intros Hlen Hd Hy. unfold count_decoration. cbv zeta.
  destruct (mismatch_sum_add m (snd dec) 1 y Hlen Hd Hy) as [q1 H1].
  destruct (decide (snd dec + 1 < kWorldHeight)) as [Hnext|Hnext].
  - assert (Hlen1 : Z.of_nat (length (mismatch_add m (snd dec) 1)) = kWorldHeight).
    { unfold mismatch_add. rewrite length_ta_set. exact Hlen. }
    destruct (mismatch_sum_add _ (snd dec + 1) (-1) y Hlen1 ltac:(lia) Hy)
      as [q2 H2].
    exists (q1 + q2). rewrite H2, H1. repeat case_decide; lia.
  - exists q1. rewrite H1. unfold kWorldHeight in *. repeat case_decide; lia.
Qed.

Lemma count_level_cons (d : Z * Z) decs y :
  count_level (d :: decs) y
  = (if decide (snd d = y) then 1 else 0) + count_level decs y.
Proof.
  unfold count_level. rewrite filter_cons.
  case_decide; cbn [length]; lia.
Qed.

Lemma count_level_nonneg decs y : 0 ≤ count_level decs y.
Proof. unfold count_level. lia. Qed.

Lemma count_decorations_sum decs : ∀ m y,
  Z.of_nat (length m) = kWorldHeight →
  Forall (λ d : Z * Z, 0 ≤ snd d < kWorldHeight) decs →
  0 ≤ y < kWorldHeight →
  ∃ q, mismatch_sum (foldl count_decoration m decs) y
       = mismatch_sum m y + count_level decs y + q * 2 ^ 16.
Proof.
  induction decs as [|d decs IH]; intros m y Hlen Hdecs Hy.
  - exists 0. cbn [foldl]. unfold count_level. cbn. lia.
  - apply Forall_cons in Hdecs as [Hd Hdecs]. cbn [foldl].
    destruct (count_decoration_sum m d y Hlen Hd Hy) as [q1 H1].
    destruct (IH (count_decoration m d) y) as [q2 H2];
      [rewrite count_decoration_length; exact Hlen|exact Hdecs|exact Hy|].
    exists (q1 + q2). rewrite H2, H1, count_level_cons. lia.
Qed.

Lemma decorated_none decs y base :
  count_level decs y = 0 → decorated decs y base = base.
Proof.
  unfold decorated. revert base.
  induction decs as [|d decs IH]; intros base Hnone; [reflexivity|].
  rewrite count_level_cons in Hnone. pose proof (count_level_nonneg decs y).
  cbn [foldl]. case_decide; [lia|]. apply IH. lia.
Qed.

(** ** The walk counts the heights where column and reference differ *)

Lemma drop_runs_cons (data : list (Z * Z)) (size i : Z) :
  0 ≤ i < size →
  drop (Z.to_nat i) ((λ i, ta_get (0, 0) data i) <$> seqZ 0 size)
  = ta_get (0, 0) data i
    :: drop (Z.to_nat (i + 1)) ((λ i, ta_get (0, 0) data i) <$> seqZ 0 size).
Proof.
  intros Hi. rewrite (drop_S _ (ta_get (0, 0) data i)) by (apply runs_lookup; lia).
  do 2 f_equal. lia.
Qed.

Lemma walk_step_sums c m0 w :
  walk_sums c m0 w → w_di w < col_size c → w_ri w < col_reference_size c →
  walk_sums c m0 (walk_step c w).
Proof.
  intros (Hinv & Hover_d & Hover_r & Hblock_d & Hblock_r & Hsums) Hdlt Hrlt.
  pose proof (walk_step_inv c w Hinv Hdlt Hrlt) as [Hinv' _].
  destruct Hinv as (Hdi & Hri & Hd0 & Hr0 & Hd & Hr & Htop & Hlen).
  pose proof (drop_runs_cons (col_data c) (col_size c) (w_di w) ltac:(lia))
    as Hdcons.
  pose proof (drop_runs_cons (col_reference_data c) (col_reference_size c)
                (w_ri w) ltac:(lia)) as Hrcons.
  fold (Column_runs c) in Hdcons. fold (Column_ref_runs c) in Hrcons.
  unfold walk_step in *.
  destruct (ta_get (0, 0) (col_data c) (w_di w)) as [d_block d_limit].
  destruct (ta_get (0, 0) (col_reference_data c) (w_ri w)) as [r_block r_limit].
  rewrite Hdcons in Hd, Hover_d, Hblock_d.
  rewrite Hrcons in Hr, Hover_r, Hblock_r.
  destruct Hd as [Hdrun Hdrest]. destruct Hr as [Hrrun Hrrest].
  specialize (Hover_d _ eq_refl). specialize (Hover_r _ eq_refl).
  cbn [fst snd block_at] in *.
  set (pos := Z.max (w_d_start w) (w_r_start w)) in *.
  set (flip := negb (eqb (w_matched w) (bool_decide (d_block = r_block)))) in *.
  set (matched' := if flip then negb (w_matched w) else w_matched w) in *.
  set (m' := if flip
             then mismatch_add (w_mismatches w) pos
                    (if w_matched w then 1 else -1)
             else w_mismatches w) in *.
  assert (Hmatched : matched' = bool_decide (d_block = r_block)).
  { unfold matched', flip.
    destruct (w_matched w), (bool_decide (d_block = r_block)); reflexivity. }
  assert (Hpos : 0 ≤ pos < kWorldHeight) by (unfold pos; lia).
  assert (Hm' : ∀ y, 0 ≤ y < kWorldHeight →
    ∃ q, mismatch_sum m' y
         = mismatch_sum (w_mismatches w) y
           + (if decide (pos ≤ y)
              then indicator (matched' = false) - indicator (w_matched w = false)
              else 0)
           + q * 2 ^ 16).
  { intros y Hy. unfold m', matched'. destruct flip.
    - destruct (mismatch_sum_add (w_mismatches w) pos
                  (if w_matched w then 1 else -1) y Hlen Hpos Hy) as [q Hq].
      exists q. rewrite Hq. unfold indicator.
      destruct (w_matched w); cbn [negb]; repeat case_decide;
        try discriminate; try congruence; lia.
    - exists 0. destruct (decide (pos ≤ y)); [rewrite Z.sub_diag|]; ring. }
  clearbody m' matched' flip. subst matched'.
  split; [exact Hinv'|]. clear Hinv'.
  assert (Hnext_d : ∀ run,
    drop (Z.to_nat (w_di w + 1)) (Column_runs c) !! O = Some run →
    d_limit < snd run).
  { intros run Hrun. destruct (drop _ (Column_runs c)) as [|run' rest];
      [discriminate Hrun|]. injection Hrun as ->. apply Hdrest. }
  assert (Hnext_r : ∀ run,
    drop (Z.to_nat (w_ri w + 1)) (Column_ref_runs c) !! O = Some run →
    r_limit < snd run).
  { intros run Hrun. destruct (drop _ (Column_ref_runs c)) as [|run' rest];
      [discriminate Hrun|]. injection Hrun as ->. apply Hrrest. }
  assert (Hsum' : ∀ pos', pos ≤ pos' → pos' ≤ d_limit → pos' ≤ r_limit →
    ∀ y, 0 ≤ y < kWorldHeight →
    ∃ q, mismatch_sum m' y
         = mismatch_sum m0 y
           + (if decide (y < pos')
              then indicator (block_at (Column_runs c) y
                              ≠ block_at (Column_ref_runs c) y)
              else indicator (bool_decide (d_block = r_block) = false))
           + q * 2 ^ 16).
  { intros pos' Hle Hled Hler y Hy.
    destruct (Hm' y Hy) as [q1 H1]. destruct (Hsums y Hy) as [q2 H2].
    exists (q1 + q2). rewrite H1, H2.
    destruct (decide (y < pos)) as [Hbelow|Habove].
    - rewrite decide_False by lia. rewrite decide_True by lia. lia.
    - rewrite decide_True by lia.
      destruct (decide (y < pos')) as [Hin|Hout]; [|lia].
      rewrite Hblock_d, Hblock_r by (unfold pos in *; lia).
      rewrite !decide_True by lia.
      unfold indicator.
      destruct (decide (d_block = r_block)) as [Heq|Hne].
      + rewrite bool_decide_eq_true_2 by exact Heq.
        rewrite (decide_False (P := true = false)) by discriminate.
        rewrite (decide_False (P := d_block ≠ r_block)) by tauto. lia.
      + rewrite bool_decide_eq_false_2 by exact Hne.
        rewrite (decide_True (P := false = false)) by reflexivity.
        rewrite (decide_True (P := d_block ≠ r_block)) by exact Hne. lia. }
  cbn [w_mismatches w_matched w_di w_ri w_d_start w_r_start].
  destruct (bool_decide (d_limit ≤ r_limit)) eqn:Hdadv;
    destruct (bool_decide (r_limit ≤ d_limit)) eqn:Hradv.
  - apply bool_decide_eq_true in Hdadv. apply bool_decide_eq_true in Hradv.
    assert (d_limit = r_limit) as Heq by lia. subst r_limit.
    split_and!.
    + intros run Hrun. exact (Hnext_d _ Hrun).
    + intros run Hrun. exact (Hnext_r _ Hrun).
    + intros y Hy. rewrite Hblock_d by lia. rewrite decide_False by lia.
      reflexivity.
    + intros y Hy. rewrite Hblock_r by lia. rewrite decide_False by lia.
      reflexivity.
    + rewrite Z.max_id. apply Hsum'; unfold pos; lia.
  - apply bool_decide_eq_true in Hdadv. apply bool_decide_eq_false in Hradv.
    split_and!.
    + intros run Hrun. specialize (Hnext_d _ Hrun). lia.
    + intros run Hrun. rewrite Hrcons in Hrun. injection Hrun as <-.
      cbn [snd]. lia.
    + intros y Hy. rewrite Hblock_d by lia. rewrite decide_False by lia.
      reflexivity.
    + intros y Hy. rewrite Hrcons. cbn [block_at fst snd]. apply Hblock_r, Hy.
    + replace (Z.max d_limit (w_r_start w)) with d_limit by lia.
      apply Hsum'; unfold pos; lia.
  - apply bool_decide_eq_false in Hdadv. apply bool_decide_eq_true in Hradv.
    split_and!.
    + intros run Hrun. rewrite Hdcons in Hrun. injection Hrun as <-.
      cbn [snd]. lia.
    + intros run Hrun. specialize (Hnext_r _ Hrun). lia.
    + intros y Hy. rewrite Hdcons. cbn [block_at fst snd]. apply Hblock_d, Hy.
    + intros y Hy. rewrite Hblock_r by lia. rewrite decide_False by lia.
      reflexivity.
    + replace (Z.max (w_d_start w) r_limit) with r_limit by lia.
      apply Hsum'; unfold pos; lia.
  - apply bool_decide_eq_false in Hdadv. apply bool_decide_eq_false in Hradv.
    lia.
Qed.

Lemma walk_loop_sums c m0 fuel : ∀ w,
  walk_sums c m0 w → walk_sums c m0 (walk_loop fuel c w).
Proof.
  induction fuel as [|fuel IH]; intros w Hw; cbn [walk_loop]; [exact Hw|].
  case_decide as Hgo; [|exact Hw]. destruct Hgo as [Hdlt Hrlt].
  apply IH, walk_step_sums; assumption.
Qed.

Lemma block_at_seal runs level y :
  block_at (runs ++ [(kEmptyBlock, level)]) y = block_at runs y.
Proof.
  induction runs as [|run runs IH]; cbn [app block_at fst snd].
  - case_decide; reflexivity.
  - case_decide; [reflexivity|exact IH].
Qed.

Lemma Column_seal_block_at col y :
  Column_ok col →
  block_at (Column_runs (Column_seal col)) y = block_at (Column_runs col) y.
Proof.
  intros (Hl1 & _ & _ & Hsize & Hlast & _). unfold Column_seal.
  case_decide as Hopen; [|reflexivity].
  unfold Column_runs. col_simpl. unfold kWorldHeight in *.
  rewrite runs_snoc by lia.
  change (int16 kEmptyBlock) with kEmptyBlock. apply block_at_seal.
Qed.

Lemma mismatch_sum_zeros n y : mismatch_sum (replicate n 0) y = 0.
Proof.
  unfold mismatch_sum. rewrite take_replicate. apply sum_ticks_replicate.
Qed.

(** What [detectEquiLevelChanges] adds to the counters. *)
Lemma Column_detectEquiLevelChanges_sums first col col' :
  Column_ok col → (first = false → Column_ref_ok col) →
  Column_detectEquiLevelChanges first col = Some col' →
  (∀ y, block_at (Column_ref_runs col') y
        = if first then block_at (Column_runs col) y
          else block_at (Column_ref_runs col) y)
  ∧ ∀ y, 0 ≤ y < kWorldHeight →
      ∃ q, mismatch_sum (col_mismatches col') y
           = (if first then 0
              else mismatch_sum (col_mismatches col) y
                   + indicator (block_at (Column_runs col) y
                                ≠ block_at (Column_ref_runs col) y))
             + count_level (col_decorations col) y + q * 2 ^ 16.
Proof.
  intros Hok Href. pose proof (Column_seal_sealed col Hok) as Hsealed.
  pose proof (λ y, Column_seal_block_at col y Hok) as Hblocks.
  assert (Hsame : col_reference_data (Column_seal col) = col_reference_data col
    ∧ col_reference_size (Column_seal col) = col_reference_size col
    ∧ col_decorations (Column_seal col) = col_decorations col
    ∧ col_mismatches (Column_seal col) = col_mismatches col).
  { unfold Column_seal. case_decide; repeat split. }
  destruct Hsame as (Hrd & Hrs & Hdecs & Hmis).
  unfold Column_detectEquiLevelChanges.
  set (c := Column_seal col) in *.
  destruct Hsealed as (Hl1 & Hl2 & Hl3 & Hsize & Hruns & Hdec).
  destruct first.
  - intros Hrun. injection Hrun as <-. split.
    + intros y. rewrite <- Hblocks. unfold Column_ref_runs. col_simpl.
      f_equal. unfold Column_runs.
      apply Forall_fmap_ext, Forall_forall. intros i Hi%elem_of_seqZ.
      unfold ta_get. case_decide; [|reflexivity].
      unfold kWorldHeight in *.
      rewrite lookup_app_l by (rewrite length_take; lia).
      rewrite lookup_take_lt by lia. reflexivity.
    + intros y Hy. col_simpl.
      destruct (count_decorations_sum (col_decorations c)
                  (replicate (length (col_mismatches c)) 0) y) as [q Hq];
        [rewrite length_replicate; exact Hl2|exact Hdec|exact Hy|].
      exists q. rewrite Hq, mismatch_sum_zeros, Hdecs. lia.
  - destruct (Href eq_refl) as [Hrsize Hrruns].
    set (m1 := foldl count_decoration (col_mismatches c) (col_decorations c)).
    set (w0 := {| w_mismatches := m1; w_matched := true; w_di := 0; w_ri := 0;
                  w_d_start := 0; w_r_start := 0 |}).
    assert (Hlen1 : Z.of_nat (length m1) = kWorldHeight).
    { unfold m1. rewrite count_decorations_length. exact Hl2. }
    assert (Hrefs : Column_ref_runs c = Column_ref_runs col).
    { unfold Column_ref_runs. rewrite Hrd, Hrs. reflexivity. }
    assert (Hinv : walk_inv c w0).
    { unfold walk_inv, w0.
      cbn [w_mismatches w_matched w_di w_ri w_d_start w_r_start].
      change (Z.to_nat 0) with O. rewrite !drop_0, Hrefs, Hrs.
      split_and!; try assumption; try lia; unfold kWorldHeight; lia. }
    assert (Hsums0 : walk_sums c m1 w0).
    { split; [exact Hinv|]. unfold w0.
      cbn [w_mismatches w_matched w_di w_ri w_d_start w_r_start].
      change (Z.to_nat 0) with O. rewrite !drop_0. split_and!.
      - intros run Hrun. destruct (Column_runs c) as [|run' rest];
          [discriminate Hrun|]. injection Hrun as ->. apply Hruns.
      - intros run Hrun. rewrite Hrefs in Hrun.
        destruct (Column_ref_runs col) as [|run' rest];
          [discriminate Hrun|]. injection Hrun as ->. apply Hrruns.
      - reflexivity.
      - reflexivity.
      - intros y Hy. exists 0. rewrite decide_False by lia. unfold indicator.
        rewrite decide_False by discriminate. lia. }
    destruct (walk_loop_spec c (Z.to_nat (col_size c + col_reference_size c)) w0
                Hinv) as (_ & Hdi & Hri & Hds & Hrs').
    { unfold w0. cbn [w_di w_ri]. lia. }
    pose proof (walk_loop_sums c m1
                  (Z.to_nat (col_size c + col_reference_size c)) w0 Hsums0)
      as (_ & _ & _ & _ & _ & Hfinal).
    set (w := walk_loop _ c w0) in *.
    unfold assert. rewrite !decide_True by assumption.
    cbn [mbind option_bind]. intros Hrun. injection Hrun as <-. col_simpl.
    split.
    + intros y. unfold Column_ref_runs. col_simpl. rewrite Hrd, Hrs.
      reflexivity.
    + intros y Hy. destruct (Hfinal y Hy) as [q1 H1].
      rewrite decide_True in H1 by lia.
      destruct (count_decorations_sum (col_decorations c) (col_mismatches c) y
                  Hl2 Hdec Hy) as [q2 H2].
      fold m1 in H2. exists (q1 + q2).
      rewrite H1, H2, Hrefs, Hblocks, Hdecs, Hmis. lia.
Qed.

(** [fillEquilevels] marks the heights at which the running sum is 0. *)
Lemma fillEquilevels_from_lookup m : ∀ current (i : nat),
  (i < length m)%nat →
  fillEquilevels_from current m !! i
  = Some (if decide (current + sum_ticks (take (S i) m) = 0) then 1 else 0).
Proof.
  induction m as [|x m IH]; intros current i Hi; [cbn in Hi; lia|].
  cbn [fillEquilevels_from]. destruct i as [|i].
  - cbn [lookup list_lookup take sum_ticks foldr]. rewrite take_0.
    cbn [foldr]. replace (current + (x + 0)) with (current + x) by lia.
    reflexivity.
  - cbn [lookup list_lookup]. rewrite IH by (cbn in Hi; lia).
    cbn [take sum_ticks foldr]. fold (sum_ticks (take (S i) m)).
    replace (current + x + sum_ticks (take (S i) m))
      with (current + (x + sum_ticks (take (S i) m))) by lia.
    reflexivity.
Qed.

Lemma Column_fillEquilevels_get col equilevels y :
  Column_idle col → 0 ≤ y < kWorldHeight →
  ta_get 0 (Column_fillEquilevels col equilevels) y
  = if decide (mismatch_sum (col_mismatches col) y = 0) then 1 else 0.
Proof.
  intros (_ & _ & _ & _ & Hm & _) Hy.
  unfold Column_fillEquilevels, ta_get. unfold kWorldHeight in *.
  rewrite decide_True by lia.
  rewrite lookup_app_l
    by (rewrite fillEquilevels_from_length, length_take; lia).
  rewrite fillEquilevels_from_lookup by (rewrite length_take; lia).
  cbn [default from_option id]. unfold mismatch_sum.
  rewrite take_take. replace (S (Z.to_nat y) `min` Z.to_nat 256)%nat
    with (Z.to_nat (y + 1)) by lia.
  rewrite Z.add_0_l. reflexivity.
Qed.

(** ** One column of [Chunk.load] *)

Lemma block_at_above runs : ∀ start stop y,
  runs_ok start runs stop → stop ≤ y → block_at runs y = kEmptyBlock.
Proof.
  induction runs as [|run runs IH]; intros start stop y Hruns Hy; [reflexivity|].
  destruct Hruns as [Hrun Hrest]. pose proof (runs_ok_le _ _ _ Hrest).
  cbn [block_at]. rewrite decide_False by lia. exact (IH _ _ _ Hrest Hy).
Qed.

Lemma Column_call_decorations col k :
  col_decorations (Column_call col k)
  = col_decorations col ++ call_decorations [k].
Proof.
  unfold call_decorations. rewrite bind_cons. change (@mbind list _ _ _ ?f []) with (@nil (Z * Z)). cbn [mbind list_bind]. rewrite app_nil_r.
  destruct k as [b h|b y]; cbn [Column_call].
  - unfold Column_push. cbv zeta.
    case_decide; col_simpl; rewrite app_nil_r; reflexivity.
  - unfold Column_overwrite.
    case_decide; col_simpl; [reflexivity|]. rewrite app_nil_r. reflexivity.
Qed.

Lemma Loader_run_decorations loader x z col :
  col_decorations (Loader_run loader x z col)
  = col_decorations col ++ call_decorations (loader x z).
Proof.
  unfold Loader_run. generalize (loader x z). intros calls. revert col.
  induction calls as [|k calls IH]; intros col.
  - cbn [foldl]. unfold call_decorations. rewrite app_nil_r. reflexivity.
  - cbn [foldl]. rewrite IH, Column_call_decorations.
    change (k :: calls) with ([k] ++ calls). unfold call_decorations.
    rewrite bind_app, <- app_assoc. reflexivity.
Qed.

Lemma js_and_chunk x cx : 0 ≤ x < 16 → js_and (x + js_shl cx kChunkBits) 15 = x.
Proof.
  intros Hx. rewrite js_and_15. unfold js_shl, kChunkBits.
  change (4 mod 32) with 4.
  assert (int32 (Z.shiftl (int32 cx) 4) mod 2 ^ 4 = 0) as Hmul.
  { apply int32_multiple; [lia|].
    rewrite Z.shiftl_mul_pow2 by lia. apply Z.mod_mul. lia. }
  change (2 ^ 4) with 16 in Hmul.
  rewrite Z.add_mod by lia. rewrite Hmul, Z.add_0_r, Z.mod_mod by lia.
  apply Z.mod_small. lia.
Qed.

(** What [fillChunk] does to a chunk whose column is still empty, and to
    the counters. *)
Lemma Column_fillChunk_spec r col x z chunk first chunk' col' :
  Column_ok col → (first = false → Column_ref_ok col) → Chunk_wf chunk →
  (∀ y, 0 ≤ y < kWorldHeight →
     Tensor3_get (chunk_voxels chunk) (js_and x 15) y (js_and z 15) = kEmptyBlock) →
  Column_fillChunk r col x z chunk first = Some (chunk', col') →
  Chunk_wf chunk'
  ∧ (∀ x' y z', 0 ≤ x' < 16 → 0 ≤ z' < 16 → 0 ≤ y < kWorldHeight →
       Tensor3_get (chunk_voxels chunk') x' y z'
       = if decide (x' = js_and x 15 ∧ z' = js_and z 15)
         then decorated (col_decorations col) y (block_at (Column_runs col) y)
         else Tensor3_get (chunk_voxels chunk) x' y z')
  ∧ Column_detectEquiLevelChanges first col = Some col'.
Proof.
  intros Hok Href Hwf Hempty. pose proof Hok as (_ & _ & _ & Hsize & Hlast & Hruns & Hdec).
  unfold Column_fillChunk. fold (Column_runs col).
  destruct (fill_runs_voxels r x z (Column_runs col) chunk 0 (col_last col)
              Hwf ltac:(lia) Hruns) as [Hwf1 Hv1].
  destruct (foldl (fill_run r x z) (chunk, 0) (Column_runs col))
    as [chunk1 last] eqn:Hfill.
  cbn [fst] in Hwf1, Hv1.
  destruct (fill_decorations_voxels r x z (col_decorations col) chunk1 Hwf1 Hdec)
    as [Hwf2 Hv2].
  intros Hrun. apply bind_Some in Hrun as (col1 & Hdetect & Hrun).
  injection Hrun as <- <-.
  split; [exact Hwf2|]. split; [|exact Hdetect].
  intros x' y z' Hx' Hz' Hy. rewrite Hv2, Hv1 by assumption.
  destruct (decide (x' = js_and x 15 ∧ z' = js_and z 15)) as [[-> ->]|Hne].
  - f_equal. destruct (decide (y < col_last col)) as [Hin|Hout].
    + rewrite decide_True by lia. reflexivity.
    + rewrite decide_False by lia. rewrite Hempty by assumption.
      symmetry. eapply block_at_above; [exact Hruns|lia].
  - rewrite decide_False by tauto. reflexivity.
Qed.

Lemma decorations_at_snoc loader cx cz cells p y :
  decorations_at loader cx cz (cells ++ [p]) y
  = decorations_at loader cx cz cells y
    + count_level
        (call_decorations
           (loader (fst p + js_shl cx kChunkBits) (snd p + js_shl cz kChunkBits)))
        y.
Proof.
  unfold decorations_at. rewrite fmap_app, sum_ticks_app.
  cbn [fmap list_fmap sum_ticks foldr]. lia.
Qed.

Lemma decorations_at_nonneg loader cx cz cells y :
  0 ≤ decorations_at loader cx cz cells y.
Proof.
  unfold decorations_at. induction cells as [|p cells IH];
    cbn [fmap list_fmap sum_ticks foldr]; [lia|].
  pose proof (count_level_nonneg
    (call_decorations (loader (fst p + js_shl cx kChunkBits)
                         (snd p + js_shl cz kChunkBits))) y).
  unfold sum_ticks in IH. lia.
Qed.

Lemma indicator_range (P : Prop) `{Decision P} : 0 ≤ indicator P ≤ 1.
Proof. unfold indicator. case_decide; lia. Qed.

Lemma indicator_0 (P : Prop) `{Decision P} : indicator P = 0 → ¬ P.
Proof. unfold indicator. case_decide; [discriminate|tauto]. Qed.

Section load_equilevels.
Variables (r : Registry) (loader : Loader) (cx cz : Z).

Local Abbreviation dx := (js_shl cx kChunkBits).
Local Abbreviation dz := (js_shl cz kChunkBits).

(** The first column: it becomes the reference. *)
Lemma load_column_first chunk col :
  Chunk_wf chunk → Column_idle col →
  (∀ x y z, Tensor3_get (chunk_voxels chunk) x y z = kEmptyBlock) →
  ∃ st, load_column r loader dx dz 0 (Some (chunk, col)) 0 = Some st
    ∧ load_inv loader cx cz [(0, 0)] st.
Proof.
  intros Hwf Hidle Hempty. unfold load_column. cbn [mbind option_bind].
  change (bool_decide (0 + 0 = 0)) with true.
  set (col1 := Loader_run loader (0 + dx) (0 + dz) col).
  assert (Hok : Column_ok col1) by apply Loader_run_ok, Column_idle_ok, Hidle.
  assert (Hdecs : col_decorations col1 = call_decorations (loader (0 + dx) (0 + dz))).
  { unfold col1. rewrite Loader_run_decorations.
    destruct Hidle as (-> & _). reflexivity. }
  destruct (Column_fillChunk_Some r (λ _, True) ltac:(intros; exact I) col1
              (0 + dx) (0 + dz) chunk true Hok ltac:(discriminate) I)
    as (chunk' & col' & Hrun & _ & Hsealed & Href').
  rewrite Hrun. cbn [mbind option_bind]. eexists. split; [reflexivity|].
  destruct (Column_fillChunk_spec r col1 _ _ chunk true chunk' col' Hok
              ltac:(discriminate) Hwf ltac:(intros; apply Hempty) Hrun)
    as (Hwf' & Hvoxels & Hdetect).
  destruct (Column_detectEquiLevelChanges_sums true col1 col' Hok
              ltac:(discriminate) Hdetect) as [Hblocks Hsums].
  rewrite !js_and_chunk in Hvoxels by lia.
  unfold load_inv. cbn [fst snd].
  split; [exact Hwf'|]. split; [apply Column_clear_idle, Hsealed|].
  split; [exact Href'|]. split.
  { intros x z Hcell. apply list_elem_of_singleton in Hcell.
    injection Hcell as -> ->. lia. }
  split.
  - intros x y z Hx Hz Hy Hcell. rewrite Hvoxels by assumption.
    rewrite decide_False; [apply Hempty|].
    intros [-> ->]. apply Hcell. apply list_elem_of_singleton. reflexivity.
  - intros y Hy. destruct (Hsums y Hy) as [q Hq].
    exists (count_level (col_decorations col1) y), q.
    split; [cbn [Column_clear col_mismatches]; rewrite Hq; lia|].
    assert (Hone : decorations_at loader cx cz [(0, 0)] y
                   = count_level (col_decorations col1) y).
    { unfold decorations_at. cbn [fmap list_fmap sum_ticks foldr fst snd].
      rewrite <- Hdecs. lia. }
    rewrite Hone. cbn [length].
    split; [lia|]. split; [lia|].
    intros Hnone x z Hcell. apply list_elem_of_singleton in Hcell.
      injection Hcell as -> ->. rewrite Hvoxels by (try assumption; lia).
      rewrite decide_True by (split; reflexivity).
      rewrite decorated_none by exact Hnone.
      symmetry. apply Hblocks.
Qed.

(** Every other column is compared with the reference. *)
Lemma load_column_next cells chunk col x z :
  load_inv loader cx cz cells (chunk, col) →
  0 ≤ x < 16 → 0 ≤ z < 16 → x + z ≠ 0 → (x, z) ∉ cells →
  ∃ st, load_column r loader dx dz x (Some (chunk, col)) z = Some st
    ∧ load_inv loader cx cz (cells ++ [(x, z)]) st.
Proof.
  intros (Hwf & Hidle & Href & Hrange & Hempty & Hcount) Hx Hz Hxz Hcell.
  cbn [fst snd] in *.
  unfold load_column. cbn [mbind option_bind].
  rewrite bool_decide_eq_false_2 by exact Hxz.
  set (col1 := Loader_run loader (x + dx) (z + dz) col).
  assert (Hok : Column_ok col1) by apply Loader_run_ok, Column_idle_ok, Hidle.
  assert (Hdecs : col_decorations col1 = call_decorations (loader (x + dx) (z + dz))).
  { unfold col1. rewrite Loader_run_decorations.
    destruct Hidle as (-> & _). reflexivity. }
  destruct (Loader_run_reference loader (x + dx) (z + dz) col)
    as (Hrd & Hrs & Hmis).
  fold col1 in Hrd, Hrs, Hmis.
  assert (Hrefs : Column_ref_runs col1 = Column_ref_runs col).
  { unfold Column_ref_runs. rewrite Hrd, Hrs. reflexivity. }
  assert (Href1 : Column_ref_ok col1).
  { unfold Column_ref_ok. rewrite Hrefs, Hrs. exact Href. }
  destruct (Column_fillChunk_Some r (λ _, True) ltac:(intros; exact I) col1
              (x + dx) (z + dz) chunk false Hok ltac:(intros; exact Href1) I)
    as (chunk' & col' & Hrun & _ & Hsealed & Href').
  rewrite Hrun. cbn [mbind option_bind]. eexists. split; [reflexivity|].
  destruct (Column_fillChunk_spec r col1 (x + dx) (z + dz) chunk false chunk' col' Hok
              ltac:(intros; exact Href1) Hwf) as (Hwf' & Hvoxels & Hdetect);
    [|exact Hrun|].
  { intros y Hy. rewrite !js_and_chunk by assumption.
    apply Hempty; assumption. }
  destruct (Column_detectEquiLevelChanges_sums false col1 col' Hok
              ltac:(intros; exact Href1) Hdetect) as [Hblocks Hsums].
  rewrite !js_and_chunk in Hvoxels by assumption.
  unfold load_inv. cbn [fst snd].
  split; [exact Hwf'|]. split; [apply Column_clear_idle, Hsealed|].
  split; [exact Href'|]. split.
  { intros x' z' Hin. apply elem_of_app in Hin as [Hin|Hin].
    - exact (Hrange _ _ Hin).
    - apply list_elem_of_singleton in Hin. injection Hin as -> ->. lia. }
  split.
  - intros x' y z' Hx' Hz' Hy Hcell'. rewrite Hvoxels by assumption.
    rewrite decide_False.
    + apply Hempty; try assumption. intros Hin. apply Hcell'.
      apply elem_of_app. left. exact Hin.
    + intros [-> ->]. apply Hcell'. apply elem_of_app. right.
      apply list_elem_of_singleton. reflexivity.
  - intros y Hy. destruct (Hsums y Hy) as [q1 H1].
    destruct (Hcount y Hy) as (T & q2 & H2 & HT1 & HT2 & Hsame).
    set (ind := indicator (block_at (Column_runs col1) y
                           ≠ block_at (Column_ref_runs col1) y)) in *.
    pose proof (indicator_range (block_at (Column_runs col1) y
                                 ≠ block_at (Column_ref_runs col1) y)) as Hind.
    fold ind in Hind.
    pose proof (count_level_nonneg (col_decorations col1) y) as Hnonneg.
    exists (T + ind + count_level (col_decorations col1) y), (q1 + q2).
    split; [cbn [Column_clear col_mismatches]; rewrite H1, Hmis, H2; lia|].
    assert (0 ≤ decorations_at loader cx cz cells y) as Hdecs0
      by apply decorations_at_nonneg.
    rewrite decorations_at_snoc, length_app. cbn [fst snd length].
    rewrite <- Hdecs.
    split; [lia|]. split; [lia|].
    intros Hzero x' z' Hin.
    { assert (T = 0) as HT0 by lia . assert (ind = 0) as Hind0 by lia.
      assert (count_level (col_decorations col1) y = 0) as Hnone by lia.
      apply elem_of_app in Hin as [Hin|Hin].
      * destruct (Hrange _ _ Hin) as [Hx' Hz'].
        rewrite Hvoxels by assumption. rewrite decide_False.
        -- rewrite Hblocks, Hrefs. exact (Hsame HT0 _ _ Hin).
        -- intros [-> ->]. exact (Hcell Hin).
      * apply list_elem_of_singleton in Hin. injection Hin as -> ->.
        rewrite Hvoxels by assumption.
        rewrite decide_True by (split; reflexivity).
        rewrite decorated_none by exact Hnone.
        apply indicator_0 in Hind0.
        rewrite Hblocks.
        destruct (decide (block_at (Column_runs col1) y
                          = block_at (Column_ref_runs col1) y)); tauto. }
Qed.

End load_equilevels.

(** ** The whole loop *)

Lemma foldl_pairs {S} (f : Z → S → Z → S) (zs : list Z) : ∀ (xs : list Z) (st : S),
  foldl (λ st x, foldl (f x) st zs) st xs
  = foldl (λ st p, f (fst p) st (snd p)) st (x ← xs; z ← zs; [(x, z)]).
Proof.
  induction xs as [|x xs IH]; intros st; [reflexivity|].
  cbn [foldl]. rewrite bind_cons, foldl_app, <- IH. f_equal.
  generalize st. clear. induction zs as [|z zs IH]; intros st; [reflexivity|].
  rewrite bind_cons, foldl_app. cbn [foldl fst snd]. exact (IH _).
Qed.

Lemma load_order_cells :
  load_order = (0, 0) :: drop 1 load_order
  ∧ NoDup load_order
  ∧ Forall (λ p, bool_decide (0 ≤ fst p < 16 ∧ 0 ≤ snd p < 16
                              ∧ fst p + snd p ≠ 0) = true)
      (drop 1 load_order).
Proof.
  split; [vm_compute; reflexivity|]. split.
  - apply (bool_decide_unpack _). vm_compute. reflexivity.
  - apply (bool_decide_unpack _). vm_compute. reflexivity.
Qed.

Lemma load_order_all x z : 0 ≤ x < 16 → 0 ≤ z < 16 → (x, z) ∈ load_order.
Proof.
  intros Hx Hz. unfold load_order. apply list_elem_of_bind. exists x.
  split; [|apply elem_of_seqZ; rewrite kChunkWidth_eq; lia].
  apply list_elem_of_bind. exists z.
  split; [apply list_elem_of_singleton; reflexivity|].
  apply elem_of_seqZ. rewrite kChunkWidth_eq. lia.
Qed.

Section load_loop.
Variables (r : Registry) (loader : Loader) (cx cz : Z).

Local Abbreviation step :=
  (λ (st : option (Chunk * Column)) (p : Z * Z),
     load_column r loader (js_shl cx kChunkBits) (js_shl cz kChunkBits)
       (fst p) st (snd p)).

Lemma load_rest rest : ∀ cells st,
  load_inv loader cx cz cells st → NoDup (cells ++ rest) →
  Forall (λ p, bool_decide (0 ≤ fst p < 16 ∧ 0 ≤ snd p < 16
                            ∧ fst p + snd p ≠ 0) = true) rest →
  ∃ st', foldl step (Some st) rest = Some st'
    ∧ load_inv loader cx cz (cells ++ rest) st'.
Proof.
  induction rest as [|[x z] rest IH]; intros cells st Hinv Hnodup Hrest.
  - exists st. rewrite app_nil_r. split; [reflexivity|exact Hinv].
  - apply Forall_cons in Hrest as [Hp Hrest].
    apply bool_decide_eq_true in Hp as (Hx & Hz & Hxz). cbn [fst snd] in *.
    assert ((x, z) ∉ cells) as Hnew.
    { apply NoDup_app in Hnodup as (_ & Hdisj & _). intros Hin.
      apply (Hdisj _ Hin). left. }
    destruct st as [chunk col].
    destruct (load_column_next r loader cx cz cells chunk col x z
                Hinv Hx Hz Hxz Hnew) as (st1 & Hrun & Hinv1).
    cbn [foldl fst snd]. rewrite Hrun.
    replace (cells ++ (x, z) :: rest) with ((cells ++ [(x, z)]) ++ rest) in *
      by (rewrite <- app_assoc; reflexivity).
    exact (IH _ _ Hinv1 Hnodup Hrest).
Qed.

Lemma Chunk_loadColumns_counts chunk col :
  chunk_cx chunk = cx → chunk_cz chunk = cz →
  Chunk_wf chunk → Column_idle col →
  (∀ x y z, Tensor3_get (chunk_voxels chunk) x y z = kEmptyBlock) →
  ∃ chunk1 col1,
    Chunk_loadColumns r loader chunk col
    = Some (Chunk_with_equilevels
              (Column_fillEquilevels col1 (chunk_equilevels chunk1)) chunk1, col1)
    ∧ load_inv loader cx cz load_order (chunk1, col1).
Proof.
  intros Hcx Hcz Hwf Hidle Hempty.
  destruct load_order_cells as (Hfirst & Hnodup & Hrest).
  unfold Chunk_loadColumns. cbv zeta. rewrite Hcx, Hcz.
  rewrite (foldl_pairs (load_column r loader (js_shl cx kChunkBits)
                          (js_shl cz kChunkBits))).
  fold load_order.
  destruct (load_column_first r loader cx cz chunk col Hwf Hidle Hempty)
    as (st0 & Hrun0 & Hinv0).
  set (rest := drop 1 load_order) in *.
  rewrite Hfirst in Hnodup.
  destruct (load_rest rest [(0, 0)] st0 Hinv0 Hnodup Hrest)
    as ([chunk1 col1] & Hrun & Hinv).
  change ([(0, 0)] ++ rest) with ((0, 0) :: rest) in Hinv.
  rewrite <- Hfirst in Hinv.
  assert (Hfold : foldl step (Some (chunk, col)) load_order
                  = Some (chunk1, col1)).
  { rewrite Hfirst. cbn [foldl fst snd]. rewrite Hrun0. exact Hrun. }
  rewrite Hfold. cbn [mbind option_bind]. exists chunk1, col1.
  split; [reflexivity|]. exact Hinv.
Qed.

End load_loop.

Lemma Chunk_init_empty cx cz x y z :
  Tensor3_get (chunk_voxels (Chunk_init cx cz)) x y z = kEmptyBlock.
Proof.
  unfold Tensor3_get, ta_get. case_decide; [|reflexivity].
  cbn [Chunk_init chunk_voxels Tensor3_new t3_data].
  destruct (replicate _ 0 !! _) eqn:Hl; [|reflexivity].
  apply lookup_replicate in Hl as [-> _]. reflexivity.
Qed.

(** X15.  Where [Chunk.load] leaves [equilevels[y]] at 1, the level is
    uniform: no decoration was written at height [y], and all 256 columns
    of the chunk hold the same block there.  The counters of the column
    are 16 bits wide, so this needs the loader to write at most 65280
    decorations at that height over the whole chunk. *)
Theorem Chunk_load_equilevels (r : Registry) (loader : Loader) (cx cz : Z)
    (col col' : Column) (chunk : Chunk) (y : Z) :
  Column_idle col →
  0 ≤ y < kWorldHeight →
  decorations_at loader cx cz load_order y ≤ 65280 →
  Chunk_loadColumns r loader (Chunk_init cx cz) col = Some (chunk, col') →
  ta_get 0 (chunk_equilevels chunk) y = 1 →
  decorations_at loader cx cz load_order y = 0
  ∧ ∀ x z, 0 ≤ x < kChunkWidth → 0 ≤ z < kChunkWidth →
      Tensor3_get (chunk_voxels chunk) x y z
      = Tensor3_get (chunk_voxels chunk) 0 y 0.
Proof.
  intros Hidle Hy Hbound Hrun Hlevel.
  destruct (Chunk_loadColumns_counts r loader cx cz (Chunk_init cx cz) col
              eq_refl eq_refl (Chunk_wf_init cx cz) Hidle
              (Chunk_init_empty cx cz))
    as (chunk1 & col1 & Hrun1 & Hinv).
  rewrite Hrun in Hrun1. injection Hrun1 as -> ->.
  destruct Hinv as (_ & Hidle1 & _ & _ & _ & Hcount). cbn [fst snd] in *.
  cbn [Chunk_with_equilevels chunk_equilevels chunk_voxels] in *.
  rewrite Column_fillEquilevels_get in Hlevel by assumption.
  destruct (decide (mismatch_sum (col_mismatches col1) y = 0)) as [Hsum|];
    [|discriminate Hlevel].
  destruct (Hcount y Hy) as (T & q & HT & Hlow & Hhigh & Hsame).
  pose proof (decorations_at_nonneg loader cx cz load_order y) as Hnonneg.
  assert (length load_order = 256%nat) as Hlen by (vm_compute; reflexivity).
  rewrite Hlen in Hhigh.
  assert (T = 0) as HT0 by lia.
  split; [lia|].
  intros x z Hx Hz. rewrite kChunkWidth_eq in Hx, Hz.
  rewrite (Hsame HT0 x z) by (apply load_order_all; assumption).
  rewrite (Hsame HT0 0 0) by (apply load_order_all; lia).
  reflexivity.
Qed.

Lemma Chunk_load_equilevels_witness :
  ∃ chunk col',
    Chunk_loadColumns example_registry tree_loader (Chunk_init 0 0) Column_new
    = Some (chunk, col')
    ∧ ta_get 0 (chunk_equilevels chunk) 2 = 1
    ∧ decorations_at tree_loader 0 0 load_order 2 = 0
    ∧ ∀ x z, 0 ≤ x < kChunkWidth → 0 ≤ z < kChunkWidth →
        Tensor3_get (chunk_voxels chunk) x 2 z
        = Tensor3_get (chunk_voxels chunk) 0 2 0.
Proof.
  assert (Hlevel :
    match Chunk_loadColumns example_registry tree_loader (Chunk_init 0 0)
            Column_new with
    | Some (chunk, _) => ta_get 0 (chunk_equilevels chunk) 2
    | None => 0
    end = 1).
  { lazy. reflexivity. }
  destruct (Chunk_loadColumns example_registry tree_loader (Chunk_init 0 0)
              Column_new) as [[chunk col']|] eqn:Hrun; [|discriminate Hlevel].
  exists chunk, col'. split; [reflexivity|]. split; [exact Hlevel|].
  apply (Chunk_load_equilevels example_registry tree_loader 0 0 Column_new col').
  - exact Column_new_idle.
  - unfold kWorldHeight. lia.
  - apply Z.leb_le. vm_compute. reflexivity.
  - exact Hrun.
  - exact Hlevel.
Defined.

(* ===================================================================== *)
(** * The scratch volume of the mesher *)
(* ===================================================================== *)

(** ** Typed arrays: reading, [subarray] and [set] *)

Lemma ta_read_Some (a : list Z) i :
  0 ≤ i < Z.of_nat (length a) → ta_read a i = Some (ta_get 0 a i).
Proof.
  intros Hi. unfold ta_read, ta_get. rewrite !decide_True by lia.
  destruct (lookup_lt_is_Some_2 a (Z.to_nat i) ltac:(lia)) as [v Hv].
  rewrite Hv. reflexivity.
Qed.

Lemma ta_get_app_l (a b : list Z) i :
  i < Z.of_nat (length a) → ta_get 0 (a ++ b) i = ta_get 0 a i.
Proof.
  intros Hi. unfold ta_get. case_decide; [|reflexivity].
  rewrite lookup_app_l by lia. reflexivity.
Qed.

Lemma ta_get_app_r (a b : list Z) i :
  Z.of_nat (length a) ≤ i →
  ta_get 0 (a ++ b) i = ta_get 0 b (i - Z.of_nat (length a)).
Proof.
  intros Hi. unfold ta_get. rewrite !decide_True by lia.
  rewrite lookup_app_r by lia. do 2 f_equal. lia.
Qed.

Lemma ta_get_take (a : list Z) n i :
  i < n → ta_get 0 (take (Z.to_nat n) a) i = ta_get 0 a i.
Proof.
  intros Hi. unfold ta_get. case_decide; [|reflexivity].
  rewrite lookup_take_lt by lia. reflexivity.
Qed.

Lemma ta_get_drop (a : list Z) n i :
  0 ≤ n → 0 ≤ i → ta_get 0 (drop (Z.to_nat n) a) i = ta_get 0 a (n + i).
Proof.
  intros Hn Hi. unfold ta_get. rewrite !decide_True by lia.
  rewrite lookup_drop. do 2 f_equal. lia.
Qed.

Lemma ta_subarray_spec (a : list Z) s e :
  0 ≤ s → s ≤ e → e ≤ Z.of_nat (length a) →
  Z.of_nat (length (ta_subarray a s e)) = e - s
  ∧ ∀ n, 0 ≤ n < e - s → ta_get 0 (ta_subarray a s e) n = ta_get 0 a (s + n).
Proof.
  intros Hs Hse He. unfold ta_subarray, rel_index. cbv zeta.
  rewrite !decide_False by lia. rewrite !Z.min_l by lia. split.
  - rewrite length_take, length_drop. lia.
  - intros n Hn. rewrite ta_get_take by lia. apply ta_get_drop; lia.
Qed.

Lemma ta_set_array_spec (a src : list Z) off :
  0 ≤ off → off + Z.of_nat (length src) ≤ Z.of_nat (length a) →
  ∃ a', ta_set_array a src off = Some a'
    ∧ length a' = length a
    ∧ ∀ i, ta_get 0 a' i
           = if decide (off ≤ i < off + Z.of_nat (length src))
             then ta_get 0 src (i - off) else ta_get 0 a i.
Proof.
  intros Hoff Hfit. unfold ta_set_array, assert.
  rewrite decide_True by lia. cbn [mbind option_bind].
  eexists. split; [reflexivity|]. split.
  - rewrite !length_app, length_take, length_drop. lia.
  - intros i. destruct (decide (i < off)) as [Hlow|Hlow].
    + rewrite decide_False by lia.
      destruct (decide (0 ≤ i)) as [Hi|Hi].
      * rewrite ta_get_app_l by (rewrite length_take; lia).
        apply ta_get_take. exact Hlow.
      * unfold ta_get. rewrite !decide_False by lia. reflexivity.
    + rewrite ta_get_app_r by (rewrite length_take; lia).
      rewrite length_take.
      replace (Z.of_nat (Z.to_nat off `min` length a)) with off by lia.
      destruct (decide (i < off + Z.of_nat (length src))) as [Hin|Hout].
      * rewrite decide_True by lia. apply ta_get_app_l. lia.
      * rewrite decide_False by lia. rewrite ta_get_app_r by lia.
        replace (Z.to_nat off + length src)%nat
          with (Z.to_nat (off + Z.of_nat (length src))) by lia.
        rewrite ta_get_drop by lia. f_equal. lia.
Qed.

(** ** Loops over the cells of a region *)

Lemma elem_of_cells (ni nk a b : Z) :
  (a, b) ∈ (x ← seqZ 0 ni; z ← seqZ 0 nk; [(x, z)])
  ↔ 0 ≤ a < ni ∧ 0 ≤ b < nk.
Proof.
  rewrite list_elem_of_bind. split.
  - intros (x & Hin & Hx). apply list_elem_of_bind in Hin as (z & Hin & Hz).
    apply list_elem_of_singleton in Hin. injection Hin as -> ->.
    apply elem_of_seqZ in Hx, Hz. lia.
  - intros [Ha Hb]. exists a. split; [|apply elem_of_seqZ; lia].
    apply list_elem_of_bind. exists b.
    split; [apply list_elem_of_singleton; reflexivity|apply elem_of_seqZ; lia].
Qed.

Section region.
Context {S : Type}.
Variables (wf : S → Prop) (get : S → Z → Z → Z → Z).
Variables (step : option S → Z * Z → option S).
Variables (di dk : Z) (J : Z → Prop) (val : Z → Z → Z → Z).
Context `{∀ j, Decision (J j)}.
Variable ok : Z * Z → Prop.
Variable R : Z → Z → Z → Prop.
Hypothesis step_spec : ∀ s p, wf s → ok p →
  ∃ s', step (Some s) p = Some s' ∧ wf s'
    ∧ ∀ a j b, R a j b →
        get s' a j b
        = if decide (a = di + fst p ∧ b = dk + snd p ∧ J j)
          then val a j b else get s a j b.

Lemma foldl_region cells : ∀ s, wf s → Forall ok cells →
  ∃ s', foldl step (Some s) cells = Some s' ∧ wf s'
    ∧ ∀ a j b, R a j b →
        get s' a j b
        = if decide ((a - di, b - dk) ∈ cells ∧ J j)
          then val a j b else get s a j b.
Proof.
  induction cells as [|p cells IH]; intros s Hs Hcells.
  - exists s. split; [reflexivity|]. split; [exact Hs|].
    intros a j b _. rewrite decide_False; [reflexivity|].
    intros [Hin _]. inversion Hin.
  - apply Forall_cons in Hcells as [Hp Hcells].
    destruct (step_spec s p Hs Hp) as (s1 & Hstep & Hs1 & Hget1).
    destruct (IH s1 Hs1 Hcells) as (s' & Hrun & Hs' & Hget).
    exists s'. cbn [foldl]. rewrite Hstep. split; [exact Hrun|].
    split; [exact Hs'|]. intros a j b HR. rewrite Hget, Hget1 by exact HR.
    destruct (decide (J j)) as [Hj|Hj].
    2:{ rewrite !decide_False by tauto. reflexivity. }
    destruct (decide ((a - di, b - dk) ∈ cells)) as [Hin|Hout].
    { rewrite !decide_True; [reflexivity| |tauto].
      split; [right; exact Hin|exact Hj]. }
    rewrite (decide_False (P := (a - di, b - dk) ∈ cells ∧ J j)) by tauto.
    destruct (decide (a = di + fst p ∧ b = dk + snd p)) as [[Ha Hb]|Hne].
    + rewrite !decide_True; [reflexivity| |tauto].
      split; [|exact Hj]. replace (a - di, b - dk) with p; [left|].
      destruct p as [x z]. cbn [fst snd] in *. f_equal; lia.
    + rewrite !decide_False; [reflexivity| |tauto].
      intros [Hin _]. apply elem_of_cons in Hin as [Heq|Hin]; [|tauto].
      apply Hne. rewrite <- Heq. cbn [fst snd]. lia.
Qed.

End region.

(** ** Copying and clearing a part of the scratch volume *)

Lemma buffer_index t a j b :
  buffer_wf t → Tensor3_index t a j b = a * 258 + j + b * 4644.
Proof. intros [Hs _]. unfold Tensor3_index. rewrite Hs. lia. Qed.

Lemma voxels_index t a j b :
  voxels_wf t → Tensor3_index t a j b = a * 256 + j + b * 4096.
Proof. intros [Hs _]. unfold Tensor3_index. rewrite Hs. lia. Qed.

Lemma Chunk_copyVoxels_spec dst src di dk si sk ni nk :
  buffer_wf dst → voxels_wf src → part_ok di dk si sk ni nk →
  ∃ dst', Chunk_copyVoxels dst (di, 1, dk) src (si, 0, sk) (ni, 256, nk)
          = Some dst'
    ∧ buffer_wf dst'
    ∧ ∀ a j b, in_buffer a j b →
        Tensor3_get dst' a j b
        = if decide ((a - di, b - dk) ∈ (x ← seqZ 0 ni; z ← seqZ 0 nk; [(x, z)])
                     ∧ 1 ≤ j < 257)
          then Tensor3_get src (si + (a - di)) (j - 1) (sk + (b - dk))
          else Tensor3_get dst a j b.
Proof.
  intros Hdst Hsrc Hpart. unfold Chunk_copyVoxels, assert.
  cbn [pt_x pt_y pt_z fst snd].
  rewrite (proj1 Hdst), (proj1 Hsrc). cbn [fst snd].
  rewrite !decide_True by reflexivity.
  cbn [mbind option_bind].
  rewrite (foldl_pairs (λ i (dst : option Tensor3) k,
    dst ← dst;
    data ← ta_set_array (t3_data dst)
             (ta_subarray (t3_data src)
                (Tensor3_index src (si + i) 0 (sk + k))
                (Tensor3_index src (si + i) 0 (sk + k) + 256))
             (Tensor3_index dst (di + i) 1 (dk + k));
    Some (Tensor3_with_data dst data))).
  apply (foldl_region buffer_wf Tensor3_get _ di dk (λ j, 1 ≤ j < 257)
           (λ a j b, Tensor3_get src (si + (a - di)) (j - 1) (sk + (b - dk)))
           (λ p, 0 ≤ fst p < ni ∧ 0 ≤ snd p < nk) in_buffer).
  - intros s [i k] Hs [Hi Hk]. cbn [fst snd] in *. cbn [mbind option_bind].
    destruct Hpart as (? & ? & ? & ? & ? & ? & ? & ? & ? & ?).
    rewrite (voxels_index src) by exact Hsrc.
    rewrite (buffer_index s) by exact Hs.
    destruct Hsrc as [Hsrc_s Hsrc_l]. pose proof Hs as [Hs_s Hs_l].
    destruct (ta_subarray_spec (t3_data src)
                ((si + i) * 256 + 0 + (sk + k) * 4096)
                ((si + i) * 256 + 0 + (sk + k) * 4096 + 256)
                ltac:(lia) ltac:(lia) ltac:(lia)) as [Hlen Hsub].
    destruct (ta_set_array_spec (t3_data s)
                (ta_subarray (t3_data src)
                   ((si + i) * 256 + 0 + (sk + k) * 4096)
                   ((si + i) * 256 + 0 + (sk + k) * 4096 + 256))
                ((di + i) * 258 + 1 + (dk + k) * 4644)
                ltac:(lia) ltac:(lia)) as (data & -> & Hlen' & Hget).
    cbn [mbind option_bind]. eexists. split; [reflexivity|]. split.
    { split; [exact Hs_s|]. cbn [Tensor3_with_data t3_data]. lia. }
    intros a j b (Ha & Hj & Hb). unfold Tensor3_get at 1.
    rewrite (buffer_index (Tensor3_with_data s data))
      by (split; [exact Hs_s|cbn [Tensor3_with_data t3_data]; lia]).
    cbn [Tensor3_with_data t3_data]. rewrite Hget, Hlen.
    destruct (decide (a = di + i ∧ b = dk + k ∧ 1 ≤ j < 257))
      as [(-> & -> & Hj')|Hne].
    + rewrite decide_True by lia. rewrite Hsub by lia.
      unfold Tensor3_get, Tensor3_index. rewrite Hsrc_s. f_equal. lia.
    + rewrite decide_False by lia.
      unfold Tensor3_get, Tensor3_index. rewrite Hs_s. f_equal. lia.
  - exact Hdst.
  - apply Forall_forall. intros [i k] Hin. apply elem_of_cells in Hin.
    exact Hin.
Qed.

Lemma ta_get_set (a : list Z) i j v :
  ta_get 0 (ta_set a j v) i
  = if decide (i = j ∧ 0 ≤ i < Z.of_nat (length a)) then v else ta_get 0 a i.
Proof.
  destruct (decide (i = j)) as [->|Hne].
  - destruct (decide (0 ≤ j < Z.of_nat (length a))) as [Hj|Hj].
    + rewrite decide_True by tauto. apply ta_get_set_eq. exact Hj.
    + rewrite decide_False by tauto. unfold ta_get, ta_set.
      destruct (decide (0 ≤ j)); [|reflexivity].
      rewrite list_insert_ge by lia. reflexivity.
  - rewrite decide_False by tauto. apply ta_get_set_ne. congruence.
Qed.

Lemma ta_get_clear (d s v : Z) (js : list Z) : ∀ (data : list Z) i,
  ta_get 0 (foldl (λ data j, ta_set data (d + j * s) v) data js) i
  = if decide (i ∈ (λ j, d + j * s) <$> js
               ∧ 0 ≤ i < Z.of_nat (length data))
    then v else ta_get 0 data i.
Proof.
  induction js as [|j js IH]; intros data i.
  - cbn [foldl fmap list_fmap]. rewrite decide_False; [reflexivity|].
    intros [Hin _]. inversion Hin.
  - cbn [foldl fmap list_fmap]. rewrite IH, length_ta_set, ta_get_set.
    destruct (decide (0 ≤ i < Z.of_nat (length data))) as [Hi|Hi].
    2:{ rewrite !decide_False by tauto. reflexivity. }
    destruct (decide (i ∈ (λ j, d + j * s) <$> js)) as [Hin|Hout].
    { rewrite !decide_True; [reflexivity| |tauto].
      split; [right; exact Hin|exact Hi]. }
    rewrite (decide_False (P := i ∈ _ ∧ _)) by tauto.
    destruct (decide (i = d + j * s)) as [->|Hne].
    + rewrite !decide_True; [reflexivity| |tauto]. split; [left|exact Hi].
    + rewrite !decide_False; [reflexivity| |tauto].
      intros [Hin _]. apply elem_of_cons in Hin as [Heq|Hin]; tauto.
Qed.

Lemma length_clear (d s v : Z) (js : list Z) : ∀ data : list Z,
  length (foldl (λ data j, ta_set data (d + j * s) v) data js) = length data.
Proof.
  induction js as [|j js IH]; intros data; [reflexivity|].
  cbn [foldl]. rewrite IH. apply length_ta_set.
Qed.

Lemma Chunk_zeroVoxels_spec dst di dk ni nk :
  buffer_wf dst → 0 ≤ di → di + ni ≤ 18 → 0 ≤ dk → dk + nk ≤ 18 →
  buffer_wf (Chunk_zeroVoxels dst (di, 1, dk) (ni, 256, nk))
  ∧ ∀ a j b, in_buffer a j b →
      Tensor3_get (Chunk_zeroVoxels dst (di, 1, dk) (ni, 256, nk)) a j b
      = if decide ((a - di, b - dk) ∈ (x ← seqZ 0 ni; z ← seqZ 0 nk; [(x, z)])
                   ∧ 1 ≤ j < 257)
        then kEmptyBlock else Tensor3_get dst a j b.
Proof.
  intros Hdst Hdi Hni Hdk Hnk. unfold Chunk_zeroVoxels.
  cbn [pt_x pt_y pt_z fst snd]. rewrite (proj1 Hdst). cbn [fst snd].
  pose (step := λ (s : option Tensor3) (p : Z * Z), s ← s;
          Some (Tensor3_with_data s
                  (foldl (λ data j,
                            ta_set data (Tensor3_index s (di + fst p) 1 (dk + snd p)
                                         + j * 1) kEmptyBlock)
                     (t3_data s) (seqZ 0 256)))).
  destruct (foldl_region buffer_wf Tensor3_get step di dk (λ j, 1 ≤ j < 257)
              (λ _ _ _, kEmptyBlock)
              (λ p, 0 ≤ fst p < ni ∧ 0 ≤ snd p < nk) in_buffer)
    with (cells := x ← seqZ 0 ni; z ← seqZ 0 nk; [(x, z)]) (s := dst)
    as (dst' & Hrun & Hwf & Hget).
  - intros s [i k] Hs [Hi Hk]. cbn [fst snd] in *. unfold step.
    cbn [mbind option_bind fst snd]. eexists. split; [reflexivity|].
    pose proof Hs as [Hs_s Hs_l]. split.
    { split; [exact Hs_s|]. cbn [Tensor3_with_data t3_data].
      rewrite length_clear. exact Hs_l. }
    intros a j b (Ha & Hj & Hb). unfold Tensor3_get at 1.
    rewrite (buffer_index (Tensor3_with_data s _))
      by (split; [exact Hs_s|cbn [Tensor3_with_data t3_data];
                  rewrite length_clear; exact Hs_l]).
    cbn [Tensor3_with_data t3_data]. rewrite ta_get_clear.
    rewrite (buffer_index s) by exact Hs.
    destruct (decide (a = di + i ∧ b = dk + k ∧ 1 ≤ j < 257))
      as [(-> & -> & Hj')|Hne].
    + rewrite decide_True; [reflexivity|]. split; [|lia].
      apply list_elem_of_fmap. exists (j - 1).
      split; [lia|apply elem_of_seqZ; lia].
    + rewrite decide_False.
      * unfold Tensor3_get, Tensor3_index. rewrite Hs_s. f_equal. lia.
      * intros [Hin _]. apply list_elem_of_fmap in Hin as (j' & Heq & Hj').
        apply elem_of_seqZ in Hj'. lia.
  - exact Hdst.
  - apply Forall_forall. intros [i k] Hin. apply elem_of_cells in Hin.
    exact Hin.
  - assert (Hfold : foldl step (Some dst)
                      (x ← seqZ 0 ni; z ← seqZ 0 nk; [(x, z)])
                    = Some (foldl (λ dst i, foldl (λ dst k,
                        Tensor3_with_data dst
                          (foldl (λ data j,
                                    ta_set data
                                      (Tensor3_index dst (di + i) 1 (dk + k)
                                       + j * 1) kEmptyBlock)
                             (t3_data dst) (seqZ 0 256)))
                        dst (seqZ 0 nk)) dst (seqZ 0 ni))).
    { rewrite (foldl_pairs (λ i (dst : Tensor3) k,
        Tensor3_with_data dst
          (foldl (λ data j,
                    ta_set data (Tensor3_index dst (di + i) 1 (dk + k) + j * 1)
                      kEmptyBlock)
             (t3_data dst) (seqZ 0 256)))).
      generalize (x ← seqZ 0 ni; z ← seqZ 0 nk; [(x, z)]). intros cells.
      generalize dst. induction cells as [|p cells IH]; intros s;
        [reflexivity|]. cbn [foldl]. rewrite <- IH. reflexivity. }
    rewrite Hfold in Hrun. injection Hrun as <-. split; assumption.
Qed.

Lemma foldl_Some {S B} (f : S → B → S) (l : list B) : ∀ s,
  foldl (λ s p, s ← s; Some (f s p)) (Some s) l = Some (foldl f s l).
Proof.
  induction l as [|p l IH]; intros s; [reflexivity|].
  cbn [foldl mbind option_bind]. apply IH.
Qed.

Lemma border_map_index t a b :
  border_map_wf t → Tensor2_index t a b = a + b * 18.
Proof. intros [Hs _]. unfold Tensor2_index. rewrite Hs. lia. Qed.

Lemma map_index t a b : map_wf t → Tensor2_index t a b = a + b * 16.
Proof. intros [Hs _]. unfold Tensor2_index. rewrite Hs. lia. Qed.

Section border_maps.
Variables (di dk ni nk : Z).
Hypothesis Hdi : 0 ≤ di.
Hypothesis Hni : di + ni ≤ 18.
Hypothesis Hdk : 0 ≤ dk.
Hypothesis Hnk : dk + nk ≤ 18.

(** A loop over the cells of a part that writes [val a b] at [(a, b)]. *)
Lemma border_map_region (f : Tensor2 → Z * Z → Tensor2) (val : Z → Z → Z) dst :
  (∀ s p, border_map_wf s → 0 ≤ fst p < ni → 0 ≤ snd p < nk →
     f s p = Tensor2_with_data s
               (ta_set (t2_data s) (Tensor2_index s (di + fst p) (dk + snd p))
                  (val (di + fst p) (dk + snd p)))) →
  border_map_wf dst →
  let dst' := foldl f dst (x ← seqZ 0 ni; z ← seqZ 0 nk; [(x, z)]) in
  border_map_wf dst'
  ∧ ∀ a b, 0 ≤ a < 18 → 0 ≤ b < 18 →
      Tensor2_get dst' a b
      = if decide (di ≤ a < di + ni ∧ dk ≤ b < dk + nk)
        then val a b else Tensor2_get dst a b.
Proof.
  intros Hf Hdst dst'.
  destruct (foldl_region border_map_wf (λ s a _ b, Tensor2_get s a b)
              (λ s p, s ← s; Some (f s p)) di dk (λ _, True)
              (λ a _ b, val a b)
              (λ p, 0 ≤ fst p < ni ∧ 0 ≤ snd p < nk)
              (λ a _ b, 0 ≤ a < 18 ∧ 0 ≤ b < 18))
    with (cells := x ← seqZ 0 ni; z ← seqZ 0 nk; [(x, z)]) (s := dst)
    as (s' & Hrun & Hwf & Hget).
  - intros s [i k] Hs [Hi Hk]. cbn [fst snd] in *.
    cbn [mbind option_bind]. eexists. split; [reflexivity|].
    rewrite (Hf s (i, k) Hs Hi Hk). cbn [fst snd].
    pose proof Hs as [Hs_s Hs_l]. split.
    { split; [exact Hs_s|]. cbn [Tensor2_with_data t2_data].
      rewrite length_ta_set. exact Hs_l. }
    intros a j b [Ha Hb]. unfold Tensor2_get at 1.
    rewrite (border_map_index (Tensor2_with_data s _))
      by (split; [exact Hs_s|cbn [Tensor2_with_data t2_data];
                  rewrite length_ta_set; exact Hs_l]).
    cbn [Tensor2_with_data t2_data]. rewrite ta_get_set.
    rewrite (border_map_index s) by exact Hs.
    destruct (decide (a = di + i ∧ b = dk + k ∧ True)) as [(-> & -> & _)|Hne].
    + rewrite decide_True by lia. reflexivity.
    + rewrite decide_False by lia.
      unfold Tensor2_get, Tensor2_index. rewrite Hs_s. f_equal. lia.
  - exact Hdst.
  - apply Forall_forall. intros [i k] Hin. apply elem_of_cells in Hin.
    exact Hin.
  - rewrite foldl_Some in Hrun. injection Hrun as <-. subst dst'.
    split; [exact Hwf|]. intros a b Ha Hb.
    rewrite (Hget a 0 b (conj Ha Hb)).
    destruct (decide (di ≤ a < di + ni ∧ dk ≤ b < dk + nk)) as [Hin|Hout].
    + rewrite decide_True; [reflexivity|]. split; [|exact I].
      apply elem_of_cells. lia.
    + rewrite decide_False; [reflexivity|]. intros [Hin _].
      apply elem_of_cells in Hin. lia.
Qed.

Lemma Chunk_zeroHeightmap_spec dst dj nj delta :
  border_map_wf dst →
  let dst' := Chunk_zeroHeightmap dst (di, dj, dk) (ni, nj, nk) delta in
  border_map_wf dst'
  ∧ ∀ a b, 0 ≤ a < 18 → 0 ≤ b < 18 →
      Tensor2_get dst' a b
      = if decide (di ≤ a < di + ni ∧ dk ≤ b < dk + nk)
        then delta else Tensor2_get dst a b.
Proof.
  intros Hdst. unfold Chunk_zeroHeightmap. cbn [pt_x pt_y pt_z fst snd].
  rewrite (foldl_pairs (λ i (dst : Tensor2) k,
             Tensor2_set dst (di + i) (dk + k) delta)).
  apply (border_map_region
           (λ dst p, Tensor2_set dst (di + fst p) (dk + snd p) delta)
           (λ _ _, delta)); [|exact Hdst].
  intros s p _ _ _. reflexivity.
Qed.

Lemma Chunk_copyHeightmap_spec dst src si sk dj sj nj :
  border_map_wf dst → map_wf src →
  0 ≤ si → si + ni ≤ 16 → 0 ≤ sk → sk + nk ≤ 16 →
  let dst' := Chunk_copyHeightmap dst (di, dj, dk) src (si, sj, sk)
                (ni, nj, nk) in
  border_map_wf dst'
  ∧ ∀ a b, 0 ≤ a < 18 → 0 ≤ b < 18 →
      Tensor2_get dst' a b
      = if decide (di ≤ a < di + ni ∧ dk ≤ b < dk + nk)
        then Tensor2_get src (si + (a - di)) (sk + (b - dk)) + (dj - sj)
        else Tensor2_get dst a b.
Proof.
  intros Hdst Hsrc Hsi Hsni Hsk Hsnk. unfold Chunk_copyHeightmap.
  cbn [pt_x pt_y pt_z fst snd].
  rewrite (foldl_pairs (λ i (dst : Tensor2) k,
    Tensor2_with_data dst
      (ta_set (t2_data dst) (Tensor2_index dst (di + i) (dk + k))
         match ta_read (t2_data src) (Tensor2_index src (si + i) (sk + k)) with
         | Some v => v + (dj - sj)
         | None => 0
         end))).
  apply (border_map_region
           (λ dst p, Tensor2_with_data dst
              (ta_set (t2_data dst)
                 (Tensor2_index dst (di + fst p) (dk + snd p))
                 match ta_read (t2_data src)
                         (Tensor2_index src (si + fst p) (sk + snd p)) with
                 | Some v => v + (dj - sj)
                 | None => 0
                 end))
           (λ a b, Tensor2_get src (si + (a - di)) (sk + (b - dk)) + (dj - sj)));
    [|exact Hdst].
  intros s [i k] _ Hi Hk. cbn [fst snd] in *. do 2 f_equal.
  rewrite (map_index src) by exact Hsrc.
  rewrite ta_read_Some by (destruct Hsrc as [_ Hl]; lia).
  unfold Tensor2_get. rewrite (map_index src) by exact Hsrc.
  do 2 f_equal. lia.
Qed.

End border_maps.

(** ** Merging the equi-levels of the neighbours *)

Section levels.
Variables (step : option (list Z) → Z → option (list Z)) (P : Z → Prop).
Variables (n : Z) (len : nat).
Hypothesis step_spec : ∀ dst i, length dst = len → 0 ≤ i < n →
  ∃ dst', step (Some dst) i = Some dst' ∧ length dst' = len
    ∧ (∀ j, j ≠ i + 1 → ta_get 0 dst' j = ta_get 0 dst j)
    ∧ (P i → ta_get 0 dst' (i + 1) = ta_get 0 dst (i + 1))
    ∧ (¬ P i → ta_get 0 dst' (i + 1) = 0).

Lemma foldl_levels l : ∀ dst, length dst = len → Forall (λ i, 0 ≤ i < n) l →
  ∃ dst', foldl step (Some dst) l = Some dst' ∧ length dst' = len
    ∧ ∀ j, ((j - 1) ∉ l → ta_get 0 dst' j = ta_get 0 dst j)
         ∧ (P (j - 1) → ta_get 0 dst' j = ta_get 0 dst j)
         ∧ ((j - 1) ∈ l → ¬ P (j - 1) → ta_get 0 dst' j = 0).
Proof.
  induction l as [|i l IH]; intros dst Hlen Hl.
  - exists dst. split; [reflexivity|]. split; [exact Hlen|].
    intros j. split; [reflexivity|]. split; [reflexivity|].
    intros Hin. inversion Hin.
  - apply Forall_cons in Hl as [Hi Hl].
    destruct (step_spec dst i Hlen Hi) as (dst1 & Hstep & Hlen1 & Hne & Hyes & Hno).
    destruct (IH dst1 Hlen1 Hl) as (dst' & Hrun & Hlen' & Hget).
    exists dst'. cbn [foldl]. rewrite Hstep. split; [exact Hrun|].
    split; [exact Hlen'|]. intros j. destruct (Hget j) as (Hout & Hkeep & Hzero).
    split; [|split].
    + intros Hnot. rewrite Hout by (intros Hin; apply Hnot; right; exact Hin).
      apply Hne. intros ->. apply Hnot. replace (i + 1 - 1) with i by lia. left.
    + intros HP. rewrite Hkeep by exact HP.
      destruct (decide (j = i + 1)) as [->|Hj]; [|apply Hne, Hj].
      apply Hyes. replace i with (i + 1 - 1) by lia. exact HP.
    + intros Hin HP. destruct (decide ((j - 1) ∈ l)) as [Hin'|Hout'].
      * exact (Hzero Hin' HP).
      * rewrite Hout by exact Hout'.
        apply elem_of_cons in Hin as [Heq|Hin]; [|tauto].
        replace j with (i + 1) by lia. apply Hno. rewrite <- Heq. exact HP.
Qed.

End levels.

Lemma edge_differs_spec (data : list Z) (base : option Z)
    (index i stride limit : Z) (count : nat) :
  0 < stride → limit = stride * Z.of_nat count →
  ∀ (k : nat) (m : Z) (fuel : nat),
    m + Z.of_nat k = Z.of_nat count → 0 ≤ m → (k < fuel)%nat →
    ∃ d, edge_differs fuel data base index i stride limit (m * stride) = Some d
      ∧ (d = false ↔ ∀ n, m ≤ n < Z.of_nat count →
                       ta_read data (index + n * stride + i) = base).
Proof.
  intros Hstride ->. induction k as [|k IH]; intros m fuel Hm Hm0 Hfuel.
  - destruct fuel as [|fuel]; [lia|]. cbn [edge_differs].
    rewrite decide_False by nia. exists false. split; [reflexivity|].
    split; [|reflexivity]. intros _ n Hn. lia.
  - destruct fuel as [|fuel]; [lia|]. cbn [edge_differs].
    rewrite decide_True by nia.
    destruct (decide (ta_read data (index + m * stride + i) = base))
      as [Heq|Hne].
    + replace (m * stride + stride) with ((m + 1) * stride) by lia.
      destruct (IH (m + 1) fuel ltac:(lia) ltac:(lia) ltac:(lia))
        as (d & -> & Hd).
      exists d. split; [reflexivity|]. rewrite Hd. split.
      * intros Hall n Hn. destruct (decide (n = m)) as [->|]; [exact Heq|].
        apply Hall. lia.
      * intros Hall n Hn. apply Hall. lia.
    + exists true. split; [reflexivity|]. split; [discriminate|].
      intros Hall. exfalso. apply Hne, Hall. lia.
Qed.

Lemma Chunk_copyEquilevels_spec this dst chunk si sk ni nk :
  voxels_wf (chunk_voxels this) →
  match chunk with
  | Some c => voxels_wf (chunk_voxels c)
              ∧ Z.of_nat (length (chunk_equilevels c)) = 256
  | None => True
  end →
  Z.of_nat (length dst) = 258 →
  (ni = 1 ∧ nk = 16 ∨ ni = 16 ∧ nk = 1) →
  0 ≤ si → si + ni ≤ 16 → 0 ≤ sk → sk + nk ≤ 16 →
  ∃ dst',
    Chunk_copyEquilevels this dst chunk (si, 0, sk) (ni, 256, nk) 1 = Some dst'
    ∧ length dst' = length dst
    ∧ ∀ j, (¬ 1 ≤ j < 257 → ta_get 0 dst' j = ta_get 0 dst j)
         ∧ (edge_ok this chunk (si, 0, sk) (ni, 256, nk) (j - 1) →
            ta_get 0 dst' j = ta_get 0 dst j)
         ∧ (1 ≤ j < 257 →
            ¬ edge_ok this chunk (si, 0, sk) (ni, 256, nk) (j - 1) →
            ta_get 0 dst' j = 0).
Proof.
  intros Hthis Hchunk Hlen Hsize Hsi Hni Hsk Hnk.
  unfold Chunk_copyEquilevels, assert. rewrite (proj1 Hthis). cbn [fst snd].
  rewrite (decide_True (P := 1 = 1)) by reflexivity. cbn [mbind option_bind].
  assert (Hbase : ∀ i, 0 ≤ i < 256 →
    ta_read (t3_data (chunk_voxels this)) i
    = Some (Tensor3_get (chunk_voxels this) 0 i 0)).
  { intros i Hi. rewrite ta_read_Some by (destruct Hthis as [_ Hl]; lia).
    unfold Tensor3_get. rewrite (voxels_index _ _ _ _ Hthis).
    do 2 f_equal. lia. }
  remember (seqZ 0 kWorldHeight) as levels eqn:Hlv.
  assert (Hall : Forall (λ i, 0 ≤ i < 256) levels).
  { subst levels. apply Forall_forall. intros i Hi. apply elem_of_seqZ in Hi.
    unfold kWorldHeight in Hi. lia. }
  assert (Hin : ∀ j, (j - 1) ∈ levels ↔ 1 ≤ j < 257).
  { subst levels. intros j. rewrite elem_of_seqZ. unfold kWorldHeight. lia. }
  clear Hlv.
  destruct chunk as [c|].
  - destruct Hchunk as [Hc Hceq]. rewrite (proj1 Hc). cbn [fst snd pt_x pt_y pt_z].
    rewrite (decide_True (P := 1 = 1)) by reflexivity.
    rewrite (decide_True (P := ni = 1 ∨ nk = 1)) by lia.
    cbn [mbind option_bind].
    rewrite (voxels_index _ _ _ _ Hc).
    set (stride := if decide (ni = 1) then 4096 else 256).
    set (limit := stride * (if decide (ni = 1) then nk else ni)).
    assert (Hstride : 256 ≤ stride) by (unfold stride; case_decide; lia).
    assert (Hlimit : limit = stride * Z.of_nat 16).
    { unfold limit. case_decide; lia. }
    destruct (foldl_levels
      (λ dst i, dst ← dst;
         if decide (ta_read dst (i + 1) = Some 0) then Some dst
         else if decide (ta_read (chunk_equilevels c) i = Some 1
                         ∧ ta_read (t3_data (chunk_voxels c)) i
                           = ta_read (t3_data (chunk_voxels this)) i)
              then Some dst
              else differs ← edge_differs (Z.to_nat limit)
                               (t3_data (chunk_voxels c))
                               (ta_read (t3_data (chunk_voxels this)) i)
                               (si * 256 + 0 + sk * 4096) i stride limit 0;
                   Some (if differs : bool then ta_set dst (i + 1) 0 else dst))
      (edge_ok this (Some c) (si, 0, sk) (ni, 256, nk)) 256 (length dst))
      with (l := levels) (dst := dst)
      as (dst' & Hrun & Hlen' & Hget); [|reflexivity|exact Hall|].
    2:{ exists dst'. split; [exact Hrun|]. split; [exact Hlen'|].
        intros j. destruct (Hget j) as (Hout & Hkeep & Hzero).
        split; [|split].
        - intros Hj. apply Hout. rewrite Hin. exact Hj.
        - exact Hkeep.
        - intros Hj. apply Hzero. rewrite Hin. exact Hj. }
    intros d i Hd Hi. cbn [mbind option_bind].
    assert (Hedge : ∀ n, 0 ≤ n < 16 →
      ta_read (t3_data (chunk_voxels c)) (si * 256 + 0 + sk * 4096 + n * stride + i)
      = Some (Tensor3_get (chunk_voxels c)
                (si + (if decide (ni = 1) then 0 else n)) i
                (sk + (if decide (ni = 1) then n else 0)))).
    { intros n Hn. unfold stride.
      rewrite ta_read_Some
        by (destruct Hc as [_ Hl]; destruct (decide (ni = 1)); lia).
      unfold Tensor3_get. rewrite (voxels_index _ _ _ _ Hc).
      do 2 f_equal. destruct (decide (ni = 1)); lia. }
    assert (Hfirst : ta_read (t3_data (chunk_voxels c)) i
                     = Some (Tensor3_get (chunk_voxels c) 0 i 0)).
    { rewrite ta_read_Some by (destruct Hc as [_ Hl]; lia).
      unfold Tensor3_get. rewrite (voxels_index _ _ _ _ Hc).
      do 2 f_equal. lia. }
    assert (Hlevel : ta_read (chunk_equilevels c) i
                     = Some (ta_get 0 (chunk_equilevels c) i))
      by (apply ta_read_Some; lia).
    rewrite Hbase, Hfirst, Hlevel by exact Hi.
    assert (Hd0 : ta_read d (i + 1) = Some (ta_get 0 d (i + 1)))
      by (apply ta_read_Some; lia).
    rewrite Hd0.
    destruct (decide (Some (ta_get 0 d (i + 1)) = Some 0)) as [Hzero|Hnz].
    { exists d. split; [reflexivity|]. split; [exact Hd|].
      split; [reflexivity|]. split; [reflexivity|].
      intros _. congruence. }
    destruct (decide (Some (ta_get 0 (chunk_equilevels c) i) = Some 1
                      ∧ Some (Tensor3_get (chunk_voxels c) 0 i 0)
                        = Some (Tensor3_get (chunk_voxels this) 0 i 0)))
      as [[Hone Hsame]|Hskip].
    { exists d. split; [reflexivity|]. split; [exact Hd|].
      split; [reflexivity|]. split; [reflexivity|].
      intros Hnot. exfalso. apply Hnot. left. split; congruence. }
    destruct (edge_differs_spec (t3_data (chunk_voxels c))
                (Some (Tensor3_get (chunk_voxels this) 0 i 0))
                (si * 256 + 0 + sk * 4096) i stride limit 16 ltac:(lia) Hlimit
                16 0 (Z.to_nat limit) ltac:(lia) ltac:(lia) ltac:(lia))
      as (differs & Hdiffers & Hd').
    change (0 * stride) with 0 in Hdiffers. rewrite Hdiffers.
    cbn [mbind option_bind]. eexists. split; [reflexivity|].
    assert (Hright : differs = false ↔
      ∀ n, 0 ≤ n < 16 →
        Tensor3_get (chunk_voxels c)
          (si + (if decide (ni = 1) then 0 else n)) i
          (sk + (if decide (ni = 1) then n else 0))
        = Tensor3_get (chunk_voxels this) 0 i 0).
    { rewrite Hd'. split; intros Hsame n Hn.
      - specialize (Hsame n ltac:(lia)). rewrite Hedge in Hsame by exact Hn.
        congruence.
      - rewrite Hedge by lia. f_equal. apply Hsame. lia. }
    destruct differs.
    + split; [rewrite length_ta_set; exact Hd|].
      split; [intros j Hj; apply ta_get_set_ne; congruence|].
      split.
      * intros [[Hone Hsame]|Hedges].
        -- exfalso. apply Hskip. split; congruence.
        -- apply Hright in Hedges. discriminate Hedges.
      * intros _. apply ta_get_set_eq. lia.
    + split; [exact Hd|]. split; [reflexivity|]. split; [reflexivity|].
      intros Hnot. exfalso. apply Hnot. right. apply Hright. reflexivity.
  - pose (step := λ (dst : list Z) (i : Z),
        if decide (ta_read dst (i + 1) = Some 0) then dst
        else if decide (ta_read (t3_data (chunk_voxels this)) i
                        ≠ Some kEmptyBlock)
             then ta_set dst (i + 1) 0 else dst).
    destruct (foldl_levels (λ dst i, dst ← dst; Some (step dst i))
      (edge_ok this None (si, 0, sk) (ni, 256, nk)) 256 (length dst))
      with (l := levels) (dst := dst)
      as (dst' & Hrun & Hlen' & Hget); [|reflexivity|exact Hall|].
    2:{ rewrite (foldl_Some step) in Hrun. injection Hrun as <-.
        eexists. split; [reflexivity|]. split; [exact Hlen'|].
        intros j. destruct (Hget j) as (Hout & Hkeep & Hzero).
        split; [|split].
        - intros Hj. apply Hout. rewrite Hin. exact Hj.
        - exact Hkeep.
        - intros Hj. apply Hzero. rewrite Hin. exact Hj. }
    intros d i Hd Hi. cbn [mbind option_bind]. eexists.
    split; [reflexivity|]. unfold step. rewrite Hbase by exact Hi.
    assert (Hd0 : ta_read d (i + 1) = Some (ta_get 0 d (i + 1)))
      by (apply ta_read_Some; lia).
    rewrite Hd0. unfold edge_ok. cbv zeta.
    destruct (decide (Some (ta_get 0 d (i + 1)) = Some 0)) as [Hzero|Hnz].
    { split; [exact Hd|]. split; [reflexivity|]. split; [reflexivity|].
      intros _. congruence. }
    destruct (decide (Some (Tensor3_get (chunk_voxels this) 0 i 0)
                      ≠ Some kEmptyBlock)) as [Hfull|Hempty].
    + split; [rewrite length_ta_set; exact Hd|].
      split; [intros j Hj; apply ta_get_set_ne; congruence|].
      split; [intros Heq; exfalso; apply Hfull; congruence|].
      intros _. apply ta_get_set_eq. lia.
    + split; [exact Hd|]. split; [reflexivity|]. split; [reflexivity|].
      intros Hnot. exfalso. apply Hnot.
      destruct (decide (Tensor3_get (chunk_voxels this) 0 i 0 = kEmptyBlock))
        as [Heq|Hne]; [exact Heq|].
      exfalso. apply Hempty. congruence.
Qed.

(** ** One chunk of the five *)

Lemma Chunk_wf_parts c :
  Chunk_wf c →
  voxels_wf (chunk_voxels c) ∧ map_wf (chunk_heightmap c)
  ∧ map_wf (chunk_light_map c)
  ∧ Z.of_nat (length (chunk_equilevels c)) = 256.
Proof.
  intros (H1 & H2 & H3 & H4 & H5 & H6 & H7).
  split; [split; assumption|]. split; [split; assumption|].
  split; [split; assumption|assumption].
Qed.

Lemma Scratch_wf_intro b h l e :
  buffer_wf b → border_map_wf h → border_map_wf l →
  Z.of_nat (length e) = 258 → Scratch_wf (mkScratch b h l e).
Proof.
  intros [? ?] [? ?] [? ?] ?. unfold Scratch_wf.
  cbn [sc_buffer sc_heightmap sc_light_map sc_equilevels].
  split; [assumption|]. split; [assumption|]. split; [assumption|].
  split; [assumption|]. split; [assumption|]. split; assumption.
Qed.

Lemma World_all_get (P : Chunk → Prop) w cx cz c :
  World_all P w → Circle_get (world_chunks w) cx cz = Some c → P c.
Proof.
  intros Hall Hget. destruct (Circle_get_Some _ _ _ _ Hget) as (_ & Hslot & _).
  exact (Hall _ _ Hslot).
Qed.

Lemma edge_ok_dec this chunk srcPos size y :
  edge_ok this chunk srcPos size y ∨ ¬ edge_ok this chunk srcPos size y.
Proof.
  unfold edge_ok. cbv zeta. destruct chunk as [c|].
  2:{ destruct (decide (Tensor3_get (chunk_voxels this) 0 y 0 = kEmptyBlock));
        [left|right]; assumption. }
  destruct (decide (ta_get 0 (chunk_equilevels c) y = 1
                    ∧ Tensor3_get (chunk_voxels c) 0 y 0
                      = Tensor3_get (chunk_voxels this) 0 y 0)) as [Hl|Hl].
  { left. left. exact Hl. }
  destruct (decide (Forall (λ n,
      Tensor3_get (chunk_voxels c)
        (pt_x srcPos + (if decide (pt_x size = 1) then 0 else n)) y
        (pt_z srcPos + (if decide (pt_x size = 1) then n else 0))
      = Tensor3_get (chunk_voxels this) 0 y 0) (seqZ 0 16))) as [Hr|Hr].
  - left. right. intros n Hn.
    apply (proj1 (Forall_forall _ _) Hr). apply elem_of_seqZ. lia.
  - right. intros [Hl'|Hr']; [exact (Hl Hl')|]. apply Hr.
    apply Forall_forall. intros n Hn. apply elem_of_seqZ in Hn.
    apply Hr'. lia.
Qed.

Section gather_offset.
Variables (w : World) (this : Chunk) (s : Scratch).
Variables (c : Point) (di dk si sk ni nk : Z).
Hypothesis Hs : Scratch_wf s.
Hypothesis Hthis : Chunk_wf this.
Hypothesis Hall : World_all Chunk_wf w.
Hypothesis Hpart : part_ok di dk si sk ni nk.

Local Abbreviation chunk :=
  (Circle_get (world_chunks w) (chunk_cx this + pt_x c)
     (chunk_cz this + pt_z c)).

Hypothesis Hedge :
  same_chunk chunk this = true ∨ ni = 1 ∧ nk = 16 ∨ ni = 16 ∧ nk = 1.

Lemma gather_offset_spec :
  ∃ s', gather_offset w this (Some s) (c, (di, 1, dk), (si, 0, sk), (ni, 256, nk))
        = Some s'
    ∧ Scratch_wf s'
    ∧ gathered_part w this c di dk si sk ni nk s s'.
Proof.
  destruct Hs as (Hb_s & Hb_l & Hh_s & Hh_l & Hl_s & Hl_l & He).
  pose proof Hpart as (? & ? & ? & ? & ? & ? & ? & ? & ? & ?).
  destruct (Chunk_wf_parts this Hthis) as (Hthis_v & _).
  assert (Hregion : ∀ a b,
    (a - di, b - dk) ∈ (x ← seqZ 0 ni; z ← seqZ 0 nk; [(x, z)])
    ↔ di ≤ a < di + ni ∧ dk ≤ b < dk + nk).
  { intros a b. rewrite elem_of_cells. lia. }
  unfold gathered_part, gather_offset, assert.
  cbn [mbind option_bind pt_x pt_y pt_z fst snd].
  change (1 - 0) with 1.
  rewrite (decide_True (P := 1 = 1)) by reflexivity.
  cbn [mbind option_bind].
  destruct chunk as [c0|] eqn:Hchunk.
  - pose proof (World_all_get _ _ _ _ _ Hall Hchunk) as Hc0.
    destruct (Chunk_wf_parts c0 Hc0) as (Hc0_v & Hc0_h & Hc0_l & Hc0_e).
    destruct (Chunk_copyVoxels_spec (sc_buffer s) (chunk_voxels c0)
                di dk si sk ni nk (conj Hb_s Hb_l) Hc0_v Hpart)
      as (buffer & -> & Hbuffer & Hget).
    cbn [mbind option_bind].
    destruct (Chunk_copyHeightmap_spec di dk ni nk ltac:(lia) ltac:(lia)
                ltac:(lia) (sc_heightmap s) (chunk_heightmap c0)
                si sk 1 0 256 (conj Hh_s Hh_l) Hc0_h
                ltac:(lia) ltac:(lia) ltac:(lia) ltac:(lia))
      as [Hheights Hget_h].
    destruct (Chunk_copyHeightmap_spec di dk ni nk ltac:(lia) ltac:(lia)
                ltac:(lia) (sc_light_map s) (chunk_light_map c0)
                si sk 1 0 256 (conj Hl_s Hl_l) Hc0_l
                ltac:(lia) ltac:(lia) ltac:(lia) ltac:(lia))
      as [Hlights Hget_l].
    assert (Hvoxels : ∀ a j b, in_buffer a j b →
      Tensor3_get buffer a j b
      = if decide (di ≤ a < di + ni ∧ dk ≤ b < dk + nk ∧ 1 ≤ j < 257)
        then Tensor3_get (chunk_voxels c0) (si + (a - di)) (j - 1) (sk + (b - dk))
        else Tensor3_get (sc_buffer s) a j b).
    { intros a j b Hin. rewrite Hget by exact Hin. apply decide_ext.
      rewrite Hregion. tauto. }
    destruct (same_chunk (Some c0) this) eqn:Hsame.
    + eexists. split; [reflexivity|]. cbn [sc_buffer sc_heightmap sc_light_map sc_equilevels].
      split.
      { apply Scratch_wf_intro; assumption. }
      split; [exact Hvoxels|]. split; [exact Hget_h|]. split; [exact Hget_l|].
      reflexivity.
    + destruct Hedge as [Hfalse|Hsize]; [discriminate Hfalse|].
      destruct (Chunk_copyEquilevels_spec this (sc_equilevels s) (Some c0)
                  si sk ni nk Hthis_v (conj Hc0_v Hc0_e) He Hsize
                  ltac:(lia) ltac:(lia) ltac:(lia) ltac:(lia))
        as (e' & He' & Hlen & Hget_e).
      cbn [sc_equilevels]. rewrite He'. cbn [mbind option_bind].
      eexists. split; [reflexivity|].
      cbn [Scratch_with_equilevels sc_buffer sc_heightmap sc_light_map
           sc_equilevels].
      split.
      { apply Scratch_wf_intro; try assumption. rewrite Hlen. exact He. }
      split; [exact Hvoxels|]. split; [exact Hget_h|]. split; [exact Hget_l|].
      exact Hget_e.
  - destruct (Chunk_zeroVoxels_spec (sc_buffer s) di dk ni nk
                (conj Hb_s Hb_l) ltac:(lia) ltac:(lia) ltac:(lia) ltac:(lia))
      as [Hbuffer Hget].
    destruct (Chunk_zeroHeightmap_spec di dk ni nk ltac:(lia) ltac:(lia)
                ltac:(lia) (sc_heightmap s) 1 256 1
                (conj Hh_s Hh_l)) as [Hheights Hget_h].
    destruct (Chunk_zeroHeightmap_spec di dk ni nk ltac:(lia) ltac:(lia)
                ltac:(lia) (sc_light_map s) 1 256 1
                (conj Hl_s Hl_l)) as [Hlights Hget_l].
    cbn [same_chunk] in Hedge.
    cbn [same_chunk mbind option_bind sc_equilevels].
    destruct Hedge as [Hfalse|Hsize]; [discriminate Hfalse|].
    destruct (Chunk_copyEquilevels_spec this (sc_equilevels s) None
                si sk ni nk Hthis_v I He Hsize
                ltac:(lia) ltac:(lia) ltac:(lia) ltac:(lia))
      as (e' & He' & Hlen & Hget_e).
    cbn [sc_equilevels]. rewrite He'. cbn [mbind option_bind].
    eexists. split; [reflexivity|].
    cbn [Scratch_with_equilevels sc_buffer sc_heightmap sc_light_map
         sc_equilevels].
    split.
    { apply Scratch_wf_intro; try assumption. rewrite Hlen. exact He. }
    split.
    { intros a j b Hin. rewrite Hget by exact Hin. apply decide_ext.
      rewrite Hregion. tauto. }
    split; [exact Hget_h|]. split; [exact Hget_l|]. exact Hget_e.
Qed.

End gather_offset.

(** ** The five chunks *)

Lemma same_chunk_self w this :
  Circle_get (world_chunks w) (chunk_cx this + 0) (chunk_cz this + 0)
  = Some this →
  same_chunk (Circle_get (world_chunks w) (chunk_cx this + 0)
                (chunk_cz this + 0)) this = true.
Proof.
  intros ->. cbn [same_chunk]. apply bool_decide_eq_true_2.
  split; reflexivity.
Qed.

Lemma gather_offset_step w this st s o s' :
  st = Some s → gather_offset w this (Some s) o = Some s' →
  gather_offset w this st o = Some s'.
Proof. intros -> Hrun. exact Hrun. Qed.

Lemma Chunk_gather_run w this s :
  World_all Chunk_wf w → Scratch_wf s →
  Circle_get (world_chunks w) (chunk_cx this) (chunk_cz this) = Some this →
  ∃ e s', ta_set_array (sc_equilevels s) (chunk_equilevels this) 1 = Some e
    ∧ Chunk_gather w this s = Some s'
    ∧ Scratch_wf s'
    ∧ gathered w this (Scratch_with_equilevels e s) s'.
Proof.
  intros Hall Hs Hthis.
  pose proof (World_all_get _ _ _ _ _ Hall Hthis) as Hwf.
  destruct (Chunk_wf_parts this Hwf) as (_ & _ & _ & Hlen).
  pose proof Hs as (Hb_s & Hb_l & Hh_s & Hh_l & Hl_s & Hl_l & He).
  destruct (ta_set_array_spec (sc_equilevels s) (chunk_equilevels this) 1
              ltac:(lia) ltac:(lia)) as (e & Hset & Hlen_e & _).
  assert (Hs0 : Scratch_wf (Scratch_with_equilevels e s)).
  { apply Scratch_wf_intro; try (split; assumption). rewrite Hlen_e. exact He. }
  rewrite <- (Z.add_0_r (chunk_cx this)), <- (Z.add_0_r (chunk_cz this))
    in Hthis.
  destruct (gather_offset_spec w this _ (0, 0, 0) 1 1 0 0 16 16 Hs0 Hwf Hall)
    as (s1 & Hrun1 & Hs1 & H1).
  { unfold part_ok. lia. }
  { left. apply same_chunk_self. exact Hthis. }
  destruct (gather_offset_spec w this _ (-1, 0, 0) 0 1 15 0 1 16 Hs1 Hwf Hall)
    as (s2 & Hrun2 & Hs2 & H2).
  { unfold part_ok. lia. }
  { right. left. split; reflexivity. }
  destruct (gather_offset_spec w this _ (1, 0, 0) 17 1 0 0 1 16 Hs2 Hwf Hall)
    as (s3 & Hrun3 & Hs3 & H3).
  { unfold part_ok. lia. }
  { right. left. split; reflexivity. }
  destruct (gather_offset_spec w this _ (0, 0, -1) 1 0 0 15 16 1 Hs3 Hwf Hall)
    as (s4 & Hrun4 & Hs4 & H4).
  { unfold part_ok. lia. }
  { right. right. split; reflexivity. }
  destruct (gather_offset_spec w this _ (0, 0, 1) 1 17 0 0 16 1 Hs4 Hwf Hall)
    as (s5 & Hrun5 & Hs5 & H5).
  { unfold part_ok. lia. }
  { right. right. split; reflexivity. }
  exists e, s5. split; [exact Hset|]. split.
  - unfold Chunk_gather. rewrite Hset. cbn [mbind option_bind].
    unfold kNeighborOffsets. rewrite kChunkWidth_eq. unfold kWorldHeight.
    cbv zeta. change (16 - 1) with 15. change (16 + 1) with 17.
    cbn [foldl].
    apply (gather_offset_step w this _ s4); [|exact Hrun5].
    apply (gather_offset_step w this _ s3); [|exact Hrun4].
    apply (gather_offset_step w this _ s2); [|exact Hrun3].
    apply (gather_offset_step w this _ s1); [|exact Hrun2].
    exact Hrun1.
  - split; [exact Hs5|]. exists s1, s2, s3, s4.
    split; [exact H1|]. split; [exact H2|]. split; [exact H3|].
    split; [exact H4|exact H5].
Qed.

Lemma window_cell a :
  0 ≤ a < 18 →
  js_sar (a - 1) kChunkBits
  = (if decide (a = 0) then -1 else if decide (a = 17) then 1 else 0)
  ∧ js_and (a - 1) kChunkMask
    = (if decide (a = 0) then 15 else if decide (a = 17) then 0 else a - 1).
Proof.
  intros Ha. unfold kChunkBits. rewrite kChunkMask_eq, js_sar_4, js_and_15.
  rewrite int32_small by lia.
  destruct (decide (a = 0)) as [->|]; [split; reflexivity|].
  destruct (decide (a = 17)) as [->|]; [split; reflexivity|].
  split; [apply Z.div_small; lia|apply Z.mod_small; lia].
Qed.

Ltac region_tac :=
  repeat first [rewrite decide_True by lia | rewrite decide_False by lia].

(** X16.  What [remeshTerrain] hands to the mesher.  For a chunk [this] of
    the circle, in a world whose chunks have their shape, the gathering
    returns, and leaves in every column of the 18 x 18 scratch volume but
    the four corners, one level up, the 256 blocks of the world column it
    stands for -- of [this] for the columns 1 to 16, of the neighbour
    across the edge for column 0 and column 17 -- with the two heights of
    that column, each one more than in the chunk; where no neighbour is
    loaded the column is empty and both heights are 1.  The lowest level,
    the highest level and the four corner columns are left as they
    were. *)
Theorem Chunk_gather_window (w : World) (this : Chunk) (s : Scratch) :
  World_all Chunk_wf w → Scratch_wf s →
  Circle_get (world_chunks w) (chunk_cx this) (chunk_cz this) = Some this →
  ∃ s', Chunk_gather w this s = Some s' ∧ Scratch_wf s'
    ∧ (∀ i k, 0 ≤ i < 18 → 0 ≤ k < 18 → ¬ corner i k →
         (∀ y, 0 ≤ y < kWorldHeight →
            Tensor3_get (sc_buffer s') i (y + 1) k = window_block w this i y k)
         ∧ Tensor2_get (sc_heightmap s') i k = window_height w this i k
         ∧ Tensor2_get (sc_light_map s') i k = window_lit w this i k)
    ∧ (∀ i j k, in_buffer i j k → j = 0 ∨ j = 257 ∨ corner i k →
         Tensor3_get (sc_buffer s') i j k = Tensor3_get (sc_buffer s) i j k)
    ∧ (∀ i k, corner i k →
         Tensor2_get (sc_heightmap s') i k = Tensor2_get (sc_heightmap s) i k
         ∧ Tensor2_get (sc_light_map s') i k
           = Tensor2_get (sc_light_map s) i k).
Proof.
  intros Hall Hs Hthis.
  destruct (Chunk_gather_run w this s Hall Hs Hthis)
    as (e & s' & _ & Hrun & Hwf & s1 & s2 & s3 & s4 & H1 & H2 & H3 & H4 & H5).
  exists s'. split; [exact Hrun|]. split; [exact Hwf|].
  rewrite <- (Z.add_0_r (chunk_cx this)), <- (Z.add_0_r (chunk_cz this))
    in Hthis.
  destruct H1 as (Hv1 & Hh1 & Hl1 & _), H2 as (Hv2 & Hh2 & Hl2 & _),
    H3 as (Hv3 & Hh3 & Hl3 & _), H4 as (Hv4 & Hh4 & Hl4 & _),
    H5 as (Hv5 & Hh5 & Hl5 & _).
  cbn [pt_x pt_z fst snd Scratch_with_equilevels sc_buffer sc_heightmap
       sc_light_map] in *.
  rewrite Hthis in Hv1, Hh1, Hl1.
  split; [|split].
  - intros i k Hi Hk Hcorner.
    destruct (window_cell i Hi) as [Hci Hmi].
    destruct (window_cell k Hk) as [Hck Hmk].
    unfold window_block, window_height, window_lit, gather_source,
      Chunk_getBlock, Chunk_getLitHeight.
    rewrite Hci, Hck, Hmi, Hmk.
    assert (Hpos : (1 ≤ i ≤ 16 ∧ 1 ≤ k ≤ 16) ∨ (i = 0 ∧ 1 ≤ k ≤ 16)
                   ∨ (i = 17 ∧ 1 ≤ k ≤ 16) ∨ (1 ≤ i ≤ 16 ∧ k = 0)
                   ∨ (1 ≤ i ≤ 16 ∧ k = 17)).
    { unfold corner in Hcorner. lia. }
    split; [intros y Hy; unfold kWorldHeight in Hy;
            rewrite Hv5, Hv4, Hv3, Hv2, Hv1 by (unfold in_buffer; lia)
           |rewrite Hh5, Hh4, Hh3, Hh2, Hh1, Hl5, Hl4, Hl3, Hl2, Hl1 by lia].
    + destruct Hpos as [Hp|[Hp|[Hp|[Hp|Hp]]]]; region_tac.
      * rewrite Hthis. f_equal; lia.
      * destruct (Circle_get (world_chunks w) (chunk_cx this + -1) (chunk_cz this + 0));
          [f_equal; lia|reflexivity].
      * destruct (Circle_get (world_chunks w) (chunk_cx this + 1) (chunk_cz this + 0));
          [f_equal; lia|reflexivity].
      * destruct (Circle_get (world_chunks w) (chunk_cx this + 0) (chunk_cz this + -1));
          [f_equal; lia|reflexivity].
      * destruct (Circle_get (world_chunks w) (chunk_cx this + 0) (chunk_cz this + 1));
          [f_equal; lia|reflexivity].
    + destruct Hpos as [Hp|[Hp|[Hp|[Hp|Hp]]]]; region_tac.
      * rewrite Hthis. split; f_equal; f_equal; lia.
      * destruct (Circle_get (world_chunks w) (chunk_cx this + -1) (chunk_cz this + 0));
          [|split; reflexivity].
        split; f_equal; f_equal; lia.
      * destruct (Circle_get (world_chunks w) (chunk_cx this + 1) (chunk_cz this + 0));
          [|split; reflexivity].
        split; f_equal; f_equal; lia.
      * destruct (Circle_get (world_chunks w) (chunk_cx this + 0) (chunk_cz this + -1));
          [|split; reflexivity].
        split; f_equal; f_equal; lia.
      * destruct (Circle_get (world_chunks w) (chunk_cx this + 0) (chunk_cz this + 1));
          [|split; reflexivity].
        split; f_equal; f_equal; lia.
  - intros i j k Hin Hout. pose proof Hin as (Hi & Hj & Hk).
    rewrite Hv5, Hv4, Hv3, Hv2, Hv1 by exact Hin.
    unfold corner in Hout. region_tac. reflexivity.
  - intros i k Hcorner. unfold corner in Hcorner.
    rewrite Hh5, Hh4, Hh3, Hh2, Hh1, Hl5, Hl4, Hl3, Hl2, Hl1 by lia.
    region_tac. split; reflexivity.
Qed.

Lemma same_chunk_neighbor w this dx dz :
  dx ≠ 0 ∨ dz ≠ 0 →
  same_chunk (Circle_get (world_chunks w) (chunk_cx this + dx)
                (chunk_cz this + dz)) this = false.
Proof.
  intros Hd. destruct (Circle_get _ _ _) as [c|] eqn:Hget; [|reflexivity].
  destruct (Circle_get_Some _ _ _ _ Hget) as (_ & _ & Hx & Hz).
  cbn [same_chunk]. apply bool_decide_eq_false_2.
  cbn [elt_cx elt_cz Chunk_element] in Hx, Hz. lia.
Qed.

(** One neighbour: a level that is still an equi-level has passed the
    check of the edge. *)
Lemma gathered_level w this c di dk si sk ni nk s s' y :
  gathered_part w this c di dk si sk ni nk s s' →
  pt_x c ≠ 0 ∨ pt_z c ≠ 0 → 0 ≤ y < 256 →
  ta_get 0 (sc_equilevels s') (y + 1) = 1 →
  ta_get 0 (sc_equilevels s) (y + 1) = 1
  ∧ edge_ok this (Circle_get (world_chunks w) (chunk_cx this + pt_x c)
                    (chunk_cz this + pt_z c)) (si, 0, sk) (ni, 256, nk) y.
Proof.
  intros (_ & _ & _ & He) Hc Hy Hone. cbv zeta in He.
  rewrite (same_chunk_neighbor w this _ _ Hc) in He.
  destruct (He (y + 1)) as (_ & Hkeep & Hzero).
  replace (y + 1 - 1) with y in Hkeep, Hzero by lia.
  destruct (edge_ok_dec this (Circle_get (world_chunks w)
                                (chunk_cx this + pt_x c) (chunk_cz this + pt_z c))
              (si, 0, sk) (ni, 256, nk) y) as [Hok|Hno].
  - split; [|exact Hok]. rewrite <- Hkeep by exact Hok. exact Hone.
  - rewrite Hzero in Hone by (try exact Hno; lia). discriminate Hone.
Qed.

Lemma gathered_frame w this c di dk si sk ni nk s s' j :
  gathered_part w this c di dk si sk ni nk s s' →
  ¬ 1 ≤ j < 257 →
  ta_get 0 (sc_equilevels s') j = ta_get 0 (sc_equilevels s) j.
Proof.
  intros (_ & _ & _ & He) Hj. cbv zeta in He.
  destruct (same_chunk _ this); [rewrite He; reflexivity|].
  exact (proj1 (He j) Hj).
Qed.

(** The edge of a neighbour that has passed the check holds the block of
    [this] at [(0, y, 0)]. *)
Lemma edge_ok_voxel this c0 si sk ni nk y n :
  equilevels_ok c0 → 0 ≤ y < 256 → 0 ≤ n < 16 →
  0 ≤ si < 16 → 0 ≤ sk < 16 → (ni = 1 → sk = 0) → (ni ≠ 1 → si = 0) →
  edge_ok this (Some c0) (si, 0, sk) (ni, 256, nk) y →
  Tensor3_get (chunk_voxels c0)
    (si + (if decide (ni = 1) then 0 else n)) y
    (sk + (if decide (ni = 1) then n else 0))
  = Tensor3_get (chunk_voxels this) 0 y 0.
Proof.
  intros Hc0 Hy Hn Hsi Hsk H1 H2 [[Hone Hsame]|Hall].
  - rewrite <- Hsame. apply Hc0; try assumption;
      rewrite ?kChunkWidth_eq; unfold kWorldHeight;
      destruct (decide (ni = 1)); lia.
  - exact (Hall n Hn).
Qed.

(** X17.  The equi-levels that [remeshTerrain] hands to the mesher are
    sound.  In a world whose chunks have sound equi-levels, after the
    gathering for the chunk [this]: where the merged [equilevels[y + 1]]
    is 1, [equilevels[y]] of [this] is 1 and every column of the scratch
    volume but the four corners holds at level [y + 1] the block found at
    [(1, y + 1, 1)] -- the check that [kCheckEquilevels] switches on
    never fails on the levels of the chunks.  The marks of the lowest and
    of the highest level are left as they were. *)
Theorem Chunk_gather_equilevels (w : World) (this : Chunk) (s : Scratch) :
  World_all (λ c, Chunk_wf c ∧ equilevels_ok c) w → Scratch_wf s →
  Circle_get (world_chunks w) (chunk_cx this) (chunk_cz this) = Some this →
  ∃ s', Chunk_gather w this s = Some s'
    ∧ ta_get 0 (sc_equilevels s') 0 = ta_get 0 (sc_equilevels s) 0
    ∧ ta_get 0 (sc_equilevels s') 257 = ta_get 0 (sc_equilevels s) 257
    ∧ ∀ y, 0 ≤ y < kWorldHeight →
        ta_get 0 (sc_equilevels s') (y + 1) = 1 →
        ta_get 0 (chunk_equilevels this) y = 1
        ∧ ∀ i k, 0 ≤ i < 18 → 0 ≤ k < 18 → ¬ corner i k →
            Tensor3_get (sc_buffer s') i (y + 1) k
            = Tensor3_get (sc_buffer s') 1 (y + 1) 1.
Proof.
  intros Hall Hs Hthis.
  assert (Hwfs : World_all Chunk_wf w).
  { intros i c Hc. exact (proj1 (Hall i c Hc)). }
  destruct (Chunk_gather_run w this s Hwfs Hs Hthis)
    as (e & s' & Hset & Hrun & Hwf & s1 & s2 & s3 & s4 & H1 & H2 & H3 & H4 & H5).
  exists s'. split; [exact Hrun|].
  destruct (World_all_get _ _ _ _ _ Hall Hthis) as [Hthis_wf Hthis_ok].
  destruct (Chunk_wf_parts this Hthis_wf) as (_ & _ & _ & Hlen).
  pose proof Hs as (_ & _ & _ & _ & _ & _ & He).
  destruct (ta_set_array_spec (sc_equilevels s) (chunk_equilevels this) 1
              ltac:(lia) ltac:(lia)) as (e0 & Hset0 & _ & Hget0).
  rewrite Hset in Hset0. injection Hset0 as <-.
  assert (Hframe : ∀ j, ¬ 1 ≤ j < 257 →
    ta_get 0 (sc_equilevels s') j = ta_get 0 (sc_equilevels s) j).
  { intros j Hj.
    rewrite (gathered_frame _ _ _ _ _ _ _ _ _ _ _ j H5 Hj),
      (gathered_frame _ _ _ _ _ _ _ _ _ _ _ j H4 Hj),
      (gathered_frame _ _ _ _ _ _ _ _ _ _ _ j H3 Hj),
      (gathered_frame _ _ _ _ _ _ _ _ _ _ _ j H2 Hj),
      (gathered_frame _ _ _ _ _ _ _ _ _ _ _ j H1 Hj).
    cbn [sc_equilevels Scratch_with_equilevels]. rewrite Hget0.
    rewrite decide_False by lia. reflexivity. }
  split; [apply Hframe; lia|]. split; [apply Hframe; lia|].
  intros y Hy Hone. unfold kWorldHeight in Hy.
  destruct (gathered_level _ _ _ _ _ _ _ _ _ _ _ y H5 ltac:(right; discriminate)
              Hy Hone) as [Hone4 Hok5].
  destruct (gathered_level _ _ _ _ _ _ _ _ _ _ _ y H4 ltac:(right; discriminate)
              Hy Hone4) as [Hone3 Hok4].
  destruct (gathered_level _ _ _ _ _ _ _ _ _ _ _ y H3 ltac:(left; discriminate)
              Hy Hone3) as [Hone2 Hok3].
  destruct (gathered_level _ _ _ _ _ _ _ _ _ _ _ y H2 ltac:(left; discriminate)
              Hy Hone2) as [Hone1 Hok2].
  rewrite <- (Z.add_0_r (chunk_cx this)), <- (Z.add_0_r (chunk_cz this))
    in Hthis.
  assert (Hone0 : ta_get 0 (chunk_equilevels this) y = 1).
  { destruct H1 as (_ & _ & _ & He1). cbv zeta in He1.
    cbn [pt_x pt_z fst snd] in He1.
    rewrite (same_chunk_self w this Hthis) in He1. rewrite He1 in Hone1.
    cbn [sc_equilevels Scratch_with_equilevels] in Hone1.
    rewrite Hget0 in Hone1. rewrite decide_True in Hone1 by lia.
    replace (y + 1 - 1) with y in Hone1 by lia. exact Hone1. }
  split; [exact Hone0|].
  destruct H1 as (Hv1 & _), H2 as (Hv2 & _), H3 as (Hv3 & _),
    H4 as (Hv4 & _), H5 as (Hv5 & _).
  cbn [pt_x pt_z fst snd Scratch_with_equilevels sc_buffer] in *.
  rewrite Hthis in Hv1.
  assert (Hbase : ∀ i k, 0 ≤ i < 18 → 0 ≤ k < 18 → ¬ corner i k →
    Tensor3_get (sc_buffer s') i (y + 1) k
    = Tensor3_get (chunk_voxels this) 0 y 0).
  { intros i k Hi Hk Hcorner.
    assert (Hpos : (1 ≤ i ≤ 16 ∧ 1 ≤ k ≤ 16) ∨ (i = 0 ∧ 1 ≤ k ≤ 16)
                   ∨ (i = 17 ∧ 1 ≤ k ≤ 16) ∨ (1 ≤ i ≤ 16 ∧ k = 0)
                   ∨ (1 ≤ i ≤ 16 ∧ k = 17)).
    { unfold corner in Hcorner. lia. }
    rewrite Hv5, Hv4, Hv3, Hv2, Hv1 by (unfold in_buffer; lia).
    destruct Hpos as [Hp|[Hp|[Hp|[Hp|Hp]]]]; region_tac.
    - replace (y + 1 - 1) with y by lia.
      apply Hthis_ok; rewrite ?kChunkWidth_eq; unfold kWorldHeight;
        try assumption; lia.
    - destruct (Circle_get (world_chunks w) (chunk_cx this + -1)
                  (chunk_cz this + 0)) as [c0|] eqn:Hget;
        [|symmetry; exact Hok2].
      pose proof (edge_ok_voxel this c0 15 0 1 16 y (k - 1)
                    (proj2 (World_all_get _ _ _ _ _ Hall Hget))
                    Hy ltac:(lia) ltac:(lia) ltac:(lia) ltac:(lia) ltac:(lia)
                    Hok2) as Hcell.
      rewrite !decide_True in Hcell by reflexivity.
      rewrite <- Hcell. f_equal; lia.
    - destruct (Circle_get (world_chunks w) (chunk_cx this + 1)
                  (chunk_cz this + 0)) as [c0|] eqn:Hget;
        [|symmetry; exact Hok3].
      pose proof (edge_ok_voxel this c0 0 0 1 16 y (k - 1)
                    (proj2 (World_all_get _ _ _ _ _ Hall Hget))
                    Hy ltac:(lia) ltac:(lia) ltac:(lia) ltac:(lia) ltac:(lia)
                    Hok3) as Hcell.
      rewrite !decide_True in Hcell by reflexivity.
      rewrite <- Hcell. f_equal; lia.
    - destruct (Circle_get (world_chunks w) (chunk_cx this + 0)
                  (chunk_cz this + -1)) as [c0|] eqn:Hget;
        [|symmetry; exact Hok4].
      pose proof (edge_ok_voxel this c0 0 15 16 1 y (i - 1)
                    (proj2 (World_all_get _ _ _ _ _ Hall Hget))
                    Hy ltac:(lia) ltac:(lia) ltac:(lia) ltac:(lia) ltac:(lia)
                    Hok4) as Hcell.
      rewrite !decide_False in Hcell by discriminate.
      rewrite <- Hcell. f_equal; lia.
    - destruct (Circle_get (world_chunks w) (chunk_cx this + 0)
                  (chunk_cz this + 1)) as [c0|] eqn:Hget;
        [|symmetry; exact Hok5].
      pose proof (edge_ok_voxel this c0 0 0 16 1 y (i - 1)
                    (proj2 (World_all_get _ _ _ _ _ Hall Hget))
                    Hy ltac:(lia) ltac:(lia) ltac:(lia) ltac:(lia) ltac:(lia)
                    Hok5) as Hcell.
      rewrite !decide_False in Hcell by discriminate.
      rewrite <- Hcell. f_equal; lia. }
  intros i k Hi Hk Hcorner. rewrite (Hbase i k Hi Hk Hcorner).
  symmetry. apply Hbase; [lia|lia|]. unfold corner. lia.
Qed.

(* ===================================================================== *)
(** * The equi-levels of every chunk of the world *)
(* ===================================================================== *)

Lemma Chunk_setBlock_self_equilevels r c x y z block :
  Chunk_wf c → 0 ≤ y < kWorldHeight → equilevels_ok c →
  equilevels_ok (Chunk_setBlock_self r c x y z block).
Proof.
  intros Hwf Hy Hok y' Hy' Hone x' z' Hx' Hz'.
  rewrite kChunkWidth_eq in Hx', Hz'.
  assert (Heq : chunk_equilevels (Chunk_setBlock_self r c x y z block)
                = if decide (Tensor3_get (chunk_voxels c) (js_and x kChunkMask) y
                               (js_and z kChunkMask) = block)
                  then chunk_equilevels c
                  else ta_set (chunk_equilevels c) y 0).
  { unfold Chunk_setBlock_self. cbv zeta. case_decide; reflexivity. }
  rewrite Heq in Hone.
  destruct (decide (Tensor3_get (chunk_voxels c) (js_and x kChunkMask) y
                      (js_and z kChunkMask) = block)) as [Hsame|Hnew].
  { unfold Chunk_setBlock_self. cbv zeta. rewrite decide_True by exact Hsame.
    apply Hok; rewrite ?kChunkWidth_eq; assumption. }
  rewrite ta_get_set in Hone.
  destruct (decide (y' = y ∧ 0 ≤ y' < Z.of_nat (length (chunk_equilevels c))))
    as [_|Hne]; [discriminate Hone|].
  assert (y' ≠ y).
  { intros ->. apply Hne. split; [reflexivity|].
    destruct Hwf as (_ & _ & _ & _ & _ & _ & Hlen). unfold kWorldHeight in Hy.
    lia. }
  rewrite !Chunk_setBlock_self_voxel by (try assumption; lia).
  rewrite !decide_False by tauto.
  apply Hok; rewrite ?kChunkWidth_eq; assumption.
Qed.

Lemma Chunk_loadColumns_levels r loader cx cz col chunk col' :
  Column_idle col →
  (∀ y, 0 ≤ y < kWorldHeight →
     decorations_at loader cx cz load_order y ≤ 65280) →
  Chunk_loadColumns r loader (Chunk_init cx cz) col = Some (chunk, col') →
  Chunk_wf chunk ∧ equilevels_ok chunk.
Proof.
  intros Hidle Hbound Hrun.
  destruct (Chunk_loadColumns_counts r loader cx cz (Chunk_init cx cz) col
              eq_refl eq_refl (Chunk_wf_init cx cz) Hidle
              (Chunk_init_empty cx cz))
    as (chunk1 & col1 & Hrun1 & Hinv).
  rewrite Hrun in Hrun1. injection Hrun1 as -> ->.
  destruct Hinv as (Hwf & Hidle1 & _ & _ & _ & Hcount). cbn [fst snd] in *.
  split.
  { apply Chunk_wf_with_equilevels; [exact Hwf|].
    apply Column_fillEquilevels_length; [exact Hidle1|].
    destruct Hwf as (_ & _ & _ & _ & _ & _ & Heq). exact Heq. }
  intros y Hy Hlevel x z Hx Hz.
  cbn [Chunk_with_equilevels chunk_equilevels chunk_voxels] in *.
  rewrite Column_fillEquilevels_get in Hlevel by assumption.
  destruct (decide (mismatch_sum (col_mismatches col1) y = 0)) as [Hsum|];
    [|discriminate Hlevel].
  destruct (Hcount y Hy) as (T & q & HT & Hlow & Hhigh & Hsame).
  pose proof (decorations_at_nonneg loader cx cz load_order y) as Hnonneg.
  pose proof (Hbound y Hy) as Hb.
  assert (length load_order = 256%nat) as Hlen by (vm_compute; reflexivity).
  rewrite Hlen in Hhigh.
  assert (T = 0) as HT0 by lia.
  rewrite kChunkWidth_eq in Hx, Hz.
  rewrite (Hsame HT0 x z) by (apply load_order_all; assumption).
  rewrite (Hsame HT0 0 0) by (apply load_order_all; lia).
  reflexivity.
Qed.

Lemma World_new_loadChunk r w : World_new r = Some w → world_loadChunk w = None.
Proof.
  unfold World_new. intros Hnew.
  apply bind_Some in Hnew as (chunks & _ & Hnew).
  apply bind_Some in Hnew as (frontier & _ & Hnew).
  injection Hnew as <-. reflexivity.
Qed.

Section world_levels.
Variable meshChunk :
  Chunk → list (option Chunk) → option VoxelMesh * option VoxelMesh.
Variable meshFrontier :
  Z → Z → Z → Z → Z → Z → option VoxelMesh → bool → option VoxelMesh.

Lemma World_run_levels r w calls w' :
  Forall (call_loads Loader_bounded) calls →
  (∀ l, world_loadChunk w = Some l → Loader_bounded l) →
  World_keeps r (λ c, Chunk_wf c ∧ equilevels_ok c) w →
  World_run meshChunk meshFrontier w calls = Some w' →
  World_keeps r (λ c, Chunk_wf c ∧ equilevels_ok c) w'
  ∧ (∀ l, world_loadChunk w' = Some l → Loader_bounded l).
Proof.
  intros Hcalls Hloads Hw Hrun.
  refine (World_run_keeps r (λ c, Chunk_wf c ∧ equilevels_ok c) Loader_bounded
            _ _ _ _ _ meshChunk meshFrontier calls w w' Hcalls Hloads Hw Hrun).
  - intros d c Hc. exact Hc.
  - intros n b c Hc. exact Hc.
  - intros s v c Hc. exact Hc.
  - intros cx cz loader col this col' Hloader Hidle Hload.
    exact (Chunk_loadColumns_levels r loader cx cz col this col' Hidle
             (Hloader cx cz) Hload).
  - intros c x y z block Hy [Hwf Hok].
    split; [apply Chunk_wf_setBlock_self, Hwf|].
    apply Chunk_setBlock_self_equilevels; assumption.
Qed.

(** X18.  In a world that [new World] built, whatever calls of
    [setLoader], [recenter], [setBlock] and [remesh] have returned since,
    with any meshers and with loaders that write at most 65280
    decorations at each height of a chunk, the equi-levels of every loaded
    chunk are sound: where [equilevels[y]] is 1, the 256 voxels of the
    chunk at height [y] hold the same block. *)
Theorem World_calls_keep_equilevels (r : Registry) (w0 w' : World)
    (calls : list WorldCall) :
  World_new r = Some w0 →
  Forall (call_loads Loader_bounded) calls →
  World_run meshChunk meshFrontier w0 calls = Some w' →
  ∀ cx cz chunk, Circle_get (world_chunks w') cx cz = Some chunk →
    Chunk_wf chunk ∧ equilevels_ok chunk.
Proof.
  intros Hnew Hcalls Hrun cx cz chunk Hget.
  pose proof (World_new_keeps r (λ c, Chunk_wf c ∧ equilevels_ok c) w0 Hnew)
    as Hw0.
  assert (Hloads : ∀ l, world_loadChunk w0 = Some l → Loader_bounded l).
  { intros l Hl. rewrite (World_new_loadChunk r w0 Hnew) in Hl.
    discriminate Hl. }
  destruct (World_run_levels r w0 calls w' Hcalls Hloads Hw0 Hrun)
    as [(_ & _ & Hall) _].
  destruct (Circle_get_Some _ _ _ _ Hget) as (_ & Hslot & _).
  exact (Hall _ _ Hslot).
Qed.

End world_levels.

(** ** Worlds with sound equi-levels *)

Lemma decorations_at_le loader cx cz cells y n :
  (∀ x z, count_level (call_decorations (loader x z)) y ≤ n) →
  decorations_at loader cx cz cells y ≤ n * Z.of_nat (length cells).
Proof.
  intros Hcell. unfold decorations_at.
  induction cells as [|p cells IH]; cbn [fmap list_fmap sum_ticks foldr length];
    [lia|].
  specialize (Hcell (fst p + js_shl cx kChunkBits) (snd p + js_shl cz kChunkBits)).
  unfold sum_ticks in IH. lia.
Qed.

Lemma empty_loader_bounded : Loader_bounded empty_loader.
Proof.
  intros cx cz y Hy.
  pose proof (decorations_at_le empty_loader cx cz load_order y 0) as Hle.
  rewrite Z.mul_0_l in Hle. etransitivity; [apply Hle|lia].
  intros x z. reflexivity.
Qed.

Lemma tree_loader_bounded : Loader_bounded tree_loader.
Proof.
  intros cx cz y Hy.
  pose proof (decorations_at_le tree_loader cx cz load_order y 1) as Hle.
  assert (length load_order = 256%nat) as Hlen by (vm_compute; reflexivity).
  rewrite Hlen in Hle. etransitivity; [apply Hle|lia].
  intros x z. unfold tree_loader. case_decide.
  - replace (call_decorations [CallPush 2 4; CallOverwrite 3 6])
      with [(3, 6)] by (vm_compute; reflexivity).
    unfold count_level. cbn [filter list_filter]. case_decide; cbn [length]; lia.
  - replace (call_decorations [CallPush 2 4]) with (@nil (Z * Z))
      by (vm_compute; reflexivity).
    unfold count_level. cbn [filter list_filter length]. lia.
Qed.

Lemma Scratch_new_wf : Scratch_wf Scratch_new.
Proof.
  unfold Scratch_new. rewrite kChunkWidth_eq. unfold kWorldHeight. cbv zeta.
  apply Scratch_wf_intro.
  - split; [reflexivity|]. cbn [Tensor3_new t3_data].
    rewrite length_replicate. lia.
  - split; [reflexivity|]. cbn [Tensor2_new t2_data].
    rewrite length_replicate. lia.
  - split; [reflexivity|]. cbn [Tensor2_new t2_data].
    rewrite length_replicate. lia.
  - rewrite !length_ta_set, length_replicate. lia.
Qed.

Lemma recenter_times_levels n : ∀ w w',
  World_keeps example_registry (λ c, Chunk_wf c ∧ equilevels_ok c) w →
  (∀ l, world_loadChunk w = Some l → Loader_bounded l) →
  recenter_times n w = Some w' →
  World_keeps example_registry (λ c, Chunk_wf c ∧ equilevels_ok c) w'
  ∧ (∀ l, world_loadChunk w' = Some l → Loader_bounded l).
Proof.
  induction n as [|n IH]; intros w w' Hw Hloads Hrun.
  - injection Hrun as <-. split; assumption.
  - cbn [recenter_times] in Hrun. apply bind_Some in Hrun as (w1 & Hstep & Hrun).
    assert (Hcalls : Forall (call_loads Loader_bounded) [CallRecenter 0 0 0]).
    { constructor; [exact I|constructor]. }
    assert (Hstep1 : World_run example_mesher example_lod_mesher w
                       [CallRecenter 0 0 0] = Some w1).
    { unfold World_run. cbn [foldl mbind option_bind World_call]. exact Hstep. }
    destruct (World_run_levels example_mesher example_lod_mesher
                example_registry w [CallRecenter 0 0 0] w1
                Hcalls Hloads Hw Hstep1) as [Hw1 Hloads1].
    exact (IH w1 w' Hw1 Hloads1 Hrun).
Qed.

Lemma example_world_levels :
  World_all (λ c, Chunk_wf c ∧ equilevels_ok c) example_world.
Proof.
  assert (Hempty : World_keeps example_registry
                     (λ c, Chunk_wf c ∧ equilevels_ok c) empty_world).
  { split; [apply Column_new_idle|]. split; [reflexivity|].
    intros i c Hc. discriminate Hc. }
  assert (Hfresh : World_keeps example_registry
                     (λ c, Chunk_wf c ∧ equilevels_ok c) fresh_world
                   ∧ ∀ l, world_loadChunk fresh_world = Some l → Loader_bounded l).
  { unfold fresh_world.
    destruct (World_new example_registry) as [w|] eqn:Hnew;
      cbn [mbind option_bind default].
    - split.
      + exact (World_new_keeps example_registry _ w Hnew).
      + intros l Hl. injection Hl as <-. apply empty_loader_bounded.
    - split; [exact Hempty|]. intros l Hl. discriminate Hl. }
  unfold example_world.
  destruct (recenter_times 5 fresh_world) as [w|] eqn:Hrun; cbn [default].
  - destruct Hfresh as [Hw Hloads].
    destruct (recenter_times_levels 5 _ _ Hw Hloads Hrun) as [(_ & _ & Hall) _].
    exact Hall.
  - apply Hempty.
Qed.

Lemma example_chunk_origin :
  Circle_get (world_chunks example_world) (chunk_cx (example_chunk 0 0))
    (chunk_cz (example_chunk 0 0)) = Some (example_chunk 0 0).
Proof.
  assert (Hget : Circle_get (world_chunks example_world) 0 0
                 = Some (example_chunk 0 0)).
  { apply example_chunk_loaded. vm_compute. reflexivity. }
  destruct (Circle_get_Some _ _ _ _ Hget) as (_ & _ & Hx & Hz).
  cbn [elt_cx elt_cz Chunk_element] in Hx, Hz. rewrite Hx, Hz. exact Hget.
Qed.

Lemma Chunk_gather_window_witness :
  ∃ s', Chunk_gather example_world (example_chunk 0 0) Scratch_new = Some s'
    ∧ Scratch_wf s'
    ∧ (∀ i k, 0 ≤ i < 18 → 0 ≤ k < 18 → ¬ corner i k →
         (∀ y, 0 ≤ y < kWorldHeight →
            Tensor3_get (sc_buffer s') i (y + 1) k
            = window_block example_world (example_chunk 0 0) i y k)
         ∧ Tensor2_get (sc_heightmap s') i k
           = window_height example_world (example_chunk 0 0) i k
         ∧ Tensor2_get (sc_light_map s') i k
           = window_lit example_world (example_chunk 0 0) i k)
    ∧ (∀ i j k, in_buffer i j k → j = 0 ∨ j = 257 ∨ corner i k →
         Tensor3_get (sc_buffer s') i j k
         = Tensor3_get (sc_buffer Scratch_new) i j k)
    ∧ (∀ i k, corner i k →
         Tensor2_get (sc_heightmap s') i k
         = Tensor2_get (sc_heightmap Scratch_new) i k
         ∧ Tensor2_get (sc_light_map s') i k
           = Tensor2_get (sc_light_map Scratch_new) i k).
Proof.
  apply (Chunk_gather_window example_world (example_chunk 0 0) Scratch_new).
  - intros i c Hc. exact (proj1 (example_world_levels i c Hc)).
  - exact Scratch_new_wf.
  - exact example_chunk_origin.
Defined.

Lemma Chunk_gather_equilevels_witness :
  ∃ s', Chunk_gather example_world (example_chunk 0 0) Scratch_new = Some s'
    ∧ ta_get 0 (sc_equilevels s') 0 = ta_get 0 (sc_equilevels Scratch_new) 0
    ∧ ta_get 0 (sc_equilevels s') 257
      = ta_get 0 (sc_equilevels Scratch_new) 257
    ∧ ∀ y, 0 ≤ y < kWorldHeight →
        ta_get 0 (sc_equilevels s') (y + 1) = 1 →
        ta_get 0 (chunk_equilevels (example_chunk 0 0)) y = 1
        ∧ ∀ i k, 0 ≤ i < 18 → 0 ≤ k < 18 → ¬ corner i k →
            Tensor3_get (sc_buffer s') i (y + 1) k
            = Tensor3_get (sc_buffer s') 1 (y + 1) 1.
Proof.
  apply (Chunk_gather_equilevels example_world (example_chunk 0 0) Scratch_new).
  - exact example_world_levels.
  - exact Scratch_new_wf.
  - exact example_chunk_origin.
Defined.

Lemma World_calls_keep_equilevels_witness :
  ∃ w0 w',
    World_new example_registry = Some w0
    ∧ World_run example_mesher example_lod_mesher w0
        [CallSetLoader 2 tree_loader None; CallRecenter 0 0 0;
         CallWorldSetBlock 3 9 4 2; CallRemesh] = Some w'
    ∧ ∀ cx cz chunk, Circle_get (world_chunks w') cx cz = Some chunk →
        Chunk_wf chunk ∧ equilevels_ok chunk.
Proof.
  assert (Hsome : bool_decide (is_Some
            (w0 ← World_new example_registry;
             World_run example_mesher example_lod_mesher w0
               [CallSetLoader 2 tree_loader None; CallRecenter 0 0 0;
                CallWorldSetBlock 3 9 4 2; CallRemesh])) = true)
    by (vm_compute; reflexivity).
  apply bool_decide_eq_true_1 in Hsome.
  destruct (World_new example_registry) as [w0|] eqn:Hnew.
  2:{ destruct Hsome as [? Hsome]. discriminate Hsome. }
  cbn [mbind option_bind] in Hsome.
  destruct (World_run example_mesher example_lod_mesher w0
              [CallSetLoader 2 tree_loader None; CallRecenter 0 0 0;
               CallWorldSetBlock 3 9 4 2; CallRemesh]) as [w'|] eqn:Hrun.
  2:{ destruct Hsome as [? Hsome]. discriminate Hsome. }
  exists w0, w'. split; [reflexivity|]. split; [exact Hrun|].
  apply (World_calls_keep_equilevels example_mesher example_lod_mesher
           example_registry w0 w'
           [CallSetLoader 2 tree_loader None; CallRecenter 0 0 0;
            CallWorldSetBlock 3 9 4 2; CallRemesh] Hnew); [|exact Hrun].
  constructor; [exact tree_loader_bounded|].
  constructor; [exact I|]. constructor; [exact I|].
  constructor; [exact I|constructor].
Defined.

(* ===================================================================== *)
(** * The frames of the timing harness *)
(* ===================================================================== *)

Lemma render_follows_remesh_app tr evs :
  render_follows_remesh tr → Invoked Render ∉ evs →
  render_follows_remesh (tr ++ evs).
Proof.
  intros Htr Hevs i Hi. destruct (decide (i < length tr)%nat) as [Hlt|Hge].
  - rewrite lookup_app_l in Hi by exact Hlt.
    destruct (Htr i Hi) as (j & -> & Hj). exists j. split; [reflexivity|].
    rewrite lookup_app_l by lia. exact Hj.
  - rewrite lookup_app_r in Hi by lia. exfalso. apply Hevs.
    eapply list_elem_of_lookup_2, Hi.
Qed.

Lemma render_follows_remesh_snoc tr :
  render_follows_remesh tr →
  render_follows_remesh ((tr ++ [Invoked Remesh]) ++ [Invoked Render]).
Proof.
  intros Htr i Hi.
  destruct (decide (i < length (tr ++ [Invoked Remesh]))%nat) as [Hlt|Hge].
  - rewrite lookup_app_l in Hi by exact Hlt.
    assert (Hin : render_follows_remesh (tr ++ [Invoked Remesh])).
    { apply render_follows_remesh_app; [exact Htr|].
      intros Hin. apply list_elem_of_singleton in Hin. discriminate Hin. }
    destruct (Hin i Hi) as (j & -> & Hj). exists j. split; [reflexivity|].
    rewrite lookup_app_l by lia. exact Hj.
  - rewrite length_app in Hge. cbn [length] in Hge.
    assert (i = S (length tr)) as ->.
    { apply lookup_lt_Some in Hi. rewrite !length_app in Hi.
      cbn [length] in Hi. lia. }
    exists (length tr). split; [reflexivity|].
    rewrite lookup_app_l by (rewrite length_app; cbn [length]; lia).
    rewrite lookup_app_r by lia. rewrite Nat.sub_diag. reflexivity.
Qed.

Lemma invoked_app w tr evs :
  invoked w (tr ++ evs) = (invoked w tr + invoked w evs)%nat.
Proof. unfold invoked. rewrite filter_app, length_app. reflexivity. Qed.

Lemma invoked_cons w ev tr :
  invoked w (ev :: tr)
  = ((if decide (ev = Invoked w) then 1 else 0) + invoked w tr)%nat.
Proof.
  unfold invoked. rewrite filter_cons. case_decide; reflexivity.
Qed.

Ltac count_events :=
  rewrite <- ?app_assoc, ?invoked_app, ?invoked_cons;
  change (invoked _ []) with 0%nat;
  repeat case_decide; try congruence; lia.

Section timing_frames.
Context {App Error Time : Type}.
Context (clock : nat → Time) (t_add : Time → Time → Time)
  (t_lt : Time → Time → bool) (seconds_between : Time → Time → Time)
  (updateDelay updateLimit tick : Time).

Local Abbreviation Timing := (Timing App Error Time).
Local Abbreviation turn := (update_turn clock t_add t_lt updateDelay tick).
Local Abbreviation loop := (update_loop clock t_add t_lt updateDelay tick).
Local Abbreviation updateHandler :=
  (Timing_updateHandler clock t_add t_lt updateDelay updateLimit tick).
Local Abbreviation renderHandler :=
  (Timing_renderHandler clock t_add t_lt seconds_between
     updateDelay updateLimit tick).
Local Abbreviation pump :=
  (Timing_pump clock t_add t_lt seconds_between updateDelay updateLimit tick).

Implicit Types (t : Timing) (tr : list TimingEvent).

Lemma updates_only_refl t : updates_only t t.
Proof. exists []. split; [by rewrite app_nil_r|constructor]. Qed.

Lemma updates_only_trans t1 t2 t3 :
  updates_only t1 t2 → updates_only t2 t3 → updates_only t1 t3.
Proof.
  intros (evs & H1 & Hevs) (evs' & H2 & Hevs'). exists (evs ++ evs').
  split; [by rewrite H2, H1, app_assoc|]. by apply Forall_app.
Qed.

Lemma update_turn_updates limit t : updates_only t (turn limit t).1.1.
Proof.
  destruct t as [remesh render update lastRender lastUpdate reads app console tr].
  unfold updates_only, update_turn, Timing_call, Timing_perf, Timing_now,
    Timing_onError, Timing_with_app, Timing_with_lastUpdate.
  cbn [snd tm_remesh tm_render tm_update tm_app tm_lastRender tm_lastUpdate
       tm_reads tm_console tm_trace].
  destruct update as [f|].
  - destruct (f tick app) as [a|a e];
      cbn [snd tm_remesh tm_render tm_update tm_app tm_lastRender
           tm_lastUpdate tm_reads tm_console tm_trace];
      destruct (t_lt limit _); cbn [fst tm_trace].
    + exists [Invoked Update]. split; [reflexivity|].
      constructor; [left; reflexivity|constructor].
    + exists [Invoked Update]. split; [reflexivity|].
      constructor; [left; reflexivity|constructor].
    + exists [Invoked Update; Raised Update]. split; [reflexivity|].
      constructor; [left; reflexivity|].
      constructor; [right; reflexivity|constructor].
    + exists [Invoked Update; Raised Update]. split; [reflexivity|].
      constructor; [left; reflexivity|].
      constructor; [right; reflexivity|constructor].
  - destruct (t_lt limit _); cbn [fst tm_trace];
      (exists []; split; [by rewrite app_nil_r|constructor]).
Qed.

Lemma update_loop_updates fuel limit now t :
  updates_only t (loop fuel limit now t).
Proof.
  revert now t. induction fuel as [|fuel IH]; intros now t;
    [apply updates_only_refl|].
  cbn [update_loop]. destruct (t_lt _ now); [|apply updates_only_refl].
  pose proof (update_turn_updates limit t) as Hturn.
  destruct (turn limit t) as [[t1 n1] stop]. cbn [fst] in Hturn.
  destruct stop; [exact Hturn|].
  eapply updates_only_trans; [exact Hturn|apply IH].
Qed.

Lemma Timing_updateHandler_updates fuel t :
  updates_only t (updateHandler fuel t).
Proof.
  unfold Timing_updateHandler, Timing_now.
  eapply updates_only_trans; [|apply update_loop_updates].
  exists []. split; [cbn [tm_trace]; by rewrite app_nil_r|constructor].
Qed.

(** What the update loop adds to the trace are entries into [update]. *)
Lemma frame_inv_updates n t evs t' :
  frame_inv n t →
  tm_trace t' = tm_trace t ++ evs →
  Forall (λ ev, ev = Invoked Update ∨ ev = Raised Update) evs →
  (tm_remesh t' = Noop → tm_render t' = Noop) →
  frame_inv n t'.
Proof.
  intros (Hfollows & Hcount & _) Htrace Hevs Hslots.
  assert (Hnone : ∀ w, w ≠ Update → invoked w evs = 0%nat).
  { intros w Hw. unfold invoked. clear -Hevs Hw.
    induction Hevs as [|ev evs Hev _ IH]; [reflexivity|].
    rewrite filter_cons. destruct (decide (ev = Invoked w)) as [->|_];
      [|exact IH].
    destruct Hev as [Hev|Hev]; [|discriminate Hev].
    injection Hev as ->. contradiction. }
  split; [|split; [|exact Hslots]].
  - rewrite Htrace. apply render_follows_remesh_app; [exact Hfollows|].
    intros Hin. apply (proj1 (Forall_forall _ _) Hevs) in Hin.
    destruct Hin as [Hin|Hin]; discriminate Hin.
  - rewrite Htrace, !invoked_app, !Hnone by discriminate. lia.
Qed.

Lemma frame_inv_turn n limit t :
  frame_inv n t → frame_inv n (turn limit t).1.1.
Proof.
  intros Hinv. pose proof Hinv as (_ & _ & Hslots).
  assert (Hstep : ∀ evs t',
    tm_trace t' = tm_trace t ++ evs →
    evs = [] ∨ evs = [Invoked Update] ∨ evs = [Invoked Update; Raised Update] →
    (tm_remesh t' = Noop → tm_render t' = Noop) →
    frame_inv n t').
  { intros evs t' Htrace Hevs Hslots'.
    apply (frame_inv_updates n t evs); [exact Hinv|exact Htrace| |exact Hslots'].
    destruct Hevs as [-> | [-> | ->]].
    - constructor.
    - constructor; [left; reflexivity|constructor].
    - constructor; [left; reflexivity|].
      constructor; [right; reflexivity|constructor]. }
  destruct t as [remesh render update lastRender lastUpdate reads app console tr].
  cbn [tm_trace tm_remesh tm_render] in *.
  unfold update_turn, Timing_call, Timing_perf, Timing_now, Timing_onError,
    Timing_with_app, Timing_with_lastUpdate.
  cbn [snd tm_remesh tm_render tm_update tm_app tm_lastRender tm_lastUpdate
       tm_reads tm_console tm_trace].
  destruct update as [f|].
  - destruct (f tick app) as [a|a e];
      cbn [snd tm_remesh tm_render tm_update tm_app tm_lastRender
           tm_lastUpdate tm_reads tm_console tm_trace];
      destruct (t_lt limit _); cbn [fst].
    + apply (Hstep [Invoked Update]); [reflexivity|tauto|exact Hslots].
    + apply (Hstep [Invoked Update]); [reflexivity|tauto|exact Hslots].
    + apply (Hstep [Invoked Update; Raised Update]);
        [reflexivity|tauto|reflexivity].
    + apply (Hstep [Invoked Update; Raised Update]);
        [reflexivity|tauto|reflexivity].
  - destruct (t_lt limit _); cbn [fst].
    + apply (Hstep []); [cbn [tm_trace]; rewrite app_nil_r; reflexivity
                        |tauto|exact Hslots].
    + apply (Hstep []); [cbn [tm_trace]; rewrite app_nil_r; reflexivity
                        |tauto|exact Hslots].
Qed.

Lemma frame_inv_loop n fuel limit now t :
  frame_inv n t → frame_inv n (loop fuel limit now t).
Proof.
  revert now t. induction fuel as [|fuel IH]; intros now t Hinv; [exact Hinv|].
  cbn [update_loop]. destruct (t_lt _ now); [|exact Hinv].
  pose proof (frame_inv_turn n limit t Hinv) as Hturn.
  destruct (turn limit t) as [[t1 n1] stop]. cbn [fst] in Hturn.
  destruct stop; [exact Hturn|]. apply IH, Hturn.
Qed.

Lemma frame_inv_updateHandler n fuel t :
  frame_inv n t → frame_inv n (updateHandler fuel t).
Proof.
  intros Hinv. unfold Timing_updateHandler, Timing_now.
  apply frame_inv_loop.
  apply (frame_inv_updates n t []); [exact Hinv| |constructor|apply Hinv].
  cbn [tm_trace]. rewrite app_nil_r. reflexivity.
Qed.

(** A frame enters [remesh] at most once and [render] right after it. *)
Lemma frame_inv_renderHandler n fuel t :
  frame_inv n t → frame_inv (S n) (renderHandler fuel t).
Proof.
  intros Hinv. unfold Timing_renderHandler.
  pose proof (frame_inv_updateHandler n fuel t Hinv)
    as (Hfollows & Hcount & Hslots).
  destruct (updateHandler fuel t)
    as [remesh render update lastRender lastUpdate reads app console tr].
  cbn [tm_trace tm_remesh tm_render] in *.
  unfold Timing_call, Timing_perf, Timing_now, Timing_onError,
    Timing_with_app, Timing_with_lastRender.
  cbn [snd tm_remesh tm_render tm_update tm_app tm_lastRender tm_lastUpdate
       tm_reads tm_console tm_trace].
  set (dt := seconds_between _ _).
  assert (Hsnoc : ∀ evs, Invoked Render ∉ evs →
            render_follows_remesh (tr ++ evs))
    by (intros evs Hevs; apply render_follows_remesh_app; assumption).
  destruct remesh as [f|].
  - destruct (f dt app) as [a|a e];
      cbn [tm_remesh tm_render tm_update tm_app tm_lastRender tm_lastUpdate
           tm_reads tm_console tm_trace].
    + destruct render as [g|].
      * destruct (g dt a) as [a'|a' e'];
          cbn [tm_remesh tm_render tm_update tm_app tm_lastRender
               tm_lastUpdate tm_reads tm_console tm_trace];
          (split; [|split; [|intros; reflexivity || discriminate]]);
          cbn [tm_trace].
        -- apply render_follows_remesh_snoc, Hfollows.
        -- count_events.
        -- replace ((tr ++ [Invoked Remesh]) ++ [Invoked Render; Raised Render])
             with (((tr ++ [Invoked Remesh]) ++ [Invoked Render])
                   ++ [Raised Render])
             by (rewrite <- !app_assoc; reflexivity).
           apply render_follows_remesh_app;
             [apply render_follows_remesh_snoc, Hfollows|].
           intros Hin. apply list_elem_of_singleton in Hin. discriminate Hin.
        -- count_events.
      * split; [|split; [|intros; reflexivity]]; cbn [tm_trace].
        -- apply Hsnoc. intros Hin. apply list_elem_of_singleton in Hin.
           discriminate Hin.
        -- count_events.
    + split; [|split; [|intros; reflexivity]]; cbn [tm_trace].
      * apply Hsnoc. intros Hin. apply elem_of_cons in Hin as [Hin|Hin];
          [discriminate Hin|].
        apply list_elem_of_singleton in Hin. discriminate Hin.
      * count_events.
  - rewrite (Hslots eq_refl).
    cbn [tm_remesh tm_render tm_update tm_app tm_lastRender tm_lastUpdate
         tm_reads tm_console tm_trace].
    split; [exact Hfollows|]. split; [cbn [tm_trace]; lia|intros; reflexivity].
Qed.

Lemma frame_inv_run pumps : ∀ n t,
  frame_inv n t → frame_inv (n + frames pumps) (foldl pump t pumps).
Proof.
  induction pumps as [|p pumps IH]; intros n t Hinv.
  - cbn [foldl frames]. rewrite Nat.add_0_r. exact Hinv.
  - cbn [foldl]. destruct p as [fuel|fuel]; cbn [Timing_pump frames].
    + replace (n + S (frames pumps))%nat with (S n + frames pumps)%nat by lia.
      apply IH, frame_inv_renderHandler, Hinv.
    + apply IH, frame_inv_updateHandler, Hinv.
Qed.

(** X19.  The frames of the timing harness.  In the trace of any run of
    the two pumps, whatever the clock and the callbacks do: every entry
    into [render] comes right after an entry into [remesh] that returned,
    [render] is entered at most as often as [remesh], and [remesh] at most
    once for each animation frame; and a pump of the interval timer that
    comes next adds to the trace entries into [update] only, none into
    [remesh] or [render]. *)
Theorem Timing_render_follows_remesh
    (remesh render update : Callback App Error Time) (app : App)
    (pumps : list Pump) :
  let t := Timing_run clock t_add t_lt seconds_between
             updateDelay updateLimit tick pumps
             (Timing_new clock remesh render update app) in
  (∀ i, tm_trace t !! i = Some (Invoked Render) →
     ∃ j, i = S j ∧ tm_trace t !! j = Some (Invoked Remesh))
  ∧ (invoked Render (tm_trace t) ≤ invoked Remesh (tm_trace t))%nat
  ∧ (invoked Remesh (tm_trace t) ≤ frames pumps)%nat
  ∧ ∀ fuel, ∃ evs,
      tm_trace (Timing_pump clock t_add t_lt seconds_between
                  updateDelay updateLimit tick t (Interval fuel))
      = tm_trace t ++ evs
      ∧ Forall (λ ev, ev = Invoked Update ∨ ev = Raised Update) evs.
Proof.
  intros t.
  assert (Hnew : frame_inv 0 (Timing_new clock remesh render update app)).
  { split; [|split].
    - intros i Hi. discriminate Hi.
    - cbn. lia.
    - intros Hnoop. discriminate Hnoop. }
  pose proof (frame_inv_run pumps 0 _ Hnew) as (Hfollows & Hcount & _).
  fold (Timing_run clock t_add t_lt seconds_between updateDelay updateLimit
          tick pumps (Timing_new clock remesh render update app)) in *.
  fold t in Hfollows, Hcount.
  split; [exact Hfollows|]. cbn [Nat.add] in Hcount.
  split; [lia|]. split; [lia|].
  intros fuel. exact (Timing_updateHandler_updates fuel t).
Qed.

End timing_frames.

(* ===================================================================== *)
(** * The mask of a multi-mesh *)
(* ===================================================================== *)

(** ** Bits of 32-bit integers *)

Lemma int32_testbit z n : 0 ≤ n < 32 → Z.testbit (int32 z) n = Z.testbit z n.
Proof.
  intros Hn.
  rewrite <- (Z.mod_pow2_bits_low (int32 z) 32 n) by lia.
  rewrite <- (Z.mod_pow2_bits_low z 32 n) by lia.
  by rewrite int32_mod.
Qed.

Lemma testbit_small a n : 0 ≤ a < 2 ^ n → ∀ m, n ≤ m → Z.testbit a m = false.
Proof.
  intros Ha m Hm.
  destruct (decide (0 ≤ n)) as [Hn|Hn].
  - rewrite <- (Z.mod_small a (2 ^ n)) by lia.
    apply Z.mod_pow2_bits_high. lia.
  - rewrite Z.pow_neg_r in Ha by lia. lia.
Qed.

(** Above bit 31 a 32-bit integer repeats its sign. *)
Lemma int32_testbit_high z n :
  31 ≤ n → Z.testbit (int32 z) n = Z.testbit (int32 z) 31.
Proof.
  intros Hn. pose proof (int32_range z) as Hr.
  destruct (decide (0 ≤ int32 z)) as [Hpos|Hneg].
  - rewrite !(testbit_small (int32 z) 31) by lia. done.
  - rewrite <- (Z.lnot_involutive (int32 z)).
    rewrite !(Z.lnot_spec (Z.lnot (int32 z))) by lia.
    assert (0 ≤ Z.lnot (int32 z) < 2 ^ 31) by (unfold Z.lnot; lia).
    rewrite !(testbit_small (Z.lnot (int32 z)) 31) by lia. done.
Qed.

Lemma land_bit x s :
  0 ≤ s < 32 →
  Z.land (int32 x) (int32 (2 ^ s)) ≠ 0 ↔ Z.testbit (int32 x) s = true.
Proof.
  intros Hs. split.
  - intros Hne. destruct (Z.testbit (int32 x) s) eqn:Hbit; [done|].
    exfalso. apply Hne. apply Z.bits_inj'. intros n Hn.
    rewrite Z.land_spec, Z.bits_0.
    destruct (decide (n < 32)) as [Hlow|Hhigh].
    + rewrite (int32_testbit (2 ^ s)) by lia.
      destruct (decide (n = s)) as [->|Hns].
      * by rewrite Hbit.
      * rewrite Z.pow2_bits_false by lia. apply andb_false_r.
    + rewrite !(int32_testbit_high _ n) by lia.
      rewrite (int32_testbit (2 ^ s)) by lia.
      destruct (decide (s = 31)) as [->|Hs31].
      * by rewrite Hbit.
      * rewrite Z.pow2_bits_false by lia. apply andb_false_r.
  - intros Hbit Hzero.
    apply (f_equal (λ v, Z.testbit v s)) in Hzero.
    rewrite Z.land_spec, Z.bits_0, Hbit, int32_testbit in Hzero by lia.
    rewrite Z.pow2_bits_true in Hzero by lia. done.
Qed.

(** The shader reads bit [a mod 32] of word [a / 32]. *)
Lemma shader_hide_bit u a :
  0 ≤ a < 64 →
  shader_hide u a = Z.testbit (int32 (ta_get 0 u (a `div` 32))) (a mod 32).
Proof.
  intros Ha. unfold shader_hide.
  assert (js_sar a 5 = a `div` 32) as ->.
  { unfold js_sar. change (5 mod 32) with 5. rewrite int32_small by lia.
    apply Z.shiftr_div_pow2. lia. }
  assert (js_and a 31 = a mod 32) as ->.
  { apply (js_and_ones a 5). lia. }
  pose proof (Z.mod_pos_bound a 32 ltac:(lia)) as Hm.
  set (s := a mod 32) in *.
  assert (js_shl 1 s = int32 (2 ^ s)) as ->.
  { unfold js_shl. rewrite (int32_small 1) by lia.
    rewrite (Z.mod_small s) by lia. by rewrite Z.shiftl_1_l. }
  unfold js_and. rewrite int32_idemp.
  pose proof (land_bit (ta_get 0 u (a `div` 32)) s Hm) as Hiff.
  destruct (Z.testbit (int32 (ta_get 0 u (a `div` 32))) s).
  - apply bool_decide_eq_true. by apply Hiff.
  - apply bool_decide_eq_false. intros Hne. apply Hiff in Hne. done.
Qed.

(** ** [setMask] writes one nibble *)

Lemma kLODSingleMask_eq : kLODSingleMask = 15.
Proof. reflexivity. Qed.

Lemma testbit_shl x s b :
  0 ≤ s < 32 → 0 ≤ b < 32 →
  Z.testbit (js_shl x s) b = Z.testbit x (b - s).
Proof.
  intros Hs Hb. unfold js_shl. rewrite (Z.mod_small s) by lia.
  rewrite int32_testbit by lia. rewrite Z.shiftl_spec by lia.
  destruct (decide (0 ≤ b - s)) as [Hge|Hlt].
  - apply int32_testbit. lia.
  - rewrite !Z.testbit_neg_r by lia. done.
Qed.

Lemma LODMultiMesh_setMask_bit m index mask w b :
  length (lod_mask m) = 2%nat → 0 ≤ index < 16 → 0 ≤ w < 2 → 0 ≤ b < 32 →
  Z.testbit (int32 (ta_get 0 (lod_mask (LODMultiMesh_setMask m index mask)) w)) b
  = if decide (w = index `div` 8) then
      Z.testbit (int32 (ta_get 0 (lod_mask m) w)) b
        && negb (Z.testbit 15 (b - 4 * (index mod 8)))
      || Z.testbit mask (b - 4 * (index mod 8))
    else Z.testbit (int32 (ta_get 0 (lod_mask m) w)) b.
Proof.
  intros Hlen Hindex Hw Hb. unfold LODMultiMesh_setMask.
  cbn [lod_mask].
  assert (js_sar index 3 = index `div` 8) as ->.
  { unfold js_sar. change (3 mod 32) with 3. rewrite int32_small by lia.
    apply Z.shiftr_div_pow2. lia. }
  assert (js_and index 7 = index mod 8) as ->.
  { apply (js_and_ones index 3). lia. }
  pose proof (Z.mod_pos_bound index 8 ltac:(lia)) as Hm.
  assert (0 ≤ index `div` 8 < 2) as Hd.
  { split; [apply Z.div_pos; lia|apply Z.div_lt_upper_bound; lia]. }
  set (s := 4 * (index mod 8)).
  replace (index mod 8 * 4) with s by (unfold s; lia).
  assert (0 ≤ s < 32) as Hs by (unfold s; lia).
  rewrite !ta_get_set, !length_ta_set, Hlen.
  rewrite (decide_True (P := index `div` 8 = index `div` 8 ∧ _)) by lia.
  destruct (decide (w = index `div` 8)) as [->|Hne].
  - rewrite decide_True by lia.
    rewrite int32_idemp.
    unfold js_or at 1. rewrite int32_testbit by lia.
    rewrite Z.lor_spec. rewrite !int32_idemp.
    unfold js_and at 1. rewrite !int32_testbit by lia.
    rewrite Z.land_spec. unfold js_not. rewrite !int32_testbit by lia.
    rewrite Z.lnot_spec by lia. rewrite ?int32_testbit by lia.
    rewrite !testbit_shl by lia. rewrite kLODSingleMask_eq. done.
  - rewrite !decide_False by tauto. done.
Qed.

(** ** The quadrants of the sixteen tiles *)

Lemma quadrant_bit i k :
  0 ≤ i < 16 → 0 ≤ k < 4 →
  0 ≤ k + 4 * i < 64
  ∧ (k + 4 * i) `div` 32 = i `div` 8
  ∧ (k + 4 * i) mod 32 = k + 4 * (i mod 8).
Proof.
  intros Hi Hk.
  pose proof (Z.div_mod i 8 ltac:(lia)) as Hdm.
  pose proof (Z.mod_pos_bound i 8 ltac:(lia)) as Hm.
  split; [lia|].
  assert (k + 4 * i = 32 * (i `div` 8) + (k + 4 * (i mod 8))) as Heq by lia.
  split.
  - symmetry. apply (Z.div_unique _ _ _ (k + 4 * (i mod 8))); [lia|exact Heq].
  - symmetry. apply (Z.mod_unique _ _ (i `div` 8)); [lia|exact Heq].
Qed.

Lemma testbit_15 k : 0 ≤ k < 4 → Z.testbit 15 k = true.
Proof.
  intros Hk.
  assert (k = 0 ∨ k = 1 ∨ k = 2 ∨ k = 3) as [-> | [-> | [-> | ->]]] by lia;
    reflexivity.
Qed.

Lemma LODMultiMesh_setMask_hide m index mask i k :
  length (lod_mask m) = 2%nat → 0 ≤ index < 16 → 0 ≤ mask < 16 →
  0 ≤ i < 16 → 0 ≤ k < 4 →
  shader_hide (lod_mask (LODMultiMesh_setMask m index mask)) (k + 4 * i)
  = if decide (i = index) then Z.testbit mask k
    else shader_hide (lod_mask m) (k + 4 * i).
Proof.
  intros Hlen Hindex Hmask Hi Hk.
  destruct (quadrant_bit i k Hi Hk) as (Ha & Hdiv & Hmod).
  rewrite !shader_hide_bit by exact Ha. rewrite Hdiv, Hmod.
  pose proof (Z.mod_pos_bound i 8 ltac:(lia)) as Hm.
  pose proof (Z.mod_pos_bound index 8 ltac:(lia)) as Hm'.
  assert (0 ≤ i `div` 8 < 2) as Hd.
  { split; [apply Z.div_pos; lia|apply Z.div_lt_upper_bound; lia]. }
  rewrite LODMultiMesh_setMask_bit by (done || lia).
  destruct (decide (i = index)) as [->|Hne].
  - rewrite decide_True by done.
    replace (k + 4 * (index mod 8) - 4 * (index mod 8)) with k by lia.
    rewrite testbit_15 by done. cbn [negb]. rewrite andb_false_r. done.
  - destruct (decide (i `div` 8 = index `div` 8)) as [Hsame|Hother]; [|done].
    assert (i mod 8 ≠ index mod 8) as Hmne.
    { intros Heq. apply Hne.
      rewrite (Z.div_mod i 8), (Z.div_mod index 8) by lia. congruence. }
    set (d := k + 4 * (i mod 8) - 4 * (index mod 8)).
    assert (d < 0 ∨ 4 ≤ d) as [Hneg|Hhigh] by (unfold d; lia).
    + rewrite !(Z.testbit_neg_r _ d) by done. cbn [negb].
      by rewrite andb_true_r, orb_false_r.
    + rewrite (testbit_small 15 4) by (done || lia).
      rewrite (testbit_small mask 4) by (done || lia). cbn [negb].
      by rewrite andb_true_r, orb_false_r.
Qed.

(** X20.  [show(index, mask)] on a multi-mesh whose tile [index] is meshed
    sets, for the vertex shader of the renderer, the four quadrants of that
    tile and nothing else: a quad of quadrant [k] of tile [i] -- it carries
    the attribute [k + 4 * i] that [createLODMeshes] hands to the mesher --
    is hidden afterwards iff bit [k] of [mask] is set when [i = index], and
    iff it was hidden before otherwise. *)
Theorem LODMultiMesh_show_hides (m m' : LODMultiMesh) (index mask : Z) :
  length (lod_mask m) = 2%nat → 0 ≤ index < 16 → 0 ≤ mask < 16 →
  LODMultiMesh_show m index mask = Some m' →
  ∀ i k, 0 ≤ i < 16 → 0 ≤ k < 4 →
    shader_hide (lod_mask m') (k + 4 * i)
    = if decide (i = index) then Z.testbit mask k
      else shader_hide (lod_mask m) (k + 4 * i).
Proof.
  intros Hlen Hindex Hmask Hshow. unfold LODMultiMesh_show in Hshow.
  apply bind_Some in Hshow as (_ & _ & Hshow). injection Hshow as <-.
  cbn [lod_mask]. intros i k Hi Hk. by apply LODMultiMesh_setMask_hide.
Qed.

Lemma shader_hide_reset (mask : list Z) a :
  length mask = 2%nat → 0 ≤ a < 64 →
  shader_hide (ta_set (ta_set mask 1 (-1)) 0 (-1)) a = true.
Proof.
  intros Hlen Ha. rewrite shader_hide_bit by done.
  assert (0 ≤ a `div` 32 < 2) as Hd.
  { split; [apply Z.div_pos; lia|apply Z.div_lt_upper_bound; lia]. }
  pose proof (Z.mod_pos_bound a 32 ltac:(lia)) as Hm.
  rewrite !ta_get_set, !length_ta_set, Hlen.
  assert (int32 (-1) = -1) as Hm1 by (apply int32_small; lia).
  destruct (decide (a `div` 32 = 0 ∧ _)) as [_|Hn0].
  - rewrite Hm1. apply Z.bits_m1. lia.
  - rewrite decide_True by lia. rewrite Hm1. apply Z.bits_m1. lia.
Qed.

(** X21.  [disable(index)] on an enabled tile hides its four quadrants for
    the vertex shader.  The quadrants of the other tiles are hidden as
    before while some tile of the multi-mesh is still enabled; when none
    is, the mask is reset and every quadrant of the multi-mesh is hidden. *)
Theorem LODMultiMesh_disable_hides (m : LODMultiMesh) (index : Z) :
  length (lod_mask m) = 2%nat → 0 ≤ index < 16 →
  ta_get false (lod_enabled m) index = true →
  ∀ i k, 0 ≤ i < 16 → 0 ≤ k < 4 →
    shader_hide (lod_mask (LODMultiMesh_disable m index)) (k + 4 * i)
    = if decide (i = index) then true
      else if existsb (λ x, x) (lod_enabled (LODMultiMesh_disable m index))
           then shader_hide (lod_mask m) (k + 4 * i)
           else true.
Proof.
  intros Hlen Hindex Henabled i k Hi Hk. unfold LODMultiMesh_disable.
  rewrite Henabled. cbn [lod_enabled LODMultiMesh_setMask].
  destruct (existsb (λ x, x) (ta_set (lod_enabled m) index false)) eqn:Hsome.
  - cbn [lod_mask lod_enabled]. rewrite Hsome.
    change (shader_hide
              (lod_mask (LODMultiMesh_setMask m index kLODSingleMask))
              (k + 4 * i)
            = if decide (i = index) then true
              else shader_hide (lod_mask m) (k + 4 * i)).
    rewrite LODMultiMesh_setMask_hide by (done || rewrite kLODSingleMask_eq; lia).
    destruct (decide (i = index)); [|done].
    rewrite kLODSingleMask_eq. by apply testbit_15.
  - cbn [lod_mask lod_enabled]. rewrite Hsome.
    rewrite shader_hide_reset.
    + by destruct (decide (i = index)).
    + unfold LODMultiMesh_setMask. cbn [lod_mask].
      rewrite ?length_ta_set. exact Hlen.
    + lia.
Qed.

Lemma LODMultiMesh_show_hides_witness :
  LODMultiMesh_show example_multimesh 5 6 = Some example_shown
  ∧ ∀ i k, 0 ≤ i < 16 → 0 ≤ k < 4 →
      shader_hide (lod_mask example_shown) (k + 4 * i)
      = if decide (i = 5) then Z.testbit 6 k
        else shader_hide (lod_mask example_multimesh) (k + 4 * i).
Proof.
  split; [reflexivity|].
  apply (LODMultiMesh_show_hides example_multimesh example_shown 5 6);
    [reflexivity|lia|lia|reflexivity].
Defined.

Lemma LODMultiMesh_disable_hides_witness :
  ta_get false (lod_enabled example_shown) 5 = true
  ∧ ∀ i k, 0 ≤ i < 16 → 0 ≤ k < 4 →
      shader_hide (lod_mask (LODMultiMesh_disable example_shown 5)) (k + 4 * i)
      = if decide (i = 5) then true
        else if existsb (λ x, x)
                  (lod_enabled (LODMultiMesh_disable example_shown 5))
             then shader_hide (lod_mask example_shown) (k + 4 * i)
             else true.
Proof.
  split; [reflexivity|].
  apply (LODMultiMesh_disable_hides example_shown 5); [reflexivity|lia|reflexivity].
Defined.
